(** * SVRTK: slice-to-volume reconstruction core ([src/Reconstruction.cc])

    A shallow embedding of the parts of [svrtk::Reconstruction] that the
    specification talks about, and the properties of the specification
    stated and settled against it.

    Conventions of the embedding.
    - [double] and [RealPixel] values are rationals ([Q]); arithmetic is exact,
      and results of arithmetic are compared with [==].
    - [int] and [size_t] values are [Z] or [nat]; [Array<T>] is [list T],
      indexed with stdpp's lookup [!!] and updated with [<[i:=v]>].
    - A member function becomes a function from the object state (a record of
      the members it touches) to an [outcome]: a normal return, a call of
      [exit], or an access the C++ standard leaves undefined (an index out of
      range, a read of a value never written). A quotient by 0 is no
      rational; where [BiasCorrectVolume] stores one, the model ends the run
      in the same way.
    - Code of MIRTK, of libm and of [svrtk/Parallel.h] is not part of the file
      being verified; what it computes enters as a parameter. For
      [Superresolution] the passes of [svrtk/Parallel.h] are modelled from
      sections 4.5 and 4.6 of the specification as well. *)

From Stdlib Require Import ZArith QArith Qminmax Lia Lqa Bool.
From stdpp Require Import base option list.

(** ** Outcomes of a member function *)

Inductive outcome (A : Type) : Type :=
| Done (a : A)
| Exited (code : Z)
| Undefined.

Arguments Done {A} a.
Arguments Exited {A} code.
Arguments Undefined {A}.

Definition obind {A B : Type} (m : outcome A) (k : A -> outcome B) : outcome B :=
  match m with
  | Done a => k a
  | Exited c => Exited c
  | Undefined => Undefined
  end.

#[export] Instance outcome_bind : MBind outcome := fun A B k m => obind m k.
#[export] Instance outcome_ret : MRet outcome := @Done.

(** An array read [a[i]]; out of range is undefined behaviour. *)
Definition rd {A : Type} (a : list A) (i : nat) : outcome A :=
  match a !! i with
  | Some v => Done v
  | None => Undefined
  end.

(** An array write [a[i] = v]; out of range is undefined behaviour. *)
Definition wr {A : Type} (a : list A) (i : nat) (v : A) : outcome (list A) :=
  if decide (i < length a)%nat then Done (<[i:=v]> a) else Undefined.

(** Reads and writes through an [int] index. *)
Definition rdZ {A : Type} (a : list A) (i : Z) : outcome A :=
  if decide (0 <= i)%Z then rd a (Z.to_nat i) else Undefined.

Definition wrZ {A : Type} (a : list A) (i : Z) (v : A) : outcome (list A) :=
  if decide (0 <= i)%Z then wr a (Z.to_nat i) v else Undefined.

(** A loop that threads a state through the elements of a list. *)
Fixpoint foldM {S A : Type} (f : S -> A -> outcome S) (l : list A) (s : S)
    : outcome S :=
  match l with
  | [] => Done s
  | a :: l' => s' ← f s a; foldM f l' s'
  end.

(** ** Real numbers *)

(** [x < y] on [double]s. *)
Definition Qltb (x y : Q) : bool := negb (Qle_bool y x).

(** ** Images *)

(** [RealImage]: the attributes the code reads ([GetX], [GetY], [GetZ], the
    voxel size [GetXSize]) and the voxel array [Data], x running fastest. *)
Record RealImage : Type := {
  GetX : nat;
  GetY : nat;
  GetZ : nat;
  GetXSize : Q;
  Data : list Q
}.

Definition NumberOfVoxels (img : RealImage) : nat :=
  (GetX img * GetY img * GetZ img)%nat.

(** [ImageAttributes], as far as modelled. *)
Record ImageAttributes : Type := {
  _x : nat;
  _y : nat;
  _z : nat;
  _dx : Q
}.

Definition Attributes (img : RealImage) : ImageAttributes :=
  {| _x := GetX img; _y := GetY img; _z := GetZ img; _dx := GetXSize img |}.

(** [img.Initialize(attr)]: an image of the given attributes, all voxels 0
    (MIRTK). [CoeffInit] and [SimulateStacks] accumulate with [+=] into images
    they have just initialised. *)
Definition Initialize (attr : ImageAttributes) : RealImage :=
  {| GetX := _x attr; GetY := _y attr; GetZ := _z attr; GetXSize := _dx attr;
     Data := replicate (_x attr * _y attr * _z attr) 0%Q |}.

(** The default-constructed, empty image. *)
Definition empty_image : RealImage :=
  {| GetX := 0; GetY := 0; GetZ := 0; GetXSize := 1; Data := [] |}.

Definition with_Data (img : RealImage) (d : list Q) : RealImage :=
  {| GetX := GetX img; GetY := GetY img; GetZ := GetZ img;
     GetXSize := GetXSize img; Data := d |}.

Definition in_image (img : RealImage) (x y z : nat) : Prop :=
  (x < GetX img /\ y < GetY img /\ z < GetZ img)%nat.

#[export] Instance in_image_dec img x y z : Decision (in_image img x y z).
Proof. unfold in_image. apply _. Defined.

Definition voxel_index (img : RealImage) (x y z : nat) : nat :=
  (x + GetX img * (y + GetY img * z))%nat.

(** [img(x, y, z)] read; coordinates outside the image are undefined
    behaviour. *)
Definition Get (img : RealImage) (x y z : nat) : outcome Q :=
  if decide (in_image img x y z) then rd (Data img) (voxel_index img x y z)
  else Undefined.

(** [img(x, y, z) = v]. *)
Definition Put (img : RealImage) (x y z : nat) (v : Q) : outcome RealImage :=
  if decide (in_image img x y z) then
    d ← wr (Data img) (voxel_index img x y z) v; Done (with_Data img d)
  else Undefined.

(** The pixel positions [(i, j)] of the loops
    [for (i < GetX) for (j < GetY)]. *)
Definition pixels (img : RealImage) : list (nat * nat) :=
  i ← seq 0 (GetX img); j ← seq 0 (GetY img); [(i, j)].

(** [struct POINT3D { short x, y, z; double value; }]. *)
Record POINT3D : Type := {
  px : Z;
  py : Z;
  pz : Z;
  value : Q
}.

(** [VOXELCOEFFS], [SLICECOEFFS]: the coefficient lists of a slice,
    [_volcoeffs[inputIndex][i][j]]. *)
Abbreviation VOXELCOEFFS := (list POINT3D) (only parsing).
Abbreviation SLICECOEFFS := (list (list (list POINT3D))) (only parsing).

(** [img(p.x, p.y, p.z)] for the [short] coordinates of a coefficient. *)
Definition GetP (img : RealImage) (p : POINT3D) : outcome Q :=
  if decide (0 <= px p /\ 0 <= py p /\ 0 <= pz p)%Z then
    Get img (Z.to_nat (px p)) (Z.to_nat (py p)) (Z.to_nat (pz p))
  else Undefined.

Definition PutP (img : RealImage) (p : POINT3D) (v : Q) : outcome RealImage :=
  if decide (0 <= px p /\ 0 <= py p /\ 0 <= pz p)%Z then
    Put img (Z.to_nat (px p)) (Z.to_nat (py p)) (Z.to_nat (pz p)) v
  else Undefined.

(** ** The reconstruction object *)

Record Reconstruction : Type := {
  _slices : list RealImage;
  _simulated_slices : list RealImage;
  _simulated_weights : list RealImage;
  _simulated_inside : list RealImage;
  _weights : list RealImage;
  _bias : list RealImage;
  _slice_dif : list RealImage;
  _scale : list Q;
  _slice_weight : list Q;
  _reg_slice_weight : list Z;
  _slice_inside : list bool;
  _volcoeffs : list SLICECOEFFS;
  _force_excluded : list Z;
  _small_slices : list Z;
  _reconstructed : RealImage;
  _mask : RealImage;
  _volume_weights : RealImage;
  _confidence_map : RealImage;
  _average_volume_weight : Q;
  _sigma : Q;
  _sigma_s : Q;
  _sigma_s2 : Q;
  _mix : Q;
  _mix_s : Q;
  _m : Q;
  _mean_s : Q;
  _mean_s2 : Q;
  _step : Q;
  _min_intensity : Q;
  _max_intensity : Q;
  _alpha : Q;
  _lambda : Q;
  _delta : Q;
  _low_intensity_cutoff : Q;
  _sigma_bias : Q;
  _global_NCC_threshold : Q;
  _adaptive : bool;
  _global_bias_correction : bool;
  _z_slice_order : list Z;
  _t_slice_order : list Z
}.

(** Assignments to single members. *)

Definition set_weights (v : list RealImage) (st : Reconstruction) : Reconstruction :=
  {| _slices := _slices st; _simulated_slices := _simulated_slices st;
     _simulated_weights := _simulated_weights st;
     _simulated_inside := _simulated_inside st; _weights := v; _bias := _bias st;
     _slice_dif := _slice_dif st; _scale := _scale st;
     _slice_weight := _slice_weight st; _reg_slice_weight := _reg_slice_weight st;
     _slice_inside := _slice_inside st; _volcoeffs := _volcoeffs st;
     _force_excluded := _force_excluded st; _small_slices := _small_slices st;
     _reconstructed := _reconstructed st; _mask := _mask st;
     _volume_weights := _volume_weights st; _confidence_map := _confidence_map st;
     _average_volume_weight := _average_volume_weight st; _sigma := _sigma st;
     _sigma_s := _sigma_s st; _sigma_s2 := _sigma_s2 st; _mix := _mix st;
     _mix_s := _mix_s st; _m := _m st; _mean_s := _mean_s st; _mean_s2 := _mean_s2 st;
     _step := _step st; _min_intensity := _min_intensity st;
     _max_intensity := _max_intensity st; _alpha := _alpha st; _lambda := _lambda st;
     _delta := _delta st; _low_intensity_cutoff := _low_intensity_cutoff st;
     _sigma_bias := _sigma_bias st; _global_NCC_threshold := _global_NCC_threshold st;
     _adaptive := _adaptive st; _global_bias_correction := _global_bias_correction st;
     _z_slice_order := _z_slice_order st; _t_slice_order := _t_slice_order st |}.

Definition set_bias (v : list RealImage) (st : Reconstruction) : Reconstruction :=
  {| _slices := _slices st; _simulated_slices := _simulated_slices st;
     _simulated_weights := _simulated_weights st;
     _simulated_inside := _simulated_inside st; _weights := _weights st; _bias := v;
     _slice_dif := _slice_dif st; _scale := _scale st;
     _slice_weight := _slice_weight st; _reg_slice_weight := _reg_slice_weight st;
     _slice_inside := _slice_inside st; _volcoeffs := _volcoeffs st;
     _force_excluded := _force_excluded st; _small_slices := _small_slices st;
     _reconstructed := _reconstructed st; _mask := _mask st;
     _volume_weights := _volume_weights st; _confidence_map := _confidence_map st;
     _average_volume_weight := _average_volume_weight st; _sigma := _sigma st;
     _sigma_s := _sigma_s st; _sigma_s2 := _sigma_s2 st; _mix := _mix st;
     _mix_s := _mix_s st; _m := _m st; _mean_s := _mean_s st; _mean_s2 := _mean_s2 st;
     _step := _step st; _min_intensity := _min_intensity st;
     _max_intensity := _max_intensity st; _alpha := _alpha st; _lambda := _lambda st;
     _delta := _delta st; _low_intensity_cutoff := _low_intensity_cutoff st;
     _sigma_bias := _sigma_bias st; _global_NCC_threshold := _global_NCC_threshold st;
     _adaptive := _adaptive st; _global_bias_correction := _global_bias_correction st;
     _z_slice_order := _z_slice_order st; _t_slice_order := _t_slice_order st |}.


Definition set_scale (v : list Q) (st : Reconstruction) : Reconstruction :=
  {| _slices := _slices st; _simulated_slices := _simulated_slices st;
     _simulated_weights := _simulated_weights st;
     _simulated_inside := _simulated_inside st; _weights := _weights st;
     _bias := _bias st; _slice_dif := _slice_dif st; _scale := v;
     _slice_weight := _slice_weight st; _reg_slice_weight := _reg_slice_weight st;
     _slice_inside := _slice_inside st; _volcoeffs := _volcoeffs st;
     _force_excluded := _force_excluded st; _small_slices := _small_slices st;
     _reconstructed := _reconstructed st; _mask := _mask st;
     _volume_weights := _volume_weights st; _confidence_map := _confidence_map st;
     _average_volume_weight := _average_volume_weight st; _sigma := _sigma st;
     _sigma_s := _sigma_s st; _sigma_s2 := _sigma_s2 st; _mix := _mix st;
     _mix_s := _mix_s st; _m := _m st; _mean_s := _mean_s st; _mean_s2 := _mean_s2 st;
     _step := _step st; _min_intensity := _min_intensity st;
     _max_intensity := _max_intensity st; _alpha := _alpha st; _lambda := _lambda st;
     _delta := _delta st; _low_intensity_cutoff := _low_intensity_cutoff st;
     _sigma_bias := _sigma_bias st; _global_NCC_threshold := _global_NCC_threshold st;
     _adaptive := _adaptive st; _global_bias_correction := _global_bias_correction st;
     _z_slice_order := _z_slice_order st; _t_slice_order := _t_slice_order st |}.

Definition set_slice_weight (v : list Q) (st : Reconstruction) : Reconstruction :=
  {| _slices := _slices st; _simulated_slices := _simulated_slices st;
     _simulated_weights := _simulated_weights st;
     _simulated_inside := _simulated_inside st; _weights := _weights st;
     _bias := _bias st; _slice_dif := _slice_dif st; _scale := _scale st;
     _slice_weight := v; _reg_slice_weight := _reg_slice_weight st;
     _slice_inside := _slice_inside st; _volcoeffs := _volcoeffs st;
     _force_excluded := _force_excluded st; _small_slices := _small_slices st;
     _reconstructed := _reconstructed st; _mask := _mask st;
     _volume_weights := _volume_weights st; _confidence_map := _confidence_map st;
     _average_volume_weight := _average_volume_weight st; _sigma := _sigma st;
     _sigma_s := _sigma_s st; _sigma_s2 := _sigma_s2 st; _mix := _mix st;
     _mix_s := _mix_s st; _m := _m st; _mean_s := _mean_s st; _mean_s2 := _mean_s2 st;
     _step := _step st; _min_intensity := _min_intensity st;
     _max_intensity := _max_intensity st; _alpha := _alpha st; _lambda := _lambda st;
     _delta := _delta st; _low_intensity_cutoff := _low_intensity_cutoff st;
     _sigma_bias := _sigma_bias st; _global_NCC_threshold := _global_NCC_threshold st;
     _adaptive := _adaptive st; _global_bias_correction := _global_bias_correction st;
     _z_slice_order := _z_slice_order st; _t_slice_order := _t_slice_order st |}.

Definition set_reg_slice_weight (v : list Z) (st : Reconstruction) : Reconstruction :=
  {| _slices := _slices st; _simulated_slices := _simulated_slices st;
     _simulated_weights := _simulated_weights st;
     _simulated_inside := _simulated_inside st; _weights := _weights st;
     _bias := _bias st; _slice_dif := _slice_dif st; _scale := _scale st;
     _slice_weight := _slice_weight st; _reg_slice_weight := v;
     _slice_inside := _slice_inside st; _volcoeffs := _volcoeffs st;
     _force_excluded := _force_excluded st; _small_slices := _small_slices st;
     _reconstructed := _reconstructed st; _mask := _mask st;
     _volume_weights := _volume_weights st; _confidence_map := _confidence_map st;
     _average_volume_weight := _average_volume_weight st; _sigma := _sigma st;
     _sigma_s := _sigma_s st; _sigma_s2 := _sigma_s2 st; _mix := _mix st;
     _mix_s := _mix_s st; _m := _m st; _mean_s := _mean_s st; _mean_s2 := _mean_s2 st;
     _step := _step st; _min_intensity := _min_intensity st;
     _max_intensity := _max_intensity st; _alpha := _alpha st; _lambda := _lambda st;
     _delta := _delta st; _low_intensity_cutoff := _low_intensity_cutoff st;
     _sigma_bias := _sigma_bias st; _global_NCC_threshold := _global_NCC_threshold st;
     _adaptive := _adaptive st; _global_bias_correction := _global_bias_correction st;
     _z_slice_order := _z_slice_order st; _t_slice_order := _t_slice_order st |}.

Definition set_slice_inside (v : list bool) (st : Reconstruction) : Reconstruction :=
  {| _slices := _slices st; _simulated_slices := _simulated_slices st;
     _simulated_weights := _simulated_weights st;
     _simulated_inside := _simulated_inside st; _weights := _weights st;
     _bias := _bias st; _slice_dif := _slice_dif st; _scale := _scale st;
     _slice_weight := _slice_weight st; _reg_slice_weight := _reg_slice_weight st;
     _slice_inside := v; _volcoeffs := _volcoeffs st;
     _force_excluded := _force_excluded st; _small_slices := _small_slices st;
     _reconstructed := _reconstructed st; _mask := _mask st;
     _volume_weights := _volume_weights st; _confidence_map := _confidence_map st;
     _average_volume_weight := _average_volume_weight st; _sigma := _sigma st;
     _sigma_s := _sigma_s st; _sigma_s2 := _sigma_s2 st; _mix := _mix st;
     _mix_s := _mix_s st; _m := _m st; _mean_s := _mean_s st; _mean_s2 := _mean_s2 st;
     _step := _step st; _min_intensity := _min_intensity st;
     _max_intensity := _max_intensity st; _alpha := _alpha st; _lambda := _lambda st;
     _delta := _delta st; _low_intensity_cutoff := _low_intensity_cutoff st;
     _sigma_bias := _sigma_bias st; _global_NCC_threshold := _global_NCC_threshold st;
     _adaptive := _adaptive st; _global_bias_correction := _global_bias_correction st;
     _z_slice_order := _z_slice_order st; _t_slice_order := _t_slice_order st |}.

Definition set_volcoeffs (v : list SLICECOEFFS) (st : Reconstruction) : Reconstruction :=
  {| _slices := _slices st; _simulated_slices := _simulated_slices st;
     _simulated_weights := _simulated_weights st;
     _simulated_inside := _simulated_inside st; _weights := _weights st;
     _bias := _bias st; _slice_dif := _slice_dif st; _scale := _scale st;
     _slice_weight := _slice_weight st; _reg_slice_weight := _reg_slice_weight st;
     _slice_inside := _slice_inside st; _volcoeffs := v;
     _force_excluded := _force_excluded st; _small_slices := _small_slices st;
     _reconstructed := _reconstructed st; _mask := _mask st;
     _volume_weights := _volume_weights st; _confidence_map := _confidence_map st;
     _average_volume_weight := _average_volume_weight st; _sigma := _sigma st;
     _sigma_s := _sigma_s st; _sigma_s2 := _sigma_s2 st; _mix := _mix st;
     _mix_s := _mix_s st; _m := _m st; _mean_s := _mean_s st; _mean_s2 := _mean_s2 st;
     _step := _step st; _min_intensity := _min_intensity st;
     _max_intensity := _max_intensity st; _alpha := _alpha st; _lambda := _lambda st;
     _delta := _delta st; _low_intensity_cutoff := _low_intensity_cutoff st;
     _sigma_bias := _sigma_bias st; _global_NCC_threshold := _global_NCC_threshold st;
     _adaptive := _adaptive st; _global_bias_correction := _global_bias_correction st;
     _z_slice_order := _z_slice_order st; _t_slice_order := _t_slice_order st |}.

Definition set_reconstructed (v : RealImage) (st : Reconstruction) : Reconstruction :=
  {| _slices := _slices st; _simulated_slices := _simulated_slices st;
     _simulated_weights := _simulated_weights st;
     _simulated_inside := _simulated_inside st; _weights := _weights st;
     _bias := _bias st; _slice_dif := _slice_dif st; _scale := _scale st;
     _slice_weight := _slice_weight st; _reg_slice_weight := _reg_slice_weight st;
     _slice_inside := _slice_inside st; _volcoeffs := _volcoeffs st;
     _force_excluded := _force_excluded st; _small_slices := _small_slices st;
     _reconstructed := v; _mask := _mask st; _volume_weights := _volume_weights st;
     _confidence_map := _confidence_map st;
     _average_volume_weight := _average_volume_weight st; _sigma := _sigma st;
     _sigma_s := _sigma_s st; _sigma_s2 := _sigma_s2 st; _mix := _mix st;
     _mix_s := _mix_s st; _m := _m st; _mean_s := _mean_s st; _mean_s2 := _mean_s2 st;
     _step := _step st; _min_intensity := _min_intensity st;
     _max_intensity := _max_intensity st; _alpha := _alpha st; _lambda := _lambda st;
     _delta := _delta st; _low_intensity_cutoff := _low_intensity_cutoff st;
     _sigma_bias := _sigma_bias st; _global_NCC_threshold := _global_NCC_threshold st;
     _adaptive := _adaptive st; _global_bias_correction := _global_bias_correction st;
     _z_slice_order := _z_slice_order st; _t_slice_order := _t_slice_order st |}.

Definition set_volume_weights (v : RealImage) (st : Reconstruction) : Reconstruction :=
  {| _slices := _slices st; _simulated_slices := _simulated_slices st;
     _simulated_weights := _simulated_weights st;
     _simulated_inside := _simulated_inside st; _weights := _weights st;
     _bias := _bias st; _slice_dif := _slice_dif st; _scale := _scale st;
     _slice_weight := _slice_weight st; _reg_slice_weight := _reg_slice_weight st;
     _slice_inside := _slice_inside st; _volcoeffs := _volcoeffs st;
     _force_excluded := _force_excluded st; _small_slices := _small_slices st;
     _reconstructed := _reconstructed st; _mask := _mask st; _volume_weights := v;
     _confidence_map := _confidence_map st;
     _average_volume_weight := _average_volume_weight st; _sigma := _sigma st;
     _sigma_s := _sigma_s st; _sigma_s2 := _sigma_s2 st; _mix := _mix st;
     _mix_s := _mix_s st; _m := _m st; _mean_s := _mean_s st; _mean_s2 := _mean_s2 st;
     _step := _step st; _min_intensity := _min_intensity st;
     _max_intensity := _max_intensity st; _alpha := _alpha st; _lambda := _lambda st;
     _delta := _delta st; _low_intensity_cutoff := _low_intensity_cutoff st;
     _sigma_bias := _sigma_bias st; _global_NCC_threshold := _global_NCC_threshold st;
     _adaptive := _adaptive st; _global_bias_correction := _global_bias_correction st;
     _z_slice_order := _z_slice_order st; _t_slice_order := _t_slice_order st |}.


Definition set_average_volume_weight (v : Q) (st : Reconstruction) : Reconstruction :=
  {| _slices := _slices st; _simulated_slices := _simulated_slices st;
     _simulated_weights := _simulated_weights st;
     _simulated_inside := _simulated_inside st; _weights := _weights st;
     _bias := _bias st; _slice_dif := _slice_dif st; _scale := _scale st;
     _slice_weight := _slice_weight st; _reg_slice_weight := _reg_slice_weight st;
     _slice_inside := _slice_inside st; _volcoeffs := _volcoeffs st;
     _force_excluded := _force_excluded st; _small_slices := _small_slices st;
     _reconstructed := _reconstructed st; _mask := _mask st;
     _volume_weights := _volume_weights st; _confidence_map := _confidence_map st;
     _average_volume_weight := v; _sigma := _sigma st; _sigma_s := _sigma_s st;
     _sigma_s2 := _sigma_s2 st; _mix := _mix st; _mix_s := _mix_s st; _m := _m st;
     _mean_s := _mean_s st; _mean_s2 := _mean_s2 st; _step := _step st;
     _min_intensity := _min_intensity st; _max_intensity := _max_intensity st;
     _alpha := _alpha st; _lambda := _lambda st; _delta := _delta st;
     _low_intensity_cutoff := _low_intensity_cutoff st; _sigma_bias := _sigma_bias st;
     _global_NCC_threshold := _global_NCC_threshold st; _adaptive := _adaptive st;
     _global_bias_correction := _global_bias_correction st;
     _z_slice_order := _z_slice_order st; _t_slice_order := _t_slice_order st |}.

Definition set_sigma (v : Q) (st : Reconstruction) : Reconstruction :=
  {| _slices := _slices st; _simulated_slices := _simulated_slices st;
     _simulated_weights := _simulated_weights st;
     _simulated_inside := _simulated_inside st; _weights := _weights st;
     _bias := _bias st; _slice_dif := _slice_dif st; _scale := _scale st;
     _slice_weight := _slice_weight st; _reg_slice_weight := _reg_slice_weight st;
     _slice_inside := _slice_inside st; _volcoeffs := _volcoeffs st;
     _force_excluded := _force_excluded st; _small_slices := _small_slices st;
     _reconstructed := _reconstructed st; _mask := _mask st;
     _volume_weights := _volume_weights st; _confidence_map := _confidence_map st;
     _average_volume_weight := _average_volume_weight st; _sigma := v;
     _sigma_s := _sigma_s st; _sigma_s2 := _sigma_s2 st; _mix := _mix st;
     _mix_s := _mix_s st; _m := _m st; _mean_s := _mean_s st; _mean_s2 := _mean_s2 st;
     _step := _step st; _min_intensity := _min_intensity st;
     _max_intensity := _max_intensity st; _alpha := _alpha st; _lambda := _lambda st;
     _delta := _delta st; _low_intensity_cutoff := _low_intensity_cutoff st;
     _sigma_bias := _sigma_bias st; _global_NCC_threshold := _global_NCC_threshold st;
     _adaptive := _adaptive st; _global_bias_correction := _global_bias_correction st;
     _z_slice_order := _z_slice_order st; _t_slice_order := _t_slice_order st |}.

Definition set_sigma_s (v : Q) (st : Reconstruction) : Reconstruction :=
  {| _slices := _slices st; _simulated_slices := _simulated_slices st;
     _simulated_weights := _simulated_weights st;
     _simulated_inside := _simulated_inside st; _weights := _weights st;
     _bias := _bias st; _slice_dif := _slice_dif st; _scale := _scale st;
     _slice_weight := _slice_weight st; _reg_slice_weight := _reg_slice_weight st;
     _slice_inside := _slice_inside st; _volcoeffs := _volcoeffs st;
     _force_excluded := _force_excluded st; _small_slices := _small_slices st;
     _reconstructed := _reconstructed st; _mask := _mask st;
     _volume_weights := _volume_weights st; _confidence_map := _confidence_map st;
     _average_volume_weight := _average_volume_weight st; _sigma := _sigma st;
     _sigma_s := v; _sigma_s2 := _sigma_s2 st; _mix := _mix st; _mix_s := _mix_s st;
     _m := _m st; _mean_s := _mean_s st; _mean_s2 := _mean_s2 st; _step := _step st;
     _min_intensity := _min_intensity st; _max_intensity := _max_intensity st;
     _alpha := _alpha st; _lambda := _lambda st; _delta := _delta st;
     _low_intensity_cutoff := _low_intensity_cutoff st; _sigma_bias := _sigma_bias st;
     _global_NCC_threshold := _global_NCC_threshold st; _adaptive := _adaptive st;
     _global_bias_correction := _global_bias_correction st;
     _z_slice_order := _z_slice_order st; _t_slice_order := _t_slice_order st |}.

Definition set_sigma_s2 (v : Q) (st : Reconstruction) : Reconstruction :=
  {| _slices := _slices st; _simulated_slices := _simulated_slices st;
     _simulated_weights := _simulated_weights st;
     _simulated_inside := _simulated_inside st; _weights := _weights st;
     _bias := _bias st; _slice_dif := _slice_dif st; _scale := _scale st;
     _slice_weight := _slice_weight st; _reg_slice_weight := _reg_slice_weight st;
     _slice_inside := _slice_inside st; _volcoeffs := _volcoeffs st;
     _force_excluded := _force_excluded st; _small_slices := _small_slices st;
     _reconstructed := _reconstructed st; _mask := _mask st;
     _volume_weights := _volume_weights st; _confidence_map := _confidence_map st;
     _average_volume_weight := _average_volume_weight st; _sigma := _sigma st;
     _sigma_s := _sigma_s st; _sigma_s2 := v; _mix := _mix st; _mix_s := _mix_s st;
     _m := _m st; _mean_s := _mean_s st; _mean_s2 := _mean_s2 st; _step := _step st;
     _min_intensity := _min_intensity st; _max_intensity := _max_intensity st;
     _alpha := _alpha st; _lambda := _lambda st; _delta := _delta st;
     _low_intensity_cutoff := _low_intensity_cutoff st; _sigma_bias := _sigma_bias st;
     _global_NCC_threshold := _global_NCC_threshold st; _adaptive := _adaptive st;
     _global_bias_correction := _global_bias_correction st;
     _z_slice_order := _z_slice_order st; _t_slice_order := _t_slice_order st |}.

Definition set_mix (v : Q) (st : Reconstruction) : Reconstruction :=
  {| _slices := _slices st; _simulated_slices := _simulated_slices st;
     _simulated_weights := _simulated_weights st;
     _simulated_inside := _simulated_inside st; _weights := _weights st;
     _bias := _bias st; _slice_dif := _slice_dif st; _scale := _scale st;
     _slice_weight := _slice_weight st; _reg_slice_weight := _reg_slice_weight st;
     _slice_inside := _slice_inside st; _volcoeffs := _volcoeffs st;
     _force_excluded := _force_excluded st; _small_slices := _small_slices st;
     _reconstructed := _reconstructed st; _mask := _mask st;
     _volume_weights := _volume_weights st; _confidence_map := _confidence_map st;
     _average_volume_weight := _average_volume_weight st; _sigma := _sigma st;
     _sigma_s := _sigma_s st; _sigma_s2 := _sigma_s2 st; _mix := v;
     _mix_s := _mix_s st; _m := _m st; _mean_s := _mean_s st; _mean_s2 := _mean_s2 st;
     _step := _step st; _min_intensity := _min_intensity st;
     _max_intensity := _max_intensity st; _alpha := _alpha st; _lambda := _lambda st;
     _delta := _delta st; _low_intensity_cutoff := _low_intensity_cutoff st;
     _sigma_bias := _sigma_bias st; _global_NCC_threshold := _global_NCC_threshold st;
     _adaptive := _adaptive st; _global_bias_correction := _global_bias_correction st;
     _z_slice_order := _z_slice_order st; _t_slice_order := _t_slice_order st |}.

Definition set_mix_s (v : Q) (st : Reconstruction) : Reconstruction :=
  {| _slices := _slices st; _simulated_slices := _simulated_slices st;
     _simulated_weights := _simulated_weights st;
     _simulated_inside := _simulated_inside st; _weights := _weights st;
     _bias := _bias st; _slice_dif := _slice_dif st; _scale := _scale st;
     _slice_weight := _slice_weight st; _reg_slice_weight := _reg_slice_weight st;
     _slice_inside := _slice_inside st; _volcoeffs := _volcoeffs st;
     _force_excluded := _force_excluded st; _small_slices := _small_slices st;
     _reconstructed := _reconstructed st; _mask := _mask st;
     _volume_weights := _volume_weights st; _confidence_map := _confidence_map st;
     _average_volume_weight := _average_volume_weight st; _sigma := _sigma st;
     _sigma_s := _sigma_s st; _sigma_s2 := _sigma_s2 st; _mix := _mix st; _mix_s := v;
     _m := _m st; _mean_s := _mean_s st; _mean_s2 := _mean_s2 st; _step := _step st;
     _min_intensity := _min_intensity st; _max_intensity := _max_intensity st;
     _alpha := _alpha st; _lambda := _lambda st; _delta := _delta st;
     _low_intensity_cutoff := _low_intensity_cutoff st; _sigma_bias := _sigma_bias st;
     _global_NCC_threshold := _global_NCC_threshold st; _adaptive := _adaptive st;
     _global_bias_correction := _global_bias_correction st;
     _z_slice_order := _z_slice_order st; _t_slice_order := _t_slice_order st |}.

Definition set_m (v : Q) (st : Reconstruction) : Reconstruction :=
  {| _slices := _slices st; _simulated_slices := _simulated_slices st;
     _simulated_weights := _simulated_weights st;
     _simulated_inside := _simulated_inside st; _weights := _weights st;
     _bias := _bias st; _slice_dif := _slice_dif st; _scale := _scale st;
     _slice_weight := _slice_weight st; _reg_slice_weight := _reg_slice_weight st;
     _slice_inside := _slice_inside st; _volcoeffs := _volcoeffs st;
     _force_excluded := _force_excluded st; _small_slices := _small_slices st;
     _reconstructed := _reconstructed st; _mask := _mask st;
     _volume_weights := _volume_weights st; _confidence_map := _confidence_map st;
     _average_volume_weight := _average_volume_weight st; _sigma := _sigma st;
     _sigma_s := _sigma_s st; _sigma_s2 := _sigma_s2 st; _mix := _mix st;
     _mix_s := _mix_s st; _m := v; _mean_s := _mean_s st; _mean_s2 := _mean_s2 st;
     _step := _step st; _min_intensity := _min_intensity st;
     _max_intensity := _max_intensity st; _alpha := _alpha st; _lambda := _lambda st;
     _delta := _delta st; _low_intensity_cutoff := _low_intensity_cutoff st;
     _sigma_bias := _sigma_bias st; _global_NCC_threshold := _global_NCC_threshold st;
     _adaptive := _adaptive st; _global_bias_correction := _global_bias_correction st;
     _z_slice_order := _z_slice_order st; _t_slice_order := _t_slice_order st |}.

Definition set_mean_s (v : Q) (st : Reconstruction) : Reconstruction :=
  {| _slices := _slices st; _simulated_slices := _simulated_slices st;
     _simulated_weights := _simulated_weights st;
     _simulated_inside := _simulated_inside st; _weights := _weights st;
     _bias := _bias st; _slice_dif := _slice_dif st; _scale := _scale st;
     _slice_weight := _slice_weight st; _reg_slice_weight := _reg_slice_weight st;
     _slice_inside := _slice_inside st; _volcoeffs := _volcoeffs st;
     _force_excluded := _force_excluded st; _small_slices := _small_slices st;
     _reconstructed := _reconstructed st; _mask := _mask st;
     _volume_weights := _volume_weights st; _confidence_map := _confidence_map st;
     _average_volume_weight := _average_volume_weight st; _sigma := _sigma st;
     _sigma_s := _sigma_s st; _sigma_s2 := _sigma_s2 st; _mix := _mix st;
     _mix_s := _mix_s st; _m := _m st; _mean_s := v; _mean_s2 := _mean_s2 st;
     _step := _step st; _min_intensity := _min_intensity st;
     _max_intensity := _max_intensity st; _alpha := _alpha st; _lambda := _lambda st;
     _delta := _delta st; _low_intensity_cutoff := _low_intensity_cutoff st;
     _sigma_bias := _sigma_bias st; _global_NCC_threshold := _global_NCC_threshold st;
     _adaptive := _adaptive st; _global_bias_correction := _global_bias_correction st;
     _z_slice_order := _z_slice_order st; _t_slice_order := _t_slice_order st |}.

Definition set_mean_s2 (v : Q) (st : Reconstruction) : Reconstruction :=
  {| _slices := _slices st; _simulated_slices := _simulated_slices st;
     _simulated_weights := _simulated_weights st;
     _simulated_inside := _simulated_inside st; _weights := _weights st;
     _bias := _bias st; _slice_dif := _slice_dif st; _scale := _scale st;
     _slice_weight := _slice_weight st; _reg_slice_weight := _reg_slice_weight st;
     _slice_inside := _slice_inside st; _volcoeffs := _volcoeffs st;
     _force_excluded := _force_excluded st; _small_slices := _small_slices st;
     _reconstructed := _reconstructed st; _mask := _mask st;
     _volume_weights := _volume_weights st; _confidence_map := _confidence_map st;
     _average_volume_weight := _average_volume_weight st; _sigma := _sigma st;
     _sigma_s := _sigma_s st; _sigma_s2 := _sigma_s2 st; _mix := _mix st;
     _mix_s := _mix_s st; _m := _m st; _mean_s := _mean_s st; _mean_s2 := v;
     _step := _step st; _min_intensity := _min_intensity st;
     _max_intensity := _max_intensity st; _alpha := _alpha st; _lambda := _lambda st;
     _delta := _delta st; _low_intensity_cutoff := _low_intensity_cutoff st;
     _sigma_bias := _sigma_bias st; _global_NCC_threshold := _global_NCC_threshold st;
     _adaptive := _adaptive st; _global_bias_correction := _global_bias_correction st;
     _z_slice_order := _z_slice_order st; _t_slice_order := _t_slice_order st |}.

Definition set_min_intensity (v : Q) (st : Reconstruction) : Reconstruction :=
  {| _slices := _slices st; _simulated_slices := _simulated_slices st;
     _simulated_weights := _simulated_weights st;
     _simulated_inside := _simulated_inside st; _weights := _weights st;
     _bias := _bias st; _slice_dif := _slice_dif st; _scale := _scale st;
     _slice_weight := _slice_weight st; _reg_slice_weight := _reg_slice_weight st;
     _slice_inside := _slice_inside st; _volcoeffs := _volcoeffs st;
     _force_excluded := _force_excluded st; _small_slices := _small_slices st;
     _reconstructed := _reconstructed st; _mask := _mask st;
     _volume_weights := _volume_weights st; _confidence_map := _confidence_map st;
     _average_volume_weight := _average_volume_weight st; _sigma := _sigma st;
     _sigma_s := _sigma_s st; _sigma_s2 := _sigma_s2 st; _mix := _mix st;
     _mix_s := _mix_s st; _m := _m st; _mean_s := _mean_s st; _mean_s2 := _mean_s2 st;
     _step := _step st; _min_intensity := v; _max_intensity := _max_intensity st;
     _alpha := _alpha st; _lambda := _lambda st; _delta := _delta st;
     _low_intensity_cutoff := _low_intensity_cutoff st; _sigma_bias := _sigma_bias st;
     _global_NCC_threshold := _global_NCC_threshold st; _adaptive := _adaptive st;
     _global_bias_correction := _global_bias_correction st;
     _z_slice_order := _z_slice_order st; _t_slice_order := _t_slice_order st |}.

Definition set_max_intensity (v : Q) (st : Reconstruction) : Reconstruction :=
  {| _slices := _slices st; _simulated_slices := _simulated_slices st;
     _simulated_weights := _simulated_weights st;
     _simulated_inside := _simulated_inside st; _weights := _weights st;
     _bias := _bias st; _slice_dif := _slice_dif st; _scale := _scale st;
     _slice_weight := _slice_weight st; _reg_slice_weight := _reg_slice_weight st;
     _slice_inside := _slice_inside st; _volcoeffs := _volcoeffs st;
     _force_excluded := _force_excluded st; _small_slices := _small_slices st;
     _reconstructed := _reconstructed st; _mask := _mask st;
     _volume_weights := _volume_weights st; _confidence_map := _confidence_map st;
     _average_volume_weight := _average_volume_weight st; _sigma := _sigma st;
     _sigma_s := _sigma_s st; _sigma_s2 := _sigma_s2 st; _mix := _mix st;
     _mix_s := _mix_s st; _m := _m st; _mean_s := _mean_s st; _mean_s2 := _mean_s2 st;
     _step := _step st; _min_intensity := _min_intensity st; _max_intensity := v;
     _alpha := _alpha st; _lambda := _lambda st; _delta := _delta st;
     _low_intensity_cutoff := _low_intensity_cutoff st; _sigma_bias := _sigma_bias st;
     _global_NCC_threshold := _global_NCC_threshold st; _adaptive := _adaptive st;
     _global_bias_correction := _global_bias_correction st;
     _z_slice_order := _z_slice_order st; _t_slice_order := _t_slice_order st |}.

Definition set_z_slice_order (v : list Z) (st : Reconstruction) : Reconstruction :=
  {| _slices := _slices st; _simulated_slices := _simulated_slices st;
     _simulated_weights := _simulated_weights st;
     _simulated_inside := _simulated_inside st; _weights := _weights st;
     _bias := _bias st; _slice_dif := _slice_dif st; _scale := _scale st;
     _slice_weight := _slice_weight st; _reg_slice_weight := _reg_slice_weight st;
     _slice_inside := _slice_inside st; _volcoeffs := _volcoeffs st;
     _force_excluded := _force_excluded st; _small_slices := _small_slices st;
     _reconstructed := _reconstructed st; _mask := _mask st;
     _volume_weights := _volume_weights st; _confidence_map := _confidence_map st;
     _average_volume_weight := _average_volume_weight st; _sigma := _sigma st;
     _sigma_s := _sigma_s st; _sigma_s2 := _sigma_s2 st; _mix := _mix st;
     _mix_s := _mix_s st; _m := _m st; _mean_s := _mean_s st; _mean_s2 := _mean_s2 st;
     _step := _step st; _min_intensity := _min_intensity st;
     _max_intensity := _max_intensity st; _alpha := _alpha st; _lambda := _lambda st;
     _delta := _delta st; _low_intensity_cutoff := _low_intensity_cutoff st;
     _sigma_bias := _sigma_bias st; _global_NCC_threshold := _global_NCC_threshold st;
     _adaptive := _adaptive st; _global_bias_correction := _global_bias_correction st;
     _z_slice_order := v; _t_slice_order := _t_slice_order st |}.

Definition set_t_slice_order (v : list Z) (st : Reconstruction) : Reconstruction :=
  {| _slices := _slices st; _simulated_slices := _simulated_slices st;
     _simulated_weights := _simulated_weights st;
     _simulated_inside := _simulated_inside st; _weights := _weights st;
     _bias := _bias st; _slice_dif := _slice_dif st; _scale := _scale st;
     _slice_weight := _slice_weight st; _reg_slice_weight := _reg_slice_weight st;
     _slice_inside := _slice_inside st; _volcoeffs := _volcoeffs st;
     _force_excluded := _force_excluded st; _small_slices := _small_slices st;
     _reconstructed := _reconstructed st; _mask := _mask st;
     _volume_weights := _volume_weights st; _confidence_map := _confidence_map st;
     _average_volume_weight := _average_volume_weight st; _sigma := _sigma st;
     _sigma_s := _sigma_s st; _sigma_s2 := _sigma_s2 st; _mix := _mix st;
     _mix_s := _mix_s st; _m := _m st; _mean_s := _mean_s st; _mean_s2 := _mean_s2 st;
     _step := _step st; _min_intensity := _min_intensity st;
     _max_intensity := _max_intensity st; _alpha := _alpha st; _lambda := _lambda st;
     _delta := _delta st; _low_intensity_cutoff := _low_intensity_cutoff st;
     _sigma_bias := _sigma_bias st; _global_NCC_threshold := _global_NCC_threshold st;
     _adaptive := _adaptive st; _global_bias_correction := _global_bias_correction st;
     _z_slice_order := _z_slice_order st; _t_slice_order := v |}.

Definition set_force_excluded (v : list Z) (st : Reconstruction) : Reconstruction :=
  {| _slices := _slices st; _simulated_slices := _simulated_slices st;
     _simulated_weights := _simulated_weights st;
     _simulated_inside := _simulated_inside st; _weights := _weights st;
     _bias := _bias st; _slice_dif := _slice_dif st; _scale := _scale st;
     _slice_weight := _slice_weight st; _reg_slice_weight := _reg_slice_weight st;
     _slice_inside := _slice_inside st; _volcoeffs := _volcoeffs st;
     _force_excluded := v; _small_slices := _small_slices st;
     _reconstructed := _reconstructed st; _mask := _mask st;
     _volume_weights := _volume_weights st; _confidence_map := _confidence_map st;
     _average_volume_weight := _average_volume_weight st; _sigma := _sigma st;
     _sigma_s := _sigma_s st; _sigma_s2 := _sigma_s2 st; _mix := _mix st;
     _mix_s := _mix_s st; _m := _m st; _mean_s := _mean_s st; _mean_s2 := _mean_s2 st;
     _step := _step st; _min_intensity := _min_intensity st;
     _max_intensity := _max_intensity st; _alpha := _alpha st; _lambda := _lambda st;
     _delta := _delta st; _low_intensity_cutoff := _low_intensity_cutoff st;
     _sigma_bias := _sigma_bias st;
     _global_NCC_threshold := _global_NCC_threshold st; _adaptive := _adaptive st;
     _global_bias_correction := _global_bias_correction st;
     _z_slice_order := _z_slice_order st; _t_slice_order := _t_slice_order st |}.

Definition set_global_NCC_threshold (v : Q) (st : Reconstruction) : Reconstruction :=
  {| _slices := _slices st; _simulated_slices := _simulated_slices st;
     _simulated_weights := _simulated_weights st;
     _simulated_inside := _simulated_inside st; _weights := _weights st;
     _bias := _bias st; _slice_dif := _slice_dif st; _scale := _scale st;
     _slice_weight := _slice_weight st; _reg_slice_weight := _reg_slice_weight st;
     _slice_inside := _slice_inside st; _volcoeffs := _volcoeffs st;
     _force_excluded := _force_excluded st; _small_slices := _small_slices st;
     _reconstructed := _reconstructed st; _mask := _mask st;
     _volume_weights := _volume_weights st; _confidence_map := _confidence_map st;
     _average_volume_weight := _average_volume_weight st; _sigma := _sigma st;
     _sigma_s := _sigma_s st; _sigma_s2 := _sigma_s2 st; _mix := _mix st;
     _mix_s := _mix_s st; _m := _m st; _mean_s := _mean_s st; _mean_s2 := _mean_s2 st;
     _step := _step st; _min_intensity := _min_intensity st;
     _max_intensity := _max_intensity st; _alpha := _alpha st; _lambda := _lambda st;
     _delta := _delta st; _low_intensity_cutoff := _low_intensity_cutoff st;
     _sigma_bias := _sigma_bias st;
     _global_NCC_threshold := v; _adaptive := _adaptive st;
     _global_bias_correction := _global_bias_correction st;
     _z_slice_order := _z_slice_order st; _t_slice_order := _t_slice_order st |}.

(** ** Coefficient engine, EM robust statistics, super-resolution *)

Section Engine.

(** libm. *)
Variables exp log sqrt : Q -> Q.

(** [G(x, s)], the Gaussian density of [svrtk/Reconstruction.h]. *)
Variable G : Q -> Q -> Q.

(** [voxel_limits<RealPixel>::min()] and [::max()] (MIRTK). *)
Variables voxel_limits_min voxel_limits_max : Q.

(** The loop bodies of [svrtk/Parallel.h]. Each runs once per slice index (or
    once per volume) on the object as it is when the body starts.
    - [ParallelCoeffInit st inputIndex]: the coefficients
      [_volcoeffs[inputIndex]] and the flag [_slice_inside[inputIndex]];
    - [ParallelEStep st inputIndex]: the voxel weights [_weights[inputIndex]]
      and the potential [slice_potential[inputIndex]];
    - [ParallelMStep st]: the sums [sigma], [mix], [num] and the bounds [min],
      [max];
    - [ParallelSuperresolution st]: the images [addon] and [confidence_map];
    - [ParallelAdaptiveRegularization st original]: the volume that
      [AdaptiveRegularization1] and [AdaptiveRegularization2] leave in
      [_reconstructed]. *)
Variable ParallelCoeffInit : Reconstruction -> nat -> SLICECOEFFS * bool.
Variable ParallelEStep : Reconstruction -> nat -> RealImage * Q.
Variable ParallelMStep : Reconstruction -> Q * Q * Q * Q * Q.
Variable ParallelSuperresolution : Reconstruction -> RealImage * RealImage.
Variable ParallelAdaptiveRegularization : Reconstruction -> RealImage -> RealImage.

(** [GaussianBlurring<RealPixel> gb(sigma); gb.Run()] (MIRTK). *)
Variable GaussianBlurring : Q -> RealImage -> RealImage.

(** *** CoeffInit *)

(** The search of [inputIndex] in [_force_excluded]. The list holds [int]s; a
    negative entry never equals an index. *)
Definition excluded (st : Reconstruction) (inputIndex : nat) : bool :=
  existsb (fun fe => (Z.of_nat inputIndex =? fe)%Z) (_force_excluded st).

(** [_volume_weights(p.x, p.y, p.z) += p.value]. *)
Definition add_coefficient (w : RealImage) (p : POINT3D) : outcome RealImage :=
  old ← GetP w p; PutP w p (old + value p)%Q.

(** [_volcoeffs[inputIndex][i][j]]. *)
Definition coeffs_at (st : Reconstruction) (inputIndex i j : nat)
    : outcome VOXELCOEFFS :=
  sc ← rd (_volcoeffs st) inputIndex; row ← rd sc i; rd row j.

(** The loops over [i], [j] and [k] for one slice. *)
Definition accumulate_slice (st : Reconstruction) (w : RealImage)
    (inputIndex : nat) : outcome RealImage :=
  slice ← rd (_slices st) inputIndex;
  foldM (fun w '(i, j) =>
           c ← coeffs_at st inputIndex i j; foldM add_coefficient c w)
        (pixels slice) w.

(** The loop over the slices. *)
Definition accumulate_weights (st : Reconstruction) (w : RealImage)
    : outcome RealImage :=
  foldM (fun w inputIndex =>
           if excluded st inputIndex then Done w
           else accumulate_slice st w inputIndex)
        (seq 0 (length (_slices st))) w.

(** "find average volume weight": [sum / num] over the voxels with mask 1.
    (With [num = 0] the C++ quotient is NaN; the rational quotient is 0.) *)
Definition average_weight (w mask : RealImage) : outcome Q :=
  '(sum, num) ← foldM (fun '(sum, num) i =>
                  m ← rd (Data mask) i;
                  if Qeq_bool m 1 then
                    v ← rd (Data w) i; Done ((sum + v)%Q, S num)
                  else Done (sum, num))
               (seq 0 (NumberOfVoxels w)) (0%Q, O);
  Done (sum / inject_Z (Z.of_nat num))%Q.

(** [ClearAndResize] of [_volcoeffs] and [_slice_inside] followed by
    [Parallel::CoeffInit]: one entry per slice. *)
Definition coefficients_built (st : Reconstruction) : Reconstruction :=
  let indices := seq 0 (length (_slices st)) in
  set_slice_inside (map (fun i => snd (ParallelCoeffInit st i)) indices)
    (set_volcoeffs (map (fun i => fst (ParallelCoeffInit st i)) indices) st).

Definition CoeffInit (st : Reconstruction) : outcome Reconstruction :=
  let st := coefficients_built st in
  w ← accumulate_weights st (Initialize (Attributes (_reconstructed st)));
  let st := set_volume_weights w st in
  avg ← average_weight (_volume_weights st) (_mask st);
  Done (set_average_volume_weight avg st).

(** The property of the specification, in its words: the entries of the
    coefficient lists of the slices that are not force-excluded, and the sum
    of the values of those that reference the voxel [(x, y, z)]. *)
Definition counted_coefficients (st : Reconstruction) : list POINT3D :=
  inputIndex ← seq 0 (length (_volcoeffs st));
  if excluded st inputIndex then []
  else concat (concat (default [] (_volcoeffs st !! inputIndex))).

Definition references (x y z : nat) (p : POINT3D) : bool :=
  (px p =? Z.of_nat x)%Z && (py p =? Z.of_nat y)%Z && (pz p =? Z.of_nat z)%Z.

Definition Qsum (l : list Q) : Q := fold_left Qplus l 0%Q.

Definition coefficient_sum (st : Reconstruction) (x y z : nat) : Q :=
  Qsum (map value (List.filter (references x y z) (counted_coefficients st))).

(** *** InitializeEM, InitializeEMValues *)

(** "Find the range of intensities": the update for one voxel value. *)
Definition intensity_range (acc : Q * Q) (v : Q) : Q * Q :=
  let '(min_intensity, max_intensity) := acc in
  if Qltb 0 v then
    (if Qltb v min_intensity then v else min_intensity,
     if Qltb max_intensity v then v else max_intensity)
  else (min_intensity, max_intensity).

Definition InitializeEM (st : Reconstruction) : Reconstruction :=
  let st := set_weights (_slices st) st in
  let st := set_bias (_slices st) st in
  let st := set_scale (map (fun _ => 1%Q) (_slices st)) st in
  let st := set_slice_weight (map (fun _ => 1%Q) (_slices st)) st in
  let '(min_intensity, max_intensity) :=
    fold_left (fun acc slice => fold_left intensity_range (Data slice) acc)
      (_slices st) (voxel_limits_max, voxel_limits_min) in
  set_max_intensity max_intensity (set_min_intensity min_intensity st).

(** "Force exclusion of slices predefined by user":
    [if (_force_excluded[i] > 0 && _force_excluded[i] < _slices.size())
       a[_force_excluded[i]] = v]. *)
Definition force_exclude (st : Reconstruction) (v : Q) (a : list Q)
    : outcome (list Q) :=
  foldM (fun a fe =>
           if ((0 <? fe)%Z && (fe <? Z.of_nat (length (_slices st)))%Z)
           then wrZ a fe v else Done a)
        (_force_excluded st) a.

(** The voxel loop of [InitializeEMValues] for one slice. *)
Definition initial_weights (slice w : RealImage) : outcome RealImage :=
  d ← foldM (fun d j =>
               v ← rd (Data slice) j;
               wr d j (if Qltb (-0.01) v then 1%Q else 0%Q))
            (seq 0 (NumberOfVoxels w)) (Data w);
  Done (with_Data w d).

(** [pb[j] = 0] in the same loop, for [j < _weights[i].NumberOfVoxels()]. *)
Definition initial_bias (w b : RealImage) : outcome RealImage :=
  d ← foldM (fun d j => wr d j 0%Q) (seq 0 (NumberOfVoxels w)) (Data b);
  Done (with_Data b d).

Definition InitializeEMValues (st : Reconstruction) : outcome Reconstruction :=
  st ← foldM (fun st i =>
                slice ← rd (_slices st) i;
                w ← rd (_weights st) i;
                b ← rd (_bias st) i;
                w' ← initial_weights slice w;
                b' ← initial_bias w b;
                sw ← wr (_slice_weight st) i 1%Q;
                sc ← wr (_scale st) i 1%Q;
                Done (set_scale sc (set_slice_weight sw
                       (set_bias (<[i:=b']> (_bias st))
                          (set_weights (<[i:=w']> (_weights st)) st)))))
             (seq 0 (length (_slices st))) st;
  sw ← force_exclude st 0%Q (_slice_weight st);
  Done (set_slice_weight sw st).

(** *** InitializeRobustStatistics *)

(** The pixel loop for one slice: the sum of squared errors
    [sigma_values[inputIndex]] and their number [sigma_numbers[inputIndex]]. *)
Definition slice_sigma (st : Reconstruction) (inputIndex : nat)
    : outcome (Q * nat) :=
  slice ← rd (_slices st) inputIndex;
  foldM (fun '(sigma_value, sigma_number) '(i, j) =>
           v ← Get slice i j 0;
           if Qltb (-0.01) v then
             simulated_inside ← rd (_simulated_inside st) inputIndex;
             inside ← Get simulated_inside i j 0;
             if Qeq_bool inside 1 then
               simulated_weights ← rd (_simulated_weights st) inputIndex;
               weight ← Get simulated_weights i j 0;
               if Qltb 0.99 weight then
                 simulated_slice ← rd (_simulated_slices st) inputIndex;
                 sim ← Get simulated_slice i j 0;
                 let e := (v - sim)%Q in
                 Done ((sigma_value + e * e)%Q, S sigma_number)
               else Done (sigma_value, sigma_number)
             else Done (sigma_value, sigma_number)
           else Done (sigma_value, sigma_number))
        (pixels slice) (0%Q, O).

Definition InitializeRobustStatistics (st : Reconstruction)
    : outcome Reconstruction :=
  '(sigma, num, slice_weight) ←
     foldM (fun '(sigma, num, slice_weight) inputIndex =>
              '(sigma_value, sigma_number) ← slice_sigma st inputIndex;
              inside ← rd (_slice_inside st) inputIndex;
              slice_weight ← (if inside : bool then Done slice_weight
                              else wr slice_weight inputIndex 0%Q);
              Done ((sigma + sigma_value)%Q, (num + sigma_number)%nat, slice_weight))
           (seq 0 (length (_slices st))) (0%Q, O, _slice_weight st);
  slice_weight ← force_exclude st 0%Q slice_weight;
  let st := set_slice_weight slice_weight st in
  let st := set_sigma (sigma / inject_Z (Z.of_nat num))%Q st in
  let st := set_sigma_s 0.025%Q st in
  let st := set_mix 0.9%Q st in
  let st := set_mix_s 0.9%Q st in
  Done (set_m (1 / (2.1 * _max_intensity st - 1.9 * _min_intensity st))%Q st).

(** *** EStep *)

(** The slice potentials after [Parallel::EStep] and the three loops that
    force potentials to -1: user exclusions, small slices, unrealistic
    scales. *)
Definition slice_potentials (st : Reconstruction) : outcome (list Q) :=
  let slice_potential :=
    map (fun i => snd (ParallelEStep st i)) (seq 0 (length (_slices st))) in
  slice_potential ← force_exclude st (-1)%Q slice_potential;
  slice_potential ← foldM (fun sp small => wrZ sp small (-1)%Q)
                      (_small_slices st) slice_potential;
  foldM (fun sp inputIndex =>
           scale ← rd (_scale st) inputIndex;
           if Qltb scale 0.2 || Qltb 5 scale then wr sp inputIndex (-1)%Q
           else Done sp)
        (seq 0 (length slice_potential)) slice_potential.

(** "Calculate means of the inlier and outlier potentials":
    [sum], [den], [sum2], [den2], [maxs], [mins]. *)
Definition potential_means (st : Reconstruction) (slice_potential : list Q)
    : outcome (Q * Q * Q * Q * Q * Q) :=
  foldM (fun '(sum, den, sum2, den2, maxs, mins) inputIndex =>
           p ← rd slice_potential inputIndex;
           if Qle_bool 0 p then
             w ← rd (_slice_weight st) inputIndex;
             Done ((sum + p * w)%Q, (den + w)%Q,
                   (sum2 + p * (1 - w))%Q, (den2 + (1 - w))%Q,
                   (if Qltb maxs p then p else maxs),
                   (if Qltb p mins then p else mins))
           else Done (sum, den, sum2, den2, maxs, mins))
        (seq 0 (length (_slices st))) (0%Q, 0%Q, 0%Q, 0%Q, 0%Q, 1%Q).

(** "Calculate the variances of the potentials". *)
Definition potential_variances (st : Reconstruction) (slice_potential : list Q)
    (mean_s mean_s2 : Q) : outcome (Q * Q * Q * Q) :=
  foldM (fun '(sum, den, sum2, den2) inputIndex =>
           p ← rd slice_potential inputIndex;
           if Qle_bool 0 p then
             w ← rd (_slice_weight st) inputIndex;
             Done ((sum + (p - mean_s) * (p - mean_s) * w)%Q, (den + w)%Q,
                   (sum2 + (p - mean_s2) * (p - mean_s2) * (1 - w))%Q,
                   (den2 + (1 - w))%Q)
           else Done (sum, den, sum2, den2))
        (seq 0 (length (_slices st))) (0%Q, 0%Q, 0%Q, 0%Q).

(** The body of "Calculate slice weights" for one slice: the new value of
    [_slice_weight[inputIndex]], whose value before is [w]. [st] carries the
    updated [_mean_s], [_mean_s2], [_sigma_s], [_sigma_s2] and the [_mix_s]
    of the previous iteration. *)
Definition slice_weight_of (st : Reconstruction) (den p w : Q) : Q :=
  if Qeq_bool p (-1) then 0%Q
  else if Qle_bool den 0 || Qle_bool (_mean_s2 st) (_mean_s st) then 1%Q
  else
    let gs1 := if Qltb p (_mean_s2 st) then G (p - _mean_s st) (_sigma_s st) else 0%Q in
    let gs2 := if Qltb (_mean_s st) p then G (p - _mean_s2 st) (_sigma_s2 st) else 0%Q in
    let likelihood := (gs1 * _mix_s st + gs2 * (1 - _mix_s st))%Q in
    if Qltb 0 likelihood then (gs1 * _mix_s st / likelihood)%Q
    else
      let w := if Qle_bool p (_mean_s st) then 1%Q else w in
      let w := if Qle_bool (_mean_s2 st) p then 0%Q else w in
      if Qltb p (_mean_s2 st) && Qltb (_mean_s st) p then 1%Q else w.

Definition slice_weights (st : Reconstruction) (slice_potential : list Q)
    (den : Q) : outcome (list Q) :=
  foldM (fun slice_weight inputIndex =>
           p ← rd slice_potential inputIndex;
           w ← rd slice_weight inputIndex;
           wr slice_weight inputIndex (slice_weight_of st den p w))
        (seq 0 (length (_slices st))) (_slice_weight st).

(** "Update _mix_s": the sum of the new weights of the slices with a
    non-negative potential, and their number. *)
Definition mix_sums (st : Reconstruction) (slice_potential : list Q)
    : outcome (Q * nat) :=
  foldM (fun '(sum, num) inputIndex =>
           p ← rd slice_potential inputIndex;
           if Qle_bool 0 p then
             w ← rd (_slice_weight st) inputIndex; Done ((sum + w)%Q, S num)
           else Done (sum, num))
        (seq 0 (length (_slices st))) (0%Q, O).

(** The assignments to [_mean_s], [_mean_s2], [_sigma_s], [_sigma_s2] and
    [_mix_s] from the sums of the loops. *)
Definition mean_s_of (sum den mins : Q) : Q :=
  if Qltb 0 den then (sum / den)%Q else mins.

Definition mean_s2_of (sum2 den2 maxs mean_s : Q) : Q :=
  if Qltb 0 den2 then (sum2 / den2)%Q else ((maxs + mean_s) / 2)%Q.

Definition sigma_floor (st : Reconstruction) : Q :=
  (_step st * _step st / 6.28)%Q.

Definition sigma_s_of (st : Reconstruction) (sum den : Q) : Q :=
  if Qltb 0 sum && Qltb 0 den then Qmax (sum / den) (sigma_floor st)
  else 0.025%Q.

Definition sigma_s2_of (st : Reconstruction) (sum2 den2 : Q) : Q :=
  if Qltb 0 sum2 && Qltb 0 den2 then Qmax (sum2 / den2) (sigma_floor st)
  else Qmax ((_mean_s2 st - _mean_s st) * (_mean_s2 st - _mean_s st) / 4)
            (sigma_floor st).

Definition mix_s_of (sum : Q) (num : nat) : Q :=
  if (0 <? num)%nat then (sum / inject_Z (Z.of_nat num))%Q else 0.9%Q.

(** "Calculation of slice-wise robust statistics parameters": the means and
    variances of the potentials. Returns the object with [_mean_s],
    [_mean_s2], [_sigma_s], [_sigma_s2] assigned, and the sum [den] of the
    second loop. *)
Definition slice_statistics (st : Reconstruction) (slice_potential : list Q)
    : outcome (Reconstruction * Q) :=
  '(sum, den, sum2, den2, maxs, mins) ← potential_means st slice_potential;
  let st := set_mean_s (mean_s_of sum den mins) st in
  let st := set_mean_s2 (mean_s2_of sum2 den2 maxs (_mean_s st)) st in
  '(sum, den, sum2, den2) ←
     potential_variances st slice_potential (_mean_s st) (_mean_s2 st);
  let st := set_sigma_s (sigma_s_of st sum den) st in
  let st := set_sigma_s2 (sigma_s2_of st sum2 den2) st in
  Done (st, den).

(** The voxel-wise posteriors [Parallel::EStep] stores in [_weights]. *)
Definition voxel_posteriors (st : Reconstruction) : Reconstruction :=
  let indices := seq 0 (length (_slices st)) in
  set_weights (map (fun i => fst (ParallelEStep st i)) indices
                 ++ drop (length indices) (_weights st)) st.

Definition EStep (st : Reconstruction) : outcome Reconstruction :=
  slice_potential ← slice_potentials st;
  let st := voxel_posteriors st in
  '(st, den) ← slice_statistics st slice_potential;
  slice_weight ← slice_weights st slice_potential den;
  let st := set_slice_weight slice_weight st in
  '(sum, num) ← mix_sums st slice_potential;
  Done (set_mix_s (mix_s_of sum num) st).

(** *** MStep *)

Definition MStep (st : Reconstruction) (iter : Z) : outcome Reconstruction :=
  let '(sigma, mix, num, min, max) := ParallelMStep st in
  if Qltb 0 mix then
    let st := set_sigma (sigma / mix)%Q st in
    let st := if Qltb (_sigma st) (sigma_floor st)
              then set_sigma (sigma_floor st) st else st in
    let st := if (1 <? iter)%Z then set_mix (mix / num)%Q st else st in
    Done (set_m (1 / (max - min))%Q st)
  else Exited 1.

(** *** Superresolution *)

(** [a += b] on images. MIRTK refuses operands whose attributes differ: it
    prints "Size mismatch in images" and calls [exit(1)]. *)
Definition same_attributes (a b : RealImage) : bool :=
  (GetX a =? GetX b)%nat && (GetY a =? GetY b)%nat && (GetZ a =? GetZ b)%nat
  && Qeq_bool (GetXSize a) (GetXSize b).






(** "bound the intensities" / "clamp intensities to allowed range": the two
    [if]s for one voxel value. *)
Definition bound_intensity (st : Reconstruction) (v : Q) : Q :=
  let v := if Qltb v (_min_intensity st * 0.9) then (_min_intensity st * 0.9)%Q else v in
  if Qltb (_max_intensity st * 1.1) v then (_max_intensity st * 1.1)%Q else v.









(** *** EvaluateReconQuality *)

(** The pixel loop of [EvaluateReconQuality] for one slice. [nt] is the local
    image that starts as a copy of [_slices[inputIndex]]; the loop scales its
    valid pixels in place and accumulates [s_diff], [s_t], [s_n]. *)
Definition nrmse_sums (st : Reconstruction) (inputIndex : nat)
    : outcome (RealImage * Q * Q * nat) :=
  nt ← rd (_slices st) inputIndex;
  ns ← rd (_simulated_slices st) inputIndex;
  foldM (fun '(nt, s_diff, s_t, s_n) '(x, y) =>
           t ← Get nt x y 0;
           s ← (if Qltb 0 t then Get ns x y 0 else Done 0%Q);
           if Qltb 0 t && Qltb 0 s then
             bias ← rd (_bias st) inputIndex;
             b ← Get bias x y 0;
             scale ← rd (_scale st) inputIndex;
             let t := (t * (exp (- b) * scale))%Q in
             nt ← Put nt x y 0 t;
             Done (nt, (s_diff + (t - s) * (t - s))%Q, (s_t + t)%Q, S s_n)
           else Done (nt, s_diff, s_t, s_n))
        (pixels nt) (nt, 0%Q, 0%Q, O).

(** The local image [nt] when the pixel loop of a slice ends. *)
Definition scaled_copy (st : Reconstruction) (inputIndex : nat)
    : outcome RealImage :=
  '(nt, _, _, _) ← nrmse_sums st inputIndex; Done nt.

Definition slice_nrmse (st : Reconstruction) (inputIndex : nat) : outcome Q :=
  '(_, s_diff, s_t, s_n) ← nrmse_sums st inputIndex;
  let n := inject_Z (Z.of_nat s_n) in
  Done (if (0 <? s_n)%nat then sqrt (s_diff / n) / (s_t / n) else 0)%Q.

(** Returns the value and the object as the call leaves it. *)
Definition EvaluateReconQuality (st : Reconstruction) (stackIndex : Z)
    : outcome (Q * Reconstruction) :=
  '(rmse_total, slice_n) ←
     foldM (fun '(rmse_total, slice_n) inputIndex =>
              nrmse ← slice_nrmse st inputIndex;
              Done ((rmse_total + nrmse)%Q,
                    if Qltb 0 nrmse then S slice_n else slice_n))
           (seq 0 (length (_slices st))) (0%Q, O);
  Done ((if (0 <? slice_n)%nat then rmse_total / inject_Z (Z.of_nat slice_n)
         else 0)%Q, st).

(** *** ComputeNCC *)

(** The positions [j] with [slice_1_ptr[j] > threshold &&
    slice_2_ptr[j] > threshold], as pairs of the two values. *)
Definition overlap (slice_1 slice_2 : RealImage) (threshold : Q)
    : outcome (list (Q * Q)) :=
  foldM (fun acc j =>
           a ← rd (Data slice_1) j;
           b ← (if Qltb threshold a then rd (Data slice_2) j else Done 0%Q);
           if Qltb threshold a && Qltb threshold b then Done (acc ++ [(a, b)])
           else Done acc)
        (seq 0 (NumberOfVoxels slice_1)) [].

(** The property of the specification, in its words: the number of voxel
    positions at which both values exceed the threshold. *)
Definition both_exceed (slice_1 slice_2 : RealImage) (threshold : Q) (j : nat)
    : bool :=
  match Data slice_1 !! j, Data slice_2 !! j with
  | Some a, Some b => Qltb threshold a && Qltb threshold b
  | _, _ => false
  end.

Definition overlap_count (slice_1 slice_2 : RealImage) (threshold : Q) : nat :=
  length (List.filter (both_exceed slice_1 slice_2 threshold)
            (seq 0 (NumberOfVoxels slice_1))).

(** The second loop, [for (j = 0; j < slice_2_N; j++)], with the same test:
    it runs over the voxels of [slice_2] and reads [slice_1_ptr[j]] first. *)
Definition overlap_2 (slice_1 slice_2 : RealImage) (threshold : Q)
    : outcome (list (Q * Q)) :=
  foldM (fun acc j =>
           a ← rd (Data slice_1) j;
           b ← (if Qltb threshold a then rd (Data slice_2) j else Done 0%Q);
           if Qltb threshold a && Qltb threshold b then Done (acc ++ [(a, b)])
           else Done acc)
        (seq 0 (NumberOfVoxels slice_2)) [].

(** [ComputeNCC(slice_1, slice_2, threshold)] without the optional [count].
    The first loop gives [slice_1_n] and [slice_1_m], the second [slice_2_n]
    and [slice_2_m]; the loop of the sums runs over the voxels of [slice_1]
    again. (The statement [stacks[j] = move(stack)] printed in the listing
    of this function closes the stack loop of [BackgroundFiltering].) *)
Definition ComputeNCC (slice_1 slice_2 : RealImage) (threshold : Q) : outcome Q :=
  ov ← overlap slice_1 slice_2 threshold;
  let slice_1_n := length ov in
  let slice_1_m := (Qsum (map fst ov) / inject_Z (Z.of_nat slice_1_n))%Q in
  ov2 ← overlap_2 slice_1 slice_2 threshold;
  let slice_2_n := length ov2 in
  let slice_2_m := (Qsum (map snd ov2) / inject_Z (Z.of_nat slice_2_n))%Q in
  if (slice_1_n <? 5)%nat || (slice_2_n <? 5)%nat then Done (-1)%Q
  else
    let diff_sum := Qsum (map (fun '(a, b) => (a - slice_1_m) * (b - slice_2_m))%Q ov) in
    let slice_1_sq := Qsum (map (fun '(a, _) => (a - slice_1_m) * (a - slice_1_m))%Q ov) in
    let slice_2_sq := Qsum (map (fun '(_, b) => (b - slice_2_m) * (b - slice_2_m))%Q ov) in
    if Qltb 0 (slice_1_sq * slice_2_sq) then
      Done (diff_sum / sqrt (slice_1_sq * slice_2_sq))%Q
    else Done 0%Q.

(** *** StructuralExclusion *)

(** MIRTK filters used by [StructuralExclusion] and [TransformMask].
    - [ImageTransformation interp source_padding input inputIndex output]:
      [imagetransformation.Run()] with the slice transformation
      [_transformations[inputIndex]]; it resamples [input] onto the grid of
      [output] (interpolation linear for [false], nearest neighbour for
      [true]).
    - [GaussianBlurringWithPadding sigma padding input]. *)
Variable ImageTransformation : bool -> Q -> RealImage -> nat -> RealImage -> RealImage.
Variable GaussianBlurringWithPadding : Q -> Q -> RealImage -> RealImage.

(** [a *= b] on images; as for [+=], MIRTK exits on a size mismatch. *)
Definition image_mul (a b : RealImage) : outcome RealImage :=
  if same_attributes a b then
    Done (with_Data a (zip_with Qmult (Data a) (Data b)))
  else Exited 1.

(** [TransformMask(image, mask, _transformations[inputIndex])]: the new value
    of [mask]. *)
Definition TransformMask (image mask : RealImage) (inputIndex : nat) : RealImage :=
  ImageTransformation true 0 mask inputIndex (Initialize (Attributes image)).

(** [source.GetMinMax(&smin, &smax)]: the smallest voxel value. *)
Definition image_min (img : RealImage) : Q :=
  match Data img with
  | [] => 0%Q
  | v :: d => fold_left Qmin d v
  end.

Definition source_padding (st : Reconstruction) : Q :=
  let smin := image_min (_reconstructed st) in
  if Qltb smin (-0.1) then (-1)%Q
  else if Qltb smin 0.1 then 0%Q
  else (-1)%Q.

(** The two images handed to [ComputeNCC] for slice [inputIndex]. [output] is
    the local image the transformation filter writes to. *)
Definition ncc_operands (st : Reconstruction) (inputIndex : nat) (output : RealImage)
    : outcome (RealImage * RealImage) :=
  slice ← rd (_slices st) inputIndex;
  let output :=
    ImageTransformation false (source_padding st) (_reconstructed st) inputIndex output in
  let target :=
    GaussianBlurringWithPadding (GetXSize slice * 0.6)%Q (source_padding st) slice in
  let slice_mask := TransformMask target (_mask st) inputIndex in
  target ← image_mul target slice_mask;
  let output := Initialize (Attributes slice) in
  output ← image_mul output slice_mask;
  Done (target, output).

(** [output_ncc] for slice [inputIndex]: the value of [ComputeNCC], -1
    replaced by 1. *)
Definition output_ncc (st : Reconstruction) (inputIndex : nat) (output : RealImage)
    : outcome (Q * RealImage) :=
  '(target, output) ← ncc_operands st inputIndex output;
  ncc ← ComputeNCC target output 0;
  Done (if Qeq_bool ncc (-1) then 1%Q else ncc, output).

Definition StructuralExclusion (st : Reconstruction) : outcome Reconstruction :=
  '(st, _) ← foldM (fun '(st, output) inputIndex =>
                '(ncc, output) ← output_ncc st inputIndex output;
                w ← wr (_reg_slice_weight st) inputIndex
                       (if Qltb (_global_NCC_threshold st) ncc then 1 else -1)%Z;
                Done (set_reg_slice_weight w st, output))
             (seq 0 (length (_slices st))) (st, empty_image);
  Done st.

(** *** BackgroundFiltering *)

(** [img.GetRegion(0, 0, i, GetX, GetY, i + 1)]: the plane [z = i] as an image
    of one slice. *)
Definition GetRegion_plane (img : RealImage) (i : nat) : RealImage :=
  {| GetX := GetX img; GetY := GetY img; GetZ := 1; GetXSize := GetXSize img;
     Data := take (GetX img * GetY img) (drop (i * (GetX img * GetY img)) (Data img)) |}.

(** The value stored in [stack(x, y, i)]: the sum of the three filtered
    values, replaced by 1 when it is below 0. *)
Definition filtered_value (tmp_slice_b global_blurred tmp_slice : Q) : Q :=
  let v := (tmp_slice_b + global_blurred - tmp_slice)%Q in
  if Qltb v 0 then 1%Q else v.

(** The loop over the planes [i] and the pixels [x], [y] of one stack. *)
Definition filter_stack (gb2 gb3 : RealImage -> RealImage) (input : RealImage)
    : outcome RealImage :=
  let global_blurred := gb2 input in
  foldM (fun stack i =>
           let tmp_slice := GetRegion_plane input i in
           let tmp_slice_b := gb3 tmp_slice in
           let tmp_slice := gb2 tmp_slice in
           foldM (fun stack '(x, y) =>
                    b ← Get tmp_slice_b x y 0;
                    g ← Get global_blurred x y i;
                    t ← Get tmp_slice x y 0;
                    Put stack x y i (filtered_value b g t))
                 (pixels input) stack)
        (seq 0 (GetZ input)) input.

(** Returns the new contents of [stacks]. *)
Definition BackgroundFiltering (stacks : list RealImage) (fg_sigma bg_sigma : Q)
    : outcome (list RealImage) :=
  first ← rd stacks 0;
  let gb2 := GaussianBlurring (GetXSize first * bg_sigma)%Q in
  let gb3 := GaussianBlurring (GetXSize first * fg_sigma)%Q in
  foldM (fun stacks j =>
           input ← rd stacks j;
           stack ← filter_stack gb2 gb3 input;
           wr stacks j stack)
        (seq 0 (length stacks)) stacks.

End Engine.

(** ** The constructor *)

(** [Reconstruction::Reconstruction()] assigns the members below; the arrays
    and images are default-constructed (empty); the remaining scalars keep
    whatever [raw] holds. *)
Definition constructor (raw : Reconstruction) : Reconstruction :=
  let lambda := 0.1%Q in
  let delta := 1%Q in
  {| _slices := []; _simulated_slices := []; _simulated_weights := [];
     _simulated_inside := []; _weights := []; _bias := []; _slice_dif := [];
     _scale := []; _slice_weight := []; _reg_slice_weight := [];
     _slice_inside := []; _volcoeffs := []; _force_excluded := [];
     _small_slices := []; _reconstructed := empty_image; _mask := empty_image;
     _volume_weights := empty_image; _confidence_map := empty_image;
     _average_volume_weight := _average_volume_weight raw;
     _sigma := _sigma raw; _sigma_s := 0.025%Q; _sigma_s2 := 0.025%Q;
     _mix := 0.9%Q; _mix_s := 0.9%Q; _m := _m raw; _mean_s := _mean_s raw;
     _mean_s2 := _mean_s2 raw; _step := 0.0001%Q;
     _min_intensity := _min_intensity raw; _max_intensity := _max_intensity raw;
     _alpha := ((0.05 / lambda) * delta * delta)%Q; _lambda := lambda;
     _delta := delta; _low_intensity_cutoff := 0.01%Q; _sigma_bias := 12%Q;
     _global_NCC_threshold := 0.65%Q; _adaptive := false;
     _global_bias_correction := false; _z_slice_order := [];
     _t_slice_order := [] |}.

(** ** Slice acquisition order *)

Module SliceOrder.

(** [round(sqrt(double(n)))] for a non-negative [int n]: the integer nearest
    to the square root. With [r = floor (sqrt n)], the root lies below
    [r + 1/2] exactly when [n <= r*r + r]. *)
Definition round_sqrt (n : Z) : Z :=
  let r := Z.sqrt n in
  if (n <=? r * r + r)%Z then r else (r + 1)%Z.

(** [size_t] arithmetic wraps modulo 2^64. *)
Definition size_t_wrap (v : Z) : Z := (v mod 2 ^ 64)%Z.

(** The ascending / descending branch ([order == 1 || order == 2]): the
    [while (counter < attr._z)] loop. [z_ord] and [t_ord] are the local
    arrays [z_slice_order] and [t_slice_order]; an entry is [None] until it
    is written. [fuel] counts the iterations left, [attr._z - counter]. *)
Fixpoint ascending_loop (fuel : nat) (z pack order : Z)
    (counter slice_pos_counter p : Z)
    (z_ord t_ord : list (option Z)) : outcome (list (option Z) * list (option Z)) :=
  match fuel with
  | O => Done (z_ord, t_ord)
  | S fuel' =>
      z_ord ← wrZ z_ord counter (Some slice_pos_counter);
      t_ord ← wrZ t_ord slice_pos_counter (Some counter);
      let counter := (counter + 1)%Z in
      let slice_pos_counter := (slice_pos_counter + pack)%Z in
      let '(slice_pos_counter, p) :=
        if (order =? 1)%Z then
          if (slice_pos_counter >=? z)%Z then ((p + 1)%Z, (p + 1)%Z)
          else (slice_pos_counter, p)
        else
          if (slice_pos_counter <? 0)%Z then ((z - 1 - (p + 1))%Z, (p + 1)%Z)
          else (slice_pos_counter, p) in
      ascending_loop fuel' z pack order counter slice_pos_counter p z_ord t_ord
  end.

(** "middle part of the stack": [s * pack_num + p] for [s < slicesPerPackage]. *)
Definition middle_part (slicesPerPackage pack p : Z) : list Z :=
  map (fun s => (Z.of_nat s * pack + p)%Z) (seq 0 (Z.to_nat slicesPerPackage)).

(** "last slices for larger packages". *)
Definition last_part (z slicesPerPackage pack p : Z) : list Z :=
  if (z >? slicesPerPackage * pack)%Z then
    let slice_pos_counter := (slicesPerPackage * pack + p)%Z in
    if (slice_pos_counter <? z)%Z then [slice_pos_counter] else []
  else [].

(** The "shuffling" loop. [fuel] is the number of iterations left
    ([fakeAscending.size() - i]); [index] and [restart] are [size_t]. *)
Fixpoint shuffling (fuel : nat) (fakeAscending : list Z)
    (stepFactor rewinderFactor : Z) (index restart : Z)
    (realInterleaved : list Z) : outcome (list Z) :=
  match fuel with
  | O => Done realInterleaved
  | S fuel' =>
      let '(index, restart) :=
        if (index >=? Z.of_nat (length fakeAscending))%Z then
          let restart := size_t_wrap (restart + rewinderFactor) in
          (restart, restart)
        else (index, restart) in
      v ← rdZ fakeAscending index;
      shuffling fuel' fakeAscending stepFactor rewinderFactor
        (size_t_wrap (index + stepFactor)) restart (realInterleaved ++ [v])
  end.

(** The loop over the packages [p = 0 .. pack_num-1] of the interleaved
    branch. [stepFactor] is [None] while the variable is uninitialised. *)
Fixpoint package_loop (fuel : nat) (z pack order slicesPerPackage : Z)
    (rewinderFactor : Z) (stepFactor : option Z) (p counter : Z)
    (realInterleaved : list Z) : outcome (list Z) :=
  match fuel with
  | O => Done realInterleaved
  | S fuel' =>
      let '(stepFactor, counter) :=
        if (order =? 4)%Z then
          if (z - counter >? slicesPerPackage * pack)%Z
          then (Some (round_sqrt (slicesPerPackage + 1)), (counter + 1)%Z)
          else (Some (round_sqrt slicesPerPackage), counter)
        else (stepFactor, counter) in
      let fakeAscending :=
        middle_part slicesPerPackage pack p ++ last_part z slicesPerPackage pack p in
      realInterleaved ←
        match fakeAscending, stepFactor with
        | [], _ => Done realInterleaved
        | _ :: _, None => Undefined
        | _ :: _, Some sf =>
            shuffling (length fakeAscending) fakeAscending sf rewinderFactor 0 0
              realInterleaved
        end;
      package_loop fuel' z pack order slicesPerPackage rewinderFactor stepFactor
        (p + 1)%Z counter realInterleaved
  end.

(** The "saving" loop: [z_slice_order[i] = realInterleaved[i];
    t_slice_order[realInterleaved[i]] = i]. *)
Fixpoint saving (idxs : list nat) (realInterleaved : list Z)
    (z_ord t_ord : list (option Z)) : outcome (list (option Z) * list (option Z)) :=
  match idxs with
  | [] => Done (z_ord, t_ord)
  | i :: idxs' =>
      v ← rd realInterleaved i;
      z_ord ← wr z_ord i (Some v);
      t_ord ← wrZ t_ord v (Some (Z.of_nat i));
      saving idxs' realInterleaved z_ord t_ord
  end.

(** The "copying" loop reads every entry of a local array. *)
Fixpoint copying (a : list (option Z)) : outcome (list Z) :=
  match a with
  | [] => Done []
  | None :: _ => Undefined
  | Some v :: a' => r ← copying a'; Done (v :: r)
  end.

(** The body of the loop over the stacks, for a stack of [z] slices. *)
Definition stack_order (z pack order step rewinder : Z)
    : outcome (list Z * list Z) :=
  if (pack =? 0)%Z then Undefined else
  let slicesPerPackage := (z ÷ pack)%Z in
  let fresh := replicate (Z.to_nat z) (@None Z) in
  '(z_ord, t_ord) ←
    if ((order =? 1)%Z || (order =? 2)%Z) then
      ascending_loop (Z.to_nat z) z pack order 0 0 0 fresh fresh
    else
      let '(rewinderFactor, stepFactor) :=
        if (order =? 3)%Z then (1%Z, Some 2%Z)
        else if (order =? 4)%Z then (1%Z, None)
        else (rewinder, Some step) in
      realInterleaved ←
        package_loop (Z.to_nat pack) z pack order slicesPerPackage
          rewinderFactor stepFactor 0 0 [];
      saving (seq 0 (Z.to_nat z)) realInterleaved fresh fresh;
  zs ← copying z_ord;
  ts ← copying t_ord;
  Done (zs, ts).

(** The loop over the stacks, [dyn] being the index of the first of [stacks]. *)
Fixpoint stack_loop (st : Reconstruction) (stacks : list RealImage)
    (pack_num order : list Z) (step rewinder : Z) (dyn : nat)
    : outcome Reconstruction :=
  match stacks with
  | [] => Done st
  | stack :: stacks' =>
      pack ← rd pack_num dyn;
      ord ← rd order dyn;
      '(zs, ts) ← stack_order (Z.of_nat (GetZ stack)) pack ord step rewinder;
      stack_loop
        (set_t_slice_order (_t_slice_order st ++ ts)
           (set_z_slice_order (_z_slice_order st ++ zs) st))
        stacks' pack_num order step rewinder (S dyn)
  end.

Definition GetSliceAcquisitionOrder (st : Reconstruction) (stacks : list RealImage)
    (pack_num order : list Z) (step rewinder : Z) : outcome Reconstruction :=
  stack_loop st stacks pack_num order step rewinder 0.

End SliceOrder.

(** ** The vocabulary of the statements *)

(** The voxel array has one entry per voxel. *)
Definition wf_image (img : RealImage) : Prop :=
  length (Data img) = NumberOfVoxels img.

(** The value of a voxel, 0 outside the array. *)
Definition voxel (img : RealImage) (x y z : nat) : Q :=
  default 0%Q (Data img !! voxel_index img x y z).

(** The coordinates of a coefficient lie in the image. *)
Definition point_in (img : RealImage) (p : POINT3D) : Prop :=
  (0 <= px p < Z.of_nat (GetX img))%Z /\
  (0 <= py p < Z.of_nat (GetY img))%Z /\
  (0 <= pz p < Z.of_nat (GetZ img))%Z.

Definition same_dims (a b : RealImage) : Prop :=
  GetX a = GetX b /\ GetY a = GetY b /\ GetZ a = GetZ b.

(** The coefficient array of every slice that is not force-excluded has one
    list per pixel of the slice. *)
Definition coeffs_shaped (st : Reconstruction) : Prop :=
  forall inputIndex slice sc,
    excluded st inputIndex = false ->
    _slices st !! inputIndex = Some slice ->
    _volcoeffs st !! inputIndex = Some sc ->
    length sc = GetX slice /\ Forall (fun row => length row = GetY slice) sc.

(** The counted coefficients reference voxels of the volume. *)
Definition coeffs_in_volume (st : Reconstruction) : Prop :=
  Forall (point_in (_reconstructed st)) (counted_coefficients st).

(** The mask has a voxel for every voxel of the volume. *)
Definition mask_covers (st : Reconstruction) : Prop :=
  (NumberOfVoxels (_reconstructed st) <= length (Data (_mask st)))%nat.

(** The arrays of the EM steps are as long as [_slices] and the small slices
    are slices. *)
Definition em_arrays_ok (st : Reconstruction) : Prop :=
  (length (_slices st) <= length (_scale st))%nat /\
  (length (_slices st) <= length (_slice_weight st))%nat /\
  Forall (fun s => (0 <= s < Z.of_nat (length (_slices st)))%Z) (_small_slices st).

Definition unrealistic (scale : Q) : Prop := (scale < 0.2 \/ 5 < scale)%Q.

(** An index the force-exclusion loops of the EM steps act on. *)
Definition force_guard (st : Reconstruction) (fe : Z) : bool :=
  (0 <? fe)%Z && (fe <? Z.of_nat (length (_slices st)))%Z.

Definition lower_bound (st : Reconstruction) : Q := (_min_intensity st * 0.9)%Q.
Definition upper_bound (st : Reconstruction) : Q := (_max_intensity st * 1.1)%Q.



(** The value of [_reg_slice_weight[inputIndex]] from [output_ncc]. *)
Definition gate (st : Reconstruction) (ncc : Q) : Z :=
  if Qltb (_global_NCC_threshold st) ncc then 1%Z else (-1)%Z.

(** The three values read for the voxel [(x, y, i)] of a stack. *)
Definition filter_reads (gb2 gb3 : RealImage -> RealImage) (input : RealImage)
    (x y i : nat) (b g t : Q) : Prop :=
  Get (gb3 (GetRegion_plane input i)) x y 0 = Done b /\
  Get (gb2 input) x y i = Done g /\
  Get (gb2 (GetRegion_plane input i)) x y 0 = Done t.

(** Pixel [(x, y)] of the local copy [nt] of slice [inputIndex]: the slice
    value [t], multiplied by [exp(-b) * scale] when both [t] and the
    simulated value are positive. *)
Definition scaled_pixel (exp : Q -> Q) (st : Reconstruction) (inputIndex : nat)
    (slice ns nt : RealImage) (x y : nat) : Prop :=
  exists t, Get slice x y 0 = Done t /\
    ((t <= 0)%Q -> Get nt x y 0 = Done t) /\
    ((0 < t)%Q -> exists s, Get ns x y 0 = Done s /\
       ((s <= 0)%Q -> Get nt x y 0 = Done t) /\
       ((0 < s)%Q -> exists bias b scale,
          _bias st !! inputIndex = Some bias /\ Get bias x y 0 = Done b /\
          _scale st !! inputIndex = Some scale /\
          Get nt x y 0 = Done (t * (exp (- b) * scale))%Q)).

(** ** Example objects *)

Module Examples.

(** Storage before the constructor runs. *)
Definition blank : Reconstruction :=
  {| _slices := []; _simulated_slices := []; _simulated_weights := [];
     _simulated_inside := []; _weights := []; _bias := []; _slice_dif := [];
     _scale := []; _slice_weight := []; _reg_slice_weight := [];
     _slice_inside := []; _volcoeffs := []; _force_excluded := [];
     _small_slices := []; _reconstructed := empty_image; _mask := empty_image;
     _volume_weights := empty_image; _confidence_map := empty_image;
     _average_volume_weight := 0; _sigma := 0; _sigma_s := 0; _sigma_s2 := 0;
     _mix := 0; _mix_s := 0; _m := 0; _mean_s := 0; _mean_s2 := 0; _step := 0;
     _min_intensity := 0; _max_intensity := 0; _alpha := 0; _lambda := 0;
     _delta := 0; _low_intensity_cutoff := 0; _sigma_bias := 0;
     _global_NCC_threshold := 0; _adaptive := false;
     _global_bias_correction := false; _z_slice_order := [];
     _t_slice_order := [] |}.

Definition fresh : Reconstruction := constructor blank.

(** An image of voxel size 1. *)
Definition image (x y z : nat) (d : list Q) : RealImage :=
  {| GetX := x; GetY := y; GetZ := z; GetXSize := 1; Data := d |}.

(** Rational stand-ins for libm, exact at the arguments the examples use:
    a Taylor polynomial for [exp] ([exp 0 = 1]), the tangent at 1 for [log]
    ([log 1 = 0]), and the floor of the root of numerator times denominator
    over the denominator for [sqrt] (exact on squares of rationals). *)
Definition exp_poly (x : Q) : Q := (1 + x + x * x / 2 + x * x * x / 6)%Q.
Definition sqrt_floor (q : Q) : Q :=
  (inject_Z (Z.sqrt (Qnum q * Zpos (Qden q))) / inject_Z (Zpos (Qden q)))%Q.
Definition gauss (x s : Q) : Q := (exp_poly (- (x * x) / (2 * s)) / sqrt_floor (6.28 * s))%Q.

(** A filter that returns its input: what a linear filter does to the zero
    image and a normalised blur to a constant one. *)
Definition blur_id (sigma : Q) (img : RealImage) : RealImage := img.
Definition blur_padding_id (sigma padding : Q) (img : RealImage) : RealImage := img.

(** A transformation that maps every target voxel into the source and
    finds the value 1 there (the slice lies inside a mask of ones). *)
Definition transform_ones (interp : bool) (padding : Q) (input : RealImage)
    (inputIndex : nat) (output : RealImage) : RealImage :=
  with_Data output (map (fun _ => 1%Q) (Data output)).

(** Two slices of one pixel over a volume of one voxel; every pixel has the
    single coefficient (0, 0, 0, 1/2). *)
Definition pixel_slice (v : Q) : RealImage := image 1 1 1 [v].

Definition two_slices : Reconstruction :=
  let st := fresh in
  {| _slices := [pixel_slice 2; pixel_slice 4];
     _simulated_slices := [pixel_slice 1; pixel_slice 1];
     _simulated_weights := [pixel_slice 1; pixel_slice 1];
     _simulated_inside := [pixel_slice 1; pixel_slice 1];
     _weights := [pixel_slice 1; pixel_slice 1];
     _bias := [pixel_slice 0; pixel_slice 0];
     _slice_dif := [pixel_slice 0; pixel_slice 0];
     _scale := [1; 1]%Q; _slice_weight := [1; 1]%Q;
     _reg_slice_weight := [1; 1]%Z; _slice_inside := [true; true];
     _volcoeffs := []; _force_excluded := []; _small_slices := [];
     _reconstructed := image 1 1 1 [3%Q]; _mask := image 1 1 1 [1%Q];
     _volume_weights := empty_image; _confidence_map := empty_image;
     _average_volume_weight := 0; _sigma := 1; _sigma_s := _sigma_s st;
     _sigma_s2 := _sigma_s2 st; _mix := _mix st; _mix_s := _mix_s st; _m := 1;
     _mean_s := 0; _mean_s2 := 0; _step := _step st; _min_intensity := 2;
     _max_intensity := 4; _alpha := _alpha st; _lambda := _lambda st;
     _delta := _delta st; _low_intensity_cutoff := _low_intensity_cutoff st;
     _sigma_bias := _sigma_bias st;
     _global_NCC_threshold := _global_NCC_threshold st; _adaptive := false;
     _global_bias_correction := false; _z_slice_order := [];
     _t_slice_order := [] |}.

Definition half_coefficient (st : Reconstruction) (inputIndex : nat)
    : (list (list (list POINT3D))) * bool :=
  ([[[{| px := 0; py := 0; pz := 0; value := 0.5 |}]]], true).

(** [Parallel::EStep] finding the potential 1/2 for every slice. *)
Definition potential_half (st : Reconstruction) (inputIndex : nat) : RealImage * Q :=
  (pixel_slice 1, 0.5%Q).

(** [Parallel::MStep] with the given weight sum [mix]. *)
Definition sums_with_mix (mix : Q) (st : Reconstruction) : Q * Q * Q * Q * Q :=
  (1, mix, 4, 0, 10)%Q.

(** The user excludes slice 0, or slice 1. *)
Definition excluding_0 : Reconstruction := set_force_excluded [0%Z] two_slices.
Definition excluding_1 : Reconstruction := set_force_excluded [1%Z] two_slices.

(** Slice 1 with the scale 6. *)
Definition scale_6 : Reconstruction := set_scale [1; 6]%Q two_slices.

(** The largest finite [double]. *)
Definition DBL_MAX : Q := inject_Z ((2 ^ 53 - 1) * 2 ^ 971).

(** The NCC threshold 1. *)
Definition threshold_1 : Reconstruction := set_global_NCC_threshold 1 two_slices.

(** Slice 0 with the scale 3. *)
Definition scale_3 : Reconstruction := set_scale [3; 1]%Q two_slices.

(** The objects and values the example runs return. *)
Definition after_structural_exclusion : Reconstruction :=
  Eval vm_compute in
    match StructuralExclusion sqrt_floor transform_ones blur_padding_id two_slices with
    | Done st => st
    | _ => two_slices
    end.

Definition quality_of_scale_3 : Q :=
  Eval vm_compute in
    match EvaluateReconQuality exp_poly sqrt_floor scale_3 0 with
    | Done (r, _) => r
    | _ => 0%Q
    end.

(** A stack of two planes of two pixels. *)
Definition small_stack : RealImage := image 2 1 2 [0; 1; -3; 4]%Q.

End Examples.

(** Assignments to further members. *)

Definition set_slices (v : list RealImage) (st : Reconstruction) : Reconstruction :=
  {| _slices := v; _simulated_slices := _simulated_slices st;
     _simulated_weights := _simulated_weights st;
     _simulated_inside := _simulated_inside st; _weights := _weights st;
     _bias := _bias st; _slice_dif := _slice_dif st; _scale := _scale st;
     _slice_weight := _slice_weight st; _reg_slice_weight := _reg_slice_weight st;
     _slice_inside := _slice_inside st; _volcoeffs := _volcoeffs st;
     _force_excluded := _force_excluded st; _small_slices := _small_slices st;
     _reconstructed := _reconstructed st; _mask := _mask st;
     _volume_weights := _volume_weights st; _confidence_map := _confidence_map st;
     _average_volume_weight := _average_volume_weight st; _sigma := _sigma st;
     _sigma_s := _sigma_s st; _sigma_s2 := _sigma_s2 st; _mix := _mix st;
     _mix_s := _mix_s st; _m := _m st; _mean_s := _mean_s st; _mean_s2 := _mean_s2 st;
     _step := _step st; _min_intensity := _min_intensity st;
     _max_intensity := _max_intensity st; _alpha := _alpha st; _lambda := _lambda st;
     _delta := _delta st; _low_intensity_cutoff := _low_intensity_cutoff st;
     _sigma_bias := _sigma_bias st; _global_NCC_threshold := _global_NCC_threshold st;
     _adaptive := _adaptive st; _global_bias_correction := _global_bias_correction st;
     _z_slice_order := _z_slice_order st; _t_slice_order := _t_slice_order st |}.

Definition set_small_slices (v : list Z) (st : Reconstruction) : Reconstruction :=
  {| _slices := _slices st; _simulated_slices := _simulated_slices st;
     _simulated_weights := _simulated_weights st;
     _simulated_inside := _simulated_inside st; _weights := _weights st;
     _bias := _bias st; _slice_dif := _slice_dif st; _scale := _scale st;
     _slice_weight := _slice_weight st; _reg_slice_weight := _reg_slice_weight st;
     _slice_inside := _slice_inside st; _volcoeffs := _volcoeffs st;
     _force_excluded := _force_excluded st; _small_slices := v;
     _reconstructed := _reconstructed st; _mask := _mask st;
     _volume_weights := _volume_weights st; _confidence_map := _confidence_map st;
     _average_volume_weight := _average_volume_weight st; _sigma := _sigma st;
     _sigma_s := _sigma_s st; _sigma_s2 := _sigma_s2 st; _mix := _mix st;
     _mix_s := _mix_s st; _m := _m st; _mean_s := _mean_s st; _mean_s2 := _mean_s2 st;
     _step := _step st; _min_intensity := _min_intensity st;
     _max_intensity := _max_intensity st; _alpha := _alpha st; _lambda := _lambda st;
     _delta := _delta st; _low_intensity_cutoff := _low_intensity_cutoff st;
     _sigma_bias := _sigma_bias st; _global_NCC_threshold := _global_NCC_threshold st;
     _adaptive := _adaptive st; _global_bias_correction := _global_bias_correction st;
     _z_slice_order := _z_slice_order st; _t_slice_order := _t_slice_order st |}.

(** ** Masks, rescaling and intensity matching *)

(** [img.GetMinMax(&min, &max)]: the largest voxel value (0 for an image
    without voxels). *)
Definition image_max (img : RealImage) : Q :=
  match Data img with
  | [] => 0%Q
  | v :: d => fold_left Qmax d v
  end.

(** [a /= c] for a scalar [c]. *)
Definition image_divide (a : RealImage) (c : Q) : RealImage :=
  with_Data a (map (fun v => v / c)%Q (Data a)).

(** The loop [for (i = 0; i < img.NumberOfVoxels(); i++) ptr[i] = f(ptr[i])]
    over the voxel array of an image. *)
Definition each_voxel (f : Q -> Q) (img : RealImage) : outcome RealImage :=
  d ← foldM (fun d i => v ← rd d i; wr d i (f v))
        (seq 0 (NumberOfVoxels img)) (Data img);
  Done (with_Data img d).

(** [CreateMask(image)]: "binarise mask". *)
Definition CreateMask (image : RealImage) : outcome RealImage :=
  each_voxel (fun v => if Qltb 0.5 v then 1%Q else 0%Q) image.

(** [ThresholdNormalisedMask(image, threshold)]. *)
Definition ThresholdNormalisedMask (image : RealImage) (threshold : Q)
    : outcome RealImage :=
  let smax := image_max image in
  let image := if Qltb 0 smax then image_divide image smax else image in
  each_voxel (fun v => if Qltb threshold v then 1%Q else 0%Q) image.

(** [Rescale(img, max)]. *)
Definition Rescale (img : RealImage) (max : Q) : outcome RealImage :=
  let max_val := image_max img in
  each_voxel (fun v => if Qltb 0 v then (v / max_val * max)%Q else v) img.

(** The loop of [MaskVolume] and [MaskImage]:
    [if (pm[i] == 0) pr[i] = padding]. *)
Definition pad_outside (mask image : RealImage) (padding : Q) : outcome RealImage :=
  pr ← foldM (fun pr i =>
                m ← rd (Data mask) i;
                if Qeq_bool m 0 then wr pr i padding else Done pr)
         (seq 0 (NumberOfVoxels image)) (Data image);
  Done (with_Data image pr).

Definition MaskVolume (st : Reconstruction) : outcome Reconstruction :=
  reconstructed ← pad_outside (_mask st) (_reconstructed st) (-1);
  Done (set_reconstructed reconstructed st).

(** [MaskImage(image, padding)]: returns the new value of [image]. *)
Definition MaskImage (st : Reconstruction) (image : RealImage) (padding : Q)
    : outcome RealImage :=
  if decide (NumberOfVoxels image = NumberOfVoxels (_mask st)) then
    pad_outside (_mask st) image padding
  else Exited 1.

(** The voxel positions [(i, j, k)] of the loops
    [for (i < GetX) for (j < GetY) for (k < GetZ)]. *)
Definition voxels (img : RealImage) : list (nat * nat * nat) :=
  i ← seq 0 (GetX img); j ← seq 0 (GetY img); k ← seq 0 (GetZ img); [(i, j, k)].

Section Matching.

(** [RigidTransformation] (MIRTK). *)
Variable RigidTransformation : Type.

(** "Calculate the averages of intensities": [sum] and [num] for the stack
    [ind]. The coordinates [x], [y], [z] the loop computes from
    [stack_transformations[ind]] are not used afterwards. *)
Definition stack_sums (stacks : list RealImage)
    (stack_transformations : list RigidTransformation) (ind : nat)
    : outcome (Q * Q) :=
  stack ← rd stacks ind;
  foldM (fun '(sum, num) '(i, j, k) =>
           _ ← rd stack_transformations ind;
           v ← Get stack i j k;
           if Qltb 0 v then Done ((sum + v)%Q, (num + 1)%Q)
           else Done (sum, num))
        (voxels stack) (0%Q, 0%Q).

(** The loop over the stacks that fills [stack_average]; a stack without a
    positive voxel ends the program. *)
Definition stack_averages (stacks : list RealImage)
    (stack_transformations : list RigidTransformation) : outcome (list Q) :=
  foldM (fun stack_average ind =>
           '(sum, num) ← stack_sums stacks stack_transformations ind;
           if Qltb 0 num then Done (stack_average ++ [(sum / num)%Q])
           else Exited 1)
        (seq 0 (length stacks)) [].

(** [global_average]: 0, or the mean of [stack_average] when the stacks are
    matched together. *)
Definition global_average_of (stack_average : list Q) (together : bool) : Q :=
  if together then
    (fold_left Qplus stack_average 0 / inject_Z (Z.of_nat (length stack_average)))%Q
  else 0%Q.

(** "Rescale stacks": [if (ptr[i] > 0) ptr[i] *= factor]. *)
Definition rescale_stack (factor : Q) (stack : RealImage) : outcome RealImage :=
  each_voxel (fun v => if Qltb 0 v then (v * factor)%Q else v) stack.

(** The members [MatchStackIntensities] assigns, with the stacks as it
    leaves them. *)
Record Matched : Type := {
  matched_stacks : list RealImage;
  _stack_factor : list Q;
  _average_value : Q
}.

Definition MatchStackIntensities (stacks : list RealImage)
    (stack_transformations : list RigidTransformation)
    (averageValue : Q) (together : bool) : outcome Matched :=
  stack_average ← stack_averages stacks stack_transformations;
  let global_average := global_average_of stack_average together in
  '(stacks, stack_factor) ←
     foldM (fun '(stacks, stack_factor) ind =>
              average ← (if together then Done global_average
                         else rd stack_average ind);
              let factor := (averageValue / average)%Q in
              stack ← rd stacks ind;
              stack ← rescale_stack factor stack;
              stacks ← wr stacks ind stack;
              Done (stacks, stack_factor ++ [factor]))
           (seq 0 (length stacks)) (stacks, []);
  Done {| matched_stacks := stacks; _stack_factor := stack_factor;
          _average_value := averageValue |}.

End Matching.

(** [RestoreSliceIntensities]: [_stack_index] and [_stack_factor] are the
    members of that name. *)
Definition RestoreSliceIntensities (_stack_factor : list Q) (_stack_index : list Z)
    (st : Reconstruction) : outcome Reconstruction :=
  slices ← foldM (fun slices inputIndex =>
                    stack ← rd _stack_index inputIndex;
                    factor ← rdZ _stack_factor stack;
                    slice ← rd slices inputIndex;
                    slice ← each_voxel
                              (fun v => if Qltb 0 v then (v / factor)%Q else v) slice;
                    wr slices inputIndex slice)
              (seq 0 (length (_slices st))) (_slices st);
  Done (set_slices slices st).

(** ** Splitting a stack into packages *)

(** The positions [(i, j, k)] of the loops
    [for (k < GetZ) for (j < GetY) for (i < GetX)]. *)
Definition voxels_by_plane (img : RealImage) : list (nat * nat * nat) :=
  k ← seq 0 (GetZ img); j ← seq 0 (GetY img); i ← seq 0 (GetX img); [(i, j, k)].

(** The number of planes of package [l]: [attr._z] after the [if]. *)
Definition package_planes (z packages l : Z) : Z :=
  let pkg_z := (z ÷ packages)%Z in
  if (pkg_z * packages + l <? z)%Z then (pkg_z + 1)%Z else pkg_z.

(** "fill values in each stack": package [l] of [image]. [RealImage stack(attr)]
    is an image of zeros. The origin the code adjusts afterwards is not part
    of the image model. *)
Definition package (image : RealImage) (packages : Z) (l : nat) : outcome RealImage :=
  let attr_z := package_planes (Z.of_nat (GetZ image)) packages (Z.of_nat l) in
  let stack :=
    Initialize {| _x := GetX image; _y := GetY image; _z := Z.to_nat attr_z;
                  _dx := GetXSize image |} in
  foldM (fun stack '(i, j, k) =>
           v ← Get image i j (Z.to_nat (Z.of_nat k * packages + Z.of_nat l));
           Put stack i j k v)
        (voxels_by_plane stack) stack.

(** [SplitImage(image, packages, stacks)]: the new contents of [stacks].
    [packages] is an [int]; the quotient [attr._z / packages] by 0 is
    undefined. The model is for [packages >= 0]: with a negative count
    [ClearAndReserve(stacks, packages)] throws [std::length_error], which
    the outcomes of the model do not include. *)
Definition SplitImage (image : RealImage) (packages : Z) : outcome (list RealImage) :=
  if (packages =? 0)%Z then Undefined
  else
    foldM (fun stacks l => stack ← package image packages l; Done (stacks ++ [stack]))
          (seq 0 (Z.to_nat packages)) [].

(** [SplitImageEvenOdd(image, packages, stacks)]. *)
Definition SplitImageEvenOdd (image : RealImage) (packages : Z)
    : outcome (list RealImage) :=
  packs ← SplitImage image packages;
  foldM (fun stacks i =>
           pack ← rd packs i;
           packs2 ← SplitImage pack 2;
           even ← rd packs2 0;
           odd ← rd packs2 1;
           Done (stacks ++ [even; odd]))
        (seq 0 (length packs)) [].

(** ** Cropping to the mask *)

(** The values [n-1, ..., 0] of a loop [for (i = n - 1; i >= 0; i--)]. *)
Definition descending (n : nat) : list nat := rev (seq 0 n).

(** The positions the inner loops of [CropImage] visit for a fixed [k], a
    fixed [j] and a fixed [i]. *)
Definition positions_z (image : RealImage) (k : nat) : list (nat * nat * nat) :=
  j ← descending (GetY image); i ← descending (GetX image); [(i, j, k)].

Definition positions_y (image : RealImage) (j : nat) : list (nat * nat * nat) :=
  k ← descending (GetZ image); i ← descending (GetX image); [(i, j, k)].

Definition positions_x (image : RealImage) (i : nat) : list (nat * nat * nat) :=
  k ← descending (GetZ image); j ← descending (GetY image); [(i, j, k)].

(** [sum]: the number of the positions at which [mask.Get(i, j, k) > 0]. *)
Definition count_positive (mask : RealImage) (ps : list (nat * nat * nat))
    : outcome nat :=
  foldM (fun sum '(i, j, k) =>
           v ← Get mask i j k; Done (if Qltb 0 v then S sum else sum))
        ps O.

(** [for (k = n - 1; k >= 0; k--) { sum = ...; if (sum > 0) break; }]: the
    value of [k] after the loop, -1 when no [sum] is positive. *)
Fixpoint scan_down (count : nat -> outcome nat) (n : nat) : outcome Z :=
  match n with
  | O => Done (-1)%Z
  | S m =>
      sum ← count m;
      if (0 <? sum)%nat then Done (Z.of_nat m) else scan_down count m
  end.

(** [for (k = 0; k <= n - 1; k++) { sum = ...; if (sum > 0) break; }]: the
    value of [k] after the loop, [n] when no [sum] is positive. [fuel] is the
    number of values of [k] left. *)
Fixpoint scan_up (count : nat -> outcome nat) (fuel k : nat) : outcome Z :=
  match fuel with
  | O => Done (Z.of_nat k)
  | S fuel' =>
      sum ← count k;
      if (0 <? sum)%nat then Done (Z.of_nat k) else scan_up count fuel' (S k)
  end.

(** The six boundaries [x1, y1, z1, x2, y2, z2] before the test for an empty
    intersection. *)
Definition mask_bounds (image mask : RealImage) : outcome (Z * Z * Z * Z * Z * Z) :=
  let count_z k := count_positive mask (positions_z image k) in
  let count_y j := count_positive mask (positions_y image j) in
  let count_x i := count_positive mask (positions_x image i) in
  z2 ← scan_down count_z (GetZ image);
  z1 ← scan_up count_z (GetZ image) 0;
  y2 ← scan_down count_y (GetY image);
  y1 ← scan_up count_y (GetY image) 0;
  x2 ← scan_down count_x (GetX image);
  x1 ← scan_up count_x (GetX image) 0;
  Done (x1, y1, z1, x2, y2, z2).

(** "if no intersection with mask, force exclude". *)
Definition crop_box (b : Z * Z * Z * Z * Z * Z) : Z * Z * Z * Z * Z * Z :=
  let '(x1, y1, z1, x2, y2, z2) := b in
  if (x2 <=? x1)%Z || (y2 <=? y1)%Z || (z2 <=? z1)%Z then (0, 0, 0, 0, 0, 0)%Z
  else b.

Section Cropping.

(** [image.GetRegion(x1, y1, z1, x2, y2, z2)] (MIRTK). *)
Variable GetRegion : RealImage -> Z -> Z -> Z -> Z -> Z -> Z -> outcome RealImage.

(** [CropImage(image, mask)]: the new value of [image]. *)
Definition CropImage (image mask : RealImage) : outcome RealImage :=
  b ← mask_bounds image mask;
  let '(x1, y1, z1, x2, y2, z2) := crop_box b in
  GetRegion image x1 y1 z1 (x2 + 1) (y2 + 1) (z2 + 1).

End Cropping.

(** ** GaussianReconstruction *)

(** [std::nth_element(first, first + n, last)] leaves at position [n] the
    element that is there when the range is sorted. *)
Fixpoint insert_sorted (v : Z) (l : list Z) : list Z :=
  match l with
  | [] => [v]
  | w :: l' => if (v <=? w)%Z then v :: l else w :: insert_sorted v l'
  end.

Definition sorted (l : list Z) : list Z := foldr insert_sorted [] l.

(** [median = round(voxel_num_tmp.size() * 0.5) - 1]: halves are rounded
    away from zero. *)
Definition median_index (size : nat) : Z := (Z.of_nat ((size + 1) / 2) - 1)%Z.

(** "find median": [nth_element] and the read [voxel_num_tmp[median]]. *)
Definition median_of (voxel_num : list Z) : outcome Z :=
  rdZ (sorted voxel_num) (median_index (length voxel_num)).

(** "remember slices with small overlap with ROI": the positions [i] of
    [voxel_num] with [voxel_num[i] < 0.1 * median]. *)
Definition small_slices (voxel_num : list Z) (median : Z) : outcome (list Z) :=
  foldM (fun small i =>
           n ← rd voxel_num i;
           if Qltb (inject_Z n) (0.1 * inject_Z median) then Done (small ++ [Z.of_nat i])
           else Done small)
        (seq 0 (length voxel_num)) [].

Section Gaussian.

(** libm. *)
Variable exp : Q -> Q.

(** [a /= b] on images (MIRTK). *)
Variable image_quotient : RealImage -> RealImage -> outcome RealImage.

(** [_reconstructed(p.x, p.y, p.z) += p.value * slice(i, j, 0)]. *)
Definition add_contribution (v : Q) (reconstructed : RealImage) (p : POINT3D)
    : outcome RealImage :=
  old ← GetP reconstructed p; PutP reconstructed p (old + value p * v)%Q.

(** "Distribute slice intensities to the volume" for one slice: the volume
    and [slice_vox_num] after the pixel loop. [slice] is the local copy of
    [_slices[inputIndex]], scaled in place. *)
Definition distribute_slice (st : Reconstruction) (reconstructed : RealImage)
    (inputIndex : nat) : outcome (RealImage * Z) :=
  slice ← rd (_slices st) inputIndex;
  b ← rd (_bias st) inputIndex;
  scale ← rd (_scale st) inputIndex;
  '(_, reconstructed, slice_vox_num) ←
     foldM (fun '(slice, reconstructed, slice_vox_num) '(i, j) =>
              v ← Get slice i j 0;
              if Qltb (-0.01) v then
                bias ← Get b i j 0;
                slice ← Put slice i j 0 (v * (exp (- bias) * scale))%Q;
                c ← coeffs_at st inputIndex i j;
                let slice_vox_num :=
                  if (0 <? length c)%nat then (slice_vox_num + 1)%Z else slice_vox_num in
                v ← Get slice i j 0;
                reconstructed ← foldM (add_contribution v) c reconstructed;
                Done (slice, reconstructed, slice_vox_num)
              else Done (slice, reconstructed, slice_vox_num))
           (pixels slice) (slice, reconstructed, 0%Z);
  Done (reconstructed, slice_vox_num).

(** The loop over the slices: the volume and [voxel_num]. A force-excluded
    slice is skipped and gets no entry in [voxel_num]. *)
Definition distribute (st : Reconstruction) : outcome (RealImage * list Z) :=
  foldM (fun '(reconstructed, voxel_num) inputIndex =>
           if excluded st inputIndex then Done (reconstructed, voxel_num)
           else
             '(reconstructed, slice_vox_num) ←
                distribute_slice st reconstructed inputIndex;
             Done (reconstructed, voxel_num ++ [slice_vox_num]))
        (seq 0 (length (_slices st)))
        (Initialize (Attributes (_reconstructed st)), []).

Definition GaussianReconstruction (st : Reconstruction) : outcome Reconstruction :=
  '(reconstructed, voxel_num) ← distribute st;
  reconstructed ← image_quotient reconstructed (_volume_weights st);
  median ← median_of voxel_num;
  small ← small_slices voxel_num median;
  Done (set_small_slices small (set_reconstructed reconstructed st)).

End Gaussian.

(** ** Cropping in the plane *)

(** [for (k = n - 1; k >= 0; k--) { sum = ...; if (sum > 0) { k++; break; } }]:
    the value of [k] after the loop, -1 when no [sum] is positive. *)
Fixpoint scan_down_past (count : nat -> outcome nat) (n : nat) : outcome Z :=
  match n with
  | O => Done (-1)%Z
  | S m =>
      sum ← count m;
      if (0 <? sum)%nat then Done (Z.of_nat m + 1)%Z else scan_down_past count m
  end.

(** The values [from, ..., to - 1] of a loop [for (k = from; k < to; k++)]. *)
Definition ascending_from (from to : Z) : list Z :=
  (fun d => (from + Z.of_nat d)%Z) <$> seq 0 (Z.to_nat (to - from)).

(** [image.Put(i, j, k, v)] with an [int] plane [k]. *)
Definition PutZ (img : RealImage) (x y : nat) (z : Z) (v : Q) : outcome RealImage :=
  if decide (0 <= z)%Z then Put img x y (Z.to_nat z) v else Undefined.

(** "Filling upper part", "Filling lower part":
    [for (k = from; k < to; k++) for (j < GetY) for (i < GetX)
       image.Put(i, j, k, 0)]. *)
Definition fill_planes (image : RealImage) (from to : Z) : outcome RealImage :=
  foldM (fun image '(i, j, k) => PutZ image i j k 0%Q)
        (k ← ascending_from from to; j ← seq 0 (GetY image);
         i ← seq 0 (GetX image); [(i, j, k)])
        image.

Section CroppingIgnoreZ.

Variable GetRegion : RealImage -> Z -> Z -> Z -> Z -> Z -> Z -> outcome RealImage.

(** [CropImageIgnoreZ(image, mask)]: the new value of [image]. *)
Definition CropImageIgnoreZ (image mask : RealImage) : outcome RealImage :=
  let count_z image k := count_positive mask (positions_z image k) in
  let count_y image j := count_positive mask (positions_y image j) in
  let count_x image i := count_positive mask (positions_x image i) in
  z2 ← scan_down_past (count_z image) (GetZ image);
  z1 ← scan_up (count_z image) (GetZ image) 0;
  image ← fill_planes image z2 (Z.of_nat (GetZ image));
  image ← fill_planes image 0 z1;
  let z1 := 0%Z in
  let z2 := (Z.of_nat (GetZ image) - 1)%Z in
  y2 ← scan_down (count_y image) (GetY image);
  y1 ← scan_up (count_y image) (GetY image) 0;
  x2 ← scan_down (count_x image) (GetX image);
  x1 ← scan_up (count_x image) (GetX image) 0;
  let '(x1, y1, z1, x2, y2, z2) := crop_box (x1, y1, z1, x2, y2, z2) in
  GetRegion image x1 y1 z1 (x2 + 1) (y2 + 1) (z2 + 1).

End CroppingIgnoreZ.

(** ** The passes of [svrtk/Parallel.h] in [Superresolution], after the
       specification *)








Section Regularisation.

(** libm. *)
Variable exp : Q -> Q.





End Regularisation.

(** ** The vocabulary of the further statements *)

(** The value [MaskVolume] and [MaskImage] leave in a voxel that held [v],
    the mask holding [m]. *)
Definition padded (padding : Q) (v m : Q) : Q := if Qeq_bool m 0 then padding else v.

(** The value the rescaling loops leave in a voxel that held [v]. *)
Definition rescaled (factor v : Q) : Q := if Qltb 0 v then (v * factor)%Q else v.

(** The image has a voxel above 0. *)
Definition has_positive_voxel (img : RealImage) : Prop :=
  exists i j k v, Get img i j k = Done v /\ (0 < v)%Q.

(** The run is not undefined: it returns, or it leaves the program with the
    given code. *)
Definition defined {A : Type} (code : Z) (m : outcome A) : Prop :=
  match m with
  | Done _ => True
  | Exited c => c = code
  | Undefined => False
  end.

(** The average [MatchStackIntensities] divides [averageValue] by for the
    stack [ind]. *)
Definition matching_average (stack_average : list Q) (together : bool) (ind : nat)
    : option Q :=
  if together then Some (global_average_of stack_average together)
  else stack_average !! ind.

(** The value [RestoreSliceIntensities] leaves in a voxel that held [v]. *)
Definition restored (factor v : Q) : Q := if Qltb 0 v then (v / factor)%Q else v.

(** The written entries of the local arrays [z_slice_order] and
    [t_slice_order] agree: an entry [c] at position [p] of the second comes
    with the entry [p] at position [c] of the first. *)
Definition orders_agree (z_ord t_ord : list (option Z)) : Prop :=
  forall p c, t_ord !! p = Some (Some c) ->
    (0 <= c)%Z /\ z_ord !! Z.to_nat c = Some (Some (Z.of_nat p)).

(** [zs] is an order of the slices [0 .. n-1] and [ts] is its inverse. *)
Definition slice_order (n : nat) (zs ts : list Z) : Prop :=
  zs ≡ₚ Z.of_nat <$> seq 0 n /\
  (forall i p, zs !! i = Some p -> ts !! Z.to_nat p = Some (Z.of_nat i)) /\
  (forall p i, ts !! p = Some i -> zs !! Z.to_nat i = Some (Z.of_nat p)).

(** Voxel [(i, j, k)] of the image lies where the mask is above 0. *)
Definition in_mask (image mask : RealImage) (i j k : nat) : Prop :=
  in_image image i j k /\ exists v, Get mask i j k = Done v /\ (0 < v)%Q.

(** The mask has a voxel for every voxel of the image. *)
Definition mask_over (image mask : RealImage) : Prop :=
  wf_image mask /\ forall i j k, in_image image i j k -> in_image mask i j k.

(** The slices [GaussianReconstruction] distributes: the indices that are
    not force-excluded, in order. *)
Definition distributed_slices (st : Reconstruction) : list nat :=
  List.filter (fun inputIndex => negb (excluded st inputIndex))
    (seq 0 (length (_slices st))).

(** The object with the data of slice [k] replaced: its image, bias field,
    scale and coefficients. *)
Definition with_slice (k : nat) (slice bias : RealImage) (scale : Q)
    (coeffs : list (list (list POINT3D))) (st : Reconstruction) : Reconstruction :=
  set_slices (<[k:=slice]> (_slices st))
    (set_bias (<[k:=bias]> (_bias st))
       (set_scale (<[k:=scale]> (_scale st))
          (set_volcoeffs (<[k:=coeffs]> (_volcoeffs st)) st))).

(** The voxel values of the image above the threshold. *)
Definition above (threshold : Q) (a : RealImage) : list Q :=
  List.filter (Qltb threshold) (Data a).

(** The voxel weights and the bias field [InitializeEMValues] stores for a
    slice, and the slices its force-exclusion loop reaches. *)
Definition initial_weight (v : Q) : Q := if Qltb (-0.01) v then 1%Q else 0%Q.

Definition unit_weights (slice : RealImage) : RealImage :=
  with_Data slice (map initial_weight (Data slice)).

Definition zero_bias (slice : RealImage) : RealImage :=
  with_Data slice (map (fun _ => 0%Q) (Data slice)).

Definition force_excluded_positive (st : Reconstruction) (i : nat) : bool :=
  bool_decide ((0 < i)%nat /\ Z.of_nat i ∈ _force_excluded st).

(** The voxel [CropImageIgnoreZ] leaves at plane [k] before it cuts the
    region: the voxel of the image within the planes [z1 .. z2] of the mask,
    0 outside. *)
Definition within_planes (z1 z2 : Z) (image : RealImage) (i j k : nat) : Q :=
  if decide (z1 <= Z.of_nat k <= z2)%Z then voxel image i j k else 0%Q.



Section ClaimedOperands.

Variable ImageTransformation : bool -> Q -> RealImage -> nat -> RealImage -> RealImage.
Variable GaussianBlurringWithPadding : Q -> Q -> RealImage -> RealImage.

(** The operands of the specification, in its words: "the masked blurred
    slice and the masked resampled volume", the volume resampled onto the
    grid of the slice. This is [ncc_operands] with [output.Initialize]
    before the transformation filter runs, the order of [VolumeNCC]
    (l.576-588). *)
Definition resampled_operands (st : Reconstruction) (inputIndex : nat)
    : outcome (RealImage * RealImage) :=
  slice ← rd (_slices st) inputIndex;
  let output :=
    ImageTransformation false (source_padding st) (_reconstructed st) inputIndex
      (Initialize (Attributes slice)) in
  let target :=
    GaussianBlurringWithPadding (GetXSize slice * 0.6)%Q (source_padding st) slice in
  let slice_mask := TransformMask ImageTransformation target (_mask st) inputIndex in
  target ← image_mul target slice_mask;
  output ← image_mul output slice_mask;
  Done (target, output).

End ClaimedOperands.

(** ** Further example objects *)

Module Cases.

Import Examples.

(** A mask over [small_stack] with the voxels of column 1. *)
Definition column_mask : RealImage := image 2 1 2 [0; 1; 0; 1]%Q.

(** A cube of eight voxels and a mask with two opposite corners of it. *)
Definition cube : RealImage := image 2 2 2 [1; 2; 3; 4; 5; 6; 7; 8]%Q.
Definition diagonal_mask : RealImage := image 2 2 2 [1; 0; 0; 0; 0; 0; 0; 1]%Q.

(** A mask over [small_stack] without a voxel above 0. *)
Definition no_mask : RealImage := image 2 1 2 [0; 0; 0; 0]%Q.

(** An image of one plane and a mask with two of its corners. *)
Definition plane : RealImage := image 2 2 1 [1; 2; 3; 4]%Q.
Definition plane_mask : RealImage := image 2 2 1 [1; 0; 0; 1]%Q.

(** A stack without a positive voxel. *)
Definition dark_stack : RealImage := image 1 1 1 [0%Q].

(** A line of five voxels. *)
Definition ramp : RealImage := image 5 1 1 [1; 2; 3; 4; 5]%Q.

(** [image.GetRegion(x1, y1, z1, x2, y2, z2)] (MIRTK) by voxel copy. *)
Definition region (img : RealImage) (x1 y1 z1 x2 y2 z2 : Z) : outcome RealImage :=
  let nx := Z.to_nat (x2 - x1) in
  let ny := Z.to_nat (y2 - y1) in
  let nz := Z.to_nat (z2 - z1) in
  Done {| GetX := nx; GetY := ny; GetZ := nz; GetXSize := GetXSize img;
          Data := k ← seq 0 nz; j ← seq 0 ny; i ← seq 0 nx;
                  [default 0%Q (Data img !! voxel_index img
                                  (Z.to_nat x1 + i) (Z.to_nat y1 + j) (Z.to_nat z1 + k))] |}.

(** [a /= b] on images of equal attributes. *)
Definition quotient (a b : RealImage) : outcome RealImage :=
  if same_attributes a b then
    Done (with_Data a (zip_with Qdiv (Data a) (Data b)))
  else Exited 1.

(** A density that is positive everywhere. *)
Definition bell (x s : Q) : Q := (1 / (1 + x * x))%Q.

(** The two slices with their coefficients and the volume weights 1. *)
Definition with_coefficients : Reconstruction :=
  set_volume_weights (image 1 1 1 [1%Q])
    (set_volcoeffs [fst (half_coefficient two_slices 0);
                    fst (half_coefficient two_slices 1)] two_slices).

(** Every slice force-excluded. *)
Definition all_excluded : Reconstruction :=
  set_force_excluded [0; 1]%Z with_coefficients.

(** The slices of [two_slices] after matching with the factor 2, stored
    with the stack factor and the stack index of each. *)
Definition originals : list RealImage := [pixel_slice 2; pixel_slice 4].

Definition matched : Reconstruction :=
  set_slices (map (fun o => with_Data o (map (rescaled 2) (Data o))) originals)
    two_slices.







(** A transformation filter for the identity transformation: the value of
    the source at the voxel of the target. *)
Definition transform_identity (interp : bool) (padding : Q) (input : RealImage)
    (inputIndex : nat) (output : RealImage) : RealImage :=
  with_Data output
    (map (fun '(i, j, k) => voxel input i j k) (voxels_by_plane output)).

(** A slice of five pixels over a volume of the same grid whose values are
    in another order; the mask is 1 everywhere. *)
Definition reordered : Reconstruction :=
  set_reg_slice_weight [1%Z]
    (set_slices [image 5 1 1 [1; 2; 3; 4; 5]%Q]
       (set_reconstructed (image 5 1 1 [3; 5; 1; 2; 4]%Q)
          {| _slices := []; _simulated_slices := []; _simulated_weights := [];
             _simulated_inside := []; _weights := []; _bias := []; _slice_dif := [];
             _scale := [1%Q]; _slice_weight := [1%Q]; _reg_slice_weight := [];
             _slice_inside := [true]; _volcoeffs := []; _force_excluded := [];
             _small_slices := []; _reconstructed := empty_image;
             _mask := image 5 1 1 [1; 1; 1; 1; 1]%Q;
             _volume_weights := empty_image; _confidence_map := empty_image;
             _average_volume_weight := 0; _sigma := 1; _sigma_s := _sigma_s fresh;
             _sigma_s2 := _sigma_s2 fresh; _mix := _mix fresh; _mix_s := _mix_s fresh;
             _m := 1; _mean_s := 0; _mean_s2 := 0; _step := _step fresh;
             _min_intensity := 1; _max_intensity := 5; _alpha := _alpha fresh;
             _lambda := _lambda fresh; _delta := _delta fresh;
             _low_intensity_cutoff := _low_intensity_cutoff fresh;
             _sigma_bias := _sigma_bias fresh;
             _global_NCC_threshold := _global_NCC_threshold fresh;
             _adaptive := false; _global_bias_correction := false;
             _z_slice_order := []; _t_slice_order := [] |})).

(** The objects the example runs return. *)
Definition after_gaussian : Reconstruction :=
  Eval vm_compute in
    match GaussianReconstruction exp_poly quotient with_coefficients with
    | Done st => st
    | _ => with_coefficients
    end.

Definition after_ordering : Reconstruction :=
  Eval vm_compute in
    match SliceOrder.GetSliceAcquisitionOrder fresh
            [image 1 1 12 []; image 1 1 4 []] [4; 2]%Z [3; 1]%Z 2 1 with
    | Done st => st
    | _ => fresh
    end.

End Cases.

(** * Properties *)

(** ** Outcomes, arrays and loops *)

Lemma bind_Done {A B : Type} (m : outcome A) (k : A -> outcome B) (b : B) :
  m ≫= k = Done b -> exists a, m = Done a /\ k a = Done b.
Proof. destruct m as [a| |]; cbn; try discriminate. eauto. Qed.

Lemma bind_Done_l {A B : Type} (m : outcome A) (k : A -> outcome B) (a : A) :
  m = Done a -> m ≫= k = k a.
Proof. now intros ->. Qed.

(** Split a hypothesis [x ← m; k = Done b] into its two runs. *)
Tactic Notation "bind_inv" hyp(H) "as" ident(a) ident(Ha) :=
  apply bind_Done in H; destruct H as (a & Ha & H).

Lemma rd_Done {A : Type} (a : list A) (i : nat) (v : A) :
  rd a i = Done v <-> a !! i = Some v.
Proof. unfold rd. destruct (a !! i); split; congruence. Qed.

Lemma rd_lt {A : Type} (a : list A) (i : nat) :
  (i < length a)%nat -> exists v, rd a i = Done v /\ a !! i = Some v.
Proof.
  intros Hi. destruct (lookup_lt_is_Some_2 a i Hi) as [v Hv].
  exists v. split; [now apply rd_Done | exact Hv].
Qed.

Lemma wr_Done {A : Type} (a a' : list A) (i : nat) (v : A) :
  wr a i v = Done a' <-> (i < length a)%nat /\ a' = <[i:=v]> a.
Proof. unfold wr. case_decide; split; intros; try congruence; intuition congruence. Qed.

Lemma wr_lt {A : Type} (a : list A) (i : nat) (v : A) :
  (i < length a)%nat -> wr a i v = Done (<[i:=v]> a).
Proof. intros. now apply wr_Done. Qed.

Lemma wrZ_Done {A : Type} (a a' : list A) (i : Z) (v : A) :
  wrZ a i v = Done a' <->
  (0 <= i)%Z /\ (Z.to_nat i < length a)%nat /\ a' = <[Z.to_nat i:=v]> a.
Proof.
  unfold wrZ. case_decide.
  - rewrite wr_Done. tauto.
  - split; [discriminate | tauto].
Qed.

Lemma foldM_app {S A : Type} (f : S -> A -> outcome S) (l1 l2 : list A) (s : S) :
  foldM f (l1 ++ l2) s = foldM f l1 s ≫= foldM f l2.
Proof.
  revert s. induction l1 as [|a l1 IH]; intros s; cbn; [reflexivity|].
  destruct (f s a); cbn; auto.
Qed.

Lemma foldM_ext {S A : Type} (f g : S -> A -> outcome S) (l : list A) (s : S) :
  (forall s a, a ∈ l -> f s a = g s a) -> foldM f l s = foldM g l s.
Proof.
  revert s. induction l as [|a l IH]; intros s Hfg; cbn; [reflexivity|].
  rewrite Hfg by left. destruct (g s a); cbn; auto.
  apply IH. intros. apply Hfg. now right.
Qed.

(** Nested loops run as one loop over the concatenated ranges. *)
Lemma foldM_bind {S A B : Type} (f : S -> B -> outcome S) (g : A -> list B)
    (l : list A) (s : S) :
  foldM (fun s a => foldM f (g a) s) l s = foldM f (l ≫= g) s.
Proof.
  revert s. induction l as [|a l IH]; intros s; cbn; [reflexivity|].
  rewrite foldM_app. destruct (foldM f (g a) s); cbn; auto.
Qed.

(** A loop invariant: [I] holds of the state before the elements [l] are
    visited and every step that returns preserves it. *)
Lemma foldM_invariant {S A : Type} (I : S -> Prop) (f : S -> A -> outcome S)
    (l : list A) (s s' : S) :
  foldM f l s = Done s' ->
  I s ->
  (forall s1 s2 a, a ∈ l -> I s1 -> f s1 a = Done s2 -> I s2) ->
  I s'.
Proof.
  revert s. induction l as [|a l IH]; intros s H Hs Hstep; cbn in H.
  - inversion H; subst; exact Hs.
  - bind_inv H as s1 Ha. eapply IH; [exact H | | ].
    + eapply Hstep; [left | exact Hs | exact Ha].
    + intros. eapply Hstep; eauto. now right.
Qed.

(** A loop whose every step returns returns. *)
Lemma foldM_total {S A : Type} (I : S -> Prop) (f : S -> A -> outcome S)
    (l : list A) (s : S) :
  I s ->
  (forall s1 a, a ∈ l -> I s1 -> exists s2, f s1 a = Done s2 /\ I s2) ->
  exists s', foldM f l s = Done s' /\ I s'.
Proof.
  revert s. induction l as [|a l IH]; intros s Hs Hstep; cbn.
  - eauto.
  - destruct (Hstep s a) as (s2 & -> & H2); [left | exact Hs |]. cbn.
    apply IH; [exact H2 |]. intros. apply Hstep; [now right | assumption].
Qed.

(** ** Comparisons of reals *)

Lemma Qltb_lt (x y : Q) : Qltb x y = true <-> (x < y)%Q.
Proof.
  unfold Qltb. rewrite negb_true_iff, <- not_true_iff_false, Qle_bool_iff.
  split; [apply Qnot_le_lt | apply Qlt_not_le].
Qed.

Lemma Qltb_ge (x y : Q) : Qltb x y = false <-> (y <= x)%Q.
Proof. unfold Qltb. rewrite negb_false_iff. apply Qle_bool_iff. Qed.

Lemma Qle_bool_gt (x y : Q) : Qle_bool x y = false <-> (y < x)%Q.
Proof.
  rewrite <- not_true_iff_false, Qle_bool_iff.
  split; [apply Qnot_le_lt | apply Qlt_not_le].
Qed.

(** ** Loops that update an array entry by entry *)

Section Pointwise.
Context {A : Type}.
Variable f : list A -> nat -> outcome (list A).
Variable h : nat -> A -> outcome A.
Variable n : nat.

(** Step [i] replaces entry [i] by [h i] of its value. *)
Hypothesis f_pointwise : forall a i v,
  (i < n)%nat -> a !! i = Some v ->
  f a i = h i v ≫= (fun v' => Done (<[i:=v']> a)).

Lemma foldM_pointwise_inv_aux (m : nat) :
  (forall a i v, (i < m)%nat -> a !! i = Some v ->
     f a i = h i v ≫= (fun v' => Done (<[i:=v']> a))) ->
  forall a0 a' : list A,
  (m <= length a0)%nat ->
  foldM f (seq 0 m) a0 = Done a' ->
  length a' = length a0 /\
  (forall i, (m <= i)%nat -> a' !! i = a0 !! i) /\
  (forall i v, (i < m)%nat -> a0 !! i = Some v ->
     exists v', h i v = Done v' /\ a' !! i = Some v').
Proof.
  induction m as [|m IH]; intros Hstep a0 a' Hlen H.
  - cbn in H. inversion H; subst. split; [reflexivity|]. split; [reflexivity|].
    intros; lia.
  - rewrite seq_S, foldM_app in H. bind_inv H as a Ha. cbn in H.
    bind_inv H as a1 Ha0. inversion H; subst a1; clear H.
    assert (Hpt : forall a i v, (i < m)%nat -> a !! i = Some v ->
              f a i = h i v ≫= (fun v' => Done (<[i:=v']> a)))
      by (intros; apply Hstep; [lia | assumption]).
    destruct (IH Hpt a0 a ltac:(lia) Ha) as (Hl & Hge & Hlt).
    destruct (lookup_lt_is_Some_2 a0 m ltac:(lia)) as [v Hv].
    assert (Hav : a !! m = Some v) by (rewrite Hge by lia; exact Hv).
    rewrite (Hstep a m v ltac:(lia) Hav) in Ha0.
    bind_inv Ha0 as v' Hv'. inversion Ha0; subst a'; clear Ha0.
    split; [now rewrite length_insert|]. split.
    + intros i Hi. rewrite list_lookup_insert_ne by lia. apply Hge. lia.
    + intros i w Hi Hw. destruct (decide (i = m)) as [->|Hne].
      * assert (w = v) by congruence. subst w. exists v'. split; [exact Hv'|].
        apply list_lookup_insert_eq. lia.
      * rewrite list_lookup_insert_ne by congruence. apply Hlt; [lia | exact Hw].
Qed.

Lemma foldM_pointwise_inv (a0 a' : list A) :
  (n <= length a0)%nat ->
  foldM f (seq 0 n) a0 = Done a' ->
  length a' = length a0 /\
  (forall i, (n <= i)%nat -> a' !! i = a0 !! i) /\
  (forall i v, (i < n)%nat -> a0 !! i = Some v ->
     exists v', h i v = Done v' /\ a' !! i = Some v').
Proof using f_pointwise. apply foldM_pointwise_inv_aux. exact f_pointwise. Qed.

Lemma foldM_pointwise_total (a0 : list A) :
  (n <= length a0)%nat ->
  (forall i v, (i < n)%nat -> a0 !! i = Some v -> exists v', h i v = Done v') ->
  exists a', foldM f (seq 0 n) a0 = Done a'.
Proof using f_pointwise.
  induction n as [|m IH]; intros Hlen Hh.
  - cbn. eauto.
  - assert (Hpt : forall a i v, (i < m)%nat -> a !! i = Some v ->
              f a i = h i v ≫= (fun v' => Done (<[i:=v']> a)))
      by (intros; apply f_pointwise; [lia | assumption]).
    destruct (IH Hpt ltac:(lia)) as [a Ha].
    { intros. eapply Hh; [|eassumption]. lia. }
    destruct (foldM_pointwise_inv_aux m Hpt a0 a ltac:(lia) Ha) as (_ & Hge & _).
    rewrite seq_S, foldM_app, Ha. cbn.
    destruct (lookup_lt_is_Some_2 a0 m ltac:(lia)) as [v Hv].
    destruct (Hh m v ltac:(lia) Hv) as [v' Hv'].
    assert (Hav : a !! m = Some v) by (rewrite Hge by lia; exact Hv).
    rewrite (f_pointwise a m v ltac:(lia) Hav), Hv'. cbn. eauto.
Qed.

End Pointwise.

(** ** Loops that store one value at listed positions *)

Lemma foldM_const_writes {A : Type} (c : Z -> bool) (v : A) (ks : list Z)
    (a0 : list A) :
  (forall k, k ∈ ks -> c k = true -> (0 <= k < Z.of_nat (length a0))%Z) ->
  exists a',
    foldM (fun a k => if c k then wrZ a k v else Done a) ks a0 = Done a' /\
    length a' = length a0 /\
    (forall i, (i < length a0)%nat -> Z.of_nat i ∈ ks -> c (Z.of_nat i) = true ->
       a' !! i = Some v) /\
    (forall i, (Z.of_nat i ∈ ks -> c (Z.of_nat i) = false) -> a' !! i = a0 !! i) /\
    (forall i x, a' !! i = Some x -> x = v \/ a0 !! i = Some x).
Proof.
  revert a0. induction ks as [|k ks IH]; intros a0 Hks; cbn.
  - exists a0. split; [reflexivity|]. split; [reflexivity|].
    split; [intros i _ Hi; inversion Hi|]. split; [reflexivity | auto].
  - destruct (c k) eqn:Hc.
    + destruct (Hks k ltac:(left) Hc) as [Hk0 Hk1].
      assert (Hw : wrZ a0 k v = Done (<[Z.to_nat k:=v]> a0))
        by (apply wrZ_Done; repeat split; [lia | lia]).
      rewrite Hw. cbn.
      destruct (IH (<[Z.to_nat k:=v]> a0)) as (a' & Hrun & Hlen & Hin & Hout & Hany).
      { intros k' Hk' Hc'. rewrite length_insert. apply Hks; [now right | exact Hc']. }
      rewrite length_insert in Hlen, Hin.
      exists a'. split; [exact Hrun|]. split; [exact Hlen|]. split; [|split].
      * intros i Hi Hmem Hci. apply elem_of_cons in Hmem as [Heq|Hmem].
        -- destruct (decide (Z.of_nat i ∈ ks)) as [Hm|Hm]; [now apply Hin|].
           rewrite Hout by (intros; contradiction).
           subst k. rewrite Nat2Z.id. apply list_lookup_insert_eq. lia.
        -- now apply Hin.
      * intros i Hi. rewrite Hout.
        -- apply list_lookup_insert_ne. intros Heq. subst i.
           rewrite Z2Nat.id in Hi by lia.
           specialize (Hi ltac:(left)). congruence.
        -- intros Hm. apply Hi. now right.
      * intros i x Hx. destruct (Hany i x Hx) as [->|Hx']; [now left|].
        destruct (decide (i = Z.to_nat k)) as [->|Hne].
        -- rewrite list_lookup_insert_eq in Hx' by lia. left. congruence.
        -- rewrite list_lookup_insert_ne in Hx' by congruence. now right.
    + cbn. destruct (IH a0) as (a' & Hrun & Hlen & Hin & Hout & Hany).
      { intros k' Hk' Hc'. apply Hks; [now right | exact Hc']. }
      exists a'. split; [exact Hrun|]. split; [exact Hlen|]. split; [|split].
      * intros i Hi Hmem Hci. apply elem_of_cons in Hmem as [Heq|Hmem].
        -- subst k. congruence.
        -- now apply Hin.
      * intros i Hi. apply Hout. intros Hm. apply Hi. now right.
      * exact Hany.
Qed.

Section EStepProperties.

Variable G : Q -> Q -> Q.
Variable ParallelEStep : Reconstruction -> nat -> RealImage * Q.

Lemma force_exclude_spec (st : Reconstruction) (v : Q) (a : list Q) :
  (length (_slices st) <= length a)%nat ->
  exists a',
    force_exclude st v a = Done a' /\
    length a' = length a /\
    (forall i, (0 < i < length (_slices st))%nat ->
       Z.of_nat i ∈ _force_excluded st -> a' !! i = Some v) /\
    (forall i, (Z.of_nat i ∈ _force_excluded st -> i = O) -> a' !! i = a !! i) /\
    (forall i x, a' !! i = Some x -> x = v \/ a !! i = Some x).
Proof.
  intros Hlen. unfold force_exclude.
  destruct (foldM_const_writes (force_guard st) v (_force_excluded st) a)
    as (a' & Hrun & Hl & Hin & Hout & Hany).
  { intros k _ Hg. unfold force_guard in Hg.
    apply andb_true_iff in Hg as [H1 H2].
    apply Z.ltb_lt in H1, H2. lia. }
  exists a'. split; [exact Hrun|]. split; [exact Hl|]. split; [|split].
  - intros i Hi Hmem. apply Hin; [lia | exact Hmem |].
    unfold force_guard. apply andb_true_iff. split; apply Z.ltb_lt; lia.
  - intros i Hi. apply Hout. intros Hm. rewrite (Hi Hm). reflexivity.
  - exact Hany.
Qed.

(** The slice potentials the slice statistics start from. *)
Lemma slice_potentials_spec (st : Reconstruction) :
  em_arrays_ok st ->
  exists sp,
    slice_potentials ParallelEStep st = Done sp /\
    length sp = length (_slices st) /\
    (forall i scale, (i < length (_slices st))%nat -> _scale st !! i = Some scale ->
       unrealistic scale -> sp !! i = Some (-1)%Q) /\
    (forall i, (0 < i < length (_slices st))%nat ->
       Z.of_nat i ∈ _force_excluded st -> sp !! i = Some (-1)%Q) /\
    (forall i, Z.of_nat i ∈ _small_slices st -> sp !! i = Some (-1)%Q) /\
    (forall i p, sp !! i = Some p -> p = (-1)%Q \/ p = snd (ParallelEStep st i)).
Proof.
  intros (Hscale & _ & Hsmall). unfold slice_potentials.
  set (sp0 := map (fun i => snd (ParallelEStep st i)) (seq 0 (length (_slices st)))).
  assert (Hl0 : length sp0 = length (_slices st))
    by (unfold sp0; now rewrite length_map, length_seq).
  assert (H0 : forall i p, sp0 !! i = Some p -> p = snd (ParallelEStep st i)).
  { intros i p Hp. unfold sp0 in Hp. rewrite list_lookup_fmap in Hp.
    destruct (seq 0 (length (_slices st)) !! i) as [j|] eqn:Hj; [|discriminate].
    apply lookup_seq in Hj as [-> _]. cbn in Hp. congruence. }
  destruct (force_exclude_spec st (-1)%Q sp0 ltac:(lia))
    as (sp1 & -> & Hl1 & Hin1 & _ & Hany1). cbn.
  destruct (foldM_const_writes (fun _ => true) (-1)%Q (_small_slices st) sp1)
    as (sp2 & Hrun2 & Hl2 & Hin2 & _ & Hany2).
  { intros k Hk _. rewrite Forall_forall in Hsmall. specialize (Hsmall k Hk). lia. }
  cbn in Hrun2. rewrite Hrun2. cbn.
  set (f := fun (sp : list Q) (inputIndex : nat) =>
              scale ← rd (_scale st) inputIndex;
              if Qltb scale 0.2 || Qltb 5 scale then wr sp inputIndex (-1)%Q
              else Done sp).
  set (h := fun (i : nat) (v : Q) =>
              scale ← rd (_scale st) i;
              Done (if Qltb scale 0.2 || Qltb 5 scale then (-1)%Q else v)).
  assert (Hpt : forall a i v, (i < length sp2)%nat -> a !! i = Some v ->
            f a i = h i v ≫= (fun v' => Done (<[i:=v']> a))).
  { intros a i v _ Hv. unfold f, h. destruct (rd (_scale st) i) as [scale| |]; cbn; auto.
    destruct (Qltb scale 0.2 || Qltb 5 scale).
    - apply wr_lt. now apply lookup_lt_Some in Hv.
    - now rewrite list_insert_id. }
  destruct (foldM_pointwise_total f h (length sp2) Hpt sp2 ltac:(lia)) as [sp Hrun].
  { intros i v Hi _. unfold h.
    destruct (rd_lt (_scale st) i ltac:(lia)) as (scale & -> & _). cbn. eauto. }
  exists sp. split; [exact Hrun|].
  destruct (foldM_pointwise_inv f h (length sp2) Hpt sp2 sp ltac:(lia) Hrun)
    as (Hl & _ & Hlt).
  assert (Hsticky : forall i, (i < length sp2)%nat -> sp2 !! i = Some (-1)%Q ->
            sp !! i = Some (-1)%Q).
  { intros i Hi Hv. destruct (Hlt i _ Hi Hv) as (v' & Hh & ->). unfold h in Hh.
    destruct (rd (_scale st) i) as [scale| |]; cbn in Hh; try discriminate.
    inversion Hh. now destruct (Qltb scale 0.2 || Qltb 5 scale). }
  split; [lia|]. split; [|split; [|split]].
  - intros i scale Hi Hs Hu.
    destruct (lookup_lt_is_Some_2 sp2 i ltac:(lia)) as [v Hv].
    destruct (Hlt i v ltac:(lia) Hv) as (v' & Hh & ->). unfold h in Hh.
    apply rd_Done in Hs. rewrite Hs in Hh. cbn in Hh. inversion Hh.
    assert (Hc : Qltb scale 0.2 || Qltb 5 scale = true).
    { apply orb_true_iff. destruct Hu; [left | right]; now apply Qltb_lt. }
    now rewrite Hc.
  - intros i Hi Hm. apply Hsticky; [lia|].
    specialize (Hin1 i Hi Hm).
    destruct (decide (Z.of_nat i ∈ _small_slices st)) as [Hs|Hs].
    + apply Hin2; [lia | exact Hs | reflexivity].
    + destruct (foldM_const_writes (fun _ => true) (-1)%Q (_small_slices st) sp1)
        as (sp2' & Hrun2' & _ & _ & Hout2 & _).
      { intros k Hk _. rewrite Forall_forall in Hsmall. specialize (Hsmall k Hk). lia. }
      cbn in Hrun2'. rewrite Hrun2 in Hrun2'. inversion Hrun2'; subst sp2'.
      rewrite Hout2 by (intros; contradiction). exact Hin1.
  - intros i Hm. rewrite Forall_forall in Hsmall. specialize (Hsmall _ Hm).
    apply Hsticky; [lia|]. apply Hin2; [lia | exact Hm | reflexivity].
  - intros i p Hp.
    destruct (decide (i < length sp2)%nat) as [Hi|Hi].
    + destruct (lookup_lt_is_Some_2 sp2 i Hi) as [v Hv].
      destruct (Hlt i v Hi Hv) as (v' & Hh & Hv'). unfold h in Hh.
      destruct (rd (_scale st) i) as [scale| |]; cbn in Hh; try discriminate.
      inversion Hh. assert (p = v') by congruence. subst p v'.
      destruct (Qltb scale 0.2 || Qltb 5 scale); [now left|].
      destruct (Hany2 i v Hv) as [->|Hv1]; [now left|].
      destruct (Hany1 i v Hv1) as [->|Hv0]; [now left|].
      right. now apply H0.
    + apply lookup_lt_Some in Hp. lia.
Qed.

(** The loops that sum over the slices return when the arrays are long
    enough. *)
Lemma potential_means_total (st : Reconstruction) (sp : list Q) :
  (length (_slices st) <= length sp)%nat ->
  (length (_slices st) <= length (_slice_weight st))%nat ->
  exists r, potential_means st sp = Done r.
Proof.
  intros Hsp Hsw. unfold potential_means.
  match goal with
  | |- context [foldM ?f ?l ?s] =>
      destruct (foldM_total (fun _ => True) f l s) as (r & Hr & _);
        [exact I | | eauto]
  end.
  intros [[[[[sum den] sum2] den2] maxs] mins] i Hi _.
  apply elem_of_seq in Hi.
  destruct (rd_lt sp i ltac:(lia)) as (p & -> & _).
  destruct (rd_lt (_slice_weight st) i ltac:(lia)) as (w & Hw & _). cbn.
  destruct (Qle_bool 0 p); [rewrite Hw; cbn|]; eauto.
Qed.

Lemma potential_variances_total (st : Reconstruction) (sp : list Q) (m1 m2 : Q) :
  (length (_slices st) <= length sp)%nat ->
  (length (_slices st) <= length (_slice_weight st))%nat ->
  exists r, potential_variances st sp m1 m2 = Done r.
Proof.
  intros Hsp Hsw. unfold potential_variances.
  match goal with
  | |- context [foldM ?f ?l ?s] =>
      destruct (foldM_total (fun _ => True) f l s) as (r & Hr & _);
        [exact I | | eauto]
  end.
  intros [[[sum den] sum2] den2] i Hi _.
  apply elem_of_seq in Hi.
  destruct (rd_lt sp i ltac:(lia)) as (p & -> & _).
  destruct (rd_lt (_slice_weight st) i ltac:(lia)) as (w & Hw & _). cbn.
  destruct (Qle_bool 0 p); [rewrite Hw; cbn|]; eauto.
Qed.

(** [mix_sums] counts the slices with a non-negative potential. *)
Lemma mix_sums_total (st : Reconstruction) (sp : list Q) :
  (length (_slices st) <= length sp)%nat ->
  (length (_slices st) <= length (_slice_weight st))%nat ->
  exists sum num,
    mix_sums st sp = Done (sum, num) /\
    ((forall i p, (i < length (_slices st))%nat -> sp !! i = Some p -> (p < 0)%Q) ->
     num = O).
Proof.
  intros Hsp Hsw. unfold mix_sums.
  match goal with
  | |- context [foldM ?f ?l ?s] =>
      destruct (foldM_total
        (fun r : Q * nat =>
           (forall i p, (i < length (_slices st))%nat -> sp !! i = Some p -> (p < 0)%Q) ->
           snd r = O) f l s) as ([sum num] & Hr & Hnum);
        [| | exists sum, num; eauto]
  end.
  - reflexivity.
  - intros [sum num] i Hi Hinv. apply elem_of_seq in Hi.
    destruct (rd_lt sp i ltac:(lia)) as (p & -> & Hp).
    destruct (rd_lt (_slice_weight st) i ltac:(lia)) as (w & Hw & _). cbn.
    destruct (Qle_bool 0 p) eqn:Hc.
    + rewrite Hw. cbn. eexists. split; [reflexivity|]. cbn. intros Hneg.
      apply Qle_bool_iff in Hc. specialize (Hneg i p ltac:(lia) Hp). lra.
    + eexists. split; [reflexivity|]. exact Hinv.
Qed.

(** The statistics block returns, and leaves alone what it does not assign. *)
Lemma slice_statistics_total (st : Reconstruction) (sp : list Q) :
  (length (_slices st) <= length sp)%nat ->
  (length (_slices st) <= length (_slice_weight st))%nat ->
  exists st1 den sum sum2 den2,
    slice_statistics st sp = Done (st1, den) /\
    potential_variances st1 sp (_mean_s st1) (_mean_s2 st1)
      = Done (sum, den, sum2, den2) /\
    _sigma_s st1 = sigma_s_of st sum den /\
    _slices st1 = _slices st /\
    _slice_weight st1 = _slice_weight st /\
    _scale st1 = _scale st /\
    _mix_s st1 = _mix_s st.
Proof.
  intros Hsp Hsw. unfold slice_statistics.
  destruct (potential_means_total st sp Hsp Hsw)
    as ([[[[[sum den] sum2] den2] maxs] mins] & ->).
  cbn -[potential_variances sigma_s_of sigma_s2_of mean_s_of mean_s2_of].
  match goal with
  | |- context [potential_variances ?s sp ?a ?b] =>
      destruct (potential_variances_total s sp a b Hsp Hsw)
        as ([[[vsum vden] vsum2] vden2] & Hv)
  end.
  rewrite Hv. cbn -[potential_variances sigma_s_of sigma_s2_of mean_s_of mean_s2_of].
  eexists _, vden, vsum, vsum2, vden2. split; [reflexivity|].
  split; [exact Hv|]. repeat split.
Qed.

(** "Calculate slice weights" assigns every slice its new weight. *)
Lemma slice_weights_spec (st : Reconstruction) (sp : list Q) (den : Q) :
  (length (_slices st) <= length sp)%nat ->
  (length (_slices st) <= length (_slice_weight st))%nat ->
  exists sw,
    slice_weights G st sp den = Done sw /\
    length sw = length (_slice_weight st) /\
    (forall i p w, (i < length (_slices st))%nat -> sp !! i = Some p ->
       _slice_weight st !! i = Some w ->
       sw !! i = Some (slice_weight_of G st den p w)).
Proof.
  intros Hsp Hsw. unfold slice_weights.
  set (f := fun (slice_weight : list Q) (inputIndex : nat) =>
              p ← rd sp inputIndex;
              w ← rd slice_weight inputIndex;
              wr slice_weight inputIndex (slice_weight_of G st den p w)).
  set (h := fun (i : nat) (w : Q) =>
              p ← rd sp i; Done (slice_weight_of G st den p w)).
  assert (Hpt : forall a i v, (i < length (_slices st))%nat -> a !! i = Some v ->
            f a i = h i v ≫= (fun v' => Done (<[i:=v']> a))).
  { intros a i v _ Hv. unfold f, h. destruct (rd sp i) as [p| |]; cbn; auto.
    apply rd_Done in Hv. rewrite Hv. cbn. apply wr_lt.
    apply rd_Done in Hv. now apply lookup_lt_Some in Hv. }
  destruct (foldM_pointwise_total f h _ Hpt (_slice_weight st) Hsw) as [sw Hrun].
  { intros i v Hi _. unfold h. destruct (rd_lt sp i ltac:(lia)) as (p & -> & _).
    cbn. eauto. }
  exists sw. split; [exact Hrun|].
  destruct (foldM_pointwise_inv f h _ Hpt (_slice_weight st) sw Hsw Hrun)
    as (Hl & _ & Hlt).
  split; [exact Hl|]. intros i p w Hi Hp Hw.
  destruct (Hlt i w Hi Hw) as (v' & Hh & ->). unfold h in Hh.
  apply rd_Done in Hp. rewrite Hp in Hh. cbn in Hh. congruence.
Qed.

(** [EStep] returns; its result in terms of the potentials and of the
    statistics block. *)
Lemma EStep_spec (st : Reconstruction) :
  em_arrays_ok st ->
  exists sp st1 den st',
    slice_potentials ParallelEStep st = Done sp /\
    slice_statistics (voxel_posteriors ParallelEStep st) sp = Done (st1, den) /\
    EStep G ParallelEStep st = Done st' /\
    _sigma_s st' = _sigma_s st1 /\
    length (_slice_weight st') = length (_slice_weight st) /\
    (forall i p w, (i < length (_slices st))%nat -> sp !! i = Some p ->
       _slice_weight st !! i = Some w ->
       _slice_weight st' !! i = Some (slice_weight_of G st1 den p w)) /\
    ((forall i p, (i < length (_slices st))%nat -> sp !! i = Some p -> (p < 0)%Q) ->
     _mix_s st' = 0.9%Q).
Proof.
  intros Hok. destruct (slice_potentials_spec st Hok) as (sp & Hsp & Hl & _).
  destruct Hok as (Hscale & Hsw & Hsmall).
  destruct (slice_statistics_total (voxel_posteriors ParallelEStep st) sp)
    as (st1 & den & sum & sum2 & den2 & Hst & _ & _ & Hsl1 & Hsw1 & _ & _).
  { exact (eq_ind_r (fun n => (length (_slices st) <= n)%nat) (Nat.le_refl _) Hl). }
  { exact Hsw. }
  change (_slices st1 = _slices st) in Hsl1.
  change (_slice_weight st1 = _slice_weight st) in Hsw1.
  destruct (slice_weights_spec st1 sp den) as (sw & Hrun & Hlsw & Hw).
  { rewrite Hsl1. lia. } { rewrite Hsl1, Hsw1. lia. }
  destruct (mix_sums_total (set_slice_weight sw st1) sp) as (msum & num & Hmix & Hnum).
  { cbn. rewrite Hsl1. lia. } { cbn. rewrite Hsl1, Hlsw, Hsw1. lia. }
  exists sp, st1, den. eexists. split; [exact Hsp|]. split; [exact Hst|].
  unfold EStep. rewrite Hsp. cbn [mbind outcome_bind obind].
  rewrite Hst. cbn [mbind outcome_bind obind]. rewrite Hrun.
  cbn [mbind outcome_bind obind]. rewrite Hmix. cbn.
  split; [reflexivity|]. split; [reflexivity|].
  split; [cbn; now rewrite Hlsw, Hsw1|]. split.
  - intros i p w Hi Hp Hwi. apply Hw; [rewrite Hsl1; exact Hi | exact Hp |].
    rewrite Hsw1. exact Hwi.
  - intros Hneg. cbn in Hnum. rewrite Hsl1 in Hnum. now rewrite (Hnum Hneg).
Qed.

End EStepProperties.

Section EMClaims.

Variable G : Q -> Q -> Q.
Variable ParallelEStep : Reconstruction -> nat -> RealImage * Q.
Variable ParallelMStep : Reconstruction -> Q * Q * Q * Q * Q.

Lemma slice_weight_of_excluded (st : Reconstruction) (den w : Q) :
  slice_weight_of G st den (-1) w = 0%Q.
Proof. reflexivity. Qed.

(** A slice whose potential was forced to -1 leaves [EStep] with weight 0. *)
Lemma EStep_potential_minus_one (st : Reconstruction) (i : nat) :
  em_arrays_ok st -> (i < length (_slices st))%nat ->
  (forall sp, slice_potentials ParallelEStep st = Done sp -> sp !! i = Some (-1)%Q) ->
  exists st', EStep G ParallelEStep st = Done st' /\ _slice_weight st' !! i = Some 0%Q.
Proof.
  intros Hok Hi Hpot.
  destruct (EStep_spec G ParallelEStep st Hok)
    as (sp & st1 & den & st' & Hsp & _ & Hrun & _ & _ & Hw & _).
  destruct Hok as (_ & Hsw & _).
  destruct (lookup_lt_is_Some_2 (_slice_weight st) i ltac:(lia)) as [w Hwi].
  exists st'. split; [exact Hrun|].
  rewrite (Hw i (-1)%Q w Hi (Hpot sp Hsp) Hwi). reflexivity.
Qed.

(** C7. For every slice whose scale lies outside [0.2, 5], [EStep] forces the
    slice potential to -1 and returns with slice weight 0 for that slice. *)
Theorem EStep_unrealistic_scale (st : Reconstruction) (inputIndex : nat) (scale : Q) :
  em_arrays_ok st ->
  (inputIndex < length (_slices st))%nat ->
  _scale st !! inputIndex = Some scale ->
  (scale < 0.2 \/ 5 < scale)%Q ->
  exists sp st',
    slice_potentials ParallelEStep st = Done sp /\
    sp !! inputIndex = Some (-1)%Q /\
    EStep G ParallelEStep st = Done st' /\
    _slice_weight st' !! inputIndex = Some 0%Q.
Proof.
  intros Hok Hi Hs Hu.
  destruct (slice_potentials_spec ParallelEStep st Hok) as (sp & Hsp & _ & Hscale & _).
  destruct (EStep_potential_minus_one st inputIndex Hok Hi) as (st' & Hrun & Hw).
  { intros sp' Hsp'. assert (sp' = sp) by congruence. subst sp'.
    now apply (Hscale inputIndex scale). }
  exists sp, st'. split; [exact Hsp|]. split; [now apply (Hscale inputIndex scale)|].
  split; [exact Hrun | exact Hw].
Qed.

(** A force-excluded slice other than slice 0 leaves [EStep] with weight 0. *)
Lemma EStep_force_excluded_positive (st : Reconstruction) (i : nat) :
  em_arrays_ok st -> (0 < i < length (_slices st))%nat ->
  Z.of_nat i ∈ _force_excluded st ->
  exists st', EStep G ParallelEStep st = Done st' /\ _slice_weight st' !! i = Some 0%Q.
Proof.
  intros Hok Hi Hm.
  destruct (slice_potentials_spec ParallelEStep st Hok) as (sp & Hsp & _ & _ & Hfe & _).
  apply EStep_potential_minus_one; [exact Hok | lia |].
  intros sp' Hsp'. assert (sp' = sp) by congruence. subst sp'. now apply Hfe.
Qed.

(** The fallbacks of the assignments. *)
Lemma sigma_s_of_fallback (st : Reconstruction) (sum den : Q) :
  (sum <= 0 \/ den <= 0)%Q -> sigma_s_of st sum den = 0.025%Q.
Proof.
  intros H. unfold sigma_s_of.
  assert (Hc : Qltb 0 sum && Qltb 0 den = false).
  { apply andb_false_iff. destruct H; [left | right]; now apply Qltb_ge. }
  now rewrite Hc.
Qed.

Lemma slice_weight_of_fallback (st : Reconstruction) (den p w : Q) :
  (den <= 0 \/ _mean_s2 st <= _mean_s st)%Q -> ~ (p == -1)%Q ->
  slice_weight_of G st den p w = 1%Q.
Proof.
  intros H Hp. unfold slice_weight_of.
  assert (Hc1 : Qeq_bool p (-1) = false).
  { apply not_true_iff_false. rewrite Qeq_bool_iff. exact Hp. }
  assert (Hc2 : Qle_bool den 0 || Qle_bool (_mean_s2 st) (_mean_s st) = true).
  { apply orb_true_iff. destruct H; [left | right]; now apply Qle_bool_iff. }
  now rewrite Hc1, Hc2.
Qed.

(** [MStep] on the sums of [Parallel::MStep]. *)
Lemma MStep_exits (st : Reconstruction) (iter : Z) (sigma mix num min max : Q) :
  ParallelMStep st = (sigma, mix, num, min, max) ->
  (mix <= 0)%Q -> MStep ParallelMStep st iter = Exited 1.
Proof.
  intros Hp Hmix. unfold MStep. rewrite Hp.
  apply Qltb_ge in Hmix. now rewrite Hmix.
Qed.

Lemma MStep_returns (st : Reconstruction) (iter : Z) (sigma mix num min max : Q) :
  ParallelMStep st = (sigma, mix, num, min, max) ->
  (0 < mix)%Q ->
  exists st', MStep ParallelMStep st iter = Done st' /\
              (sigma_floor st <= _sigma st')%Q /\
              _m st' = (1 / (max - min))%Q.
Proof.
  intros Hp Hmix. unfold MStep. rewrite Hp.
  apply Qltb_lt in Hmix. rewrite Hmix.
  eexists. split; [reflexivity|].
  change (sigma_floor (set_sigma (sigma / mix) st)) with (sigma_floor st).
  change (_sigma (set_sigma (sigma / mix) st)) with (sigma / mix)%Q.
  destruct (Qltb (sigma / mix) (sigma_floor st)) eqn:Hc;
    destruct (1 <? iter)%Z; cbn; (split; [|reflexivity]);
    try apply Qle_refl; now apply Qltb_ge in Hc.
Qed.

(** C6, as the code has it. [EStep] never ends the run: it returns, with
    [_sigma_s = 0.025] when the variance sum or the inlier weight is not
    positive, with [_mix_s = 0.9] when every potential is negative, and with
    [W_i = 1] for every slice whose potential is not -1 when the inlier weight
    is not positive or the means are not ordered. [MStep] ends the run with
    [exit(1)] when the weight sum [mix] is not positive; otherwise it returns
    with [_sigma] not below [_step^2 / 6.28]. *)
Theorem EM_degeneracies (st : Reconstruction) (iter : Z) (sigma mix num min max : Q) :
  em_arrays_ok st ->
  ParallelMStep st = (sigma, mix, num, min, max) ->
  (exists sp st1 sum den sum2 den2 st',
     slice_potentials ParallelEStep st = Done sp /\
     slice_statistics (voxel_posteriors ParallelEStep st) sp = Done (st1, den) /\
     potential_variances st1 sp (_mean_s st1) (_mean_s2 st1)
       = Done (sum, den, sum2, den2) /\
     EStep G ParallelEStep st = Done st' /\
     ((sum <= 0 \/ den <= 0)%Q -> _sigma_s st' = 0.025%Q) /\
     ((forall i p, (i < length (_slices st))%nat -> sp !! i = Some p -> (p < 0)%Q) ->
      _mix_s st' = 0.9%Q) /\
     ((den <= 0 \/ _mean_s2 st1 <= _mean_s st1)%Q ->
      forall i p, (i < length (_slices st))%nat -> sp !! i = Some p ->
        ~ (p == -1)%Q -> _slice_weight st' !! i = Some 1%Q)) /\
  ((mix <= 0)%Q -> MStep ParallelMStep st iter = Exited 1) /\
  ((0 < mix)%Q ->
   exists st', MStep ParallelMStep st iter = Done st' /\
               (sigma_floor st <= _sigma st')%Q).
Proof.
  intros Hok Hp. split; [|split].
  - destruct (EStep_spec G ParallelEStep st Hok)
      as (sp & st1 & den & st' & Hsp & Hst & Hrun & Hsig & _ & Hw & Hmix).
    destruct (slice_potentials_spec ParallelEStep st Hok) as (sp' & Hsp' & Hl & _).
    assert (sp' = sp) by congruence. subst sp'.
    destruct Hok as (_ & Hsw & _).
    destruct (slice_statistics_total (voxel_posteriors ParallelEStep st) sp)
      as (st1' & den' & sum & sum2 & den2 & Hst' & Hvar & Hs & _).
    { exact (eq_ind_r (fun n => (length (_slices st) <= n)%nat) (Nat.le_refl _) Hl). }
    { exact Hsw. }
    assert (Heq : (st1', den') = (st1, den)) by congruence.
    inversion Heq; subst st1' den'; clear Heq.
    exists sp, st1, sum, den, sum2, den2, st'.
    split; [exact Hsp|]. split; [exact Hst|]. split; [exact Hvar|].
    split; [exact Hrun|]. split; [|split].
    + intros Hd. rewrite Hsig, Hs. now apply sigma_s_of_fallback.
    + exact Hmix.
    + intros Hd i p Hi Hpi Hne.
      destruct (lookup_lt_is_Some_2 (_slice_weight st) i ltac:(lia)) as [w Hwi].
      rewrite (Hw i p w Hi Hpi Hwi). f_equal.
      now apply slice_weight_of_fallback.
  - now apply (MStep_exits st iter sigma mix num min max).
  - intros Hm.
    destruct (MStep_returns st iter sigma mix num min max Hp Hm) as (st' & H1 & H2 & _).
    eauto.
Qed.

End EMClaims.

(** ** Images *)

Lemma voxel_index_lt (img : RealImage) (x y z : nat) :
  in_image img x y z -> (voxel_index img x y z < NumberOfVoxels img)%nat.
Proof.
  unfold in_image, voxel_index, NumberOfVoxels. intros (Hx & Hy & Hz).
  assert (H1 : (y + GetY img * z + 1 <= GetY img * GetZ img)%nat).
  { replace (y + GetY img * z + 1)%nat with ((y + 1) + GetY img * z)%nat by lia.
    transitivity (GetY img * (z + 1))%nat; [lia|]. apply Nat.mul_le_mono_l. lia. }
  assert (H2 : (GetX img * (y + GetY img * z + 1) <= GetX img * (GetY img * GetZ img))%nat)
    by (apply Nat.mul_le_mono_l; exact H1).
  lia.
Qed.

Lemma voxel_index_inj (img : RealImage) (x y z x' y' z' : nat) :
  in_image img x y z -> in_image img x' y' z' ->
  voxel_index img x y z = voxel_index img x' y' z' ->
  x = x' /\ y = y' /\ z = z'.
Proof.
  unfold in_image, voxel_index. intros (Hx & Hy & Hz) (Hx' & Hy' & Hz') H.
  destruct (Nat.div_mod_unique (GetX img) (y + GetY img * z) (y' + GetY img * z') x x')
    as [Hq Hr]; [lia | lia | lia |].
  destruct (Nat.div_mod_unique (GetY img) z z' y y') as [Hq' Hr']; [lia | lia | lia |].
  auto.
Qed.

Lemma Get_Done (img : RealImage) (x y z : nat) (v : Q) :
  Get img x y z = Done v <->
  in_image img x y z /\ Data img !! voxel_index img x y z = Some v.
Proof.
  unfold Get. case_decide.
  - rewrite rd_Done. tauto.
  - split; [discriminate | tauto].
Qed.

Lemma Put_Done (img img' : RealImage) (x y z : nat) (v : Q) :
  Put img x y z v = Done img' <->
  in_image img x y z /\ (voxel_index img x y z < length (Data img))%nat /\
  img' = with_Data img (<[voxel_index img x y z:=v]> (Data img)).
Proof.
  unfold Put. case_decide.
  - split.
    + intros H'. bind_inv H' as d Hd. apply wr_Done in Hd as [Hlt ->].
      inversion H'. auto.
    + intros (_ & Hlt & ->). now rewrite (wr_lt _ _ _ Hlt).
  - split; [discriminate | tauto].
Qed.

Lemma Initialize_wf (attr : ImageAttributes) : wf_image (Initialize attr).
Proof. unfold wf_image, Initialize, NumberOfVoxels. cbn. now rewrite length_replicate. Qed.

Lemma Get_Initialize (attr : ImageAttributes) (x y z : nat) :
  in_image (Initialize attr) x y z -> Get (Initialize attr) x y z = Done 0%Q.
Proof.
  intros Hin. apply Get_Done. split; [exact Hin|].
  apply lookup_replicate_2. apply (voxel_index_lt (Initialize attr)). exact Hin.
Qed.

(** ** Sums of reals *)

Lemma fold_left_Qplus (l : list Q) (a : Q) :
  (fold_left Qplus l a == a + Qsum l)%Q.
Proof.
  unfold Qsum. revert a. induction l as [|b l IH]; intros a; cbn.
  - ring.
  - rewrite IH, (IH (0 + b)%Q). ring.
Qed.

Lemma Qsum_cons (a : Q) (l : list Q) : (Qsum (a :: l) == a + Qsum l)%Q.
Proof. unfold Qsum at 1. cbn. rewrite fold_left_Qplus. ring. Qed.

Lemma Qsum_app (l1 l2 : list Q) : (Qsum (l1 ++ l2) == Qsum l1 + Qsum l2)%Q.
Proof.
  induction l1 as [|a l1 IH].
  - change (Qsum l2 == 0 + Qsum l2)%Q. ring.
  - change (Qsum (a :: (l1 ++ l2)) == Qsum (a :: l1) + Qsum l2)%Q.
    rewrite !Qsum_cons, IH. ring.
Qed.

(** ** Accumulating coefficients into the weight image *)

Lemma Get_voxel (img : RealImage) (x y z : nat) :
  wf_image img -> in_image img x y z -> Get img x y z = Done (voxel img x y z).
Proof.
  intros Hwf Hin. apply Get_Done. split; [exact Hin|]. unfold voxel.
  destruct (lookup_lt_is_Some_2 (Data img) (voxel_index img x y z)) as [v ->];
    [|reflexivity].
  rewrite Hwf. now apply voxel_index_lt.
Qed.

Lemma add_coefficient_spec (w : RealImage) (p : POINT3D) :
  wf_image w -> point_in w p ->
  exists w',
    add_coefficient w p = Done w' /\ wf_image w' /\ same_dims w' w /\
    forall x y z, in_image w x y z ->
      (voxel w' x y z == voxel w x y z + (if references x y z p then value p else 0))%Q.
Proof.
  intros Hwf (Hx & Hy & Hz).
  set (x0 := Z.to_nat (px p)). set (y0 := Z.to_nat (py p)). set (z0 := Z.to_nat (pz p)).
  assert (Hin0 : in_image w x0 y0 z0) by (unfold in_image, x0, y0, z0; lia).
  assert (Hlt0 : (voxel_index w x0 y0 z0 < length (Data w))%nat)
    by (rewrite Hwf; now apply voxel_index_lt).
  unfold add_coefficient, GetP, PutP.
  destruct (decide (0 <= px p /\ 0 <= py p /\ 0 <= pz p)%Z) as [_|Hn]; [|lia].
  fold x0 y0 z0. rewrite (Get_voxel w x0 y0 z0 Hwf Hin0). cbn.
  eexists. split; [apply Put_Done; split; [exact Hin0|]; split; [exact Hlt0 | reflexivity]|].
  split; [|split].
  - unfold wf_image. cbn. rewrite length_insert. exact Hwf.
  - repeat split.
  - intros x y z Hin. unfold voxel at 1. cbn.
    change (voxel_index (with_Data w _) x y z) with (voxel_index w x y z).
    unfold references.
    destruct (decide (voxel_index w x y z = voxel_index w x0 y0 z0)) as [He|Hne].
    + destruct (voxel_index_inj w x y z x0 y0 z0 Hin Hin0 He) as (-> & -> & ->).
      rewrite list_lookup_insert_eq by exact Hlt0. cbn.
      unfold x0, y0, z0. rewrite !Z2Nat.id, !Z.eqb_refl by lia. cbn. reflexivity.
    + rewrite list_lookup_insert_ne by congruence.
      fold (voxel w x y z).
      destruct ((px p =? Z.of_nat x)%Z && (py p =? Z.of_nat y)%Z && (pz p =? Z.of_nat z)%Z)
        eqn:Hc; [|ring].
      apply andb_true_iff in Hc as [Hc Hc3]. apply andb_true_iff in Hc as [Hc1 Hc2].
      apply Z.eqb_eq in Hc1, Hc2, Hc3. exfalso. apply Hne.
      unfold x0, y0, z0. rewrite Hc1, Hc2, Hc3, !Nat2Z.id. reflexivity.
Qed.

Lemma point_in_same_dims (a b : RealImage) (p : POINT3D) :
  same_dims a b -> point_in b p -> point_in a p.
Proof. unfold same_dims, point_in. intros (-> & -> & ->). tauto. Qed.

Lemma in_image_same_dims (a b : RealImage) (x y z : nat) :
  same_dims a b -> in_image b x y z -> in_image a x y z.
Proof. unfold same_dims, in_image. intros (-> & -> & ->). tauto. Qed.

Lemma Qsum_filter_cons (f : POINT3D -> bool) (p : POINT3D) (pts : list POINT3D) :
  (Qsum (map value (List.filter f (p :: pts))) ==
   (if f p then value p else 0) + Qsum (map value (List.filter f pts)))%Q.
Proof.
  change (List.filter f (p :: pts))
    with (if f p then p :: List.filter f pts else List.filter f pts).
  destruct (f p).
  - apply Qsum_cons.
  - ring.
Qed.

Lemma add_coefficients_spec (pts : list POINT3D) (w : RealImage) :
  wf_image w -> Forall (point_in w) pts ->
  exists w',
    foldM add_coefficient pts w = Done w' /\ wf_image w' /\ same_dims w' w /\
    forall x y z, in_image w x y z ->
      (voxel w' x y z ==
       voxel w x y z + Qsum (map value (List.filter (references x y z) pts)))%Q.
Proof.
  revert w. induction pts as [|p pts IH]; intros w Hwf Hpts.
  - exists w. cbn. split; [reflexivity|]. split; [exact Hwf|].
    split; [repeat split|]. intros. unfold Qsum. cbn. ring.
  - apply Forall_cons in Hpts as [Hp Hpts].
    destruct (add_coefficient_spec w p Hwf Hp) as (w1 & H1 & Hwf1 & Hd1 & Hv1).
    destruct (IH w1 Hwf1) as (w' & H' & Hwf' & Hd' & Hv').
    { eapply Forall_impl; [exact Hpts|]. intros q. now apply point_in_same_dims. }
    exists w'. split; [cbn; rewrite H1; exact H'|]. split; [exact Hwf'|]. split.
    + destruct Hd1 as (? & ? & ?), Hd' as (? & ? & ?). repeat split; congruence.
    + intros x y z Hin.
      rewrite (Hv' x y z (in_image_same_dims _ _ _ _ _ Hd1 Hin)), (Hv1 x y z Hin).
      rewrite Qsum_filter_cons. ring.
Qed.

(** ** Nested lists *)

Lemma concat_by_index {A : Type} (l : list (list A)) :
  seq 0 (length l) ≫= (fun j => default [] (l !! j)) = concat l.
Proof.
  induction l as [|a l IH] using rev_ind; [reflexivity|].
  rewrite length_app, Nat.add_1_r, seq_S, bind_app, concat_app. cbn.
  rewrite app_nil_r, list_lookup_middle by reflexivity. cbn. rewrite app_nil_r.
  f_equal. rewrite <- IH. apply Forall_bind_ext, Forall_forall.
  intros j Hj. apply elem_of_seq in Hj. now rewrite lookup_app_l by lia.
Qed.

Lemma concat_concat {A : Type} (l : list (list (list A))) :
  concat (concat l) = concat (map (@concat A) l).
Proof.
  induction l as [|a l IH]; [reflexivity|]. cbn. now rewrite concat_app, IH.
Qed.

Lemma list_bind_bind {A B C : Type} (f : A -> list B) (g : B -> list C) (l : list A) :
  (l ≫= f) ≫= g = l ≫= (fun a => f a ≫= g).
Proof.
  induction l as [|a l IH]; [reflexivity|]. now rewrite !bind_cons, bind_app, IH.
Qed.

(** The coefficient lists of a slice, pixel by pixel, are all its entries. *)
Lemma pixels_concat (slice : RealImage) (sc : list (list (list POINT3D))) :
  length sc = GetX slice ->
  Forall (fun row => length row = GetY slice) sc ->
  pixels slice ≫= (fun '(i, j) => default [] (sc !! i ≫= (.!! j)))
  = concat (concat sc).
Proof.
  intros Hx Hy. unfold pixels.
  rewrite list_bind_bind, (concat_concat (A:=POINT3D) sc).
  rewrite <- (concat_by_index (map (@concat POINT3D) sc)), length_map, Hx.
  apply Forall_bind_ext, Forall_forall. intros i Hi. apply elem_of_seq in Hi.
  rewrite list_bind_bind, list_lookup_fmap.
  destruct (lookup_lt_is_Some_2 sc i ltac:(lia)) as [row Hrow]. rewrite Hrow. cbn.
  rewrite Forall_forall in Hy.
  rewrite <- (concat_by_index row), (Hy row) by (eapply list_elem_of_lookup_2; eauto).
  apply Forall_bind_ext, Forall_forall. intros j _. cbn.
  rewrite Hrow, app_nil_r. reflexivity.
Qed.

Section CoeffInitProperties.

Variable ParallelCoeffInit : Reconstruction -> nat -> SLICECOEFFS * bool.

Lemma accumulate_slice_flat (st : Reconstruction) (w : RealImage) (inputIndex : nat)
    (slice : RealImage) (sc : SLICECOEFFS) :
  _slices st !! inputIndex = Some slice ->
  _volcoeffs st !! inputIndex = Some sc ->
  length sc = GetX slice ->
  Forall (fun row => length row = GetY slice) sc ->
  accumulate_slice st w inputIndex = foldM add_coefficient (concat (concat sc)) w.
Proof.
  intros Hs Hc Hx Hy. unfold accumulate_slice.
  apply rd_Done in Hs. rewrite Hs. cbn [mbind outcome_bind obind].
  rewrite <- (pixels_concat slice sc Hx Hy), <- foldM_bind.
  apply foldM_ext. intros w' [i j] Hij. unfold coeffs_at.
  apply rd_Done in Hc. rewrite Hc. cbn [mbind outcome_bind obind].
  unfold pixels in Hij. apply list_elem_of_bind in Hij as (i' & Hj & Hi).
  apply list_elem_of_bind in Hj as (j' & Hj & Hj').
  apply list_elem_of_singleton in Hj. inversion Hj; subst i' j'; clear Hj.
  apply elem_of_seq in Hi, Hj'.
  destruct (lookup_lt_is_Some_2 sc i ltac:(lia)) as [row Hrow].
  rewrite Forall_forall in Hy.
  assert (Hlen : length row = GetY slice)
    by (apply Hy; eapply list_elem_of_lookup_2; eauto).
  destruct (lookup_lt_is_Some_2 row j ltac:(lia)) as [c Hcj].
  rewrite (proj2 (rd_Done sc i row) Hrow). cbn [mbind outcome_bind obind].
  rewrite (proj2 (rd_Done row j c) Hcj). cbn [mbind outcome_bind obind].
  rewrite Hrow. cbn [mbind option_bind]. rewrite Hcj. reflexivity.
Qed.

Lemma accumulate_weights_flat (st : Reconstruction) (w : RealImage) :
  coeffs_shaped st ->
  length (_volcoeffs st) = length (_slices st) ->
  accumulate_weights st w = foldM add_coefficient (counted_coefficients st) w.
Proof.
  intros Hshape Hlen. unfold accumulate_weights, counted_coefficients.
  rewrite <- foldM_bind, Hlen. apply foldM_ext.
  intros w' i Hi. apply elem_of_seq in Hi.
  destruct (excluded st i) eqn:He; [reflexivity|].
  destruct (lookup_lt_is_Some_2 (_slices st) i ltac:(lia)) as [slice Hs].
  destruct (lookup_lt_is_Some_2 (_volcoeffs st) i ltac:(lia)) as [sc Hc].
  destruct (Hshape i slice sc He Hs Hc) as [Hx Hy].
  rewrite (accumulate_slice_flat st w' i slice sc Hs Hc Hx Hy), Hc. reflexivity.
Qed.

Lemma average_weight_total (w mask : RealImage) :
  wf_image w -> (NumberOfVoxels w <= length (Data mask))%nat ->
  exists avg, average_weight w mask = Done avg.
Proof.
  intros Hwf Hm. unfold average_weight.
  match goal with
  | |- context [foldM ?f ?l ?s] =>
      destruct (foldM_total (fun _ => True) f l s) as ([sum num] & Hr & _);
        [exact I | | rewrite Hr; cbn; eauto]
  end.
  intros [sum num] i Hi _. apply elem_of_seq in Hi.
  destruct (rd_lt (Data mask) i ltac:(lia)) as (m & -> & _).
  destruct (rd_lt (Data w) i ltac:(rewrite Hwf; lia)) as (v & Hv & _). cbn.
  destruct (Qeq_bool m 1); [rewrite Hv; cbn|]; eauto.
Qed.

(** C1. When the coefficient arrays have the shape of their slices and
    reference voxels of the volume, [CoeffInit] returns, and for every voxel
    of the volume [_volume_weights] holds the sum of the values of the
    coefficients of the slices that are not force-excluded that reference
    the voxel. *)
Theorem CoeffInit_conservation (st : Reconstruction) :
  coeffs_shaped (coefficients_built ParallelCoeffInit st) ->
  coeffs_in_volume (coefficients_built ParallelCoeffInit st) ->
  mask_covers st ->
  exists st',
    CoeffInit ParallelCoeffInit st = Done st' /\
    forall x y z, in_image (_reconstructed st) x y z ->
      exists w, Get (_volume_weights st') x y z = Done w /\
                (w == coefficient_sum st' x y z)%Q.
Proof.
  intros Hshape Hvol Hmask. unfold CoeffInit.
  set (st1 := coefficients_built ParallelCoeffInit st) in *.
  set (w0 := Initialize (Attributes (_reconstructed st1))).
  assert (Hlen : length (_volcoeffs st1) = length (_slices st1))
    by (cbn; now rewrite length_map, length_seq).
  rewrite (accumulate_weights_flat st1 w0 Hshape Hlen).
  destruct (add_coefficients_spec (counted_coefficients st1) w0 (Initialize_wf _))
    as (w & Hrun & Hwf & Hdims & Hval); [exact Hvol|].
  rewrite Hrun. cbn [mbind outcome_bind obind].
  destruct (average_weight_total w (_mask st)) as [avg Havg]; [exact Hwf | |].
  { destruct Hdims as (Hx & Hy & Hz). unfold NumberOfVoxels. rewrite Hx, Hy, Hz.
    exact Hmask. }
  change (_volume_weights (set_volume_weights w st1)) with w.
  change (_mask (set_volume_weights w st1)) with (_mask st).
  rewrite Havg. cbn [mbind outcome_bind obind].
  eexists. split; [reflexivity|]. intros x y z Hin.
  change (_volume_weights (set_average_volume_weight avg (set_volume_weights w st1)))
    with w.
  exists (voxel w x y z). split.
  - apply Get_voxel; [exact Hwf|]. now apply (in_image_same_dims w w0 x y z Hdims).
  - rewrite (Hval x y z Hin). unfold coefficient_sum.
    change (counted_coefficients
              (set_average_volume_weight avg (set_volume_weights w st1)))
      with (counted_coefficients st1).
    assert (H0 : voxel w0 x y z = 0%Q).
    { assert (Hin0 : in_image w0 x y z) by exact Hin.
      pose proof (Get_voxel w0 x y z (Initialize_wf _) Hin0) as Hg.
      unfold w0 in Hg at 1. rewrite Get_Initialize in Hg by exact Hin0.
      congruence. }
    rewrite H0. ring.
Qed.

End CoeffInitProperties.

(** ** Loops over an index range, with an invariant that follows the index *)

Lemma foldM_seq_invariant {S : Type} (I : nat -> S -> Prop)
    (f : S -> nat -> outcome S) (n : nat) (s s' : S) :
  foldM f (seq 0 n) s = Done s' ->
  I O s ->
  (forall k s1 s2, (k < n)%nat -> I k s1 -> f s1 k = Done s2 -> I (Datatypes.S k) s2) ->
  I n s'.
Proof.
  revert s'. induction n as [|m IH]; intros s' H H0 Hstep.
  - cbn in H. inversion H; subst. exact H0.
  - rewrite seq_S, foldM_app in H. bind_inv H as s1 H1. cbn in H.
    bind_inv H as s2 H2. inversion H; subst s2; clear H.
    eapply Hstep; [lia | | exact H2].
    apply IH; [exact H1 | exact H0 |]. intros. eapply Hstep; eauto.
Qed.

(** ** The intensity bounds *)

Section SuperresolutionProperties.

Variables exp log : Q -> Q.
Variable ParallelSuperresolution : Reconstruction -> RealImage * RealImage.
Variable ParallelAdaptiveRegularization : Reconstruction -> RealImage -> RealImage.
Variable GaussianBlurring : Q -> RealImage -> RealImage.


(** With the bounds out of order every value is replaced by the upper one. *)
Lemma bound_intensity_degenerate (st : Reconstruction) (v : Q) :
  (upper_bound st < lower_bound st)%Q ->
  bound_intensity st v = upper_bound st.
Proof.
  unfold bound_intensity. fold (lower_bound st) (upper_bound st). intros Hb.
  destruct (Qltb v (lower_bound st)) eqn:H1.
  - apply Qltb_lt in Hb. now rewrite Hb.
  - apply Qltb_ge in H1.
    assert (H2 : Qltb (upper_bound st) v = true) by (apply Qltb_lt; lra).
    now rewrite H2.
Qed.





End SuperresolutionProperties.

(** ** ComputeNCC and StructuralExclusion *)

Section StructuralProperties.

Variable sqrt : Q -> Q.
Variable ImageTransformation : bool -> Q -> RealImage -> nat -> RealImage -> RealImage.
Variable GaussianBlurringWithPadding : Q -> Q -> RealImage -> RealImage.

(** [overlap] collects the positions counted by [overlap_count]. *)
Lemma overlap_length (slice_1 slice_2 : RealImage) (threshold : Q) (ov : list (Q * Q)) :
  overlap slice_1 slice_2 threshold = Done ov ->
  length ov = overlap_count slice_1 slice_2 threshold.
Proof.
  unfold overlap, overlap_count. generalize (NumberOfVoxels slice_1) as n.
  intros n H.
  refine (foldM_seq_invariant
            (fun k acc => length acc =
               length (List.filter (both_exceed slice_1 slice_2 threshold) (seq 0 k)))
            _ n _ ov H _ _); [reflexivity|].
  intros k acc acc' _ Hinv Hstep.
  rewrite seq_S, List.filter_app, length_app, <- Hinv. cbn [List.filter Nat.add].
  bind_inv Hstep as a Ha. apply rd_Done in Ha. unfold both_exceed. rewrite Ha.
  destruct (Qltb threshold a) eqn:Hc.
  - bind_inv Hstep as b Hb. apply rd_Done in Hb. rewrite Hb. cbn [andb] in Hstep |- *.
    destruct (Qltb threshold b); inversion Hstep; subst acc'.
    + now rewrite length_app.
    + cbn. lia.
  - cbn [mbind outcome_bind obind andb] in Hstep. inversion Hstep; subst acc'.
    destruct (Data slice_2 !! k); cbn; lia.
Qed.

(** With fewer than 5 common positions the value is the sentinel -1. *)
Lemma ComputeNCC_sentinel (slice_1 slice_2 : RealImage) (threshold : Q)
    (ov ov2 : list (Q * Q)) :
  overlap slice_1 slice_2 threshold = Done ov ->
  overlap_2 slice_1 slice_2 threshold = Done ov2 ->
  (overlap_count slice_1 slice_2 threshold < 5)%nat ->
  ComputeNCC sqrt slice_1 slice_2 threshold = Done (-1)%Q.
Proof.
  intros Hov Hov2 Hc. unfold ComputeNCC. rewrite Hov. cbn [mbind outcome_bind obind].
  rewrite Hov2. cbn [mbind outcome_bind obind].
  rewrite (overlap_length _ _ _ _ Hov).
  assert (Hlt : (overlap_count slice_1 slice_2 threshold <? 5)%nat = true)
    by now apply Nat.ltb_lt.
  now rewrite Hlt.
Qed.

Lemma gate_excluded (st : Reconstruction) (ncc : Q) :
  gate st ncc = (-1)%Z <-> (ncc <= _global_NCC_threshold st)%Q.
Proof.
  unfold gate. destruct (Qltb (_global_NCC_threshold st) ncc) eqn:Hc.
  - apply Qltb_lt in Hc. split; [discriminate | lra].
  - apply Qltb_ge in Hc. tauto.
Qed.

Lemma gate_kept (st : Reconstruction) (ncc : Q) :
  gate st ncc = 1%Z <-> (_global_NCC_threshold st < ncc)%Q.
Proof.
  unfold gate. destruct (Qltb (_global_NCC_threshold st) ncc) eqn:Hc.
  - apply Qltb_lt in Hc. tauto.
  - apply Qltb_ge in Hc. split; [discriminate | lra].
Qed.

(** [output_ncc] reads the slices, the volume and the mask only, and not the
    image the transformation filter wrote to before. *)
Lemma output_ncc_frame (s st : Reconstruction) (inputIndex : nat) (out out' : RealImage) :
  _slices s = _slices st -> _reconstructed s = _reconstructed st ->
  _mask s = _mask st ->
  output_ncc sqrt ImageTransformation GaussianBlurringWithPadding s inputIndex out
  = output_ncc sqrt ImageTransformation GaussianBlurringWithPadding st inputIndex out'.
Proof.
  intros H1 H2 H3. unfold output_ncc, ncc_operands, source_padding.
  rewrite H1, H2, H3. reflexivity.
Qed.

Lemma StructuralExclusion_spec (st st' : Reconstruction) :
  StructuralExclusion sqrt ImageTransformation GaussianBlurringWithPadding st = Done st' ->
  _global_NCC_threshold st' = _global_NCC_threshold st /\
  forall inputIndex, (inputIndex < length (_slices st))%nat ->
    exists ncc output,
      output_ncc sqrt ImageTransformation GaussianBlurringWithPadding
        st inputIndex empty_image = Done (ncc, output) /\
      _reg_slice_weight st' !! inputIndex = Some (gate st ncc).
Proof.
  intros H. unfold StructuralExclusion in H. bind_inv H as r Hr. destruct r as [s out].
  inversion H; subst s; clear H.
  pose (I := fun (k : nat) (r : Reconstruction * RealImage) =>
       (_slices (fst r) = _slices st /\ _reconstructed (fst r) = _reconstructed st /\
        _mask (fst r) = _mask st /\
        _global_NCC_threshold (fst r) = _global_NCC_threshold st) /\
       forall i, (i < k)%nat ->
         exists ncc output,
           output_ncc sqrt ImageTransformation GaussianBlurringWithPadding
             st i empty_image = Done (ncc, output) /\
           _reg_slice_weight (fst r) !! i = Some (gate st ncc)).
  assert (Hfinal : I (length (_slices st)) (st', out)).
  { refine (foldM_seq_invariant I _ _ _ _ Hr _ _).
    - split; [repeat split | intros; lia].
    - intros k [s1 o1] [s2 o2] Hk [(Hs & Hrc & Hm & Ht) Hinv] Hstep. cbn [fst] in *.
      bind_inv Hstep as no Hno. destruct no as [ncc o].
      bind_inv Hstep as w Hw. inversion Hstep; subst s2 o2; clear Hstep.
      apply wr_Done in Hw as [Hlt ->].
      rewrite (output_ncc_frame s1 st k o1 empty_image Hs Hrc Hm) in Hno.
      split; [repeat split; assumption|]. intros i Hi. cbn [fst].
      match goal with
      | |- context [_reg_slice_weight (set_reg_slice_weight ?w s1)] =>
          change (_reg_slice_weight (set_reg_slice_weight w s1)) with w
      end.
      destruct (decide (i = k)) as [->|Hne].
      + exists ncc, o. split; [exact Hno|].
        rewrite list_lookup_insert_eq by exact Hlt. unfold gate. now rewrite Ht.
      + rewrite list_lookup_insert_ne by congruence. apply Hinv. lia. }
  destruct Hfinal as [(_ & _ & _ & Ht) Hall]. split; [exact Ht | exact Hall].
Qed.

(** [StructuralExclusion] sets [_reg_slice_weight[i]] to +1 exactly when
    [output_ncc], the value of [ComputeNCC] for the operands of slice [i]
    with the sentinel -1 replaced by 1, is greater than
    [_global_NCC_threshold], and to -1 exactly when it is less than or equal
    to the threshold; the constructor sets the threshold to 0.65. *)
Lemma StructuralExclusion_gating (st st' : Reconstruction) (inputIndex : nat) :
  StructuralExclusion sqrt ImageTransformation GaussianBlurringWithPadding st = Done st' ->
  (inputIndex < length (_slices st))%nat ->
  (exists ncc output,
     output_ncc sqrt ImageTransformation GaussianBlurringWithPadding
       st inputIndex empty_image = Done (ncc, output) /\
     (_reg_slice_weight st' !! inputIndex = Some 1%Z <->
      (_global_NCC_threshold st < ncc)%Q) /\
     (_reg_slice_weight st' !! inputIndex = Some (-1)%Z <->
      (ncc <= _global_NCC_threshold st)%Q)) /\
  forall raw, _global_NCC_threshold (constructor raw) = 0.65%Q.
Proof.
  intros H Hi. split; [|reflexivity].
  destruct (StructuralExclusion_spec st st' H) as [_ Hall].
  destruct (Hall inputIndex Hi) as (ncc & output & Hncc & Hw).
  exists ncc, output. split; [exact Hncc|]. rewrite Hw. split.
  - rewrite <- gate_kept. split; congruence.
  - rewrite <- gate_excluded. split; congruence.
Qed.

Lemma ComputeNCC_few_positions (slice_1 slice_2 : RealImage) (threshold r : Q) :
  ComputeNCC sqrt slice_1 slice_2 threshold = Done r ->
  (overlap_count slice_1 slice_2 threshold < 5)%nat ->
  r = (-1)%Q.
Proof.
  intros H Hc. unfold ComputeNCC in H. bind_inv H as ov Hov. bind_inv H as ov2 Hov2.
  rewrite (overlap_length _ _ _ _ Hov) in H.
  assert (Hlt : (overlap_count slice_1 slice_2 threshold <? 5)%nat = true)
    by now apply Nat.ltb_lt.
  rewrite Hlt in H. cbn in H. congruence.
Qed.

(** C10, as the code has it. [ComputeNCC] returns -1 for two images with
    fewer than 5 positions at which both values exceed the threshold. For a
    slice whose operands are such, [StructuralExclusion] compares 1 with
    [_global_NCC_threshold]: the slice is kept (+1) when the threshold is
    below 1 and excluded (-1) otherwise. *)
Theorem undefined_NCC_gating (st st' : Reconstruction) (inputIndex : nat)
    (target output : RealImage) :
  StructuralExclusion sqrt ImageTransformation GaussianBlurringWithPadding st = Done st' ->
  (inputIndex < length (_slices st))%nat ->
  ncc_operands ImageTransformation GaussianBlurringWithPadding
    st inputIndex empty_image = Done (target, output) ->
  (overlap_count target output 0 < 5)%nat ->
  ComputeNCC sqrt target output 0 = Done (-1)%Q /\
  ((_global_NCC_threshold st < 1)%Q ->
   _reg_slice_weight st' !! inputIndex = Some 1%Z) /\
  ((1 <= _global_NCC_threshold st)%Q ->
   _reg_slice_weight st' !! inputIndex = Some (-1)%Z).
Proof.
  intros H Hi Hop Hc.
  destruct (StructuralExclusion_spec st st' H) as [_ Hall].
  destruct (Hall inputIndex Hi) as (ncc & out & Hncc & Hw).
  unfold output_ncc in Hncc. rewrite Hop in Hncc. cbn [mbind outcome_bind obind] in Hncc.
  bind_inv Hncc as r Hr.
  assert (r = (-1)%Q) by (eapply ComputeNCC_few_positions; eassumption). subst r.
  inversion Hncc; subst ncc out; clear Hncc.
  split; [exact Hr|]. rewrite Hw. change (Qeq_bool (-1) (-1)) with true. cbn iota.
  split; intros Ht; f_equal.
  - now apply gate_kept.
  - now apply gate_excluded.
Qed.

(** The image [output] is initialised after the transformation filter has
    run, so the second operand of [ComputeNCC] is blank and no position is
    counted. *)
Lemma ncc_operands_blank (st : Reconstruction) (inputIndex : nat)
    (out target output : RealImage) :
  ncc_operands ImageTransformation GaussianBlurringWithPadding
    st inputIndex out = Done (target, output) ->
  overlap_count target output 0 = O.
Proof.
  intros H. unfold ncc_operands in H. bind_inv H as slice Hs.
  bind_inv H as target' Ht. bind_inv H as output' Ho.
  inversion H; subst target' output'; clear H.
  unfold image_mul in Ho. destruct (same_attributes _ _); [|discriminate].
  inversion Ho; subst output; clear Ho.
  unfold overlap_count.
  match goal with
  | |- length (List.filter ?f ?l) = O =>
      assert (Hf : forall j, f j = false)
  end.
  { intros j. unfold both_exceed. destruct (Data target !! j) as [a|]; [|reflexivity].
    cbn [Data with_Data Initialize].
    destruct (zip_with Qmult _ _ !! j) as [b|] eqn:Hb; [|reflexivity].
    apply lookup_zip_with_Some in Hb as (z & m & -> & Hz & _).
    apply lookup_replicate in Hz as [-> _].
    assert (Hc : Qltb 0 (0 * m) = false) by (apply Qltb_ge; lra).
    rewrite Hc. apply andb_false_r. }
  induction (seq 0 (NumberOfVoxels target)) as [|j l IH]; [reflexivity|].
  cbn [List.filter]. now rewrite Hf.
Qed.

(** Hence every slice is kept when the threshold is below 1. *)
Lemma StructuralExclusion_keeps_every_slice (st st' : Reconstruction) (inputIndex : nat) :
  StructuralExclusion sqrt ImageTransformation GaussianBlurringWithPadding st = Done st' ->
  (inputIndex < length (_slices st))%nat ->
  (_global_NCC_threshold st < 1)%Q ->
  _reg_slice_weight st' !! inputIndex = Some 1%Z.
Proof.
  intros H Hi Ht.
  destruct (StructuralExclusion_spec st st' H) as [_ Hall].
  destruct (Hall inputIndex Hi) as (ncc & out & Hncc & Hw).
  unfold output_ncc in Hncc. bind_inv Hncc as ops Hops. destruct ops as [target output].
  bind_inv Hncc as r Hr.
  assert (r = (-1)%Q).
  { eapply ComputeNCC_few_positions; [exact Hr|].
    rewrite (ncc_operands_blank _ _ _ _ _ Hops). lia. }
  subst r. inversion Hncc; subst ncc out; clear Hncc.
  rewrite Hw. f_equal. now apply gate_kept.
Qed.

(** C5. The code does not compare the NCC of the slice and the resampled
    volume: [output.Initialize] runs after the transformation filter
    (l.1374, l.1361), so whatever the filters return the second operand of
    [ComputeNCC] holds zeros only, [ComputeNCC] returns the sentinel -1, and
    the slice gets +1 when the threshold is below 1 and -1 otherwise. *)
Theorem StructuralExclusion_blank_operand (st st' : Reconstruction) (inputIndex : nat) :
  StructuralExclusion sqrt ImageTransformation GaussianBlurringWithPadding st = Done st' ->
  (inputIndex < length (_slices st))%nat ->
  (exists target output,
     ncc_operands ImageTransformation GaussianBlurringWithPadding
       st inputIndex empty_image = Done (target, output) /\
     (forall j v, Data output !! j = Some v -> (v == 0)%Q) /\
     ComputeNCC sqrt target output 0 = Done (-1)%Q) /\
  ((_global_NCC_threshold st < 1)%Q ->
   _reg_slice_weight st' !! inputIndex = Some 1%Z) /\
  ((1 <= _global_NCC_threshold st)%Q ->
   _reg_slice_weight st' !! inputIndex = Some (-1)%Z).
Proof.
  intros H Hi.
  destruct (StructuralExclusion_spec st st' H) as [_ Hall].
  destruct (Hall inputIndex Hi) as (ncc & out & Hncc & Hw).
  unfold output_ncc in Hncc. bind_inv Hncc as ops Hops. destruct ops as [target output].
  bind_inv Hncc as r Hr.
  assert (r = (-1)%Q).
  { eapply ComputeNCC_few_positions; [exact Hr|].
    rewrite (ncc_operands_blank _ _ _ _ _ Hops). lia. }
  subst r. inversion Hncc; subst ncc out; clear Hncc.
  split.
  - exists target, output. split; [exact Hops|]. split; [|exact Hr].
    unfold ncc_operands in Hops. bind_inv Hops as slice Hs.
    bind_inv Hops as target' Ht. bind_inv Hops as output' Ho.
    inversion Hops; subst target' output'; clear Hops.
    unfold image_mul in Ho. destruct (same_attributes _ _); [|discriminate].
    inversion Ho; subst output; clear Ho.
    intros j v Hv. cbn [Data with_Data Initialize] in Hv.
    apply lookup_zip_with_Some in Hv as (z & m & -> & Hz & _).
    apply lookup_replicate in Hz as [-> _]. ring.
  - rewrite Hw. change (Qeq_bool (-1) (-1)) with true. cbn iota.
    split; intros Ht; f_equal.
    + now apply gate_kept.
    + now apply gate_excluded.
Qed.

End StructuralProperties.

(** ** Loops that store into an image *)

Lemma Put_same_dims (img img' : RealImage) (x y z : nat) (v : Q) :
  Put img x y z v = Done img' ->
  same_dims img' img /\ length (Data img') = length (Data img).
Proof.
  intros H. apply Put_Done in H as (_ & _ & ->). split; [repeat split|].
  cbn. apply length_insert.
Qed.

Lemma Get_Put_eq (img img' : RealImage) (x y z : nat) (v : Q) :
  Put img x y z v = Done img' -> Get img' x y z = Done v.
Proof.
  intros H. apply Put_Done in H as (Hin & Hlt & ->). apply Get_Done.
  split; [exact Hin|]. cbn. now apply list_lookup_insert_eq.
Qed.

Lemma Get_Put_ne (img img' : RealImage) (x y z x' y' z' : nat) (v : Q) :
  Put img x y z v = Done img' -> (x', y', z') <> (x, y, z) ->
  Get img' x' y' z' = Get img x' y' z'.
Proof.
  intros H Hne. apply Put_Done in H as (Hin & Hlt & ->). unfold Get.
  change (in_image (with_Data img ?d) x' y' z') with (in_image img x' y' z').
  destruct (decide (in_image img x' y' z')) as [Hin'|]; [|reflexivity].
  cbn [Data with_Data].
  change (voxel_index (with_Data img ?d) x' y' z') with (voxel_index img x' y' z').
  unfold rd. rewrite list_lookup_insert_ne; [reflexivity|].
  intros He. apply Hne.
  destruct (voxel_index_inj img x y z x' y' z' Hin Hin' He) as (-> & -> & ->).
  reflexivity.
Qed.

(** A loop that stores at each listed position a value that depends on the
    position only. *)
Lemma foldM_put_positions (F : nat -> nat -> nat -> outcome Q)
    (ps : list (nat * nat * nat)) (img img' : RealImage) :
  foldM (fun img '(x, y, z) => v ← F x y z; Put img x y z v) ps img = Done img' ->
  same_dims img' img /\
  (forall x y z, (x, y, z) ∈ ps -> exists v, F x y z = Done v /\ Get img' x y z = Done v) /\
  (forall x y z, (x, y, z) ∉ ps -> Get img' x y z = Get img x y z).
Proof.
  revert img'. induction ps as [|[[x0 y0] z0] ps IH] using rev_ind; intros img' H.
  - cbn in H. inversion H; subst img'. split; [repeat split|].
    split; [intros x y z Hin; inversion Hin | reflexivity].
  - rewrite foldM_app in H. bind_inv H as img1 H1. cbn in H.
    bind_inv H as img2 H2. inversion H; subst img2; clear H.
    bind_inv H2 as v Hv.
    destruct (IH img1 H1) as (Hd & Hin & Hout).
    destruct (Put_same_dims _ _ _ _ _ _ H2) as [Hd2 _].
    split; [|split].
    + destruct Hd as (? & ? & ?), Hd2 as (? & ? & ?). repeat split; congruence.
    + intros x y z Hm.
      destruct (decide ((x, y, z) = (x0, y0, z0))) as [He|Hne].
      * inversion He; subst. exists v. split; [exact Hv|]. eapply Get_Put_eq; eauto.
      * apply elem_of_app in Hm as [Hm|Hm].
        -- destruct (Hin x y z Hm) as (u & Hu & Hg). exists u. split; [exact Hu|].
           rewrite (Get_Put_ne _ _ _ _ _ _ _ _ _ H2 Hne). exact Hg.
        -- apply list_elem_of_singleton in Hm. contradiction.
    + intros x y z Hm. rewrite not_elem_of_app in Hm. destruct Hm as [Hm1 Hm2].
      rewrite (Get_Put_ne _ _ _ _ _ _ _ _ _ H2).
      * now apply Hout.
      * intros He. apply Hm2. rewrite He. now left.
Qed.

Lemma foldM_fmap {S A B : Type} (f : S -> B -> outcome S) (g : A -> B)
    (l : list A) (s : S) :
  foldM f (g <$> l) s = foldM (fun s a => f s (g a)) l s.
Proof.
  revert s. induction l as [|a l IH]; intros s; cbn; [reflexivity|].
  destruct (f s (g a)); cbn; auto.
Qed.

(** ** BackgroundFiltering *)

Lemma filtered_value_nonneg (b g t : Q) : (0 <= filtered_value b g t)%Q.
Proof.
  unfold filtered_value. destruct (Qltb (b + g - t) 0) eqn:Hc.
  - lra.
  - now apply Qltb_ge in Hc.
Qed.

Lemma filtered_value_negative (b g t : Q) :
  (b + g - t < 0)%Q -> filtered_value b g t = 1%Q.
Proof. intros H. unfold filtered_value. apply Qltb_lt in H. now rewrite H. Qed.

Lemma filtered_value_kept (b g t : Q) :
  (0 <= b + g - t)%Q -> filtered_value b g t = (b + g - t)%Q.
Proof. intros H. unfold filtered_value. apply Qltb_ge in H. now rewrite H. Qed.

Section BackgroundFilteringProperties.

Variable GaussianBlurring : Q -> RealImage -> RealImage.

Lemma filter_stack_spec (gb2 gb3 : RealImage -> RealImage) (input stack : RealImage) :
  filter_stack gb2 gb3 input = Done stack ->
  forall x y i, in_image input x y i ->
    exists b g t, filter_reads gb2 gb3 input x y i b g t /\
                  Get stack x y i = Done (filtered_value b g t).
Proof.
  intros H x y i (Hx & Hy & Hz). unfold filter_stack in H.
  set (F := fun x y i =>
              b ← Get (gb3 (GetRegion_plane input i)) x y 0;
              g ← Get (gb2 input) x y i;
              t ← Get (gb2 (GetRegion_plane input i)) x y 0;
              Done (filtered_value b g t)).
  set (ps := seq 0 (GetZ input) ≫= (fun i => (fun '(x, y) => (x, y, i)) <$> pixels input)).
  assert (Hflat : foldM (fun img '(x, y, z) => v ← F x y z; Put img x y z v) ps input
                  = Done stack).
  { rewrite <- H. unfold ps. rewrite <- foldM_bind. apply foldM_ext.
    intros s k _. rewrite foldM_fmap. apply foldM_ext. intros s' [x' y'] _.
    unfold F. destruct (Get (gb3 _) x' y' 0); cbn; auto.
    destruct (Get (gb2 input) x' y' k); cbn; auto.
    destruct (Get (gb2 _) x' y' 0); cbn; auto. }
  destruct (foldM_put_positions F ps input stack Hflat) as (_ & Hin & _).
  destruct (Hin x y i) as (v & Hv & Hg).
  { unfold ps. apply list_elem_of_bind. exists i. split; [|apply elem_of_seq; lia].
    apply list_elem_of_fmap. exists (x, y). split; [reflexivity|].
    unfold pixels. apply list_elem_of_bind. exists x. split; [|apply elem_of_seq; lia].
    apply list_elem_of_bind. exists y. split; [now left | apply elem_of_seq; lia]. }
  unfold F in Hv. bind_inv Hv as b Hb. bind_inv Hv as g Hgl. bind_inv Hv as t Ht.
  inversion Hv; subst v. exists b, g, t. repeat split; assumption.
Qed.

(** C9, as the code has it. In every filtered stack the value of a voxel is
    the sum "foreground-blurred slice + globally blurred stack - blurred
    slice", replaced by 1 when that sum is below 0; a sum that is 0 or more
    is kept, so no voxel of a filtered stack is negative. *)
Theorem BackgroundFiltering_values (stacks stacks' : list RealImage)
    (fg_sigma bg_sigma : Q) (j : nat) (first input : RealImage) (x y i : nat) :
  BackgroundFiltering GaussianBlurring stacks fg_sigma bg_sigma = Done stacks' ->
  stacks !! 0%nat = Some first ->
  stacks !! j = Some input ->
  in_image input x y i ->
  exists stack b g t,
    stacks' !! j = Some stack /\
    filter_reads (GaussianBlurring (GetXSize first * bg_sigma))
                 (GaussianBlurring (GetXSize first * fg_sigma)) input x y i b g t /\
    Get stack x y i = Done (filtered_value b g t) /\
    (0 <= filtered_value b g t)%Q /\
    ((b + g - t < 0)%Q -> filtered_value b g t = 1%Q) /\
    ((0 <= b + g - t)%Q -> filtered_value b g t = (b + g - t)%Q).
Proof.
  intros H H0 Hj Hin. unfold BackgroundFiltering in H.
  apply rd_Done in H0. rewrite H0 in H. cbn [mbind outcome_bind obind] in H.
  set (gb2 := GaussianBlurring (GetXSize first * bg_sigma)) in *.
  set (gb3 := GaussianBlurring (GetXSize first * fg_sigma)) in *.
  eapply (foldM_pointwise_inv _ (fun _ input => filter_stack gb2 gb3 input)) in H;
    [| | reflexivity].
  - destruct H as (_ & _ & Hlt).
    destruct (Hlt j input (lookup_lt_Some _ _ _ Hj) Hj) as (stack & Hs & Hjs).
    destruct (filter_stack_spec gb2 gb3 input stack Hs x y i Hin) as (b & g & t & Hr & Hg).
    exists stack, b, g, t. split; [exact Hjs|]. split; [exact Hr|]. split; [exact Hg|].
    split; [apply filtered_value_nonneg|].
    split; [apply filtered_value_negative | apply filtered_value_kept].
  - intros a k v Hk Hv. apply rd_Done in Hv. rewrite Hv. cbn [mbind outcome_bind obind].
    destruct (filter_stack gb2 gb3 v); cbn; auto.
    apply wr_lt. apply rd_Done in Hv. now apply lookup_lt_Some in Hv.
Qed.

End BackgroundFilteringProperties.

(** ** Loops with an invariant over the elements already visited *)

Lemma foldM_prefix_invariant {S A : Type} (I : list A -> S -> Prop)
    (f : S -> A -> outcome S) (l : list A) (s s' : S) :
  foldM f l s = Done s' ->
  I [] s ->
  (forall pre a post s1 s2, l = pre ++ a :: post -> I pre s1 -> f s1 a = Done s2 ->
     I (pre ++ [a]) s2) ->
  I l s'.
Proof.
  revert s'. induction l as [|a l IH] using rev_ind; intros s' H H0 Hstep.
  - cbn in H. inversion H; subst. exact H0.
  - rewrite foldM_app in H. bind_inv H as s1 H1. cbn in H. bind_inv H as s2 H2.
    inversion H; subst s2; clear H.
    apply (Hstep l a [] s1 s'); [reflexivity | | exact H2].
    apply IH; [exact H1 | exact H0 |].
    intros pre b post t1 t2 Hl. apply (Hstep pre b (post ++ [a])).
    rewrite Hl, <- app_assoc. reflexivity.
Qed.

Lemma NoDup_pixels (img : RealImage) : NoDup (pixels img).
Proof.
  unfold pixels. apply NoDup_bind; [| | apply NoDup_seq].
  - intros i1 i2 [x y] _ _ H1 H2.
    apply list_elem_of_bind in H1 as (j1 & H1 & _), H2 as (j2 & H2 & _).
    apply list_elem_of_singleton in H1, H2. congruence.
  - intros i _. apply NoDup_bind; [| | apply NoDup_seq].
    + intros j1 j2 [x y] _ _ H1 H2.
      apply list_elem_of_singleton in H1, H2. congruence.
    + intros j _. apply NoDup_singleton.
Qed.

Lemma elem_of_pixels (img : RealImage) (x y : nat) :
  (x, y) ∈ pixels img <-> (x < GetX img /\ y < GetY img)%nat.
Proof.
  unfold pixels. rewrite list_elem_of_bind. split.
  - intros (i & H & Hi). apply list_elem_of_bind in H as (j & H & Hj).
    apply list_elem_of_singleton in H. inversion H; subst.
    apply elem_of_seq in Hi, Hj. lia.
  - intros [Hx Hy]. exists x. split; [|apply elem_of_seq; lia].
    apply list_elem_of_bind. exists y. split; [now left | apply elem_of_seq; lia].
Qed.

(** ** The local copy of EvaluateReconQuality *)

Section ScaledCopy.

Variables exp sqrt : Q -> Q.

Lemma scaled_pixel_ext (st : Reconstruction) (inputIndex : nat)
    (slice ns nt nt' : RealImage) (x y : nat) :
  Get nt' x y 0 = Get nt x y 0 ->
  scaled_pixel exp st inputIndex slice ns nt x y ->
  scaled_pixel exp st inputIndex slice ns nt' x y.
Proof. unfold scaled_pixel. intros ->. tauto. Qed.

Lemma scaled_copy_spec (st : Reconstruction) (inputIndex : nat) (nt : RealImage) :
  scaled_copy exp st inputIndex = Done nt ->
  exists slice ns,
    _slices st !! inputIndex = Some slice /\
    _simulated_slices st !! inputIndex = Some ns /\
    same_dims nt slice /\
    forall x y, (x < GetX slice)%nat -> (y < GetY slice)%nat ->
      scaled_pixel exp st inputIndex slice ns nt x y.
Proof.
  intros H. unfold scaled_copy in H. bind_inv H as r Hr.
  destruct r as [[[nt' s_diff] s_t] s_n]. inversion H; subst nt'; clear H.
  unfold nrmse_sums in Hr. bind_inv Hr as slice Hs. bind_inv Hr as ns Hns.
  apply rd_Done in Hs, Hns. exists slice, ns. split; [exact Hs|]. split; [exact Hns|].
  pose (I := fun (pre : list (nat * nat)) (r : RealImage * Q * Q * nat) =>
    let nt := fst (fst (fst r)) in
    same_dims nt slice /\
    (forall x y, (x, y) ∈ pre -> scaled_pixel exp st inputIndex slice ns nt x y) /\
    (forall x y, (x, y) ∉ pre -> Get nt x y 0 = Get slice x y 0)).
  assert (Hfinal : I (pixels slice) (nt, s_diff, s_t, s_n)).
  { refine (foldM_prefix_invariant I _ _ _ _ Hr _ _).
    - split; [repeat split|]. split; [intros x y Hin; inversion Hin | reflexivity].
    - intros pre [x y] post [[[n1 d1] t1] c1] [[[n2 d2] t2] c2] Hl (Hd & Hin & Hout) Hstep.
      unfold I. cbn [fst] in *.
      assert (Hfresh : (x, y) ∉ pre).
      { pose proof (NoDup_pixels slice) as Hnd. rewrite Hl in Hnd.
        apply NoDup_app in Hnd as (_ & Hnd & _). intros Hm.
        apply (Hnd _ Hm). now left. }
      bind_inv Hstep as t Ht. rewrite (Hout x y Hfresh) in Ht.
      bind_inv Hstep as s Hsv.
      destruct (Qltb 0 t) eqn:Hct; cbn [andb] in Hstep.
      + destruct (Qltb 0 s) eqn:Hcs.
        * bind_inv Hstep as bias Hb. bind_inv Hstep as b Hbv.
          bind_inv Hstep as scale Hsc. bind_inv Hstep as n2' Hput.
          inversion Hstep; subst n2' d2 t2 c2; clear Hstep.
          apply rd_Done in Hb, Hsc. apply Qltb_lt in Hct, Hcs.
          destruct (Put_same_dims _ _ _ _ _ _ Hput) as [Hd2 _].
          split; [|split].
          -- destruct Hd as (? & ? & ?), Hd2 as (? & ? & ?). repeat split; congruence.
          -- intros x' y' Hm.
             destruct (decide ((x', y') = (x, y))) as [He|Hne].
             ++ inversion He; subst x' y'. exists t. split; [exact Ht|].
                split; [intros; lra|]. intros _. exists s. split; [exact Hsv|].
                split; [intros; lra|]. intros _. exists bias, b, scale.
                repeat split; try assumption. eapply Get_Put_eq; eauto.
             ++ apply elem_of_app in Hm as [Hm|Hm];
                  [|apply list_elem_of_singleton in Hm; contradiction].
                apply (scaled_pixel_ext st inputIndex slice ns n1); [|now apply Hin].
                apply (Get_Put_ne _ _ _ _ _ _ _ _ _ Hput). congruence.
          -- intros x' y' Hm. rewrite not_elem_of_app in Hm. destruct Hm as [Hm1 Hm2].
             rewrite (Get_Put_ne _ _ _ _ _ _ _ _ _ Hput); [now apply Hout|].
             intros He. apply Hm2. inversion He. now left.
        * inversion Hstep; subst n2 d2 t2 c2; clear Hstep.
          apply Qltb_lt in Hct. apply Qltb_ge in Hcs.
          split; [exact Hd|]. split.
          -- intros x' y' Hm. apply elem_of_app in Hm as [Hm|Hm]; [now apply Hin|].
             apply list_elem_of_singleton in Hm. inversion Hm; subst x' y'.
             exists t. split; [exact Ht|]. split; [intros; lra|]. intros _.
             exists s. split; [exact Hsv|]. split; [|intros; lra].
             intros _. now rewrite (Hout x y Hfresh).
          -- intros x' y' Hm. rewrite not_elem_of_app in Hm. now apply Hout.
      + inversion Hstep; subst n2 d2 t2 c2; clear Hstep. apply Qltb_ge in Hct.
        split; [exact Hd|]. split.
        * intros x' y' Hm. apply elem_of_app in Hm as [Hm|Hm]; [now apply Hin|].
          apply list_elem_of_singleton in Hm. inversion Hm; subst x' y'.
          exists t. split; [exact Ht|]. split; [|intros; lra].
          intros _. now rewrite (Hout x y Hfresh).
        * intros x' y' Hm. rewrite not_elem_of_app in Hm. now apply Hout. }
  destruct Hfinal as (Hd & Hin & _). cbn [fst] in *. split; [exact Hd|].
  intros x y Hx Hy. apply Hin. now apply elem_of_pixels.
Qed.

(** C8, as the code has it. [EvaluateReconQuality] leaves the object, and in
    it every stored slice, as it was. The factor [exp(-B_i) * s_i] multiplies
    the valid pixels of [nt], the local copy of the slice, which is dropped
    when the loop body ends. *)
Theorem EvaluateReconQuality_frame (st st' : Reconstruction) (stackIndex : Z) (r : Q) :
  EvaluateReconQuality exp sqrt st stackIndex = Done (r, st') ->
  st' = st /\ _slices st' = _slices st /\
  forall inputIndex, (inputIndex < length (_slices st))%nat ->
    exists slice ns nt,
      _slices st' !! inputIndex = Some slice /\
      _simulated_slices st !! inputIndex = Some ns /\
      scaled_copy exp st inputIndex = Done nt /\
      forall x y, (x < GetX slice)%nat -> (y < GetY slice)%nat ->
        scaled_pixel exp st inputIndex slice ns nt x y.
Proof.
  intros H. unfold EvaluateReconQuality in H. bind_inv H as sums Hs.
  destruct sums as [rmse_total slice_n]. inversion H; subst st'; clear H.
  split; [reflexivity|]. split; [reflexivity|]. intros i Hi.
  assert (Hrun : exists q, slice_nrmse exp sqrt st i = Done q).
  { refine (foldM_seq_invariant
              (fun k _ => forall i, (i < k)%nat -> exists q, slice_nrmse exp sqrt st i = Done q)
              _ _ _ _ Hs _ _ i Hi); [intros; lia|].
    intros k [a b] s2 _ Hinv Hstep j Hj. bind_inv Hstep as q Hq.
    destruct (decide (j = k)) as [->|Hne]; [eauto | apply Hinv; lia]. }
  destruct Hrun as [q Hq]. unfold slice_nrmse in Hq. bind_inv Hq as sums Hsum.
  destruct sums as [[[nt s_diff] s_t] s_n].
  assert (Hcopy : scaled_copy exp st i = Done nt)
    by (unfold scaled_copy; now rewrite Hsum).
  destruct (scaled_copy_spec st i nt Hcopy) as (slice & ns & Hsl & Hns & _ & Hpix).
  exists slice, ns, nt. repeat split; assumption.
Qed.

End ScaledCopy.

Import Examples SliceOrder.

(** ** Slice acquisition order *)

(** For the default interleaved order (code 3) the arguments [step] and
    [rewinder] are not read: the factors are 2 and 1. *)
Lemma default_interleaved_factors (z pack step rewinder : Z) :
  stack_order z pack 3 step rewinder = stack_order z pack 3 2 1.
Proof. reflexivity. Qed.

(** C4, as the code has it. For a stack of 12 slices with packages = 4 and
    order code 3 (step 2, rewinder 1), [GetSliceAcquisitionOrder] appends the
    slice order [0,8,4,1,9,5,2,10,6,3,11,7] to [_z_slice_order] and its
    inverse to [_t_slice_order]. *)
Theorem default_interleaved_order (st : Reconstruction) (x y : nat) (dx : Q) (d : list Q) :
  GetSliceAcquisitionOrder st
    [{| GetX := x; GetY := y; GetZ := 12; GetXSize := dx; Data := d |}]
    [4%Z] [3%Z] 2 1
  = Done (set_t_slice_order
            (_t_slice_order st ++ [0; 3; 6; 9; 2; 5; 8; 11; 1; 4; 7; 10]%Z)
            (set_z_slice_order
               (_z_slice_order st ++ [0; 8; 4; 1; 9; 5; 2; 10; 6; 3; 11; 7]%Z) st)).
Proof. reflexivity. Qed.

(** The order [0,4,8,1,5,9,2,6,10,3,7,11] of the specification is the one of
    the ascending order (code 1). *)
Lemma ascending_order (st : Reconstruction) (x y : nat) (dx : Q) (d : list Q) :
  GetSliceAcquisitionOrder st
    [{| GetX := x; GetY := y; GetZ := 12; GetXSize := dx; Data := d |}]
    [4%Z] [1%Z] 2 1
  = Done (set_t_slice_order
            (_t_slice_order st ++ [0; 3; 6; 9; 1; 4; 7; 10; 2; 5; 8; 11]%Z)
            (set_z_slice_order
               (_z_slice_order st ++ [0; 4; 8; 1; 5; 9; 2; 6; 10; 3; 7; 11]%Z) st)).
Proof. reflexivity. Qed.

(** C4 as stated fails: on a fresh object neither [_z_slice_order] nor
    [_t_slice_order] is [0,4,8,1,5,9,2,6,10,3,7,11]. *)
Lemma default_interleaved_order_not_ascending :
  exists st',
    GetSliceAcquisitionOrder fresh [image 1 1 12 []] [4%Z] [3%Z] 2 1 = Done st' /\
    _z_slice_order st' <> [0; 4; 8; 1; 5; 9; 2; 6; 10; 3; 7; 11]%Z /\
    _t_slice_order st' <> [0; 4; 8; 1; 5; 9; 2; 6; 10; 3; 7; 11]%Z.
Proof.
  eexists. split; [reflexivity|]. split; discriminate.
Qed.

(** ** The properties on the example objects *)

Lemma em_arrays_ok_two_slices : em_arrays_ok two_slices.
Proof. unfold em_arrays_ok. cbn. split; [lia|]. split; [lia | constructor]. Qed.

Lemma em_arrays_ok_scale_6 : em_arrays_ok scale_6.
Proof. unfold em_arrays_ok. cbn. split; [lia|]. split; [lia | constructor]. Qed.

(** C7 on the example with the scale 6. *)
Lemma EStep_unrealistic_scale_witness :
  em_arrays_ok scale_6 /\
  (1 < length (_slices scale_6))%nat /\
  _scale scale_6 !! 1%nat = Some 6%Q /\
  (6 < 0.2 \/ 5 < 6)%Q /\
  exists sp st',
    slice_potentials potential_half scale_6 = Done sp /\
    sp !! 1%nat = Some (-1)%Q /\
    EStep gauss potential_half scale_6 = Done st' /\
    _slice_weight st' !! 1%nat = Some 0%Q.
Proof.
  assert (H1 : (1 < length (_slices scale_6))%nat) by (cbn; lia).
  assert (H2 : _scale scale_6 !! 1%nat = Some 6%Q) by reflexivity.
  assert (H3 : (6 < 0.2 \/ 5 < 6)%Q) by (right; reflexivity).
  split; [exact em_arrays_ok_scale_6|]. split; [exact H1|]. split; [exact H2|].
  split; [exact H3|].
  exact (EStep_unrealistic_scale gauss potential_half scale_6 1 6
           em_arrays_ok_scale_6 H1 H2 H3).
Defined.

(** C6 as stated fails: with a weight sum [mix = 0] out of [Parallel::MStep],
    [MStep] ends the run. *)
Lemma MStep_terminates_the_run :
  MStep (sums_with_mix 0) two_slices 1 = Exited 1.
Proof. reflexivity. Qed.

(** The amended C6 on the example. *)
Lemma EM_degeneracies_witness :
  em_arrays_ok two_slices /\
  sums_with_mix 0 two_slices = (1, 0, 4, 0, 10)%Q /\
  ((exists sp st1 sum den sum2 den2 st',
     slice_potentials potential_half two_slices = Done sp /\
     slice_statistics (voxel_posteriors potential_half two_slices) sp = Done (st1, den) /\
     potential_variances st1 sp (_mean_s st1) (_mean_s2 st1)
       = Done (sum, den, sum2, den2) /\
     EStep gauss potential_half two_slices = Done st' /\
     ((sum <= 0 \/ den <= 0)%Q -> _sigma_s st' = 0.025%Q) /\
     ((forall i p, (i < length (_slices two_slices))%nat -> sp !! i = Some p ->
         (p < 0)%Q) ->
      _mix_s st' = 0.9%Q) /\
     ((den <= 0 \/ _mean_s2 st1 <= _mean_s st1)%Q ->
      forall i p, (i < length (_slices two_slices))%nat -> sp !! i = Some p ->
        ~ (p == -1)%Q -> _slice_weight st' !! i = Some 1%Q)) /\
   ((0 <= 0)%Q -> MStep (sums_with_mix 0) two_slices 1 = Exited 1) /\
   ((0 < 0)%Q ->
    exists st', MStep (sums_with_mix 0) two_slices 1 = Done st' /\
                (sigma_floor two_slices <= _sigma st')%Q)).
Proof.
  split; [exact em_arrays_ok_two_slices|]. split; [reflexivity|].
  exact (EM_degeneracies gauss potential_half (sums_with_mix 0) two_slices 1
           1 0 4 0 10 em_arrays_ok_two_slices eq_refl).
Defined.

(** C2 fails on the code for slice 0: with [_force_excluded = [0]] the loops
    "Force exclusion of slices predefined by user" of [InitializeEMValues],
    [InitializeRobustStatistics] and [EStep] leave slice 0 alone, and it keeps
    the weight 1, whereas [CoeffInit] skips it (the weight of the voxel is the
    coefficient 1/2 of slice 1 alone). With [_force_excluded = [1]] slice 1
    gets the weight 0 in both. *)
Theorem force_excluded_slice_0 :
  (exists st', InitializeEMValues excluding_0 = Done st' /\
               _slice_weight st' = [1; 1]%Q) /\
  (exists st', InitializeRobustStatistics excluding_0 = Done st' /\
               _slice_weight st' = [1; 1]%Q) /\
  (forall G, exists st', EStep G potential_half excluding_0 = Done st' /\
               _slice_weight st' = [1; 1]%Q) /\
  (exists st', CoeffInit half_coefficient excluding_0 = Done st' /\
               Data (_volume_weights st') = [0 + 0.5]%Q) /\
  (exists st', InitializeRobustStatistics excluding_1 = Done st' /\
               _slice_weight st' = [1; 0]%Q) /\
  (forall G, exists st', EStep G potential_half excluding_1 = Done st' /\
               _slice_weight st' = [1; 0]%Q).
Proof.
  split; [|split; [|split; [|split; [|split]]]];
    try intros G; eexists; (split; [cbv; reflexivity | reflexivity]).
Qed.

(** C1 on the example that excludes slice 0. *)
Lemma CoeffInit_conservation_witness :
  coeffs_shaped (coefficients_built half_coefficient excluding_0) /\
  coeffs_in_volume (coefficients_built half_coefficient excluding_0) /\
  mask_covers excluding_0 /\
  exists st',
    CoeffInit half_coefficient excluding_0 = Done st' /\
    forall x y z, in_image (_reconstructed excluding_0) x y z ->
      exists w, Get (_volume_weights st') x y z = Done w /\
                (w == coefficient_sum st' x y z)%Q.
Proof.
  assert (H1 : coeffs_shaped (coefficients_built half_coefficient excluding_0)).
  { intros [|[|i]] slice sc He Hs Hc; cbn in He, Hs, Hc; try discriminate.
    inversion Hs; inversion Hc; subst. cbn. split; [reflexivity|].
    repeat constructor. }
  assert (H2 : coeffs_in_volume (coefficients_built half_coefficient excluding_0)).
  { unfold coeffs_in_volume. cbn. repeat constructor; cbn; lia. }
  assert (H3 : mask_covers excluding_0) by (unfold mask_covers; cbn; lia).
  split; [exact H1|]. split; [exact H2|]. split; [exact H3|].
  exact (CoeffInit_conservation half_coefficient excluding_0 H1 H2 H3).
Defined.

(** C10 on the example of two slices. *)
Lemma undefined_NCC_gating_witness :
  StructuralExclusion sqrt_floor transform_ones blur_padding_id two_slices
    = Done after_structural_exclusion /\
  (0 < length (_slices two_slices))%nat /\
  ncc_operands transform_ones blur_padding_id two_slices 0 empty_image
    = Done (pixel_slice (2 * 1), pixel_slice (0 * 1)) /\
  (overlap_count (pixel_slice (2 * 1)) (pixel_slice (0 * 1)) 0 < 5)%nat /\
  ComputeNCC sqrt_floor (pixel_slice (2 * 1)) (pixel_slice (0 * 1)) 0 = Done (-1)%Q /\
  ((_global_NCC_threshold two_slices < 1)%Q ->
   _reg_slice_weight after_structural_exclusion !! 0%nat = Some 1%Z) /\
  ((1 <= _global_NCC_threshold two_slices)%Q ->
   _reg_slice_weight after_structural_exclusion !! 0%nat = Some (-1)%Z).
Proof.
  assert (H1 : StructuralExclusion sqrt_floor transform_ones blur_padding_id two_slices
                 = Done after_structural_exclusion) by (vm_compute; reflexivity).
  assert (H2 : (0 < length (_slices two_slices))%nat) by (cbn; lia).
  assert (H3 : ncc_operands transform_ones blur_padding_id two_slices 0 empty_image
                 = Done (pixel_slice (2 * 1), pixel_slice (0 * 1))) by reflexivity.
  assert (H4 : (overlap_count (pixel_slice (2 * 1)) (pixel_slice (0 * 1)) 0 < 5)%nat)
    by (vm_compute; lia).
  split; [exact H1|]. split; [exact H2|]. split; [exact H3|]. split; [exact H4|].
  exact (undefined_NCC_gating sqrt_floor transform_ones blur_padding_id
           two_slices after_structural_exclusion 0 _ _ H1 H2 H3 H4).
Defined.

(** C10 as stated fails: with the threshold 1 the operands of slice 0 have
    fewer than 5 common positions and the slice is excluded. *)
Lemma undefined_NCC_excluded :
  exists st' target output,
    StructuralExclusion sqrt_floor transform_ones blur_padding_id threshold_1 = Done st' /\
    ncc_operands transform_ones blur_padding_id threshold_1 0 empty_image
      = Done (target, output) /\
    (overlap_count target output 0 < 5)%nat /\
    ComputeNCC sqrt_floor target output 0 = Done (-1)%Q /\
    _reg_slice_weight st' !! 0%nat = Some (-1)%Z.
Proof.
  eexists _, _, _. split; [vm_compute; reflexivity|]. split; [vm_compute; reflexivity|].
  split; [vm_compute; lia|]. split; reflexivity.
Qed.

(** C8 on the example with the scale 3. *)
Lemma EvaluateReconQuality_frame_witness :
  EvaluateReconQuality exp_poly sqrt_floor scale_3 0 = Done (quality_of_scale_3, scale_3) /\
  scale_3 = scale_3 /\ _slices scale_3 = _slices scale_3 /\
  forall inputIndex, (inputIndex < length (_slices scale_3))%nat ->
    exists slice ns nt,
      _slices scale_3 !! inputIndex = Some slice /\
      _simulated_slices scale_3 !! inputIndex = Some ns /\
      scaled_copy exp_poly scale_3 inputIndex = Done nt /\
      forall x y, (x < GetX slice)%nat -> (y < GetY slice)%nat ->
        scaled_pixel exp_poly scale_3 inputIndex slice ns nt x y.
Proof.
  assert (H1 : EvaluateReconQuality exp_poly sqrt_floor scale_3 0
               = Done (quality_of_scale_3, scale_3)) by (vm_compute; reflexivity).
  split; [exact H1|].
  exact (EvaluateReconQuality_frame exp_poly sqrt_floor scale_3 scale_3 0
           quality_of_scale_3 H1).
Defined.

(** C8 as stated fails: the call returns with the stored slices equal to
    their values before; the pixel 2 of slice 0 is 6 in the local copy only. *)
Lemma EvaluateReconQuality_keeps_slices :
  exists r st' nt,
    EvaluateReconQuality exp_poly sqrt_floor scale_3 0 = Done (r, st') /\
    _slices st' = _slices scale_3 /\
    _slices st' !! 0%nat = Some (pixel_slice 2) /\
    scaled_copy exp_poly scale_3 0 = Done nt /\
    Data nt = [2 * (exp_poly (- 0) * 3)]%Q.
Proof.
  eexists _, _, _. split; [vm_compute; reflexivity|]. split; [reflexivity|].
  split; [reflexivity|]. split; [vm_compute; reflexivity | reflexivity].
Qed.

(** C9 on a small stack. *)
Lemma BackgroundFiltering_values_witness :
  BackgroundFiltering blur_id [small_stack] 1 1 = Done [image 2 1 2 [0; 1; 1; 4]%Q] /\
  [small_stack] !! 0%nat = Some small_stack /\
  in_image small_stack 0 0 1 /\
  exists stack b g t,
    [image 2 1 2 [0; 1; 1; 4]%Q] !! 0%nat = Some stack /\
    filter_reads (blur_id (GetXSize small_stack * 1)) (blur_id (GetXSize small_stack * 1))
      small_stack 0 0 1 b g t /\
    Get stack 0 0 1 = Done (filtered_value b g t) /\
    (0 <= filtered_value b g t)%Q /\
    ((b + g - t < 0)%Q -> filtered_value b g t = 1%Q) /\
    ((0 <= b + g - t)%Q -> filtered_value b g t = (b + g - t)%Q).
Proof.
  assert (H1 : BackgroundFiltering blur_id [small_stack] 1 1
               = Done [image 2 1 2 [0; 1; 1; 4]%Q]) by (vm_compute; reflexivity).
  assert (H2 : [small_stack] !! 0%nat = Some small_stack) by reflexivity.
  assert (H3 : in_image small_stack 0 0 1) by (unfold in_image; cbn; lia).
  split; [exact H1|]. split; [exact H2|]. split; [exact H3|].
  exact (BackgroundFiltering_values blur_id [small_stack] _ 1 1 0 small_stack
           small_stack 0 0 1 H1 H2 H2 H3).
Defined.

(** C9 as stated fails: on the zero image the three filtered values are 0,
    their sum 0 is not positive, and the voxel stays 0. *)
Lemma BackgroundFiltering_keeps_zero :
  exists stacks' stack v,
    BackgroundFiltering blur_id [image 1 1 1 [0%Q]] 1 1 = Done stacks' /\
    stacks' !! 0%nat = Some stack /\
    Get stack 0 0 0 = Done v /\
    (v <= 0)%Q /\ ~ (v == 1)%Q.
Proof.
  eexists _, _, _. split; [vm_compute; reflexivity|]. split; [reflexivity|].
  split; [reflexivity|]. split; [vm_compute; discriminate|].
  intros H. vm_compute in H. discriminate.
Qed.

(** ** Voxel loops over whole images *)

Lemma each_voxel_loop (f : Q -> Q) (l2 l1 : list Q) :
  foldM (fun d i => v ← rd d i; wr d i (f v)) (seq (length l1) (length l2)) (l1 ++ l2)
  = Done (l1 ++ map f l2).
Proof.
  revert l1. induction l2 as [|v l2 IH]; intros l1; [reflexivity|].
  cbn [length seq foldM].
  assert (Hrd : rd (l1 ++ v :: l2) (length l1) = Done v)
    by (apply rd_Done, list_lookup_middle; reflexivity).
  rewrite Hrd. cbn [mbind outcome_bind obind].
  rewrite wr_lt by (rewrite length_app; cbn; lia).
  cbn [mbind outcome_bind obind].
  replace (<[length l1:=f v]> (l1 ++ v :: l2)) with ((l1 ++ [f v]) ++ l2).
  - replace (S (length l1)) with (length (l1 ++ [f v])) by (rewrite length_app; cbn; lia).
    rewrite IH, <- app_assoc. reflexivity.
  - rewrite <- app_assoc. cbn.
    rewrite (insert_app_r_alt l1 (v :: l2) (length l1)) by lia.
    now rewrite Nat.sub_diag.
Qed.

(** On an image whose array has one entry per voxel the loop returns, and
    it maps [f] over the array. *)
Lemma each_voxel_wf (f : Q -> Q) (img : RealImage) :
  wf_image img -> each_voxel f img = Done (with_Data img (map f (Data img))).
Proof.
  intros Hwf. unfold each_voxel. rewrite <- Hwf.
  pose proof (each_voxel_loop f (Data img) []) as H. cbn [length app] in H.
  rewrite H. reflexivity.
Qed.

Lemma with_Data_wf (img : RealImage) (d : list Q) :
  wf_image img -> length d = length (Data img) -> wf_image (with_Data img d).
Proof. unfold wf_image, NumberOfVoxels. cbn. congruence. Qed.

(** The loop of [MaskVolume] and [MaskImage] on arrays of the right length. *)
Lemma pad_outside_loop (mask : list Q) (padding : Q) (l2 m2 l1 m1 : list Q) :
  mask = m1 ++ m2 -> length m1 = length l1 -> (length l2 <= length m2)%nat ->
  foldM (fun pr i => m ← rd mask i; if Qeq_bool m 0 then wr pr i padding else Done pr)
    (seq (length l1) (length l2)) (l1 ++ l2)
  = Done (l1 ++ zip_with (padded padding) l2 m2).
Proof.
  revert m2 l1 m1. induction l2 as [|v l2 IH]; intros m2 l1 m1 Hm Hl Hle; [reflexivity|].
  destruct m2 as [|m m2]; [cbn in Hle; lia|].
  cbn [length seq foldM zip_with].
  assert (Hrd : rd mask (length l1) = Done m)
    by (apply rd_Done; subst mask; apply list_lookup_middle; congruence).
  rewrite Hrd. cbn [mbind outcome_bind obind].
  assert (Hstep : (if Qeq_bool m 0 then wr (l1 ++ v :: l2) (length l1) padding
                   else Done (l1 ++ v :: l2))
                  = Done ((l1 ++ [padded padding v m]) ++ l2)).
  { unfold padded. rewrite <- app_assoc. cbn. destruct (Qeq_bool m 0); [|reflexivity].
    rewrite wr_lt by (rewrite length_app; cbn; lia).
    rewrite (insert_app_r_alt l1 (v :: l2) (length l1)) by lia.
    now rewrite Nat.sub_diag. }
  rewrite Hstep. cbn [mbind outcome_bind obind].
  replace (S (length l1)) with (length (l1 ++ [padded padding v m]))
    by (rewrite length_app; cbn; lia).
  rewrite (IH m2 (l1 ++ [padded padding v m]) (m1 ++ [m])).
  - now rewrite <- app_assoc.
  - subst mask. now rewrite <- app_assoc.
  - rewrite !length_app. cbn. lia.
  - cbn in Hle. lia.
Qed.

Lemma pad_outside_wf (mask image : RealImage) (padding : Q) :
  wf_image image -> (NumberOfVoxels image <= length (Data mask))%nat ->
  pad_outside mask image padding
  = Done (with_Data image (zip_with (padded padding) (Data image) (Data mask))).
Proof.
  intros Hwf Hle. unfold pad_outside. rewrite <- Hwf in *.
  pose proof (pad_outside_loop (Data mask) padding (Data image) (Data mask) [] []
                eq_refl eq_refl Hle) as H.
  cbn [length app] in H. rewrite H. reflexivity.
Qed.

(** A mask with fewer entries than the image has voxels is read past its
    end. *)
Lemma pad_outside_short_loop (mask : list Q) (padding : Q) (l2 m2 l1 m1 : list Q) :
  mask = m1 ++ m2 -> length m1 = length l1 -> (length m2 < length l2)%nat ->
  foldM (fun pr i => m ← rd mask i; if Qeq_bool m 0 then wr pr i padding else Done pr)
    (seq (length l1) (length l2)) (l1 ++ l2)
  = Undefined.
Proof.
  revert m2 l1 m1. induction l2 as [|v l2 IH]; intros m2 l1 m1 Hm Hl Hlt;
    [cbn in Hlt; lia|].
  cbn [length seq foldM].
  destruct m2 as [|m m2].
  - assert (Hrd : rd mask (length l1) = Undefined).
    { unfold rd. rewrite lookup_ge_None_2; [reflexivity|].
      subst mask. rewrite length_app. cbn. lia. }
    now rewrite Hrd.
  - assert (Hrd : rd mask (length l1) = Done m)
      by (apply rd_Done; subst mask; apply list_lookup_middle; congruence).
    rewrite Hrd. cbn [mbind outcome_bind obind].
    assert (Hstep : (if Qeq_bool m 0 then wr (l1 ++ v :: l2) (length l1) padding
                     else Done (l1 ++ v :: l2))
                    = Done ((l1 ++ [padded padding v m]) ++ l2)).
    { unfold padded. rewrite <- app_assoc. cbn. destruct (Qeq_bool m 0); [|reflexivity].
      rewrite wr_lt by (rewrite length_app; cbn; lia).
      rewrite (insert_app_r_alt l1 (v :: l2) (length l1)) by lia.
      now rewrite Nat.sub_diag. }
    rewrite Hstep. cbn [mbind outcome_bind obind].
    replace (S (length l1)) with (length (l1 ++ [padded padding v m]))
      by (rewrite length_app; cbn; lia).
    apply (IH m2 (l1 ++ [padded padding v m]) (m1 ++ [m])).
    + subst mask. now rewrite <- app_assoc.
    + rewrite !length_app. cbn. lia.
    + cbn in Hlt. lia.
Qed.

Lemma padded_idempotent (padding v m : Q) :
  padded padding (padded padding v m) m = padded padding v m.
Proof. unfold padded. now destruct (Qeq_bool m 0). Qed.

(** ** The largest voxel *)

Lemma Qmax_cases (x y : Q) :
  (Qmax x y = x /\ (y <= x)%Q) \/ (Qmax x y = y /\ (x <= y)%Q).
Proof.
  unfold Qmax, GenericMinMax.gmax. destruct (x ?= y)%Q eqn:Hc.
  - left. split; [reflexivity|]. apply Qeq_alt in Hc. rewrite Hc. apply Qle_refl.
  - right. split; [reflexivity|]. apply Qlt_alt in Hc. now apply Qlt_le_weak.
  - left. split; [reflexivity|]. apply Qgt_alt in Hc. now apply Qlt_le_weak.
Qed.

Lemma fold_left_Qmax (d : list Q) (v : Q) :
  fold_left Qmax d v ∈ v :: d /\
  forall x, x ∈ v :: d -> (x <= fold_left Qmax d v)%Q.
Proof.
  revert v. induction d as [|w d IH]; intros v; cbn.
  - split; [left|]. intros x Hx. apply list_elem_of_singleton in Hx. subst.
    apply Qle_refl.
  - destruct (IH (Qmax v w)) as [Hin Hge]. split.
    + apply elem_of_cons in Hin. destruct Hin as [Heq|Hin].
      * rewrite Heq. destruct (Qmax_cases v w) as [[-> _]|[-> _]];
          [left | right; left].
      * right. now right.
    + intros x Hx. apply elem_of_cons in Hx. destruct Hx as [->|Hx].
      * apply Qle_trans with (Qmax v w); [|apply Hge; left].
        destruct (Qmax_cases v w) as [[-> H]|[-> H]]; [apply Qle_refl | exact H].
      * apply elem_of_cons in Hx. destruct Hx as [->|Hx].
        -- apply Qle_trans with (Qmax v w); [|apply Hge; left].
           destruct (Qmax_cases v w) as [[-> H]|[-> H]]; [exact H | apply Qle_refl].
        -- apply Hge. now right.
Qed.

Lemma image_max_ge (img : RealImage) (v : Q) :
  v ∈ Data img -> (v <= image_max img)%Q.
Proof.
  unfold image_max. destruct (Data img) as [|w d]; [intros H; inversion H|].
  apply fold_left_Qmax.
Qed.

Lemma image_max_in (img : RealImage) :
  Data img <> [] -> image_max img ∈ Data img.
Proof.
  unfold image_max. destruct (Data img) as [|w d]; [congruence|].
  intros _. apply fold_left_Qmax.
Qed.

Lemma image_max_positive (img : RealImage) :
  (0 < image_max img)%Q -> exists i, Data img !! i = Some (image_max img).
Proof.
  intros Hpos. apply list_elem_of_lookup, image_max_in.
  intros Hnil. unfold image_max in Hpos. rewrite Hnil in Hpos. lra.
Qed.

(** ** CreateMask, ThresholdNormalisedMask, Rescale *)

(** X1. [CreateMask] gives a binary image of the same size, with 1 exactly at
    the voxels above 0.5; binarising a binary mask again changes nothing. *)
Theorem CreateMask_binary (image : RealImage) :
  wf_image image ->
  exists mask,
    CreateMask image = Done mask /\
    Attributes mask = Attributes image /\ wf_image mask /\
    (forall i v, Data image !! i = Some v ->
       ((0.5 < v)%Q -> Data mask !! i = Some 1%Q) /\
       ((v <= 0.5)%Q -> Data mask !! i = Some 0%Q)) /\
    CreateMask mask = Done mask.
Proof.
  intros Hwf. unfold CreateMask.
  set (b := fun v : Q => if Qltb 0.5 v then 1%Q else 0%Q).
  rewrite (each_voxel_wf b image Hwf).
  assert (Hwf' : wf_image (with_Data image (map b (Data image))))
    by (apply with_Data_wf; [exact Hwf | apply length_map]).
  eexists. split; [reflexivity|]. split; [reflexivity|]. split; [exact Hwf'|].
  split.
  - intros i v Hv. cbn. rewrite list_lookup_fmap, Hv. cbn. unfold b. split; intros Hc.
    + apply Qltb_lt in Hc. now rewrite Hc.
    + apply Qltb_ge in Hc. now rewrite Hc.
  - rewrite (each_voxel_wf b _ Hwf'). cbn. unfold with_Data. cbn. f_equal. f_equal.
    rewrite <- list_fmap_compose. apply list_fmap_ext. intros _ v _. cbn.
    unfold b. destruct (Qltb 0.5 v); reflexivity.
Qed.

(** X2. For a threshold in [0, 1) and an image with a positive voxel,
    [ThresholdNormalisedMask] returns a binary mask that contains the
    voxels holding the maximum and no voxel that is not positive. *)
Theorem ThresholdNormalisedMask_keeps_maximum (image : RealImage) (threshold : Q) :
  wf_image image -> (0 <= threshold < 1)%Q -> (0 < image_max image)%Q ->
  exists mask,
    ThresholdNormalisedMask image threshold = Done mask /\
    Attributes mask = Attributes image /\
    (forall i v, Data mask !! i = Some v -> v = 0%Q \/ v = 1%Q) /\
    (forall i v, Data image !! i = Some v ->
       ((v == image_max image)%Q -> Data mask !! i = Some 1%Q) /\
       ((v <= 0)%Q -> Data mask !! i = Some 0%Q) /\
       (Data mask !! i = Some 1%Q <-> (threshold * image_max image < v)%Q)) /\
    exists i, Data mask !! i = Some 1%Q.
Proof.
  intros Hwf [Ht0 Ht1] Hmax. unfold ThresholdNormalisedMask.
  assert (Hc : Qltb 0 (image_max image) = true) by now apply Qltb_lt.
  rewrite Hc.
  set (b := fun v : Q => if Qltb threshold v then 1%Q else 0%Q).
  rewrite (each_voxel_wf b).
  2:{ apply with_Data_wf; [exact Hwf | apply length_map]. }
  eexists. split; [reflexivity|]. split; [reflexivity|].
  assert (Hlook : forall i v, Data image !! i = Some v ->
            Data (with_Data (image_divide image (image_max image))
                    (map b (Data (image_divide image (image_max image))))) !! i
            = Some (b (v / image_max image)%Q)).
  { intros i v Hv. cbn. now rewrite !list_lookup_fmap, Hv. }
  assert (Hiff : forall v, b (v / image_max image)%Q = 1%Q <->
                           (threshold * image_max image < v)%Q).
  { assert (E : forall v, (v / image_max image * image_max image == v)%Q)
      by (intros; field; lra).
    intros v. unfold b. destruct (Qltb threshold (v / image_max image)) eqn:Hb.
    - apply Qltb_lt in Hb. split; [intros _ | reflexivity].
      apply (Qmult_lt_r _ _ (image_max image) Hmax) in Hb. rewrite E in Hb. exact Hb.
    - apply Qltb_ge in Hb. split; [discriminate|]. intros Hlt. exfalso.
      apply (Qmult_le_r _ _ (image_max image) Hmax) in Hb. rewrite E in Hb. lra. }
  split; [|split].
  - intros i v Hv. cbn in Hv. rewrite !list_lookup_fmap in Hv.
    destruct (Data image !! i); cbn in Hv; [|discriminate].
    inversion Hv. unfold b. destruct (Qltb threshold _); auto.
  - intros i v Hv. rewrite (Hlook i v Hv). split; [|split].
    + intros Heq. f_equal. apply Hiff. rewrite Heq. nra.
    + intros Hle. f_equal. unfold b.
      destruct (Qltb threshold (v / image_max image)) eqn:Hb; [|reflexivity].
      exfalso. assert (H1 : b (v / image_max image)%Q = 1%Q) by (unfold b; now rewrite Hb).
      apply Hiff in H1. nra.
    + split; [intros H; apply Hiff; congruence|].
      intros H. f_equal. now apply Hiff.
  - destruct (image_max_positive image Hmax) as [i Hi]. exists i.
    rewrite (Hlook i _ Hi). f_equal. apply Hiff. nra.
Qed.

(** X3. [Rescale] of an image with a positive voxel to a maximum [max >= 0]:
    no voxel ends above [max], the largest voxel ends at [max], and the
    voxels that are not positive are kept. *)
Theorem Rescale_maximum (img : RealImage) (max : Q) :
  wf_image img -> (0 < image_max img)%Q -> (0 <= max)%Q ->
  exists img',
    Rescale img max = Done img' /\
    Attributes img' = Attributes img /\
    (forall i v, Data img' !! i = Some v -> (v <= max)%Q) /\
    (exists i v, Data img' !! i = Some v /\ (v == max)%Q) /\
    (forall i v, Data img !! i = Some v -> (v <= 0)%Q -> Data img' !! i = Some v).
Proof.
  intros Hwf Hmax Hm. unfold Rescale.
  set (r := fun v : Q => if Qltb 0 v then (v / image_max img * max)%Q else v).
  rewrite (each_voxel_wf r img Hwf).
  eexists. split; [reflexivity|]. split; [reflexivity|]. cbn. split; [|split].
  - intros i v Hv. rewrite list_lookup_fmap in Hv.
    destruct (Data img !! i) as [w|] eqn:Hw; cbn in Hv; [|discriminate].
    inversion Hv; subst v; clear Hv.
    assert (Hle : (w <= image_max img)%Q)
      by (apply image_max_ge; eapply list_elem_of_lookup_2; exact Hw).
    unfold r. destruct (Qltb 0 w) eqn:Hc.
    + apply Qltb_lt in Hc.
      assert (Hq : (w / image_max img <= 1)%Q)
        by (apply Qle_shift_div_r; [exact Hmax | lra]).
      assert (H0 : (0 <= w / image_max img)%Q)
        by (apply Qle_shift_div_l; [exact Hmax | lra]).
      nra.
    + apply Qltb_ge in Hc. lra.
  - destruct (image_max_positive img Hmax) as [i Hi]. exists i. eexists.
    split; [rewrite list_lookup_fmap, Hi; reflexivity|].
    unfold r. apply Qltb_lt in Hmax. rewrite Hmax. apply Qltb_lt in Hmax.
    field. lra.
  - intros i v Hv Hle. rewrite list_lookup_fmap, Hv. cbn. f_equal.
    unfold r. apply Qltb_ge in Hle. now rewrite Hle.
Qed.

(** ** MaskVolume, MaskImage *)

(** X4. [MaskVolume] sets the voxels of the volume where the mask is 0 to -1
    and keeps the others; a second call changes nothing. It does not compare
    the sizes: with a mask of fewer voxels it reads past the end of the
    mask. *)
Theorem MaskVolume_pads (st : Reconstruction) :
  wf_image (_reconstructed st) ->
  ((length (Data (_mask st)) < NumberOfVoxels (_reconstructed st))%nat ->
   MaskVolume st = Undefined) /\
  ((NumberOfVoxels (_reconstructed st) <= length (Data (_mask st)))%nat ->
   exists st',
     MaskVolume st = Done st' /\
     st' = set_reconstructed (_reconstructed st') st /\
     Attributes (_reconstructed st') = Attributes (_reconstructed st) /\
     (forall i v m, Data (_reconstructed st) !! i = Some v ->
        Data (_mask st) !! i = Some m ->
        ((m == 0)%Q -> Data (_reconstructed st') !! i = Some (-1)%Q) /\
        (~ (m == 0)%Q -> Data (_reconstructed st') !! i = Some v)) /\
     MaskVolume st' = Done st').
Proof.
  intros Hwf. split.
  - intros Hlt. unfold MaskVolume, pad_outside. rewrite <- Hwf in *.
    pose proof (pad_outside_short_loop (Data (_mask st)) (-1) (Data (_reconstructed st))
                  (Data (_mask st)) [] [] eq_refl eq_refl Hlt) as H.
    cbn [length app] in H. rewrite H. reflexivity.
  - intros Hle. unfold MaskVolume.
    rewrite (pad_outside_wf _ _ _ Hwf Hle). cbn [mbind outcome_bind obind].
    eexists. split; [reflexivity|]. split; [reflexivity|]. split; [reflexivity|]. split.
    + intros i v m Hv Hm. cbn. rewrite lookup_zip_with, Hv, Hm. cbn. unfold padded.
      split; intros Hc.
      * apply Qeq_bool_iff in Hc. now rewrite Hc.
      * destruct (Qeq_bool m 0) eqn:Hb; [|reflexivity].
        apply Qeq_bool_iff in Hb. contradiction.
    + set (r' := with_Data (_reconstructed st)
                   (zip_with (padded (-1)) (Data (_reconstructed st)) (Data (_mask st)))).
      assert (Hlen : length (Data r') = length (Data (_reconstructed st))).
      { unfold r'. cbn. rewrite length_zip_with. rewrite Hwf. lia. }
      assert (Hwf' : wf_image r') by (apply with_Data_wf; [exact Hwf | exact Hlen]).
      unfold MaskVolume.
      change (_mask (set_reconstructed r' st)) with (_mask st).
      change (_reconstructed (set_reconstructed r' st)) with r'.
      rewrite (pad_outside_wf _ _ _ Hwf' Hle). cbn [mbind outcome_bind obind].
      assert (Hr : with_Data r' (zip_with (padded (-1)) (Data r') (Data (_mask st))) = r').
      { unfold r', with_Data. cbn. f_equal.
        apply list_eq. intros i. rewrite !lookup_zip_with.
        destruct (Data (_reconstructed st) !! i) as [v|]; [|reflexivity].
        destruct (Data (_mask st) !! i) as [m|]; [|reflexivity].
        cbn. now rewrite padded_idempotent. }
      rewrite Hr. reflexivity.
Qed.

(** X5. [MaskImage] ends the program with code 1 when the image and the mask
    differ in their number of voxels; otherwise it sets the voxels where the
    mask is 0 to the padding value and keeps the others. *)
Theorem MaskImage_checks_size (st : Reconstruction) (image : RealImage) (padding : Q) :
  wf_image image -> wf_image (_mask st) ->
  (NumberOfVoxels image <> NumberOfVoxels (_mask st) ->
   MaskImage st image padding = Exited 1) /\
  (NumberOfVoxels image = NumberOfVoxels (_mask st) ->
   exists image',
     MaskImage st image padding = Done image' /\
     Attributes image' = Attributes image /\
     forall i v, Data image !! i = Some v ->
       exists m, Data (_mask st) !! i = Some m /\
         ((m == 0)%Q -> Data image' !! i = Some padding) /\
         (~ (m == 0)%Q -> Data image' !! i = Some v)).
Proof.
  intros Hwf Hwm. unfold MaskImage. split; intros Hn.
  - now rewrite decide_False.
  - rewrite decide_True by exact Hn.
    rewrite pad_outside_wf; [|exact Hwf | rewrite Hwm; lia].
    eexists. split; [reflexivity|]. split; [reflexivity|].
    intros i v Hv.
    assert (Hi : (i < length (Data (_mask st)))%nat).
    { apply lookup_lt_Some in Hv. rewrite Hwf in Hv. rewrite Hwm. lia. }
    destruct (lookup_lt_is_Some_2 _ _ Hi) as [m Hm]. exists m. split; [exact Hm|].
    cbn. rewrite lookup_zip_with, Hv, Hm. cbn. unfold padded. split; intros Hc.
    + apply Qeq_bool_iff in Hc. now rewrite Hc.
    + destruct (Qeq_bool m 0) eqn:Hb; [|reflexivity].
      apply Qeq_bool_iff in Hb. contradiction.
Qed.

(** ** Two loops over the same range *)

(** A relation between the states of two loops that every pair of steps
    preserves holds when both loops end. *)
Lemma foldM_sim {S1 S2 A : Type} (R : S1 -> S2 -> Prop)
    (f1 : S1 -> A -> outcome S1) (f2 : S2 -> A -> outcome S2)
    (l : list A) (s1 : S1) (s2 : S2) (s1' : S1) :
  R s1 s2 ->
  (forall a t1 t2 t1', a ∈ l -> R t1 t2 -> f1 t1 a = Done t1' ->
     exists t2', f2 t2 a = Done t2' /\ R t1' t2') ->
  foldM f1 l s1 = Done s1' ->
  exists s2', foldM f2 l s2 = Done s2' /\ R s1' s2'.
Proof.
  revert s1 s2. induction l as [|a l IH]; intros s1 s2 HR Hstep H; cbn in *.
  - inversion H; subst. eauto.
  - bind_inv H as t1 H1.
    destruct (Hstep a s1 s2 t1 ltac:(left) HR H1) as (t2 & -> & HR').
    cbn. apply (IH t1 t2 HR'); [|exact H].
    intros. eapply Hstep; eauto. now right.
Qed.

(** A loop none of whose steps is undefined ends normally or leaves the
    program with the code of a step. *)
Lemma foldM_defined {S A : Type} (code : Z) (I : S -> Prop) (f : S -> A -> outcome S)
    (l : list A) (s : S) :
  I s ->
  (forall s a, a ∈ l -> I s -> defined code (f s a) /\
     forall s', f s a = Done s' -> I s') ->
  defined code (foldM f l s) /\ forall s', foldM f l s = Done s' -> I s'.
Proof.
  revert s. induction l as [|a l IH]; intros s Hs Hstep; cbn.
  - split; [exact Logic.I|]. intros s' H. inversion H; subst. exact Hs.
  - destruct (Hstep s a ltac:(left) Hs) as [Hd Hi].
    destruct (f s a) as [s1| |]; cbn in *; [|split; [exact Hd | discriminate]|contradiction].
    apply IH; [now apply Hi|]. intros. apply Hstep; [now right | assumption].
Qed.

(** A loop over [0 .. n-1] whose steps return and take the invariant of
    index [k] to that of [k + 1]. *)
Lemma foldM_seq_total {S : Type} (I : nat -> S -> Prop) (f : S -> nat -> outcome S)
    (n : nat) (s : S) :
  I O s ->
  (forall k s1, (k < n)%nat -> I k s1 -> exists s2, f s1 k = Done s2 /\ I (Datatypes.S k) s2) ->
  exists s', foldM f (seq 0 n) s = Done s' /\ I n s'.
Proof.
  induction n as [|m IH]; intros H0 Hstep.
  - exists s. split; [reflexivity | exact H0].
  - destruct IH as (s1 & H1 & HI); [exact H0 | intros; apply Hstep; [lia | assumption] |].
    destruct (Hstep m s1 ltac:(lia) HI) as (s2 & H2 & HI2).
    exists s2. split; [|exact HI2].
    rewrite seq_S, foldM_app, H1. cbn. now rewrite H2.
Qed.

(** ** The voxels of an image *)

Lemma elem_of_voxels (img : RealImage) (i j k : nat) :
  (i, j, k) ∈ voxels img <-> in_image img i j k.
Proof.
  unfold voxels, in_image. rewrite list_elem_of_bind. split.
  - intros (i' & H & Hi). apply list_elem_of_bind in H as (j' & H & Hj).
    apply list_elem_of_bind in H as (k' & H & Hk).
    apply list_elem_of_singleton in H. inversion H; subst.
    apply elem_of_seq in Hi, Hj, Hk. lia.
  - intros (Hi & Hj & Hk). exists i. split; [|apply elem_of_seq; lia].
    apply list_elem_of_bind. exists j. split; [|apply elem_of_seq; lia].
    apply list_elem_of_bind. exists k. split; [|apply elem_of_seq; lia].
    now apply list_elem_of_singleton.
Qed.

Lemma Get_map (g : Q -> Q) (img : RealImage) (i j k : nat) (v : Q) :
  Get img i j k = Done v -> Get (with_Data img (map g (Data img))) i j k = Done (g v).
Proof.
  rewrite !Get_Done. intros [Hin Hv]. split; [exact Hin|].
  cbn. change (voxel_index (with_Data img _) i j k) with (voxel_index img i j k).
  now rewrite list_lookup_fmap, Hv.
Qed.

Lemma Get_in_image (img : RealImage) (i j k : nat) :
  wf_image img -> in_image img i j k -> exists v, Get img i j k = Done v.
Proof. intros Hwf Hin. exists (voxel img i j k). now apply Get_voxel. Qed.

Lemma rescaled_positive (factor v : Q) :
  (0 < factor)%Q -> ((0 < rescaled factor v)%Q <-> (0 < v)%Q).
Proof.
  intros Hf. unfold rescaled. destruct (Qltb 0 v) eqn:Hc.
  - apply Qltb_lt in Hc. split; [intros _; exact Hc | intros _; nra].
  - reflexivity.
Qed.

(** ** Sums of lists of reals *)

Lemma Qsum_scaled (factor : Q) (l' l : list Q) :
  Forall2 (fun a' a => (a' == a * factor)%Q) l' l -> (Qsum l' == Qsum l * factor)%Q.
Proof.
  induction 1 as [|a' a l' l Ha _ IH].
  - unfold Qsum. cbn. ring.
  - rewrite !Qsum_cons, IH, Ha. ring.
Qed.

Lemma Qsum_positive (l : list Q) :
  l <> [] -> Forall (fun a => (0 < a)%Q) l -> (0 < Qsum l)%Q.
Proof.
  intros Hne Hall. destruct l as [|a l]; [congruence|]. clear Hne.
  revert a Hall. induction l as [|b l IH]; intros a Hall.
  - rewrite Qsum_cons. apply Forall_inv in Hall. cbn beta in Hall.
    change (Qsum []) with 0%Q. lra.
  - rewrite Qsum_cons. pose proof (Forall_inv Hall) as Ha. cbn beta in Ha.
    apply Forall_inv_tail in Hall. specialize (IH b Hall). lra.
Qed.

(** ** MatchStackIntensities *)

Section MatchingProperties.

Context {RigidTransformation : Type}.
Implicit Types (stack_transformations : list RigidTransformation).

(** The sums of one stack: the loop returns when the stack is well formed
    and has a transformation; [num] is positive exactly when the stack has a
    positive voxel, and then [sum] is positive too. *)
Lemma stack_sums_spec (stacks : list RealImage) stack_transformations
    (ind : nat) (stack : RealImage) :
  stacks !! ind = Some stack -> wf_image stack ->
  (ind < length stack_transformations)%nat ->
  exists sum num,
    stack_sums RigidTransformation stacks stack_transformations ind = Done (sum, num) /\
    (((num == 0)%Q /\ forall i j k v, Get stack i j k = Done v -> (v <= 0)%Q) \/
     ((0 < num)%Q /\ (0 < sum)%Q /\ has_positive_voxel stack)).
Proof.
  intros Hs Hwf Hlt. unfold stack_sums. apply rd_Done in Hs. rewrite Hs.
  cbn [mbind outcome_bind obind].
  destruct (rd_lt stack_transformations ind Hlt) as (tr & Htr & _).
  match goal with |- context [foldM ?f _ _] => set (body := f) end.
  assert (Htot : exists acc, foldM body (voxels stack) (0%Q, 0%Q) = Done acc).
  { destruct (foldM_total (fun _ => True) body (voxels stack) (0%Q, 0%Q) Logic.I)
      as (acc & Hacc & _); [|eauto].
    intros [sum num] [[i j] k] Hin _. apply elem_of_voxels in Hin.
    destruct (Get_in_image stack i j k Hwf Hin) as [v Hv].
    unfold body. rewrite Htr. cbn [mbind outcome_bind obind]. rewrite Hv.
    cbn [mbind outcome_bind obind]. destruct (Qltb 0 v); eauto. }
  destruct Htot as [[sum num] Hacc]. exists sum, num. split; [exact Hacc|].
  pose (I := fun (pre : list (nat * nat * nat)) (acc : Q * Q) =>
             ((snd acc == 0)%Q /\ (fst acc == 0)%Q /\
              forall i j k v, (i, j, k) ∈ pre -> Get stack i j k = Done v -> (v <= 0)%Q) \/
             ((0 < snd acc)%Q /\ (0 < fst acc)%Q /\ has_positive_voxel stack)).
  assert (Hinv : I (voxels stack) (sum, num)).
  { apply (foldM_prefix_invariant I body (voxels stack) (0%Q, 0%Q) (sum, num) Hacc);
      unfold I; cbn [fst snd].
    - left. split; [reflexivity|]. split; [reflexivity|].
      intros i j k v Hin. inversion Hin.
    - intros pre [[i j] k] post [s1 n1] [s2 n2] _ Hpre Hstep. cbn [fst snd] in Hpre.
      unfold body in Hstep. rewrite Htr in Hstep. cbn [mbind outcome_bind obind] in Hstep.
      bind_inv Hstep as v Hv. destruct (Qltb 0 v) eqn:Hc.
      + inversion Hstep; subst s2 n2; clear Hstep. apply Qltb_lt in Hc. right.
        assert (Hpos : has_positive_voxel stack) by (exists i, j, k, v; tauto).
        cbn [fst snd].
        destruct Hpre as [(Hn & Hs0 & _)|(Hn & Hs0 & _)].
        * split; [lra|]. split; [lra | exact Hpos].
        * split; [lra|]. split; [lra | exact Hpos].
      + inversion Hstep; subst s2 n2; clear Hstep. apply Qltb_ge in Hc.
        cbn [fst snd].
        destruct Hpre as [(Hn & Hs0 & Hall)|Hr]; [left|right; exact Hr].
        split; [exact Hn|]. split; [exact Hs0|].
        intros i' j' k' v' Hin Hv'. apply elem_of_app in Hin. destruct Hin as [Hin|Hin].
        * now apply (Hall i' j' k').
        * apply list_elem_of_singleton in Hin. inversion Hin; subst.
          assert (v' = v) by congruence. now subst. }
  unfold I in Hinv. cbn [fst snd] in Hinv.
  destruct Hinv as [(Hn & _ & Hall)|Hr]; [left|right; exact Hr].
  split; [exact Hn|]. intros i j k v Hv. apply (Hall i j k v); [|exact Hv].
  apply elem_of_voxels. apply Get_Done in Hv. tauto.
Qed.

(** The averages of the stacks when every stack has a positive voxel. *)
Lemma stack_averages_spec (stacks : list RealImage) stack_transformations :
  Forall wf_image stacks ->
  (length stacks <= length stack_transformations)%nat ->
  Forall has_positive_voxel stacks ->
  exists stack_average,
    stack_averages RigidTransformation stacks stack_transformations = Done stack_average /\
    length stack_average = length stacks /\
    forall ind, (ind < length stacks)%nat ->
      exists sum num,
        stack_sums RigidTransformation stacks stack_transformations ind = Done (sum, num) /\
        (0 < num)%Q /\ (0 < sum)%Q /\ stack_average !! ind = Some (sum / num)%Q.
Proof.
  intros Hwf Hlen Hpos. unfold stack_averages.
  pose (I := fun (k : nat) (avgs : list Q) =>
    length avgs = k /\
    forall ind, (ind < k)%nat ->
      exists sum num,
        stack_sums RigidTransformation stacks stack_transformations ind = Done (sum, num) /\
        (0 < num)%Q /\ (0 < sum)%Q /\ avgs !! ind = Some (sum / num)%Q).
  match goal with |- context [foldM ?f _ _] => set (body := f) end.
  destruct (foldM_seq_total I body (length stacks) []) as (avgs & Hrun & Hl & Hall).
  - split; [reflexivity|]. intros; lia.
  - intros k avgs Hk [Hl Hall].
    destruct (lookup_lt_is_Some_2 stacks k Hk) as [stack Hs].
    destruct (stack_sums_spec stacks stack_transformations k stack Hs)
      as (sum & num & Hsums & Hcase);
      [eapply Forall_lookup_1; eassumption | lia |].
    assert (Hp : has_positive_voxel stack) by (eapply Forall_lookup_1; eassumption).
    destruct Hcase as [[Hn Hno]|(Hn & Hsum & _)].
    { destruct Hp as (i & j & k' & v & Hv & Hv0). specialize (Hno i j k' v Hv). lra. }
    exists (avgs ++ [(sum / num)%Q]). split.
    + unfold body. rewrite Hsums. cbn [mbind outcome_bind obind].
      apply Qltb_lt in Hn. now rewrite Hn.
    + split; [rewrite length_app; cbn; lia|].
      intros ind Hind. destruct (decide (ind = k)) as [->|Hne].
      * exists sum, num. split; [exact Hsums|]. split; [exact Hn|]. split; [exact Hsum|].
        rewrite lookup_app_r by lia. now rewrite Hl, Nat.sub_diag.
      * destruct (Hall ind ltac:(lia)) as (s' & n' & H1 & H2 & H3 & H4).
        exists s', n'. split; [exact H1|]. split; [exact H2|]. split; [exact H3|].
        rewrite lookup_app_l by lia. exact H4.
  - exists avgs. split; [exact Hrun|]. split; [exact Hl | exact Hall].
Qed.

(** A stack without a positive voxel ends the program. *)
Lemma stack_averages_exit (stacks : list RealImage) stack_transformations
    (ind : nat) (stack : RealImage) :
  Forall wf_image stacks ->
  (length stacks <= length stack_transformations)%nat ->
  stacks !! ind = Some stack ->
  (forall i j k v, Get stack i j k = Done v -> (v <= 0)%Q) ->
  stack_averages RigidTransformation stacks stack_transformations = Exited 1.
Proof.
  intros Hwf Hlen Hs Hno. unfold stack_averages.
  match goal with |- context [foldM ?f _ _] => set (body := f) end.
  assert (Hind : (ind < length stacks)%nat) by (eapply lookup_lt_Some; eassumption).
  replace (length stacks) with (ind + S (length stacks - S ind))%nat by lia.
  rewrite seq_app, foldM_app. cbn [seq Nat.add].
  assert (Hstep : forall avgs k, (k < length stacks)%nat -> defined 1 (body avgs k)).
  { intros avgs k Hk. destruct (lookup_lt_is_Some_2 stacks k Hk) as [stk Hstk].
    destruct (stack_sums_spec stacks stack_transformations k stk Hstk)
      as (sum & num & Hsums & _);
      [eapply Forall_lookup_1; eassumption | lia |].
    unfold body. rewrite Hsums. cbn [mbind outcome_bind obind].
    destruct (Qltb 0 num); cbn; auto. }
  destruct (foldM_defined 1 (fun _ => True) body (seq 0 ind) [] Logic.I) as [Hd _].
  { intros avgs k Hk _. apply elem_of_seq in Hk. split; [apply Hstep; lia | auto]. }
  destruct (foldM body (seq 0 ind) []) as [avgs|c|]; cbn in Hd; [|now subst|contradiction].
  cbn [mbind outcome_bind obind foldM].
  destruct (stack_sums_spec stacks stack_transformations ind stack Hs)
    as (sum & num & Hsums & Hcase);
    [eapply Forall_lookup_1; eassumption | lia |].
  assert (Hn : Qltb 0 num = false).
  { destruct Hcase as [[Hn _]|(_ & _ & (i & j & k & v & Hv & Hv0))].
    - apply Qltb_ge. rewrite Hn. apply Qle_refl.
    - specialize (Hno i j k v Hv). lra. }
  assert (Hb : body avgs ind = Exited 1)
    by (unfold body; rewrite Hsums; cbn [mbind outcome_bind obind]; now rewrite Hn).
  now rewrite Hb.
Qed.

(** "Rescale stacks": every stack is rescaled by [averageValue] over its
    average. *)
Lemma rescale_loop_spec (stacks : list RealImage) (stack_average : list Q)
    (averageValue : Q) (together : bool) :
  Forall wf_image stacks -> length stack_average = length stacks ->
  exists stacks' stack_factor,
    foldM (fun '(stacks, stack_factor) ind =>
             average ← (if together then Done (global_average_of stack_average together)
                        else rd stack_average ind);
             stack ← rd stacks ind;
             stack ← rescale_stack (averageValue / average) stack;
             stacks ← wr stacks ind stack;
             Done (stacks, stack_factor ++ [(averageValue / average)%Q]))
          (seq 0 (length stacks)) (stacks, [])
    = Done (stacks', stack_factor) /\
    length stacks' = length stacks /\ length stack_factor = length stacks /\
    forall ind stack, stacks !! ind = Some stack ->
      exists average,
        matching_average stack_average together ind = Some average /\
        stack_factor !! ind = Some (averageValue / average)%Q /\
        stacks' !! ind
        = Some (with_Data stack (map (rescaled (averageValue / average)) (Data stack))).
Proof.
  intros Hwf Hlen.
  match goal with |- context [foldM ?f _ _] => set (body := f) end.
  pose (I := fun (k : nat) (s : list RealImage * list Q) =>
    length (fst s) = length stacks /\ length (snd s) = k /\
    (forall ind, (k <= ind)%nat -> fst s !! ind = stacks !! ind) /\
    forall ind stack, (ind < k)%nat -> stacks !! ind = Some stack ->
      exists average,
        matching_average stack_average together ind = Some average /\
        snd s !! ind = Some (averageValue / average)%Q /\
        fst s !! ind
        = Some (with_Data stack (map (rescaled (averageValue / average)) (Data stack)))).
  destruct (foldM_seq_total I body (length stacks) (stacks, []))
    as ([stacks' factors] & Hrun & Hl1 & Hl2 & _ & Hall).
  - unfold I. cbn [fst snd]. split; [reflexivity|]. split; [reflexivity|].
    split; [reflexivity|]. intros; lia.
  - intros k [stacks1 factors1] Hk (Hl1 & Hl2 & Hge & Hlt). cbn [fst snd] in *.
    destruct (lookup_lt_is_Some_2 stacks k Hk) as [stack Hs].
    assert (Hav : exists average, matching_average stack_average together k = Some average /\
              (if together then Done (global_average_of stack_average together)
               else rd stack_average k) = Done average).
    { unfold matching_average. destruct together; [eauto|].
      destruct (rd_lt stack_average k ltac:(lia)) as (a & Ha & Hla). eauto. }
    destruct Hav as (average & Hma & Hav).
    set (factor := (averageValue / average)%Q).
    exists (<[k:=with_Data stack (map (rescaled factor) (Data stack))]> stacks1,
            factors1 ++ [factor]).
    split.
    + unfold body. rewrite Hav. cbn [mbind outcome_bind obind]. fold factor.
      cbv zeta.
      assert (Hrd : rd stacks1 k = Done stack) by (apply rd_Done; rewrite Hge by lia; exact Hs).
      rewrite Hrd. cbn [mbind outcome_bind obind].
      change (rescale_stack factor stack) with (each_voxel (rescaled factor) stack).
      rewrite each_voxel_wf by (eapply Forall_lookup_1; eassumption).
      cbn [mbind outcome_bind obind]. rewrite wr_lt by lia. reflexivity.
    + unfold I. cbn [fst snd]. split; [now rewrite length_insert|].
      split; [rewrite length_app; cbn; lia|]. split.
      * intros ind Hind. rewrite list_lookup_insert_ne by lia. apply Hge. lia.
      * intros ind stk Hind Hstk. destruct (decide (ind = k)) as [->|Hne].
        -- assert (stk = stack) by congruence. subst stk. exists average.
           split; [exact Hma|]. split.
           ++ rewrite lookup_app_r by lia. now rewrite Hl2, Nat.sub_diag.
           ++ apply list_lookup_insert_eq. lia.
        -- destruct (Hlt ind stk ltac:(lia) Hstk) as (a & H1 & H2 & H3).
           exists a. split; [exact H1|]. split.
           ++ rewrite lookup_app_l by lia. exact H2.
           ++ rewrite list_lookup_insert_ne by congruence. exact H3.
  - cbn [fst snd] in *. exists stacks', factors. split; [exact Hrun|].
    split; [exact Hl1|]. split; [exact Hl2|].
    intros ind stack Hs. apply (Hall ind stack); [|exact Hs].
    eapply lookup_lt_Some; eassumption.
Qed.

(** What [MatchStackIntensities] returns when every stack has a positive
    voxel. *)
Lemma MatchStackIntensities_spec (stacks : list RealImage) stack_transformations
    (averageValue : Q) (together : bool) :
  Forall wf_image stacks ->
  (length stacks <= length stack_transformations)%nat ->
  Forall has_positive_voxel stacks ->
  exists stack_average r,
    stack_averages RigidTransformation stacks stack_transformations = Done stack_average /\
    MatchStackIntensities RigidTransformation stacks stack_transformations
      averageValue together = Done r /\
    _average_value r = averageValue /\
    length (matched_stacks r) = length stacks /\
    length (_stack_factor r) = length stacks /\
    forall ind stack, stacks !! ind = Some stack ->
      exists average,
        matching_average stack_average together ind = Some average /\
        _stack_factor r !! ind = Some (averageValue / average)%Q /\
        matched_stacks r !! ind
        = Some (with_Data stack (map (rescaled (averageValue / average)) (Data stack))).
Proof.
  intros Hwf Hlen Hpos.
  destruct (stack_averages_spec stacks stack_transformations Hwf Hlen Hpos)
    as (avgs & Havgs & Hl & _).
  destruct (rescale_loop_spec stacks avgs averageValue together Hwf Hl)
    as (stacks' & factors & Hrun & Hl1 & Hl2 & Hall).
  exists avgs. eexists. split; [exact Havgs|]. split.
  - unfold MatchStackIntensities. rewrite Havgs. cbn [mbind outcome_bind obind].
    cbv zeta. rewrite Hrun. cbn [mbind outcome_bind obind]. reflexivity.
  - cbn. split; [reflexivity|]. split; [exact Hl1|]. split; [exact Hl2 | exact Hall].
Qed.

(** The sums of a stack whose positive voxels were multiplied by a positive
    factor. *)
Lemma stack_sums_rescaled (stacks stacks' : list RealImage) stack_transformations
    (ind : nat) (stack : RealImage) (factor sum num : Q) :
  stacks !! ind = Some stack ->
  stacks' !! ind = Some (with_Data stack (map (rescaled factor) (Data stack))) ->
  (0 < factor)%Q ->
  stack_sums RigidTransformation stacks stack_transformations ind = Done (sum, num) ->
  exists sum' num',
    stack_sums RigidTransformation stacks' stack_transformations ind = Done (sum', num') /\
    (sum' == sum * factor)%Q /\ (num' == num)%Q.
Proof.
  intros Hs Hs' Hf H. unfold stack_sums in *.
  apply rd_Done in Hs, Hs'. rewrite Hs in H. rewrite Hs'.
  cbn [mbind outcome_bind obind] in *.
  change (voxels (with_Data stack ?d)) with (voxels stack).
  match type of H with foldM ?f1 _ _ = _ =>
    match goal with |- context [foldM ?f2 _ _] =>
      destruct (foldM_sim (fun a b : Q * Q => (fst b == fst a * factor)%Q /\ (snd b == snd a)%Q)
                  f1 f2 (voxels stack) (0%Q, 0%Q) (0%Q, 0%Q) (sum, num))
        as ([sum' num'] & Hrun & Hs1 & Hn1); [cbn; split; lra | | exact H |]
    end
  end.
  - intros [[i j] k] [s1 n1] [s2 n2] [s1' n1'] _ [HR1 HR2] Hstep. cbn [fst snd] in *.
    bind_inv Hstep as tr Htr. bind_inv Hstep as v Hv.
    rewrite Htr. cbn [mbind outcome_bind obind].
    rewrite (Get_map (rescaled factor) stack i j k v Hv). cbn [mbind outcome_bind obind].
    destruct (Qltb 0 v) eqn:Hc.
    + inversion Hstep; subst s1' n1'; clear Hstep.
      assert (Hc' : Qltb 0 (rescaled factor v) = true)
        by (apply Qltb_lt, rescaled_positive; [exact Hf | now apply Qltb_lt]).
      rewrite Hc'. eexists. split; [reflexivity|]. cbn [fst snd].
      unfold rescaled. rewrite Hc. split; [rewrite HR1; ring | rewrite HR2; ring].
    + inversion Hstep; subst s1' n1'; clear Hstep.
      assert (Hc' : Qltb 0 (rescaled factor v) = false).
      { apply Qltb_ge. apply Qltb_ge in Hc. unfold rescaled.
        apply Qltb_ge in Hc. now rewrite Hc, <- Qltb_ge. }
      rewrite Hc'. eexists. split; [reflexivity|]. cbn [fst snd]. tauto.
  - cbn [fst snd] in *. exists sum', num'. split; [exact Hrun|]. tauto.
Qed.

Lemma matched_stacks_ok (stacks stacks' : list RealImage) (factor : nat -> Q) :
  Forall wf_image stacks -> Forall has_positive_voxel stacks ->
  length stacks' = length stacks ->
  (forall ind, (0 < factor ind)%Q) ->
  (forall ind stack, stacks !! ind = Some stack ->
     stacks' !! ind = Some (with_Data stack (map (rescaled (factor ind)) (Data stack)))) ->
  Forall wf_image stacks' /\ Forall has_positive_voxel stacks'.
Proof.
  intros Hwf Hpos Hlen Hf Hall.
  assert (Hboth : forall ind x, stacks' !! ind = Some x ->
            wf_image x /\ has_positive_voxel x).
  { intros ind x Hx.
    assert (Hind : (ind < length stacks)%nat)
      by (rewrite <- Hlen; eapply lookup_lt_Some; eassumption).
    destruct (lookup_lt_is_Some_2 stacks ind Hind) as [stack Hs].
    rewrite (Hall ind stack Hs) in Hx. inversion Hx; subst x; clear Hx.
    split.
    - apply with_Data_wf; [eapply Forall_lookup_1; eassumption | apply length_map].
    - destruct (Forall_lookup_1 _ _ _ _ Hpos Hs) as (i & j & k & v & Hv & Hv0).
      exists i, j, k, (rescaled (factor ind) v). split; [now apply Get_map|].
      now apply rescaled_positive. }
  split; apply Forall_lookup_2; intros ind x Hx; now apply (Hboth ind x).
Qed.

(** X6. A stack without a positive voxel makes [MatchStackIntensities] end the
    program with code 1, whatever the other stacks hold and whether they are
    matched together or not. *)
Theorem MatchStackIntensities_no_overlap (stacks : list RealImage)
    stack_transformations (averageValue : Q) (together : bool)
    (ind : nat) (stack : RealImage) :
  Forall wf_image stacks ->
  (length stacks <= length stack_transformations)%nat ->
  stacks !! ind = Some stack ->
  (forall i j k v, Get stack i j k = Done v -> (v <= 0)%Q) ->
  MatchStackIntensities RigidTransformation stacks stack_transformations
    averageValue together = Exited 1.
Proof.
  intros Hwf Hlen Hs Hno. unfold MatchStackIntensities.
  now rewrite (stack_averages_exit stacks stack_transformations ind stack Hwf Hlen Hs Hno).
Qed.

(** X7. Matching the stacks one by one ([together = false]) to a positive
    [averageValue]: every stack is multiplied, in its positive voxels, by the
    positive factor stored in [_stack_factor], and the average the function
    computes for the stack it returns is [averageValue]. *)
Theorem MatchStackIntensities_separately (stacks : list RealImage)
    stack_transformations (averageValue : Q) :
  Forall wf_image stacks ->
  (length stacks <= length stack_transformations)%nat ->
  Forall has_positive_voxel stacks ->
  (0 < averageValue)%Q ->
  exists r,
    MatchStackIntensities RigidTransformation stacks stack_transformations
      averageValue false = Done r /\
    _average_value r = averageValue /\
    length (matched_stacks r) = length stacks /\
    length (_stack_factor r) = length stacks /\
    forall ind stack, stacks !! ind = Some stack ->
      exists stack' factor sum num,
        matched_stacks r !! ind = Some stack' /\
        _stack_factor r !! ind = Some factor /\ (0 < factor)%Q /\
        Attributes stack' = Attributes stack /\
        (forall i v, Data stack !! i = Some v ->
           Data stack' !! i = Some (rescaled factor v)) /\
        stack_sums RigidTransformation (matched_stacks r) stack_transformations ind
        = Done (sum, num) /\
        (sum / num == averageValue)%Q.
Proof.
  intros Hwf Hlen Hpos Hav.
  destruct (MatchStackIntensities_spec stacks stack_transformations averageValue false
              Hwf Hlen Hpos) as (avgs & r & Havgs & Hrun & Hv & Hl1 & Hl2 & Hall).
  destruct (stack_averages_spec stacks stack_transformations Hwf Hlen Hpos)
    as (avgs' & Havgs' & _ & Hsums).
  assert (avgs' = avgs) by congruence. subst avgs'.
  exists r. split; [exact Hrun|]. split; [exact Hv|]. split; [exact Hl1|].
  split; [exact Hl2|]. intros ind stack Hs.
  destruct (Hall ind stack Hs) as (average & Hma & Hfac & Hst).
  destruct (Hsums ind ltac:(eapply lookup_lt_Some; eassumption))
    as (sum & num & Hsum & Hnum & Hsum0 & Hlook).
  unfold matching_average in Hma. rewrite Hlook in Hma. inversion Hma; subst average.
  set (factor := (averageValue / (sum / num))%Q) in *.
  assert (Hq : (0 < sum / num)%Q) by (apply Qlt_shift_div_l; [exact Hnum | lra]).
  assert (Hf : (0 < factor)%Q) by (apply Qlt_shift_div_l; [exact Hq | lra]).
  destruct (stack_sums_rescaled stacks (matched_stacks r) stack_transformations ind stack
              factor sum num Hs Hst Hf Hsum) as (sum' & num' & Hsum' & Es & En).
  exists (with_Data stack (map (rescaled factor) (Data stack))), factor, sum', num'.
  split; [exact Hst|]. split; [exact Hfac|]. split; [exact Hf|]. split; [reflexivity|].
  split.
  - intros i v Hd. cbn. now rewrite list_lookup_fmap, Hd.
  - split; [exact Hsum'|]. rewrite Es, En. unfold factor. field. split; lra.
Qed.

(** X8. Matching the stacks together ([together = true]) to a positive
    [averageValue]: all stacks are multiplied, in their positive voxels, by
    one positive factor, and the global average the function computes for
    the stacks it returns is [averageValue]. *)
Theorem MatchStackIntensities_together (stacks : list RealImage)
    stack_transformations (averageValue : Q) :
  Forall wf_image stacks ->
  (length stacks <= length stack_transformations)%nat ->
  Forall has_positive_voxel stacks ->
  stacks <> [] ->
  (0 < averageValue)%Q ->
  exists r factor,
    MatchStackIntensities RigidTransformation stacks stack_transformations
      averageValue true = Done r /\
    (0 < factor)%Q /\
    _stack_factor r = replicate (length stacks) factor /\
    (forall ind stack, stacks !! ind = Some stack ->
       matched_stacks r !! ind
       = Some (with_Data stack (map (rescaled factor) (Data stack)))) /\
    exists stack_average,
      stack_averages RigidTransformation (matched_stacks r) stack_transformations
      = Done stack_average /\
      (global_average_of stack_average true == averageValue)%Q.
Proof.
  intros Hwf Hlen Hpos Hne Hav.
  destruct (MatchStackIntensities_spec stacks stack_transformations averageValue true
              Hwf Hlen Hpos) as (avgs & r & Havgs & Hrun & Hv & Hl1 & Hl2 & Hall).
  destruct (stack_averages_spec stacks stack_transformations Hwf Hlen Hpos)
    as (avgs' & Havgs' & Hla & Hsums).
  assert (avgs' = avgs) by congruence. subst avgs'.
  set (n := inject_Z (Z.of_nat (length avgs))).
  assert (Hn : (0 < n)%Q).
  { unfold n. rewrite Hla. destruct stacks; [congruence|]. cbn [length].
    rewrite Nat2Z.inj_succ. unfold Qlt; cbn. lia. }
  assert (Hpa : Forall (fun a => (0 < a)%Q) avgs).
  { apply Forall_lookup_2. intros ind a Ha.
    destruct (Hsums ind) as (sum & num & _ & Hnum & Hsum & Hlook);
      [rewrite <- Hla; eapply lookup_lt_Some; eassumption|].
    assert (a = (sum / num)%Q) by congruence. subst a.
    apply Qlt_shift_div_l; [exact Hnum | lra]. }
  assert (Hsum : (0 < Qsum avgs)%Q).
  { apply Qsum_positive; [|exact Hpa]. intros ->. destruct stacks; [congruence|].
    cbn in Hla. lia. }
  assert (Hg : global_average_of avgs true = (Qsum avgs / n)%Q) by reflexivity.
  assert (Hg0 : (0 < global_average_of avgs true)%Q)
    by (rewrite Hg; apply Qlt_shift_div_l; [exact Hn | lra]).
  set (factor := (averageValue / global_average_of avgs true)%Q) in *.
  assert (Hf : (0 < factor)%Q) by (apply Qlt_shift_div_l; [exact Hg0 | lra]).
  assert (Hst : forall ind stack, stacks !! ind = Some stack ->
            _stack_factor r !! ind = Some factor /\
            matched_stacks r !! ind
            = Some (with_Data stack (map (rescaled factor) (Data stack)))).
  { intros ind stack Hs. destruct (Hall ind stack Hs) as (average & Hma & Hfac & Hst).
    unfold matching_average in Hma. inversion Hma; subst average. tauto. }
  exists r, factor. split; [exact Hrun|]. split; [exact Hf|]. split; [|split].
  - apply list_eq. intros ind. destruct (decide (ind < length stacks)%nat) as [Hi|Hi].
    + destruct (lookup_lt_is_Some_2 stacks ind Hi) as [stack Hs].
      rewrite (proj1 (Hst ind stack Hs)). symmetry. now apply lookup_replicate_2.
    + rewrite lookup_ge_None_2 by lia. symmetry. apply lookup_ge_None_2.
      rewrite length_replicate. lia.
  - intros ind stack Hs. apply (Hst ind stack Hs).
  - destruct (matched_stacks_ok stacks (matched_stacks r) (fun _ => factor) Hwf Hpos Hl1)
      as [Hwf' Hpos']; [auto | intros; now apply Hst |].
    destruct (stack_averages_spec (matched_stacks r) stack_transformations Hwf'
                ltac:(lia) Hpos') as (avgs' & Hrun' & Hla' & Hsums').
    exists avgs'. split; [exact Hrun'|].
    assert (H2 : Forall2 (fun a' a => (a' == a * factor)%Q) avgs' avgs).
    { apply Forall2_same_length_lookup_2; [lia|]. intros ind a' a Ha' Ha.
      assert (Hi : (ind < length stacks)%nat)
        by (rewrite <- Hla; eapply lookup_lt_Some; eassumption).
      destruct (lookup_lt_is_Some_2 stacks ind Hi) as [stack Hs].
      destruct (Hsums ind Hi) as (sum & num & Hs1 & Hnum & Hsum1 & Hlook).
      destruct (Hsums' ind ltac:(lia)) as (sum' & num' & Hs1' & _ & _ & Hlook').
      destruct (stack_sums_rescaled stacks (matched_stacks r) stack_transformations ind
                  stack factor sum num Hs (proj2 (Hst ind stack Hs)) Hf Hs1)
        as (sum2 & num2 & Hs2 & Es & En).
      assert (sum2 = sum' /\ num2 = num') as [-> ->] by (split; congruence).
      assert (a = (sum / num)%Q) by congruence.
      assert (a' = (sum' / num')%Q) by congruence. subst a a'.
      rewrite Es, En. field. lra. }
    change (global_average_of avgs' true)
      with (Qsum avgs' / inject_Z (Z.of_nat (length avgs')))%Q.
    rewrite (Qsum_scaled factor avgs' avgs H2).
    replace (length avgs') with (length avgs) by lia. fold n.
    unfold factor. rewrite Hg. field. split; lra.
Qed.

End MatchingProperties.

(** ** RestoreSliceIntensities *)

Lemma restored_rescaled (factor v : Q) :
  (0 < factor)%Q -> (restored factor (rescaled factor v) == v)%Q.
Proof.
  intros Hf. unfold restored.
  destruct (Qltb 0 (rescaled factor v)) eqn:Hc.
  - apply Qltb_lt, rescaled_positive in Hc; [|exact Hf]. unfold rescaled.
    apply Qltb_lt in Hc. rewrite Hc. field. lra.
  - apply Qltb_ge in Hc. unfold rescaled in *. destruct (Qltb 0 v) eqn:Hv.
    + apply Qltb_lt in Hv. nra.
    + reflexivity.
Qed.

(** X9. [RestoreSliceIntensities] undoes the rescaling of the intensity
    matching: slices whose positive voxels were multiplied by the positive
    factor of their stack get their voxel values back; the other members are
    kept. *)
Theorem RestoreSliceIntensities_restores (_stack_factor : list Q)
    (_stack_index : list Z) (st : Reconstruction) (originals : list RealImage) :
  Forall wf_image originals ->
  length originals = length (_slices st) ->
  (forall inputIndex original, originals !! inputIndex = Some original ->
     exists stack factor,
       _stack_index !! inputIndex = Some stack /\ (0 <= stack)%Z /\
       _stack_factor !! Z.to_nat stack = Some factor /\ (0 < factor)%Q /\
       _slices st !! inputIndex
       = Some (with_Data original (map (rescaled factor) (Data original)))) ->
  exists st',
    RestoreSliceIntensities _stack_factor _stack_index st = Done st' /\
    st' = set_slices (_slices st') st /\
    length (_slices st') = length originals /\
    forall inputIndex original, originals !! inputIndex = Some original ->
      exists slice,
        _slices st' !! inputIndex = Some slice /\
        Attributes slice = Attributes original /\
        Forall2 Qeq (Data slice) (Data original).
Proof.
  intros Hwf Hlen Hsl. unfold RestoreSliceIntensities.
  match goal with |- context [foldM ?f _ _] => set (body := f) end.
  pose (I := fun (k : nat) (slices : list RealImage) =>
    length slices = length originals /\
    (forall ind, (k <= ind)%nat -> slices !! ind = _slices st !! ind) /\
    forall ind original, (ind < k)%nat -> originals !! ind = Some original ->
      exists slice,
        slices !! ind = Some slice /\ Attributes slice = Attributes original /\
        Forall2 Qeq (Data slice) (Data original)).
  destruct (foldM_seq_total I body (length (_slices st)) (_slices st))
    as (slices & Hrun & Hl & _ & Hall).
  - unfold I. split; [now symmetry|]. split; [reflexivity|]. intros; lia.
  - intros k slices Hk (Hl & Hge & Hlt).
    destruct (lookup_lt_is_Some_2 originals k ltac:(lia)) as [original Ho].
    destruct (Hsl k original Ho) as (stack & factor & Hix & Hs0 & Hfac & Hf & Hslice).
    set (scaled := with_Data original (map (rescaled factor) (Data original))) in *.
    assert (Hwo : wf_image original) by (eapply Forall_lookup_1; eassumption).
    assert (Hws : wf_image scaled) by (apply with_Data_wf; [exact Hwo | apply length_map]).
    exists (<[k:=with_Data scaled (map (restored factor) (Data scaled))]> slices).
    split.
    + unfold body. apply rd_Done in Hix. rewrite Hix. cbn [mbind outcome_bind obind].
      unfold rdZ. rewrite decide_True by exact Hs0. apply rd_Done in Hfac. rewrite Hfac.
      cbn [mbind outcome_bind obind].
      assert (Hrd : rd slices k = Done scaled)
        by (apply rd_Done; rewrite Hge by lia; exact Hslice).
      rewrite Hrd. cbn [mbind outcome_bind obind].
      change (each_voxel _ scaled) with (each_voxel (restored factor) scaled).
      rewrite (each_voxel_wf _ _ Hws). cbn [mbind outcome_bind obind].
      rewrite wr_lt by lia. reflexivity.
    + unfold I. split; [now rewrite length_insert|]. split.
      * intros ind Hind. rewrite list_lookup_insert_ne by lia. apply Hge. lia.
      * intros ind orig Hind Horig. destruct (decide (ind = k)) as [->|Hne].
        -- assert (orig = original) by congruence. subst orig. eexists.
           split; [apply list_lookup_insert_eq; lia|]. split; [reflexivity|].
           cbn. rewrite <- list_fmap_compose.
           apply Forall2_fmap_l, Forall_Forall2_diag, Forall_forall.
           intros v _. cbn. now apply restored_rescaled.
        -- rewrite list_lookup_insert_ne by congruence. apply Hlt; [lia | exact Horig].
  - eexists. split; [rewrite Hrun; reflexivity|]. cbn.
    split; [reflexivity|]. split; [exact Hl|].
    intros ind original Ho. apply (Hall ind original); [|exact Ho].
    rewrite <- Hlen. eapply lookup_lt_Some; eassumption.
Qed.

(** ** Images as functions of their voxels *)

Lemma voxel_index_surj (img : RealImage) (idx : nat) :
  (idx < NumberOfVoxels img)%nat ->
  exists x y z, in_image img x y z /\ voxel_index img x y z = idx.
Proof.
  unfold NumberOfVoxels, in_image, voxel_index. intros Hidx.
  set (X := GetX img) in *. set (Y := GetY img) in *. set (Z := GetZ img) in *.
  assert (HX : (0 < X)%nat) by (destruct X; [cbn in Hidx; lia | lia]).
  assert (HY : (0 < Y)%nat) by (destruct Y; [rewrite Nat.mul_0_r in Hidx; cbn in Hidx; lia | lia]).
  exists (idx mod X)%nat, ((idx / X) mod Y)%nat, (idx / X / Y)%nat.
  assert (H1 : (idx / X < Y * Z)%nat).
  { apply Nat.Div0.div_lt_upper_bound. rewrite Nat.mul_assoc. exact Hidx. }
  assert (H2 : (idx / X / Y < Z)%nat) by (now apply Nat.Div0.div_lt_upper_bound).
  split; [split; [apply Nat.mod_upper_bound; lia|split; [apply Nat.mod_upper_bound; lia | exact H2]]|].
  pose proof (Nat.div_mod_eq idx X) as E1.
  pose proof (Nat.div_mod_eq (idx / X) Y) as E2.
  rewrite (Nat.add_comm ((idx / X) mod Y)), <- E2, Nat.add_comm. now symmetry.
Qed.

(** Two well-formed images of the same size with the same voxels are
    equal. *)
Lemma image_ext (a b : RealImage) :
  wf_image a -> wf_image b -> Attributes a = Attributes b ->
  (forall x y z, in_image a x y z -> Get a x y z = Get b x y z) ->
  a = b.
Proof.
  intros Ha Hb Hattr Hget.
  assert (Hx : GetX a = GetX b) by (injection Hattr; auto).
  assert (Hy : GetY a = GetY b) by (injection Hattr; auto).
  assert (Hz : GetZ a = GetZ b) by (injection Hattr; auto).
  assert (Hs : GetXSize a = GetXSize b) by (injection Hattr; auto).
  assert (Hd : Data a = Data b).
  { apply list_eq. intros idx.
    destruct (decide (idx < NumberOfVoxels a)%nat) as [Hi|Hi].
    - destruct (voxel_index_surj a idx Hi) as (x & y & z & Hin & Hidx).
      pose proof (Hget x y z Hin) as Hg. unfold Get in Hg.
      assert (Hin' : in_image b x y z) by (unfold in_image in *; lia).
      rewrite decide_True in Hg by exact Hin.
      rewrite decide_True in Hg by exact Hin'.
      assert (Hidx' : voxel_index b x y z = idx)
        by (unfold voxel_index in *; rewrite <- Hx, <- Hy; exact Hidx).
      rewrite Hidx, Hidx' in Hg. unfold rd in Hg.
      destruct (Data a !! idx), (Data b !! idx); congruence.
    - rewrite !lookup_ge_None_2; [reflexivity | |].
      + rewrite Hb. unfold NumberOfVoxels in *. rewrite <- Hx, <- Hy, <- Hz. lia.
      + rewrite Ha. lia. }
  destruct a, b. cbn in *. congruence.
Qed.

(** A loop of [Put]s at positions of the image returns. *)
Lemma foldM_put_total (F : nat -> nat -> nat -> outcome Q)
    (ps : list (nat * nat * nat)) (img : RealImage) :
  wf_image img ->
  (forall x y z, (x, y, z) ∈ ps -> in_image img x y z /\ exists v, F x y z = Done v) ->
  exists img',
    foldM (fun img '(x, y, z) => v ← F x y z; Put img x y z v) ps img = Done img' /\
    wf_image img' /\ Attributes img' = Attributes img.
Proof.
  intros Hwf Hps.
  apply (foldM_total (fun img1 => wf_image img1 /\ Attributes img1 = Attributes img)).
  - split; [exact Hwf | reflexivity].
  - intros img1 [[x y] z] Hin [Hwf1 Hattr].
    destruct (Hps x y z Hin) as [Hii [v Hv]]. rewrite Hv. cbn [mbind outcome_bind obind].
    assert (Hin1 : in_image img1 x y z).
    { unfold in_image in *. injection Hattr as -> -> -> _. exact Hii. }
    eexists. split.
    + apply Put_Done. split; [exact Hin1|]. split; [|reflexivity].
      rewrite Hwf1. now apply voxel_index_lt.
    + split; [|exact Hattr]. apply with_Data_wf; [exact Hwf1 | apply length_insert].
Qed.

Lemma elem_of_voxels_by_plane (img : RealImage) (i j k : nat) :
  (i, j, k) ∈ voxels_by_plane img <-> in_image img i j k.
Proof.
  unfold voxels_by_plane, in_image. rewrite list_elem_of_bind. split.
  - intros (k' & H & Hk). apply list_elem_of_bind in H as (j' & H & Hj).
    apply list_elem_of_bind in H as (i' & H & Hi).
    apply list_elem_of_singleton in H. inversion H; subst.
    apply elem_of_seq in Hi, Hj, Hk. lia.
  - intros (Hi & Hj & Hk). exists k. split; [|apply elem_of_seq; lia].
    apply list_elem_of_bind. exists j. split; [|apply elem_of_seq; lia].
    apply list_elem_of_bind. exists i. split; [|apply elem_of_seq; lia].
    now apply list_elem_of_singleton.
Qed.

(** ** SplitImage *)

(** Package [l] of [p] has the planes [k] with [k * p + l] below the number
    of planes of the image. *)
Lemma package_planes_spec (z p l : nat) :
  (0 < p)%nat -> (l < p)%nat ->
  exists n, package_planes (Z.of_nat z) (Z.of_nat p) (Z.of_nat l) = Z.of_nat n /\
    forall k, (k < n)%nat <-> (k * p + l < z)%nat.
Proof.
  intros Hp Hl. unfold package_planes.
  rewrite Z.quot_div_nonneg by lia. rewrite <- Nat2Z.inj_div.
  pose proof (Nat.div_mod_eq z p) as Hz.
  pose proof (Nat.mod_upper_bound z p ltac:(lia)) as Hr.
  set (q := (z / p)%nat) in *. set (r := (z mod p)%nat) in *.
  destruct (Z.ltb_spec (Z.of_nat q * Z.of_nat p + Z.of_nat l) (Z.of_nat z)) as [Hc|Hc].
  - exists (S q). split; [lia|]. intros k. split; intros Hk; nia.
  - exists q. split; [reflexivity|]. intros k. split; intros Hk; nia.
Qed.

Lemma package_spec (image : RealImage) (p l : nat) :
  wf_image image -> (0 < p)%nat -> (l < p)%nat ->
  exists stack,
    package image (Z.of_nat p) l = Done stack /\
    wf_image stack /\
    GetX stack = GetX image /\ GetY stack = GetY image /\
    GetXSize stack = GetXSize image /\
    (forall k, (k < GetZ stack)%nat <-> (k * p + l < GetZ image)%nat) /\
    forall i j k, in_image stack i j k ->
      exists v, Get image i j (k * p + l) = Done v /\ Get stack i j k = Done v.
Proof.
  intros Hwf Hp Hl. unfold package.
  destruct (package_planes_spec (GetZ image) p l Hp Hl) as (n & Hn & Hplanes).
  rewrite Hn, Nat2Z.id.
  set (stack0 := Initialize {| _x := GetX image; _y := GetY image; _z := n;
                               _dx := GetXSize image |}).
  set (F := fun i j k : nat =>
              Get image i j (Z.to_nat (Z.of_nat k * Z.of_nat p + Z.of_nat l))).
  assert (Hidx : forall k, Z.to_nat (Z.of_nat k * Z.of_nat p + Z.of_nat l) = (k * p + l)%nat)
    by (intros; lia).
  assert (HF : forall i j k, in_image stack0 i j k ->
            in_image image i j (k * p + l)).
  { intros i j k (Hi & Hj & Hk). cbn in Hi, Hj, Hk. repeat split; try assumption.
    now apply Hplanes. }
  destruct (foldM_put_total F (voxels_by_plane stack0) stack0) as (stack & Hrun & Hws & Hattr).
  - apply Initialize_wf.
  - intros i j k Hin. apply elem_of_voxels_by_plane in Hin. split; [exact Hin|].
    unfold F. rewrite Hidx. apply Get_in_image; [exact Hwf | now apply HF].
  - exists stack. split; [exact Hrun|]. split; [exact Hws|].
    injection Hattr as Hx Hy Hz Hdx. cbn in Hx, Hy, Hz, Hdx.
    split; [exact Hx|]. split; [exact Hy|]. split; [exact Hdx|].
    split; [rewrite Hz; exact Hplanes|].
    intros i j k Hin.
    destruct (foldM_put_positions F (voxels_by_plane stack0) stack0 stack Hrun)
      as (_ & Hput & _).
    destruct (Hput i j k) as (v & Hv & Hg).
    { apply elem_of_voxels_by_plane. unfold in_image in *. cbn. lia. }
    exists v. split; [|exact Hg]. unfold F in Hv. now rewrite Hidx in Hv.
Qed.

(** What [SplitImage] returns for a positive number of packages. *)
Lemma SplitImage_spec (image : RealImage) (p : nat) :
  wf_image image -> (0 < p)%nat ->
  exists stacks,
    SplitImage image (Z.of_nat p) = Done stacks /\
    length stacks = p /\
    forall l, (l < p)%nat ->
      exists stack, stacks !! l = Some stack /\ package image (Z.of_nat p) l = Done stack.
Proof.
  intros Hwf Hp. unfold SplitImage.
  destruct (Z.eqb_spec (Z.of_nat p) 0) as [H0|_]; [lia|]. rewrite Nat2Z.id.
  match goal with |- context [foldM ?f _ _] => set (body := f) end.
  pose (I := fun (k : nat) (stacks : list RealImage) =>
    length stacks = k /\
    forall l, (l < k)%nat ->
      exists stack, stacks !! l = Some stack /\ package image (Z.of_nat p) l = Done stack).
  destruct (foldM_seq_total I body p []) as (stacks & Hrun & Hl & Hall).
  - split; [reflexivity|]. intros; lia.
  - intros k stacks Hk [Hl Hall].
    destruct (package_spec image p k Hwf Hp Hk) as (stack & Hstack & _).
    exists (stacks ++ [stack]). split.
    + unfold body. now rewrite Hstack.
    + split; [rewrite length_app; cbn; lia|]. intros l Hlk.
      destruct (decide (l = k)) as [->|Hne].
      * exists stack. split; [|exact Hstack].
        rewrite lookup_app_r by lia. now rewrite Hl, Nat.sub_diag.
      * destruct (Hall l ltac:(lia)) as (s & H1 & H2). exists s.
        split; [|exact H2]. rewrite lookup_app_l by lia. exact H1.
  - exists stacks. split; [exact Hrun|]. split; [exact Hl | exact Hall].
Qed.

(** X10. [SplitImage] deals the planes of the image round robin: it returns
    [packages] stacks, plane [k] of stack [l] is plane [k * packages + l] of
    the image, and plane [k] of the image is plane [k / packages] of stack
    [k mod packages]. No voxel outside the image is read. *)
Theorem SplitImage_partition (image : RealImage) (p : nat) :
  wf_image image -> (0 < p <= GetZ image)%nat ->
  exists stacks,
    SplitImage image (Z.of_nat p) = Done stacks /\
    length stacks = p /\
    (forall l stack, stacks !! l = Some stack ->
       wf_image stack /\ GetX stack = GetX image /\ GetY stack = GetY image /\
       (forall k, (k < GetZ stack)%nat <-> (k * p + l < GetZ image)%nat) /\
       forall i j k, in_image stack i j k ->
         exists v, Get image i j (k * p + l) = Done v /\ Get stack i j k = Done v) /\
    (forall i j k, in_image image i j k ->
       exists stack v,
         stacks !! (k mod p)%nat = Some stack /\
         Get image i j k = Done v /\ Get stack i j (k / p) = Done v).
Proof.
  intros Hwf [Hp _].
  destruct (SplitImage_spec image p Hwf Hp) as (stacks & Hrun & Hl & Hall).
  exists stacks. split; [exact Hrun|]. split; [exact Hl|].
  assert (Hstack : forall l stack, stacks !! l = Some stack ->
            wf_image stack /\ GetX stack = GetX image /\ GetY stack = GetY image /\
            (forall k, (k < GetZ stack)%nat <-> (k * p + l < GetZ image)%nat) /\
            forall i j k, in_image stack i j k ->
              exists v, Get image i j (k * p + l) = Done v /\ Get stack i j k = Done v).
  { intros l stack Hs.
    assert (Hlp : (l < p)%nat) by (rewrite <- Hl; eapply lookup_lt_Some; eassumption).
    destruct (Hall l Hlp) as (stack' & Hs' & Hpk).
    assert (stack' = stack) by congruence. subst stack'.
    destruct (package_spec image p l Hwf Hp Hlp)
      as (stack' & Hpk' & Hws & Hx & Hy & _ & Hplanes & Hget).
    assert (stack' = stack) by congruence. subst stack'. tauto. }
  split; [exact Hstack|].
  intros i j k (Hi & Hj & Hk).
  pose proof (Nat.mod_upper_bound k p ltac:(lia)) as Hm.
  pose proof (Nat.div_mod_eq k p) as Hdm.
  destruct (Hall (k mod p)%nat Hm) as (stack & Hs & _).
  destruct (Hstack _ _ Hs) as (_ & Hx & Hy & Hplanes & Hget).
  destruct (Hget i j (k / p)%nat) as (v & Hv & Hg).
  { unfold in_image. rewrite Hx, Hy. split; [exact Hi|]. split; [exact Hj|].
    apply Hplanes. lia. }
  exists stack, v. split; [exact Hs|]. split; [|exact Hg].
  replace (k / p * p + k mod p)%nat with k in Hv by lia. exact Hv.
Qed.

(** ** SplitImageEvenOdd *)

(** X11. [SplitImageEvenOdd] with [packages] packages returns the stacks of
    [SplitImage] with [2 * packages] packages in another order: the stacks
    [2 * i] and [2 * i + 1] are the packages [i] and [i + packages]. *)
Theorem SplitImageEvenOdd_packages (image : RealImage) (p : nat) :
  wf_image image -> (0 < p)%nat -> (2 * p <= GetZ image)%nat ->
  exists stacks split,
    SplitImageEvenOdd image (Z.of_nat p) = Done stacks /\
    SplitImage image (Z.of_nat (2 * p)) = Done split /\
    length stacks = (2 * p)%nat /\
    forall i e, (i < p)%nat -> (e < 2)%nat ->
      exists stack,
        stacks !! (2 * i + e)%nat = Some stack /\
        split !! (i + p * e)%nat = Some stack.
Proof.
  intros Hwf Hp _.
  destruct (SplitImage_spec image p Hwf Hp) as (packs & Hpacks & Hlp & Hpk).
  destruct (SplitImage_spec image (2 * p) Hwf ltac:(lia)) as (split & Hsplit & Hls & Hsp).
  unfold SplitImageEvenOdd. rewrite Hpacks. cbn [mbind outcome_bind obind].
  match goal with |- context [foldM ?f _ _] => set (body := f) end.
  pose (I := fun (k : nat) (stacks : list RealImage) =>
    length stacks = (2 * k)%nat /\
    forall i e, (i < k)%nat -> (e < 2)%nat ->
      exists stack,
        stacks !! (2 * i + e)%nat = Some stack /\
        split !! (i + p * e)%nat = Some stack).
  destruct (foldM_seq_total I body (length packs) []) as (stacks & Hrun & Hl & Hall).
  - split; [reflexivity|]. intros; lia.
  - intros k stacks Hk [Hl Hall]. rewrite Hlp in Hk.
    destruct (Hpk k Hk) as (pack & Hpack & Hpackage).
    destruct (package_spec image p k Hwf Hp Hk)
      as (pack' & Hpackage' & Hwp & Hx & Hy & Hdx & Hplanes & Hget).
    assert (pack' = pack) by congruence. subst pack'.
    destruct (SplitImage_spec pack 2 Hwp ltac:(lia)) as (packs2 & Hpacks2 & Hl2 & Hp2).
    assert (Hpart : forall e, (e < 2)%nat ->
              exists stack, packs2 !! e = Some stack /\
                            split !! (k + p * e)%nat = Some stack).
    { intros e He. destruct (Hp2 e He) as (a & Ha & Hpa).
      destruct (package_spec pack 2 e Hwp ltac:(lia) He)
        as (a' & Hpa' & Hwa & Hxa & Hya & Hdxa & Hplanesa & Hgeta).
      assert (a' = a) by congruence. subst a'.
      destruct (Hsp (k + p * e)%nat ltac:(nia)) as (b & Hb & Hpb).
      destruct (package_spec image (2 * p) (k + p * e) Hwf ltac:(lia) ltac:(nia))
        as (b' & Hpb' & Hwb & Hxb & Hyb & Hdxb & Hplanesb & Hgetb).
      assert (b' = b) by congruence. subst b'.
      exists a. split; [exact Ha|]. rewrite Hb. f_equal. symmetry.
      assert (Hz : GetZ a = GetZ b).
      { assert (H1 : forall n, (n < GetZ a)%nat <-> (n < GetZ b)%nat).
        { intros n. rewrite Hplanesa, Hplanes, Hplanesb.
          replace ((n * 2 + e) * p + k)%nat with (n * (2 * p) + (k + p * e))%nat by nia.
          reflexivity. }
        destruct (Nat.lt_trichotomy (GetZ a) (GetZ b)) as [Hlt|[Heq|Hgt]];
          [apply H1 in Hlt; lia | exact Heq | apply H1 in Hgt; lia]. }
      apply image_ext; [exact Hwa | exact Hwb | |].
      - unfold Attributes. rewrite Hxa, Hya, Hz, Hdxa, Hx, Hy, Hdx, Hxb, Hyb, Hdxb.
        reflexivity.
      - intros x y z Hin.
        destruct (Hgeta x y z Hin) as (v & Hv & Hga).
        assert (Hinp : in_image pack x y (z * 2 + e)).
        { apply Get_Done in Hv. tauto. }
        destruct (Hget x y (z * 2 + e)%nat Hinp) as (w & Hw & Hgp).
        assert (w = v) by congruence. subst w.
        destruct (Hgetb x y z) as (u & Hu & Hgb).
        { unfold in_image in *. rewrite Hxb, Hyb, <- Hz, <- Hx, <- Hy, <- Hxa, <- Hya.
          exact Hin. }
        replace (z * (2 * p) + (k + p * e))%nat with ((z * 2 + e) * p + k)%nat in Hu by nia.
        assert (u = v) by congruence. subst u. now rewrite Hga, Hgb. }
    destruct (Hpart 0%nat ltac:(lia)) as (even & Heven & Hse).
    destruct (Hpart 1%nat ltac:(lia)) as (odd & Hodd & Hso).
    exists (stacks ++ [even; odd]). split.
    + unfold body. apply rd_Done in Hpack. rewrite Hpack. cbn [mbind outcome_bind obind].
      change (Z.of_nat 2) with 2%Z in Hpacks2.
      rewrite Hpacks2. cbn [mbind outcome_bind obind].
      apply rd_Done in Heven, Hodd. rewrite Heven. cbn [mbind outcome_bind obind].
      now rewrite Hodd.
    + split; [rewrite length_app; cbn; lia|]. intros i e Hi He.
      destruct (decide (i = k)) as [->|Hne].
      * rewrite lookup_app_r by lia.
        replace (2 * k + e - length stacks)%nat with e by lia.
        destruct e as [|[|e]]; [| |lia].
        -- exists even. split; [reflexivity | exact Hse].
        -- exists odd. split; [reflexivity | exact Hso].
      * destruct (Hall i e ltac:(lia) He) as (s & H1 & H2). exists s.
        split; [|exact H2]. rewrite lookup_app_l by lia. exact H1.
  - exists stacks, split. split; [exact Hrun|]. split; [exact Hsplit|].
    rewrite Hlp in *. split; [exact Hl | exact Hall].
Qed.

Import SliceOrder.

(** ** GetSliceAcquisitionOrder: the orders are permutations *)

Lemma copying_Done (a : list (option Z)) (l : list Z) :
  copying a = Done l <-> a = Some <$> l.
Proof.
  revert l. induction a as [|[v|] a IH]; intros l; cbn.
  - split; [intros H; inversion H; reflexivity|].
    intros H. destruct l; [reflexivity | discriminate].
  - destruct (copying a) as [r| |] eqn:Hr; cbn.
    + split.
      * intros H. inversion H; subst l; clear H. cbn. f_equal. now apply IH.
      * intros H. destruct l as [|w l]; [discriminate|]. cbn in H.
        inversion H; subst. f_equal. f_equal.
        assert (Done r = Done l) as E by (now apply IH). now inversion E.
    + split; [discriminate|]. intros H. destruct l as [|w l]; [discriminate|].
      cbn in H. inversion H; subst.
      assert (Exited code = Done l) as E by (now apply IH). discriminate.
    + split; [discriminate|]. intros H. destruct l as [|w l]; [discriminate|].
      cbn in H. inversion H; subst.
      assert (@Undefined (list Z) = Done l) as E by (now apply IH). discriminate.
  - split; [discriminate|]. intros H. destruct l; discriminate.
Qed.

Lemma orders_agree_fresh (n : nat) :
  orders_agree (replicate n None) (replicate n None).
Proof. intros p c H. apply lookup_replicate in H as [H _]. discriminate. Qed.

(** One assignment pair [z_slice_order[c] = p; t_slice_order[p] = c] with
    a position [c] that [t_slice_order] does not hold yet. *)
Lemma orders_agree_step (z_ord t_ord : list (option Z)) (c p : Z) :
  orders_agree z_ord t_ord ->
  (0 <= c)%Z -> (0 <= p)%Z -> (Z.to_nat c < length z_ord)%nat ->
  (forall q d, t_ord !! q = Some (Some d) -> Z.to_nat d <> Z.to_nat c) ->
  orders_agree (<[Z.to_nat c:=Some p]> z_ord) (<[Z.to_nat p:=Some c]> t_ord).
Proof.
  intros Hag Hc Hp Hlen Hfresh q d Hq.
  destruct (decide (q = Z.to_nat p)) as [->|Hne].
  - assert (Hlt : (Z.to_nat p < length t_ord)%nat).
    { apply lookup_lt_Some in Hq. now rewrite length_insert in Hq. }
    rewrite list_lookup_insert_eq in Hq by exact Hlt. inversion Hq; subst d.
    split; [exact Hc|]. rewrite list_lookup_insert_eq by exact Hlen.
    now rewrite Z2Nat.id.
  - rewrite list_lookup_insert_ne in Hq by congruence.
    destruct (Hag q d Hq) as [Hd Hz]. split; [exact Hd|].
    rewrite list_lookup_insert_ne; [exact Hz|].
    intros E. apply (Hfresh q d Hq). now symmetry.
Qed.

Lemma ascending_loop_agree (fuel : nat) (z pack order counter slice_pos_counter p : Z)
    (z_ord t_ord z_ord' t_ord' : list (option Z)) :
  ascending_loop fuel z pack order counter slice_pos_counter p z_ord t_ord
    = Done (z_ord', t_ord') ->
  (0 <= counter)%Z ->
  orders_agree z_ord t_ord ->
  (forall q d, t_ord !! q = Some (Some d) -> (d < counter)%Z) ->
  length z_ord' = length z_ord /\ length t_ord' = length t_ord /\
  orders_agree z_ord' t_ord'.
Proof.
  revert counter slice_pos_counter p z_ord t_ord.
  induction fuel as [|fuel IH]; intros counter spc p z_ord t_ord H Hc Hag Hlt; cbn in H.
  - inversion H; subst. tauto.
  - bind_inv H as z1 Hz1. bind_inv H as t1 Ht1.
    apply wrZ_Done in Hz1 as (_ & Hlz & ->). apply wrZ_Done in Ht1 as (Hs0 & Hlt1 & ->).
    match type of H with
    | (let '(_, _) := ?b in _) = _ => destruct b as [spc' p'] eqn:Hb
    end.
    apply IH in H as (H1 & H2 & H3).
    + rewrite !length_insert in *. tauto.
    + lia.
    + apply orders_agree_step; try assumption.
      intros q d Hq E. specialize (Hlt q d Hq). destruct (Hag q d Hq) as [Hd _]. lia.
    + intros q d Hq. destruct (decide (q = Z.to_nat spc)) as [->|Hne].
      * rewrite list_lookup_insert_eq in Hq by exact Hlt1. inversion Hq; subst. lia.
      * rewrite list_lookup_insert_ne in Hq by congruence. specialize (Hlt q d Hq). lia.
Qed.

Lemma saving_agree (idxs : list nat) (realInterleaved : list Z)
    (z_ord t_ord z_ord' t_ord' : list (option Z)) :
  saving idxs realInterleaved z_ord t_ord = Done (z_ord', t_ord') ->
  NoDup idxs ->
  orders_agree z_ord t_ord ->
  (forall q d, t_ord !! q = Some (Some d) -> Z.to_nat d ∉ idxs) ->
  length z_ord' = length z_ord /\ length t_ord' = length t_ord /\
  orders_agree z_ord' t_ord'.
Proof.
  revert z_ord t_ord. induction idxs as [|i idxs IH]; intros z_ord t_ord H Hnd Hag Hfr;
    cbn in H.
  - inversion H; subst. tauto.
  - bind_inv H as v Hv. bind_inv H as z1 Hz1. bind_inv H as t1 Ht1.
    apply wr_Done in Hz1 as (Hlz & ->). apply wrZ_Done in Ht1 as (Hv0 & Hlt1 & ->).
    apply NoDup_cons in Hnd as [Hi Hnd].
    apply IH in H as (H1 & H2 & H3); [| exact Hnd | |].
    + rewrite !length_insert in *. tauto.
    + replace i with (Z.to_nat (Z.of_nat i)) at 1 by lia.
      apply orders_agree_step; try assumption; try lia.
      intros q d Hq E. apply (Hfr q d Hq). rewrite E, Nat2Z.id. left.
    + intros q d Hq. destruct (decide (q = Z.to_nat v)) as [->|Hne].
      * rewrite list_lookup_insert_eq in Hq by exact Hlt1. inversion Hq; subst.
        now rewrite Nat2Z.id.
      * rewrite list_lookup_insert_ne in Hq by congruence.
        specialize (Hfr q d Hq). intros Hin. apply Hfr. now right.
Qed.

(** Arrays that agree and are written everywhere hold a slice order and its
    inverse. *)
Lemma slice_order_from_arrays (n : nat) (zs ts : list Z) :
  length zs = n -> length ts = n ->
  orders_agree (Some <$> zs) (Some <$> ts) ->
  slice_order n zs ts.
Proof.
  intros Hlz Hlt Hag.
  assert (Hinv : forall p c, ts !! p = Some c ->
            (0 <= c)%Z /\ zs !! Z.to_nat c = Some (Z.of_nat p)).
  { intros p c Hp. destruct (Hag p c) as [Hc Hz]; [now rewrite list_lookup_fmap, Hp|].
    split; [exact Hc|]. rewrite list_lookup_fmap in Hz.
    destruct (zs !! Z.to_nat c); cbn in Hz; congruence. }
  assert (Hnd : NoDup (Z.of_nat <$> seq 0 n)).
  { apply NoDup_fmap; [intros a b; lia | apply NoDup_seq]. }
  assert (Hperm : zs ≡ₚ Z.of_nat <$> seq 0 n).
  { symmetry. apply submseteq_length_Permutation.
    - apply NoDup_submseteq; [exact Hnd|]. intros x Hx.
      apply list_elem_of_fmap in Hx as (p & -> & Hp). apply elem_of_seq in Hp.
      destruct (lookup_lt_is_Some_2 ts p ltac:(lia)) as [c Hc].
      destruct (Hinv p c Hc) as [_ Hz]. eapply list_elem_of_lookup_2. exact Hz.
    - rewrite length_fmap, length_seq. lia. }
  split; [exact Hperm|]. split; [|intros p i Hp; now apply Hinv].
  intros i p Hi.
  assert (Hin : p ∈ Z.of_nat <$> seq 0 n).
  { rewrite <- Hperm. eapply list_elem_of_lookup_2. exact Hi. }
  apply list_elem_of_fmap in Hin as (p' & -> & Hp'). apply elem_of_seq in Hp'.
  rewrite Nat2Z.id.
  destruct (lookup_lt_is_Some_2 ts p' ltac:(lia)) as [c Hc].
  destruct (Hinv p' c Hc) as [Hc0 Hz].
  assert (Hndz : NoDup zs) by (rewrite Hperm; exact Hnd).
  assert (Z.to_nat c = i) by (eapply NoDup_lookup; eassumption).
  rewrite Hc. f_equal. lia.
Qed.

(** The order of one stack. *)
Lemma stack_order_spec (n : nat) (pack order step rewinder : Z) (zs ts : list Z) :
  stack_order (Z.of_nat n) pack order step rewinder = Done (zs, ts) ->
  slice_order n zs ts.
Proof.
  unfold stack_order. intros H.
  destruct (pack =? 0)%Z; [discriminate|].
  rewrite Nat2Z.id in H. bind_inv H as arrays Harr. destruct arrays as [z_ord t_ord].
  bind_inv H as zs' Hzs. bind_inv H as ts' Hts. inversion H; subst zs' ts'; clear H.
  apply copying_Done in Hzs, Hts. subst z_ord t_ord.
  assert (Hres : length (Some <$> zs) = length (replicate n (@None Z)) /\
                 length (Some <$> ts) = length (replicate n (@None Z)) /\
                 orders_agree (Some <$> zs) (Some <$> ts)).
  { destruct ((order =? 1)%Z || (order =? 2)%Z).
    - apply ascending_loop_agree in Harr; [exact Harr | lia | apply orders_agree_fresh |].
      intros q d Hq. apply lookup_replicate in Hq as [Hq _]. discriminate.
    - match type of Harr with
      | (let '(_, _) := ?b in _) = _ => destruct b as [rewinderFactor stepFactor]
      end.
      bind_inv Harr as realInterleaved Hri.
      apply saving_agree in Harr; [exact Harr | apply NoDup_seq | apply orders_agree_fresh |].
      intros q d Hq. apply lookup_replicate in Hq as [Hq _]. discriminate. }
  destruct Hres as (Hl1 & Hl2 & Hag).
  rewrite length_fmap, length_replicate in Hl1, Hl2.
  now apply slice_order_from_arrays.
Qed.

Lemma stack_loop_spec (stacks : list RealImage) (pack_num order : list Z)
    (step rewinder : Z) (dyn : nat) (st st' : Reconstruction) :
  stack_loop st stacks pack_num order step rewinder dyn = Done st' ->
  exists orders : list (list Z * list Z),
    _z_slice_order st' = _z_slice_order st ++ concat (fst <$> orders) /\
    _t_slice_order st' = _t_slice_order st ++ concat (snd <$> orders) /\
    Forall2 (fun stack o => slice_order (GetZ stack) (fst o) (snd o)) stacks orders /\
    st' = set_t_slice_order (_t_slice_order st') (set_z_slice_order (_z_slice_order st') st).
Proof.
  revert dyn st. induction stacks as [|stack stacks IH]; intros dyn st H; cbn in H.
  - inversion H; subst st'; clear H. exists []. cbn. rewrite !app_nil_r.
    split; [reflexivity|]. split; [reflexivity|]. split; [constructor|].
    now destruct st.
  - bind_inv H as pack Hpack. bind_inv H as ord Hord. bind_inv H as o Ho.
    destruct o as [zs ts]. apply stack_order_spec in Ho.
    apply IH in H as (orders & Hz & Ht & Hall & Hst).
    exists ((zs, ts) :: orders). cbn in Hz, Ht |- *.
    rewrite <- !app_assoc in Hz, Ht.
    split; [exact Hz|]. split; [exact Ht|]. split; [constructor; assumption|].
    rewrite Hst at 1. reflexivity.
Qed.

(** X12. Whenever [GetSliceAcquisitionOrder] returns, it has appended to
    [_z_slice_order], for every stack, an order of the slices
    [0 .. GetZ-1] of that stack and to [_t_slice_order] the inverse order;
    no other member changes. This holds for every order code, package
    number, step and rewinder. *)
Theorem GetSliceAcquisitionOrder_permutations (st st' : Reconstruction)
    (stacks : list RealImage) (pack_num order : list Z) (step rewinder : Z) :
  GetSliceAcquisitionOrder st stacks pack_num order step rewinder = Done st' ->
  exists orders : list (list Z * list Z),
    _z_slice_order st' = _z_slice_order st ++ concat (fst <$> orders) /\
    _t_slice_order st' = _t_slice_order st ++ concat (snd <$> orders) /\
    Forall2 (fun stack o => slice_order (GetZ stack) (fst o) (snd o)) stacks orders /\
    st' = set_t_slice_order (_t_slice_order st') (set_z_slice_order (_z_slice_order st') st).
Proof. apply stack_loop_spec. Qed.

(** ** CropImage *)

Lemma elem_of_descending (n i : nat) : i ∈ descending n <-> (i < n)%nat.
Proof.
  unfold descending. rewrite list_elem_of_In, <- in_rev, <- list_elem_of_In, elem_of_seq.
  lia.
Qed.

Lemma elem_of_positions_z (image : RealImage) (k0 i j k : nat) :
  (i, j, k) ∈ positions_z image k0 <-> (i < GetX image /\ j < GetY image)%nat /\ k = k0.
Proof.
  unfold positions_z. rewrite list_elem_of_bind. split.
  - intros (j' & H & Hj). apply list_elem_of_bind in H as (i' & H & Hi).
    apply list_elem_of_singleton in H. inversion H; subst.
    apply elem_of_descending in Hi, Hj. tauto.
  - intros [[Hi Hj] ->]. exists j. split; [|now apply elem_of_descending].
    apply list_elem_of_bind. exists i. split; [|now apply elem_of_descending].
    now apply list_elem_of_singleton.
Qed.

Lemma elem_of_positions_y (image : RealImage) (j0 i j k : nat) :
  (i, j, k) ∈ positions_y image j0 <-> (i < GetX image /\ k < GetZ image)%nat /\ j = j0.
Proof.
  unfold positions_y. rewrite list_elem_of_bind. split.
  - intros (k' & H & Hk). apply list_elem_of_bind in H as (i' & H & Hi).
    apply list_elem_of_singleton in H. inversion H; subst.
    apply elem_of_descending in Hi, Hk. tauto.
  - intros [[Hi Hk] ->]. exists k. split; [|now apply elem_of_descending].
    apply list_elem_of_bind. exists i. split; [|now apply elem_of_descending].
    now apply list_elem_of_singleton.
Qed.

Lemma elem_of_positions_x (image : RealImage) (i0 i j k : nat) :
  (i, j, k) ∈ positions_x image i0 <-> (j < GetY image /\ k < GetZ image)%nat /\ i = i0.
Proof.
  unfold positions_x. rewrite list_elem_of_bind. split.
  - intros (k' & H & Hk). apply list_elem_of_bind in H as (j' & H & Hj).
    apply list_elem_of_singleton in H. inversion H; subst.
    apply elem_of_descending in Hj, Hk. tauto.
  - intros [[Hj Hk] ->]. exists k. split; [|now apply elem_of_descending].
    apply list_elem_of_bind. exists j. split; [|now apply elem_of_descending].
    now apply list_elem_of_singleton.
Qed.

(** The count of a list of positions of the mask is positive exactly when
    the mask is above 0 at one of them. *)
Lemma count_positive_from (mask : RealImage) (ps : list (nat * nat * nat)) (s0 : nat) :
  wf_image mask ->
  (forall i j k, (i, j, k) ∈ ps -> in_image mask i j k) ->
  exists s,
    foldM (fun sum '(i, j, k) =>
             v ← Get mask i j k; Done (if Qltb 0 v then S sum else sum)) ps s0
    = Done s /\
    (s0 <= s)%nat /\
    ((s0 < s)%nat <->
     exists i j k v, (i, j, k) ∈ ps /\ Get mask i j k = Done v /\ (0 < v)%Q).
Proof.
  intros Hwf. revert s0. induction ps as [|[[i j] k] ps IH]; intros s0 Hin.
  - exists s0. split; [reflexivity|]. split; [lia|]. split; [lia|].
    intros (i & j & k & v & H & _). inversion H.
  - destruct (Get_in_image mask i j k Hwf (Hin i j k ltac:(left))) as [v Hv].
    destruct (IH (if Qltb 0 v then S s0 else s0)) as (s & Hrun & Hle & Hiff).
    { intros. apply Hin. now right. }
    exists s. split; [cbn [foldM]; rewrite Hv; exact Hrun|].
    destruct (Qltb 0 v) eqn:Hc.
    + apply Qltb_lt in Hc. split; [lia|]. split; [|lia].
      intros _. exists i, j, k, v. split; [left | tauto].
    + apply Qltb_ge in Hc. split; [exact Hle|]. rewrite Hiff. split.
      * intros (i' & j' & k' & v' & H1 & H2). exists i', j', k', v'.
        split; [now right | exact H2].
      * intros (i' & j' & k' & v' & H1 & H2 & H3).
        apply elem_of_cons in H1 as [H1|H1].
        -- inversion H1; subst. assert (v' = v) by congruence. subst. lra.
        -- exists i', j', k', v'. tauto.
Qed.

Lemma count_positive_spec (mask : RealImage) (ps : list (nat * nat * nat)) :
  wf_image mask ->
  (forall i j k, (i, j, k) ∈ ps -> in_image mask i j k) ->
  exists s,
    count_positive mask ps = Done s /\
    ((0 < s)%nat <->
     exists i j k v, (i, j, k) ∈ ps /\ Get mask i j k = Done v /\ (0 < v)%Q).
Proof.
  intros Hwf Hin. destruct (count_positive_from mask ps 0 Hwf Hin) as (s & H & _ & Hiff).
  exists s. split; [exact H | exact Hiff].
Qed.

(** The downward scan: the last index with a positive count, or -1. *)
Lemma scan_down_spec (count : nat -> outcome nat) (P : nat -> Prop) (n : nat) :
  (forall k, (k < n)%nat -> exists s, count k = Done s /\ ((0 < s)%nat <-> P k)) ->
  exists r,
    scan_down count n = Done r /\ (-1 <= r < Z.of_nat n)%Z /\
    (forall k, (r < Z.of_nat k)%Z -> (k < n)%nat -> ~ P k) /\
    ((0 <= r)%Z -> P (Z.to_nat r)).
Proof.
  induction n as [|m IH]; intros Hc.
  - exists (-1)%Z. split; [reflexivity|]. split; [lia|]. split; [intros; lia | lia].
  - destruct (Hc m ltac:(lia)) as (s & Hs & Hiff). cbn [scan_down]. rewrite Hs.
    cbn [mbind outcome_bind obind]. destruct (Nat.ltb_spec 0 s) as [Hpos|Hzero].
    + exists (Z.of_nat m). split; [reflexivity|]. split; [lia|].
      split; [intros; lia|]. intros _. rewrite Nat2Z.id. now apply Hiff.
    + destruct IH as (r & Hr & Hb & Hno & Hat); [intros; apply Hc; lia|].
      exists r. split; [exact Hr|]. split; [lia|]. split; [|exact Hat].
      intros k Hk Hkn. destruct (decide (k = m)) as [->|Hne].
      * intros HP. apply Hiff in HP. lia.
      * apply Hno; [exact Hk | lia].
Qed.

(** The upward scan: the first index with a positive count, or the end. *)
Lemma scan_up_spec (count : nat -> outcome nat) (P : nat -> Prop) (fuel k0 : nat) :
  (forall k, (k0 <= k < k0 + fuel)%nat ->
     exists s, count k = Done s /\ ((0 < s)%nat <-> P k)) ->
  exists r,
    scan_up count fuel k0 = Done r /\ (Z.of_nat k0 <= r <= Z.of_nat (k0 + fuel))%Z /\
    (forall k, (k0 <= k)%nat -> (Z.of_nat k < r)%Z -> ~ P k) /\
    ((r < Z.of_nat (k0 + fuel))%Z -> P (Z.to_nat r)).
Proof.
  revert k0. induction fuel as [|fuel IH]; intros k0 Hc.
  - exists (Z.of_nat k0). split; [reflexivity|]. split; [lia|].
    split; [intros; lia | lia].
  - destruct (Hc k0 ltac:(lia)) as (s & Hs & Hiff). cbn [scan_up]. rewrite Hs.
    cbn [mbind outcome_bind obind]. destruct (Nat.ltb_spec 0 s) as [Hpos|Hzero].
    + exists (Z.of_nat k0). split; [reflexivity|]. split; [lia|].
      split; [intros; lia|]. intros _. rewrite Nat2Z.id. now apply Hiff.
    + destruct (IH (S k0)) as (r & Hr & Hb & Hno & Hat); [intros; apply Hc; lia|].
      exists r. split; [exact Hr|]. split; [lia|]. split.
      * intros k Hk Hkr. destruct (decide (k = k0)) as [->|Hne].
        -- intros HP. apply Hiff in HP. lia.
        -- apply Hno; [lia | exact Hkr].
      * intros Hlt. apply Hat. lia.
Qed.

(** The six boundaries enclose the voxels of the image where the mask is
    above 0, and every boundary that lies in the image is met by one. *)
Lemma mask_bounds_spec (image mask : RealImage) :
  mask_over image mask ->
  exists x1 y1 z1 x2 y2 z2,
    mask_bounds image mask = Done (x1, y1, z1, x2, y2, z2) /\
    (0 <= x1 <= Z.of_nat (GetX image) /\ -1 <= x2 < Z.of_nat (GetX image) /\
     0 <= y1 <= Z.of_nat (GetY image) /\ -1 <= y2 < Z.of_nat (GetY image) /\
     0 <= z1 <= Z.of_nat (GetZ image) /\ -1 <= z2 < Z.of_nat (GetZ image))%Z /\
    (forall i j k, in_mask image mask i j k ->
       (x1 <= Z.of_nat i <= x2 /\ y1 <= Z.of_nat j <= y2 /\
        z1 <= Z.of_nat k <= z2)%Z) /\
    ((x1 < Z.of_nat (GetX image))%Z -> exists j k, in_mask image mask (Z.to_nat x1) j k) /\
    ((0 <= x2)%Z -> exists j k, in_mask image mask (Z.to_nat x2) j k) /\
    ((y1 < Z.of_nat (GetY image))%Z -> exists i k, in_mask image mask i (Z.to_nat y1) k) /\
    ((0 <= y2)%Z -> exists i k, in_mask image mask i (Z.to_nat y2) k) /\
    ((z1 < Z.of_nat (GetZ image))%Z -> exists i j, in_mask image mask i j (Z.to_nat z1)) /\
    ((0 <= z2)%Z -> exists i j, in_mask image mask i j (Z.to_nat z2)).
Proof.
  intros [Hwf Hover]. unfold mask_bounds.
  set (count_z := fun k => count_positive mask (positions_z image k)).
  set (count_y := fun j => count_positive mask (positions_y image j)).
  set (count_x := fun i => count_positive mask (positions_x image i)).
  set (Pz := fun k => exists i j, in_mask image mask i j k).
  set (Py := fun j => exists i k, in_mask image mask i j k).
  set (Px := fun i => exists j k, in_mask image mask i j k).
  assert (Hcz : forall k, (k < GetZ image)%nat ->
            exists s, count_z k = Done s /\ ((0 < s)%nat <-> Pz k)).
  { intros k Hk. destruct (count_positive_spec mask (positions_z image k) Hwf)
      as (s & Hs & Hiff).
    { intros i j k' H. apply elem_of_positions_z in H as [[Hi Hj] ->].
      apply Hover. unfold in_image. lia. }
    exists s. split; [exact Hs|]. rewrite Hiff. unfold Pz, in_mask. split.
    - intros (i & j & k' & v & H & Hv & Hv0).
      apply elem_of_positions_z in H as [[Hi Hj] ->]. exists i, j.
      split; [unfold in_image; lia | eauto].
    - intros (i & j & (Hi & Hj & _) & v & Hv & Hv0). exists i, j, k, v.
      split; [apply elem_of_positions_z; lia | tauto]. }
  assert (Hcy : forall j, (j < GetY image)%nat ->
            exists s, count_y j = Done s /\ ((0 < s)%nat <-> Py j)).
  { intros j Hj. destruct (count_positive_spec mask (positions_y image j) Hwf)
      as (s & Hs & Hiff).
    { intros i j' k H. apply elem_of_positions_y in H as [[Hi Hk] ->].
      apply Hover. unfold in_image. lia. }
    exists s. split; [exact Hs|]. rewrite Hiff. unfold Py, in_mask. split.
    - intros (i & j' & k & v & H & Hv & Hv0).
      apply elem_of_positions_y in H as [[Hi Hk] ->]. exists i, k.
      split; [unfold in_image; lia | eauto].
    - intros (i & k & (Hi & _ & Hk) & v & Hv & Hv0). exists i, j, k, v.
      split; [apply elem_of_positions_y; lia | tauto]. }
  assert (Hcx : forall i, (i < GetX image)%nat ->
            exists s, count_x i = Done s /\ ((0 < s)%nat <-> Px i)).
  { intros i Hi. destruct (count_positive_spec mask (positions_x image i) Hwf)
      as (s & Hs & Hiff).
    { intros i' j k H. apply elem_of_positions_x in H as [[Hj Hk] ->].
      apply Hover. unfold in_image. lia. }
    exists s. split; [exact Hs|]. rewrite Hiff. unfold Px, in_mask. split.
    - intros (i' & j & k & v & H & Hv & Hv0).
      apply elem_of_positions_x in H as [[Hj Hk] ->]. exists j, k.
      split; [unfold in_image; lia | eauto].
    - intros (j & k & (_ & Hj & Hk) & v & Hv & Hv0). exists i, j, k, v.
      split; [apply elem_of_positions_x; lia | tauto]. }
  destruct (scan_down_spec count_z Pz (GetZ image) Hcz) as (z2 & Hz2 & Bz2 & Nz2 & Az2).
  destruct (scan_up_spec count_z Pz (GetZ image) 0) as (z1 & Hz1 & Bz1 & Nz1 & Az1);
    [intros; apply Hcz; lia|].
  destruct (scan_down_spec count_y Py (GetY image) Hcy) as (y2 & Hy2 & By2 & Ny2 & Ay2).
  destruct (scan_up_spec count_y Py (GetY image) 0) as (y1 & Hy1 & By1 & Ny1 & Ay1);
    [intros; apply Hcy; lia|].
  destruct (scan_down_spec count_x Px (GetX image) Hcx) as (x2 & Hx2 & Bx2 & Nx2 & Ax2).
  destruct (scan_up_spec count_x Px (GetX image) 0) as (x1 & Hx1 & Bx1 & Nx1 & Ax1);
    [intros; apply Hcx; lia|].
  exists x1, y1, z1, x2, y2, z2.
  rewrite Hz2, Hz1, Hy2, Hy1, Hx2, Hx1. cbn [mbind outcome_bind obind].
  split; [reflexivity|]. cbn [Nat.add] in *. split; [lia|]. split.
  - intros i j k Hm. pose proof Hm as [(Hi & Hj & Hk) _].
    assert (HPx : Px i) by (exists j, k; exact Hm).
    assert (HPy : Py j) by (exists i, k; exact Hm).
    assert (HPz : Pz k) by (exists i, j; exact Hm).
    repeat split.
    + destruct (Z_lt_le_dec (Z.of_nat i) x1) as [H|H]; [|exact H].
      exfalso. apply (Nx1 i); [lia | exact H | exact HPx].
    + destruct (Z_lt_le_dec x2 (Z.of_nat i)) as [H|H]; [|exact H].
      exfalso. apply (Nx2 i); [exact H | exact Hi | exact HPx].
    + destruct (Z_lt_le_dec (Z.of_nat j) y1) as [H|H]; [|exact H].
      exfalso. apply (Ny1 j); [lia | exact H | exact HPy].
    + destruct (Z_lt_le_dec y2 (Z.of_nat j)) as [H|H]; [|exact H].
      exfalso. apply (Ny2 j); [exact H | exact Hj | exact HPy].
    + destruct (Z_lt_le_dec (Z.of_nat k) z1) as [H|H]; [|exact H].
      exfalso. apply (Nz1 k); [lia | exact H | exact HPz].
    + destruct (Z_lt_le_dec z2 (Z.of_nat k)) as [H|H]; [|exact H].
      exfalso. apply (Nz2 k); [exact H | exact Hk | exact HPz].
  - repeat split; assumption.
Qed.

Section CroppingProperties.

Variable GetRegion : RealImage -> Z -> Z -> Z -> Z -> Z -> Z -> outcome RealImage.

(** X13. When the boundaries [CropImage] finds pass its test ([x1 < x2],
    [y1 < y2], [z1 < z2]), the region it asks [GetRegion] for is the bounding
    box of the voxels where the mask is above 0: it lies in the image, it
    contains every such voxel, and each of its six faces holds one. *)
Theorem CropImage_bounding_box (image mask : RealImage) :
  mask_over image mask ->
  exists x1 y1 z1 x2 y2 z2,
    mask_bounds image mask = Done (x1, y1, z1, x2, y2, z2) /\
    ((x1 < x2)%Z -> (y1 < y2)%Z -> (z1 < z2)%Z ->
     CropImage GetRegion image mask
     = GetRegion image x1 y1 z1 (x2 + 1) (y2 + 1) (z2 + 1) /\
     (0 <= x1 /\ x2 < Z.of_nat (GetX image) /\ 0 <= y1 /\ y2 < Z.of_nat (GetY image) /\
      0 <= z1 /\ z2 < Z.of_nat (GetZ image))%Z /\
     (forall i j k, in_mask image mask i j k ->
        (x1 <= Z.of_nat i <= x2 /\ y1 <= Z.of_nat j <= y2 /\
         z1 <= Z.of_nat k <= z2)%Z) /\
     (exists j k, in_mask image mask (Z.to_nat x1) j k) /\
     (exists j k, in_mask image mask (Z.to_nat x2) j k) /\
     (exists i k, in_mask image mask i (Z.to_nat y1) k) /\
     (exists i k, in_mask image mask i (Z.to_nat y2) k) /\
     (exists i j, in_mask image mask i j (Z.to_nat z1)) /\
     (exists i j, in_mask image mask i j (Z.to_nat z2))).
Proof.
  intros Hover.
  destruct (mask_bounds_spec image mask Hover)
    as (x1 & y1 & z1 & x2 & y2 & z2 & Hb & Hr & Hin & Ax1 & Ax2 & Ay1 & Ay2 & Az1 & Az2).
  exists x1, y1, z1, x2, y2, z2. split; [exact Hb|]. intros Hx Hy Hz. split.
  - unfold CropImage. rewrite Hb. cbn [mbind outcome_bind obind]. unfold crop_box.
    destruct (Z.leb_spec x2 x1); [lia|]. destruct (Z.leb_spec y2 y1); [lia|].
    destruct (Z.leb_spec z2 z1); [lia|]. reflexivity.
  - split; [lia|]. split; [exact Hin|].
    split; [apply Ax1; lia|]. split; [apply Ax2; lia|].
    split; [apply Ay1; lia|]. split; [apply Ay2; lia|].
    split; [apply Az1; lia | apply Az2; lia].
Qed.

(** X14. A mask whose voxels above 0 all lie in one plane of the image (one
    value of [i], of [j] or of [k]), or that has none, fails the test of
    [CropImage]: the image is cropped to the region from [(0, 0, 0)] to
    [(1, 1, 1)], its first voxel. *)
Theorem CropImage_thin_mask (image mask : RealImage) (c : nat) :
  mask_over image mask ->
  (forall i j k, in_mask image mask i j k -> i = c) \/
  (forall i j k, in_mask image mask i j k -> j = c) \/
  (forall i j k, in_mask image mask i j k -> k = c) ->
  CropImage GetRegion image mask = GetRegion image 0 0 0 1 1 1.
Proof.
  intros Hover Hthin.
  destruct (mask_bounds_spec image mask Hover)
    as (x1 & y1 & z1 & x2 & y2 & z2 & Hb & Hr & Hin & Ax1 & Ax2 & Ay1 & Ay2 & Az1 & Az2).
  unfold CropImage. rewrite Hb. cbn [mbind outcome_bind obind].
  assert (Hdeg : (x2 <= x1 \/ y2 <= y1 \/ z2 <= z1)%Z).
  { destruct Hthin as [H|[H|H]]; [left | right; left | right; right].
    - destruct (Z_lt_le_dec x2 0) as [H2|H2]; [lia|].
      destruct (Z_lt_le_dec x1 (Z.of_nat (GetX image))) as [H1|H1]; [|lia].
      destruct (Ax2 H2) as (j & k & Hm). destruct (Ax1 H1) as (j' & k' & Hm').
      apply H in Hm, Hm'. lia.
    - destruct (Z_lt_le_dec y2 0) as [H2|H2]; [lia|].
      destruct (Z_lt_le_dec y1 (Z.of_nat (GetY image))) as [H1|H1]; [|lia].
      destruct (Ay2 H2) as (i & k & Hm). destruct (Ay1 H1) as (i' & k' & Hm').
      apply H in Hm, Hm'. lia.
    - destruct (Z_lt_le_dec z2 0) as [H2|H2]; [lia|].
      destruct (Z_lt_le_dec z1 (Z.of_nat (GetZ image))) as [H1|H1]; [|lia].
      destruct (Az2 H2) as (i & j & Hm). destruct (Az1 H1) as (i' & j' & Hm').
      apply H in Hm, Hm'. lia. }
  unfold crop_box.
  destruct (Z.leb_spec x2 x1); [reflexivity|].
  destruct (Z.leb_spec y2 y1); [reflexivity|].
  destruct (Z.leb_spec z2 z1); [reflexivity|]. lia.
Qed.

End CroppingProperties.

(** ** InitializeEM: the range of intensities *)

Lemma intensity_range_fold (l : list Q) (acc : Q * Q) :
  let r := fold_left intensity_range l acc in
  (forall v, v ∈ l -> (0 < v)%Q -> (fst r <= v <= snd r)%Q) /\
  (fst r <= fst acc)%Q /\ (snd acc <= snd r)%Q /\
  (fst r = fst acc \/ (fst r ∈ l /\ (0 < fst r)%Q)) /\
  (snd r = snd acc \/ (snd r ∈ l /\ (0 < snd r)%Q)) /\
  ((forall v, v ∈ l -> (v <= 0)%Q) -> r = acc).
Proof.
  revert acc. induction l as [|w l IH]; intros [mn mx]; cbn zeta.
  - cbn. split; [intros v H; inversion H|]. split; [apply Qle_refl|].
    split; [apply Qle_refl|]. auto.
  - cbn [fold_left]. specialize (IH (intensity_range (mn, mx) w)).
    cbn zeta in IH. destruct IH as (Hall & Hmn & Hmx & Hamn & Hamx & Hnone).
    set (r := fold_left intensity_range l (intensity_range (mn, mx) w)) in *.
    assert (Hstep : (fst (intensity_range (mn, mx) w) <= mn)%Q /\
                    (mx <= snd (intensity_range (mn, mx) w))%Q /\
                    ((0 < w)%Q -> (fst (intensity_range (mn, mx) w) <= w)%Q /\
                                  (w <= snd (intensity_range (mn, mx) w))%Q) /\
                    (fst (intensity_range (mn, mx) w) = mn \/
                     (fst (intensity_range (mn, mx) w) = w /\ (0 < w)%Q)) /\
                    (snd (intensity_range (mn, mx) w) = mx \/
                     (snd (intensity_range (mn, mx) w) = w /\ (0 < w)%Q)) /\
                    ((w <= 0)%Q -> intensity_range (mn, mx) w = (mn, mx))).
    { unfold intensity_range. destruct (Qltb 0 w) eqn:Hw.
      - apply Qltb_lt in Hw. cbn [fst snd].
        destruct (Qltb w mn) eqn:H1; destruct (Qltb mx w) eqn:H2;
          try apply Qltb_lt in H1; try apply Qltb_ge in H1;
          try apply Qltb_lt in H2; try apply Qltb_ge in H2;
          repeat split; try lra; auto; intros; lra.
      - apply Qltb_ge in Hw. cbn [fst snd].
        repeat split; try lra; auto; try apply Qle_refl; intros; lra. }
    destruct Hstep as (S1 & S2 & S3 & S4 & S5 & S6). cbn [fst snd] in *.
    split; [|split; [lra|split; [lra|split; [|split]]]].
    + intros v Hv Hv0. apply elem_of_cons in Hv as [->|Hv]; [|now apply Hall].
      destruct (S3 Hv0). lra.
    + destruct Hamn as [E|[Hin Hp]]; [|right; split; [now right | exact Hp]].
      rewrite E. destruct S4 as [E'|[E' Hp]]; [now left|].
      right. rewrite E'. split; [left | exact Hp].
    + destruct Hamx as [E|[Hin Hp]]; [|right; split; [now right | exact Hp]].
      rewrite E. destruct S5 as [E'|[E' Hp]]; [now left|].
      right. rewrite E'. split; [left | exact Hp].
    + intros Hle. rewrite <- (S6 (Hle w ltac:(left))). apply Hnone.
      intros v Hv. apply Hle. now right.
Qed.

Lemma intensity_range_slices (slices : list RealImage) (acc : Q * Q) :
  fold_left (fun acc slice => fold_left intensity_range (Data slice) acc) slices acc
  = fold_left intensity_range (concat (Data <$> slices)) acc.
Proof.
  revert acc. induction slices as [|s slices IH]; intros acc; [reflexivity|].
  cbn. rewrite fold_left_app. apply IH.
Qed.

Section InitializeEMProperties.

Variables voxel_limits_min voxel_limits_max : Q.

(** X15. [InitializeEM] copies the slices to the voxel weights and bias fields,
    sets every scale and slice weight to 1, and leaves in [_min_intensity]
    and [_max_intensity] bounds of the positive voxels of the slices: each is
    the value of such a voxel, or the starting value [voxel_limits max] (for
    the minimum) and [voxel_limits min] (for the maximum), which both keep
    when no voxel is positive. *)
Theorem InitializeEM_range (st : Reconstruction) :
  let st' := InitializeEM voxel_limits_min voxel_limits_max st in
  _weights st' = _slices st /\ _bias st' = _slices st /\
  _scale st' = replicate (length (_slices st)) 1%Q /\
  _slice_weight st' = replicate (length (_slices st)) 1%Q /\
  (forall slice v, slice ∈ _slices st -> v ∈ Data slice -> (0 < v)%Q ->
     (_min_intensity st' <= v <= _max_intensity st')%Q) /\
  (_min_intensity st' = voxel_limits_max \/
   exists slice, slice ∈ _slices st /\ _min_intensity st' ∈ Data slice /\
                 (0 < _min_intensity st')%Q) /\
  (_max_intensity st' = voxel_limits_min \/
   exists slice, slice ∈ _slices st /\ _max_intensity st' ∈ Data slice /\
                 (0 < _max_intensity st')%Q) /\
  ((forall slice v, slice ∈ _slices st -> v ∈ Data slice -> (v <= 0)%Q) ->
   _min_intensity st' = voxel_limits_max /\ _max_intensity st' = voxel_limits_min).
Proof.
  cbn zeta. unfold InitializeEM.
  change (_slices (set_slice_weight _ (set_scale _ (set_bias _ (set_weights _ st)))))
    with (_slices st).
  rewrite intensity_range_slices.
  pose proof (intensity_range_fold (concat (Data <$> _slices st))
                (voxel_limits_max, voxel_limits_min)) as H.
  cbn zeta in H.
  destruct (fold_left intensity_range (concat (Data <$> _slices st))
              (voxel_limits_max, voxel_limits_min)) as [mn mx].
  cbn [fst snd] in H. destruct H as (Hall & _ & _ & Hmn & Hmx & Hnone).
  assert (Hconcat : forall v, v ∈ concat (Data <$> _slices st) <->
            exists slice, slice ∈ _slices st /\ v ∈ Data slice).
  { intros v. rewrite list_elem_of_In, in_concat. split.
    - intros (d & Hd & Hv). apply list_elem_of_In in Hd, Hv.
      apply list_elem_of_fmap in Hd as (slice & -> & Hs). eauto.
    - intros (slice & Hs & Hv). exists (Data slice).
      split; apply list_elem_of_In; [|exact Hv]. apply list_elem_of_fmap. eauto. }
  assert (Hrep : forall (A : Type) (l : list A),
            map (fun _ => 1%Q) l = replicate (length l) 1%Q).
  { intros A l. induction l as [|a l IH]; cbn; [reflexivity | now rewrite IH]. }
  cbn. split; [reflexivity|]. split; [reflexivity|].
  split; [apply Hrep|]. split; [apply Hrep|]. split; [|split; [|split]].
  - intros slice v Hs Hv Hv0. apply Hall; [|exact Hv0]. apply Hconcat. eauto.
  - destruct Hmn as [E|[Hin Hp]]; [now left | right].
    apply Hconcat in Hin as (slice & Hs & Hv). eauto.
  - destruct Hmx as [E|[Hin Hp]]; [now left | right].
    apply Hconcat in Hin as (slice & Hs & Hv). eauto.
  - intros Hle. assert (E : (mn, mx) = (voxel_limits_max, voxel_limits_min)).
    { apply Hnone. intros v Hv. apply Hconcat in Hv as (slice & Hs & Hv). eauto. }
    inversion E. tauto.
Qed.

End InitializeEMProperties.

(** ** EStep: weights and mixing proportion stay in [0, 1] *)

Lemma inject_Z_succ (n : nat) :
  (inject_Z (Z.of_nat (S n)) == inject_Z (Z.of_nat n) + 1)%Q.
Proof. rewrite Nat2Z.inj_succ, <- Z.add_1_r, inject_Z_plus. reflexivity. Qed.

Lemma inject_Z_nat_nonneg (n : nat) : (0 <= inject_Z (Z.of_nat n))%Q.
Proof. unfold Qle; cbn. lia. Qed.

Lemma inject_Z_nat_pos (n : nat) : (0 < n)%nat -> (0 < inject_Z (Z.of_nat n))%Q.
Proof. intros H. unfold Qlt; cbn. lia. Qed.

Lemma unit_fraction (a b : Q) :
  (0 <= a)%Q -> (0 <= b)%Q -> (0 < a + b)%Q -> (0 <= a / (a + b) <= 1)%Q.
Proof.
  intros Ha Hb Hab. split.
  - apply Qle_shift_div_l; [exact Hab | lra].
  - apply Qle_shift_div_r; [exact Hab | lra].
Qed.

Section EStepInvariants.

Variable G : Q -> Q -> Q.
Variable ParallelEStep : Reconstruction -> nat -> RealImage * Q.

Hypothesis G_nonneg : forall x s, (0 <= G x s)%Q.

Lemma slice_weight_of_unit (st : Reconstruction) (den p w : Q) :
  (0 <= _mix_s st <= 1)%Q -> (0 <= w <= 1)%Q ->
  (0 <= slice_weight_of G st den p w <= 1)%Q.
Proof using G_nonneg.
  intros Hmix Hw. unfold slice_weight_of.
  destruct (Qeq_bool p (-1)); cbv iota; [lra|].
  destruct (Qle_bool den 0 || Qle_bool (_mean_s2 st) (_mean_s st)); cbv iota; [lra|].
  set (gs1 := if Qltb p (_mean_s2 st) then G (p - _mean_s st) (_sigma_s st) else 0%Q).
  set (gs2 := if Qltb (_mean_s st) p then G (p - _mean_s2 st) (_sigma_s2 st) else 0%Q).
  assert (H1 : (0 <= gs1)%Q) by (unfold gs1; destruct (Qltb p _); [apply G_nonneg | lra]).
  assert (H2 : (0 <= gs2)%Q) by (unfold gs2; destruct (Qltb _ p); [apply G_nonneg | lra]).
  cbv zeta. fold gs1 gs2.
  destruct (Qltb 0 (gs1 * _mix_s st + gs2 * (1 - _mix_s st))) eqn:Hl; cbv iota.
  - apply Qltb_lt in Hl.
    apply (unit_fraction (gs1 * _mix_s st) (gs2 * (1 - _mix_s st))); [nra | nra | exact Hl].
  - destruct (Qltb p (_mean_s2 st) && Qltb (_mean_s st) p); cbv iota; [lra|].
    destruct (Qle_bool (_mean_s2 st) p); cbv iota; [lra|].
    destruct (Qle_bool p (_mean_s st)); cbv iota; lra.
Qed.

Lemma mix_sums_unit (st : Reconstruction) (sp : list Q) (sum : Q) (num : nat) :
  mix_sums st sp = Done (sum, num) ->
  (forall i w, _slice_weight st !! i = Some w -> (0 <= w <= 1)%Q) ->
  (0 <= sum <= inject_Z (Z.of_nat num))%Q.
Proof.
  intros H Hw. unfold mix_sums in H.
  apply (foldM_invariant (fun r : Q * nat => (0 <= fst r <= inject_Z (Z.of_nat (snd r)))%Q))
    in H; [exact H | cbn [fst snd]; split; [apply Qle_refl | apply inject_Z_nat_nonneg] |].
  intros [s1 n1] [s2 n2] i _ Hinv Hstep. cbn [fst snd] in *.
  bind_inv Hstep as p Hp. destruct (Qle_bool 0 p).
  - bind_inv Hstep as w Hwi. inversion Hstep; subst s2 n2; clear Hstep.
    apply rd_Done in Hwi. specialize (Hw i w Hwi). rewrite inject_Z_succ. lra.
  - inversion Hstep; subst. exact Hinv.
Qed.

(** X17. With a density [G] that is never negative, [EStep] keeps the slice
    weights and the mixing proportion [_mix_s] in [0, 1]: if they lie there
    before the step, the step returns and they lie there after it. *)
Theorem EStep_unit_interval (st : Reconstruction) :
  em_arrays_ok st ->
  (0 <= _mix_s st <= 1)%Q ->
  (forall i w, _slice_weight st !! i = Some w -> (0 <= w <= 1)%Q) ->
  exists st',
    EStep G ParallelEStep st = Done st' /\
    (forall i w, _slice_weight st' !! i = Some w -> (0 <= w <= 1)%Q) /\
    (0 <= _mix_s st' <= 1)%Q.
Proof using G_nonneg.
  intros Hok Hmix Hw.
  destruct (EStep_spec G ParallelEStep st Hok)
    as (sp & st1 & den & st' & Hsp & Hst & Hrun & _ & Hlen & Hnew & _).
  destruct (slice_potentials_spec ParallelEStep st Hok) as (sp' & Hsp' & Hlsp & _).
  assert (sp' = sp) by congruence. subst sp'.
  pose proof Hok as (_ & Hlsw & _).
  destruct (slice_statistics_total (voxel_posteriors ParallelEStep st) sp)
    as (st1' & den' & sum & sum2 & den2 & Hst' & _ & _ & _ & _ & _ & Hmix1).
  { change (length (_slices st) <= length sp)%nat. lia. } { exact Hlsw. }
  assert (st1' = st1) by congruence. subst st1'.
  change (_mix_s st1 = _mix_s st) in Hmix1.
  assert (Hunit : forall i w, _slice_weight st' !! i = Some w -> (0 <= w <= 1)%Q).
  { intros i w Hi. destruct (decide (i < length (_slices st))%nat) as [Hlt|Hge].
    - destruct (lookup_lt_is_Some_2 sp i ltac:(lia)) as [p Hp].
      destruct (lookup_lt_is_Some_2 (_slice_weight st) i ltac:(lia)) as [w0 Hw0].
      rewrite (Hnew i p w0 Hlt Hp Hw0) in Hi. inversion Hi; subst w.
      apply slice_weight_of_unit; [rewrite Hmix1; exact Hmix | eapply Hw; eassumption].
    - unfold EStep in Hrun. rewrite Hsp in Hrun. cbn [mbind outcome_bind obind] in Hrun.
      rewrite Hst in Hrun. cbn [mbind outcome_bind obind] in Hrun.
      bind_inv Hrun as sw Hsw. bind_inv Hrun as ms Hms. destruct ms as [msum mnum].
      inversion Hrun; subst st'; clear Hrun. cbn in Hi.
      unfold slice_weights in Hsw.
      assert (Hkeep : sw !! i = _slice_weight st1 !! i).
      { refine (foldM_seq_invariant
                  (fun k (a : list Q) => forall j, (k <= j)%nat ->
                     a !! j = _slice_weight st1 !! j) _ _ _ _ Hsw _ _ i _).
        - reflexivity.
        - intros k a1 a2 Hk Hinv Hstep j Hj. bind_inv Hstep as p Hp.
          bind_inv Hstep as w1 Hw1. apply wr_Done in Hstep as [_ ->].
          rewrite list_lookup_insert_ne by lia. apply Hinv. lia.
        - destruct (slice_statistics_total (voxel_posteriors ParallelEStep st) sp)
            as (s1 & d1 & _ & _ & _ & Hs1 & _ & _ & Hsl & _);
            [change (length (_slices st) <= length sp)%nat; lia | exact Hlsw |].
          assert (s1 = st1) by congruence. subst s1.
          change (_slices st1 = _slices st) in Hsl. rewrite Hsl. lia. }
      destruct (slice_statistics_total (voxel_posteriors ParallelEStep st) sp)
        as (s1 & d1 & _ & _ & _ & Hs1 & _ & _ & _ & Hsw1 & _);
        [change (length (_slices st) <= length sp)%nat; lia | exact Hlsw |].
      assert (s1 = st1) by congruence. subst s1.
      change (_slice_weight st1 = _slice_weight st) in Hsw1.
      rewrite Hkeep, Hsw1 in Hi. eapply Hw; eassumption. }
  exists st'. split; [exact Hrun|]. split; [exact Hunit|].
  unfold EStep in Hrun. rewrite Hsp in Hrun. cbn [mbind outcome_bind obind] in Hrun.
  rewrite Hst in Hrun. cbn [mbind outcome_bind obind] in Hrun.
  bind_inv Hrun as sw Hsw. bind_inv Hrun as ms Hms. destruct ms as [msum mnum].
  inversion Hrun as [Est]. rewrite <- Est in Hunit. cbn in Hunit |- *.
  pose proof (mix_sums_unit _ sp msum mnum Hms Hunit) as Hb.
  unfold mix_s_of. destruct (Nat.ltb_spec 0 mnum) as [Hpos|Hz]; [|lra].
  apply inject_Z_nat_pos in Hpos. split.
  - apply Qle_shift_div_l; [exact Hpos | lra].
  - apply Qle_shift_div_r; [exact Hpos | lra].
Qed.

End EStepInvariants.

(** ** GaussianReconstruction *)

Lemma insert_sorted_perm (v : Z) (l : list Z) : insert_sorted v l ≡ₚ v :: l.
Proof.
  induction l as [|w l IH]; cbn; [reflexivity|].
  destruct (v <=? w)%Z; [reflexivity|]. rewrite IH. apply Permutation_swap.
Qed.

Lemma sorted_perm (l : list Z) : sorted l ≡ₚ l.
Proof.
  induction l as [|v l IH]; cbn; [reflexivity|].
  unfold sorted in *. cbn. now rewrite insert_sorted_perm, IH.
Qed.

Section GaussianProperties.

Variable exp : Q -> Q.
Variable image_quotient : RealImage -> RealImage -> outcome RealImage.

(** The slices that are not force-excluded get one entry each in
    [voxel_num]. *)
Lemma distribute_length (st : Reconstruction) (reconstructed : RealImage)
    (voxel_num : list Z) :
  distribute exp st = Done (reconstructed, voxel_num) ->
  length voxel_num = length (distributed_slices st).
Proof.
  unfold distribute, distributed_slices. intros H.
  apply (foldM_prefix_invariant
           (fun pre (s : RealImage * list Z) =>
              length (snd s)
              = length (List.filter (fun i => negb (excluded st i)) pre))
           _ _ _ _ H); [reflexivity|].
  intros pre i post [r1 v1] [r2 v2] _ Hinv Hstep. cbn [fst snd] in *.
  rewrite List.filter_app, length_app. cbn [List.filter].
  destruct (excluded st i); cbn [negb length].
  - inversion Hstep; subst. lia.
  - bind_inv Hstep as d Hd. destruct d as [r n]. inversion Hstep; subst.
    rewrite length_app. cbn. lia.
Qed.

(** X18. With no slice to distribute (no slice at all, or every slice
    force-excluded) [GaussianReconstruction] looks for the median of an empty
    array: the index is -1, and the run is undefined. *)
Theorem GaussianReconstruction_no_slice (st : Reconstruction) (normalised : RealImage) :
  (forall inputIndex, (inputIndex < length (_slices st))%nat ->
     excluded st inputIndex = true) ->
  image_quotient (Initialize (Attributes (_reconstructed st))) (_volume_weights st)
    = Done normalised ->
  GaussianReconstruction exp image_quotient st = Undefined.
Proof.
  intros Hex Hq. unfold GaussianReconstruction.
  assert (Hd : distribute exp st
               = Done (Initialize (Attributes (_reconstructed st)), [])).
  { unfold distribute.
    match goal with |- foldM ?f ?l ?s = _ =>
      destruct (foldM_total (fun r => r = s) f l s eq_refl) as (r & Hr & ->);
        [|exact Hr]
    end.
    intros s1 i Hi ->. apply elem_of_seq in Hi.
    rewrite (Hex i ltac:(lia)). eauto. }
  rewrite Hd. cbn [mbind outcome_bind obind]. rewrite Hq. reflexivity.
Qed.

(** X19. A force-excluded slice does not take part in [GaussianReconstruction]:
    replacing its image, bias field, scale and coefficients changes neither
    the outcome nor the volume and the small slices it leaves. *)
Theorem GaussianReconstruction_ignores_excluded (st : Reconstruction) (k : nat)
    (slice bias : RealImage) (scale : Q) (coeffs : list (list (list POINT3D))) :
  excluded st k = true ->
  GaussianReconstruction exp image_quotient (with_slice k slice bias scale coeffs st)
  = st' ← GaussianReconstruction exp image_quotient st;
    Done (with_slice k slice bias scale coeffs st').
Proof.
  intros Hex. set (st2 := with_slice k slice bias scale coeffs st).
  assert (Hexc : forall i, excluded st2 i = excluded st i) by reflexivity.
  assert (Hlen : length (_slices st2) = length (_slices st))
    by (unfold st2, with_slice; cbn; apply length_insert).
  assert (Hslice : forall r i, i <> k ->
            distribute_slice exp st2 r i = distribute_slice exp st r i).
  { intros r i Hne. unfold distribute_slice, coeffs_at, st2, with_slice. cbn.
    unfold rd. rewrite !list_lookup_insert_ne by congruence. reflexivity. }
  assert (Hd : distribute exp st2 = distribute exp st).
  { unfold distribute. rewrite Hlen.
    change (_reconstructed st2) with (_reconstructed st).
    apply foldM_ext. intros [r v] i _. rewrite Hexc.
    destruct (excluded st i) eqn:Hi; [reflexivity|].
    rewrite Hslice; [reflexivity|]. intros ->. congruence. }
  unfold GaussianReconstruction. rewrite Hd.
  change (_volume_weights st2) with (_volume_weights st).
  destruct (distribute exp st) as [[r v]| |]; cbn [mbind outcome_bind obind]; try reflexivity.
  destruct (image_quotient r (_volume_weights st)); cbn [mbind outcome_bind obind];
    try reflexivity.
  destruct (median_of v); cbn [mbind outcome_bind obind]; try reflexivity.
  destruct (small_slices v a0); cbn [mbind outcome_bind obind]; reflexivity.
Qed.

(** X20. [_small_slices] after [GaussianReconstruction] holds positions in
    [voxel_num], the array with one entry for every slice that is not
    force-excluded: the positions whose entry is below a tenth of the median
    entry. Every one of them is below the number of those slices. *)
Theorem GaussianReconstruction_small_slices (st st' : Reconstruction) :
  GaussianReconstruction exp image_quotient st = Done st' ->
  exists reconstructed voxel_num median,
    distribute exp st = Done (reconstructed, voxel_num) /\
    length voxel_num = length (distributed_slices st) /\
    median_of voxel_num = Done median /\ median ∈ voxel_num /\
    (forall s, s ∈ _small_slices st' <->
       exists i n, s = Z.of_nat i /\ voxel_num !! i = Some n /\
                   (inject_Z n < 0.1 * inject_Z median)%Q) /\
    Forall (fun s => (0 <= s < Z.of_nat (length (distributed_slices st)))%Z)
      (_small_slices st').
Proof.
  unfold GaussianReconstruction. intros H.
  bind_inv H as d Hd. destruct d as [reconstructed voxel_num].
  bind_inv H as q Hq. bind_inv H as median Hm. bind_inv H as small Hs.
  inversion H; subst st'; clear H. cbn [_small_slices set_small_slices].
  pose proof (distribute_length st reconstructed voxel_num Hd) as Hl.
  exists reconstructed, voxel_num, median. split; [exact Hd|]. split; [exact Hl|].
  split; [exact Hm|].
  assert (Hin : median ∈ voxel_num).
  { unfold median_of, rdZ in Hm. destruct (decide (0 <= median_index _)%Z); [|discriminate].
    apply rd_Done in Hm. rewrite <- sorted_perm. eapply list_elem_of_lookup_2. exact Hm. }
  split; [exact Hin|].
  assert (Hchar : forall s, s ∈ small <->
            exists i n, s = Z.of_nat i /\ voxel_num !! i = Some n /\
                        (inject_Z n < 0.1 * inject_Z median)%Q).
  { unfold small_slices in Hs.
    pose (I := fun (pre : list nat) (small : list Z) => forall s, s ∈ small <->
                exists i n, i ∈ pre /\ s = Z.of_nat i /\ voxel_num !! i = Some n /\
                            (inject_Z n < 0.1 * inject_Z median)%Q).
    assert (Hfin : I (seq 0 (length voxel_num)) small).
    { apply (foldM_prefix_invariant I _ _ _ _ Hs); unfold I.
      - intros s. split; [intros H; inversion H|].
        intros (i & n & H & _). inversion H.
      - intros pre i post s1 s2 _ Hinv Hstep s. bind_inv Hstep as n Hn.
        apply rd_Done in Hn.
        destruct (Qltb (inject_Z n) (0.1 * inject_Z median)) eqn:Hc;
          inversion Hstep; subst s2; clear Hstep.
        + apply Qltb_lt in Hc. rewrite elem_of_app, Hinv, list_elem_of_singleton. split.
          * intros [(i' & n' & H1 & H2)| ->].
            -- exists i', n'. split; [apply elem_of_app; now left | exact H2].
            -- exists i, n. split; [apply elem_of_app; right; now left | tauto].
          * intros (i' & n' & H1 & H2 & H3 & H4). apply elem_of_app in H1 as [H1|H1].
            -- left. exists i', n'. tauto.
            -- apply list_elem_of_singleton in H1. subst i'. now right.
        + apply Qltb_ge in Hc. rewrite Hinv. split.
          * intros (i' & n' & H1 & H2). exists i', n'.
            split; [apply elem_of_app; now left | exact H2].
          * intros (i' & n' & H1 & H2 & H3 & H4). apply elem_of_app in H1 as [H1|H1].
            -- exists i', n'. tauto.
            -- apply list_elem_of_singleton in H1. subst i'.
               assert (n' = n) by congruence. subst n'. lra. }
    intros s. rewrite (Hfin s). split.
    - intros (i & n & _ & H1 & H2 & H3). eauto.
    - intros (i & n & H1 & H2 & H3). exists i, n. split; [|tauto].
      apply elem_of_seq. apply lookup_lt_Some in H2. lia. }
  split; [exact Hchar|].
  apply Forall_forall. intros s Hs'. apply Hchar in Hs' as (i & n & -> & Hi & _).
  apply lookup_lt_Some in Hi. lia.
Qed.

End GaussianProperties.

(** ** ComputeNCC of an image with itself *)

Lemma overlap_self_loop (threshold : Q) (l2 l1 : list Q) (acc : list (Q * Q)) :
  foldM (fun acc j =>
           a ← rd (l1 ++ l2) j;
           b ← (if Qltb threshold a then rd (l1 ++ l2) j else Done 0%Q);
           if Qltb threshold a && Qltb threshold b then Done (acc ++ [(a, b)])
           else Done acc)
        (seq (length l1) (length l2)) acc
  = Done (acc ++ map (fun v => (v, v)) (List.filter (Qltb threshold) l2)).
Proof.
  revert l1 acc. induction l2 as [|v l2 IH]; intros l1 acc.
  - cbn. now rewrite app_nil_r.
  - cbn [length seq foldM List.filter].
    assert (Hrd : rd (l1 ++ v :: l2) (length l1) = Done v)
      by (apply rd_Done, list_lookup_middle; reflexivity).
    rewrite Hrd. cbn [mbind outcome_bind obind].
    replace (l1 ++ v :: l2) with ((l1 ++ [v]) ++ l2) by (now rewrite <- app_assoc).
    replace (S (length l1)) with (length (l1 ++ [v])) by (rewrite length_app; cbn; lia).
    destruct (Qltb threshold v) eqn:Hc.
    + replace (rd ((l1 ++ [v]) ++ l2) (length l1)) with (Done v).
      2:{ symmetry. apply rd_Done. rewrite <- app_assoc. now apply list_lookup_middle. }
      cbn [mbind outcome_bind obind]. rewrite Hc. cbn [andb mbind outcome_bind obind].
      rewrite IH. cbn [map]. now rewrite <- app_assoc.
    + cbn [andb mbind outcome_bind obind]. apply IH.
Qed.

Lemma overlap_self (a : RealImage) (threshold : Q) :
  wf_image a ->
  overlap a a threshold = Done (map (fun v => (v, v)) (above threshold a)).
Proof.
  intros Hwf. unfold overlap, above. rewrite <- Hwf.
  exact (overlap_self_loop threshold (Data a) [] []).
Qed.

Lemma Qsum_nonneg (l : list Q) :
  Forall (fun x => (0 <= x)%Q) l ->
  (0 <= Qsum l)%Q /\ ((Qsum l == 0)%Q -> Forall (fun x => (x == 0)%Q) l).
Proof.
  induction 1 as [|x l Hx _ [IH0 IHz]].
  - split; [apply Qle_refl | constructor].
  - rewrite Qsum_cons. split; [lra|]. intros Hz.
    constructor; [lra|]. apply IHz. lra.
Qed.

Lemma square_nonneg (x : Q) : (0 <= x * x)%Q.
Proof. nra. Qed.

Lemma square_zero (x : Q) : (x * x == 0)%Q -> (x == 0)%Q.
Proof. intros H. nra. Qed.

Section SelfCorrelation.

Variable sqrt : Q -> Q.

(** [sqrt] is exact on squares. *)
Hypothesis sqrt_square : forall x, (0 <= x)%Q -> (sqrt (x * x) == x)%Q.

(** X21. [ComputeNCC] of an image with itself: -1 with fewer than 5 voxels
    above the threshold, and 1 with 5 or more of which two differ. *)
Theorem ComputeNCC_self (a : RealImage) (threshold : Q) :
  wf_image a ->
  exists r,
    ComputeNCC sqrt a a threshold = Done r /\
    ((length (above threshold a) < 5)%nat -> r = (-1)%Q) /\
    ((5 <= length (above threshold a))%nat ->
     (exists v w, v ∈ above threshold a /\ w ∈ above threshold a /\ ~ (v == w)%Q) ->
     (r == 1)%Q).
Proof using sqrt_square.
  intros Hwf. unfold ComputeNCC.
  change (overlap_2 a a threshold) with (overlap a a threshold).
  rewrite (overlap_self a threshold Hwf).
  cbn [mbind outcome_bind obind]. set (vals := above threshold a).
  rewrite length_map.
  set (pairs := map (fun v : Q => (v, v)) vals).
  assert (E1 : map fst pairs = vals)
    by (unfold pairs; rewrite map_map; cbn [fst]; apply map_id).
  assert (E2 : map snd pairs = vals)
    by (unfold pairs; rewrite map_map; cbn [snd]; apply map_id).
  rewrite E1, E2.
  set (n := inject_Z (Z.of_nat (length vals))).
  set (m := (Qsum vals / n)%Q).
  set (sq := map (fun x => ((x - m) * (x - m))%Q) vals).
  assert (E3 : map (fun '(a0, b) => ((a0 - m) * (b - m))%Q) pairs = sq)
    by (unfold pairs, sq; rewrite map_map; reflexivity).
  assert (E4 : map (fun '(a0, _) => ((a0 - m) * (a0 - m))%Q) pairs = sq)
    by (unfold pairs, sq; rewrite map_map; reflexivity).
  assert (E5 : map (fun '(_, b) => ((b - m) * (b - m))%Q) pairs = sq)
    by (unfold pairs, sq; rewrite map_map; reflexivity).
  cbv zeta. rewrite E3, E4, E5. unfold sq in *. clear E1 E2 E3 E4 E5 sq.
  set (S := Qsum (map (fun x => ((x - m) * (x - m))%Q) vals)).
  assert (Hsq : Forall (fun x => (0 <= x)%Q) (map (fun x => ((x - m) * (x - m))%Q) vals)).
  { apply Forall_forall. intros x Hx. apply list_elem_of_fmap in Hx as (v & -> & _).
    apply square_nonneg. }
  destruct (Qsum_nonneg _ Hsq) as [HS0 HSz]. fold S in HS0, HSz.
  rewrite orb_diag.
  destruct (Nat.ltb_spec (length vals) 5) as [Hlt|Hge].
  - exists (-1)%Q. split; [reflexivity|]. split; [reflexivity | lia].
  - assert (Hzero : (S == 0)%Q -> forall v, v ∈ vals -> (v == m)%Q).
    { intros Hz v Hv. specialize (HSz Hz).
      rewrite Forall_forall in HSz.
      assert (Hterm : ((v - m) * (v - m) == 0)%Q).
      { apply (HSz ((v - m) * (v - m))%Q). apply list_elem_of_fmap. eauto. }
      apply square_zero in Hterm. lra. }
    destruct (Qltb 0 (S * S)) eqn:Hc.
    + apply Qltb_lt in Hc. assert (HS : (0 < S)%Q) by nra.
      exists (S / sqrt (S * S))%Q. split; [reflexivity|]. split; [lia|]. intros _ _.
      rewrite (sqrt_square S HS0). field. lra.
    + apply Qltb_ge in Hc. assert (HS : (S == 0)%Q) by nra.
      exists 0%Q. split; [reflexivity|]. split; [lia|]. intros _.
      intros (v & w & Hv & Hw & Hne). exfalso. apply Hne.
      rewrite (Hzero HS v Hv), (Hzero HS w Hw). reflexivity.
Qed.

End SelfCorrelation.

(** ** InitializeEMValues on the arrays InitializeEM allocates *)

Lemma initial_weights_loop (f : Q -> Q) (s2 s1 d1 : list Q) :
  length d1 = length s1 ->
  foldM (fun d j => v ← rd (s1 ++ s2) j; wr d j (f v))
        (seq (length s1) (length s2)) (d1 ++ s2)
  = Done (d1 ++ map f s2).
Proof.
  revert s1 d1. induction s2 as [|v s2 IH]; intros s1 d1 Hl; [reflexivity|].
  cbn [length seq foldM].
  assert (Hrd : rd (s1 ++ v :: s2) (length s1) = Done v)
    by (apply rd_Done, list_lookup_middle; reflexivity).
  rewrite Hrd. cbn [mbind outcome_bind obind].
  rewrite wr_lt by (rewrite length_app; cbn; lia).
  cbn [mbind outcome_bind obind].
  replace (<[length s1:=f v]> (d1 ++ v :: s2)) with ((d1 ++ [f v]) ++ s2).
  - replace (s1 ++ v :: s2) with ((s1 ++ [v]) ++ s2) by (now rewrite <- app_assoc).
    replace (S (length s1)) with (length (s1 ++ [v])) by (rewrite length_app; cbn; lia).
    rewrite IH by (rewrite !length_app; cbn; lia).
    now rewrite <- app_assoc.
  - rewrite <- app_assoc. cbn.
    rewrite (insert_app_r_alt d1 (v :: s2) (length s1)) by lia.
    now rewrite Hl, Nat.sub_diag.
Qed.

Lemma initial_weights_wf (slice : RealImage) :
  wf_image slice -> initial_weights slice slice = Done (unit_weights slice).
Proof.
  intros Hwf. unfold initial_weights, unit_weights. rewrite <- Hwf.
  pose proof (initial_weights_loop initial_weight (Data slice) [] [] eq_refl) as H.
  cbn [length app] in H. unfold initial_weight in *. rewrite H. reflexivity.
Qed.

Lemma initial_bias_loop (l2 l1 : list Q) :
  foldM (fun d j => wr d j 0%Q) (seq (length l1) (length l2)) (l1 ++ l2)
  = Done (l1 ++ map (fun _ => 0%Q) l2).
Proof.
  revert l1. induction l2 as [|v l2 IH]; intros l1; [reflexivity|].
  cbn [length seq foldM].
  rewrite wr_lt by (rewrite length_app; cbn; lia).
  cbn [mbind outcome_bind obind].
  replace (<[length l1:=0%Q]> (l1 ++ v :: l2)) with ((l1 ++ [0%Q]) ++ l2).
  - replace (S (length l1)) with (length (l1 ++ [0%Q])) by (rewrite length_app; cbn; lia).
    rewrite IH, <- app_assoc. reflexivity.
  - rewrite <- app_assoc. cbn.
    rewrite (insert_app_r_alt l1 (v :: l2) (length l1)) by lia.
    now rewrite Nat.sub_diag.
Qed.

Lemma initial_bias_wf (slice : RealImage) :
  wf_image slice -> initial_bias slice slice = Done (zero_bias slice).
Proof.
  intros Hwf. unfold initial_bias, zero_bias. rewrite <- Hwf.
  pose proof (initial_bias_loop (Data slice) []) as H. cbn [length app] in H.
  rewrite H. reflexivity.
Qed.

Lemma map_ones {A : Type} (l : list A) :
  map (fun _ => 1%Q) l = replicate (length l) 1%Q.
Proof. induction l as [|a l IH]; cbn; [reflexivity | now rewrite IH]. Qed.

Lemma insert_replicate_same {A : Type} (n k : nat) (x : A) :
  <[k:=x]> (replicate n x) = replicate n x.
Proof.
  destruct (decide (k < n)%nat) as [Hk|Hk].
  - apply list_insert_id, lookup_replicate_2. exact Hk.
  - apply list_insert_ge. rewrite length_replicate. lia.
Qed.

Section InitializeEMValuesProperties.

Variables voxel_limits_min voxel_limits_max : Q.

(** X16. [InitializeEM] followed by [InitializeEMValues], on slices with one
    array entry per voxel, returns: no index leaves the arrays. The voxel
    weight is 1 where the slice value is greater than -0.01 and 0 elsewhere,
    the bias is 0 everywhere, every scale is 1, and the slice weight is 0
    for every force-excluded index except index 0, and 1 for every other
    slice; the slices are unchanged. *)
Theorem InitializeEMValues_after_InitializeEM (st : Reconstruction) :
  Forall wf_image (_slices st) ->
  exists st',
    InitializeEMValues (InitializeEM voxel_limits_min voxel_limits_max st) = Done st' /\
    _slices st' = _slices st /\
    _weights st' = unit_weights <$> _slices st /\
    _bias st' = zero_bias <$> _slices st /\
    _scale st' = replicate (length (_slices st)) 1%Q /\
    _slice_weight st' =
      (fun i => if force_excluded_positive st i then 0%Q else 1%Q)
        <$> seq 0 (length (_slices st)).
Proof.
  intros Hwf.
  set (st0 := InitializeEM voxel_limits_min voxel_limits_max st).
  set (n := length (_slices st)).
  assert (H0 : _slices st0 = _slices st /\ _force_excluded st0 = _force_excluded st /\
               _weights st0 = _slices st /\ _bias st0 = _slices st /\
               _scale st0 = replicate n 1%Q /\ _slice_weight st0 = replicate n 1%Q).
  { unfold st0, InitializeEM.
    destruct (fold_left _ _ _) as [mn mx]. cbn.
    repeat split; try reflexivity; apply map_ones. }
  destruct H0 as (Hs0 & Hf0 & Hw0 & Hb0 & Hsc0 & Hsw0).
  pose (I := fun (k : nat) (s : Reconstruction) =>
    _slices s = _slices st /\ _force_excluded s = _force_excluded st /\
    _scale s = replicate n 1%Q /\ _slice_weight s = replicate n 1%Q /\
    length (_weights s) = n /\ length (_bias s) = n /\
    (forall i, (i < k)%nat ->
       _weights s !! i = unit_weights <$> (_slices st !! i) /\
       _bias s !! i = zero_bias <$> (_slices st !! i)) /\
    (forall i, (k <= i)%nat ->
       _weights s !! i = _slices st !! i /\ _bias s !! i = _slices st !! i)).
  unfold InitializeEMValues. rewrite Hs0. fold n.
  match goal with |- context [foldM ?f _ _] => set (body := f) end.
  destruct (foldM_seq_total I body n st0) as (st1 & Hrun & HI).
  - unfold I. rewrite Hw0, Hb0. repeat split; try assumption; try reflexivity; lia.
  - intros k s1 Hk (Hs & Hf & Hsc & Hsw & Hlw & Hlb & Hlt & Hge).
    destruct (lookup_lt_is_Some_2 (_slices st) k Hk) as [slice Hslice].
    assert (Hwfs : wf_image slice) by (eapply Forall_lookup_1; eassumption).
    destruct (Hge k (le_n k)) as [Hwk Hbk]. rewrite Hslice in Hwk, Hbk.
    eexists. split.
    + unfold body. rewrite Hs.
      apply rd_Done in Hslice, Hwk, Hbk. rewrite Hslice, Hwk, Hbk.
      cbn [mbind outcome_bind obind].
      rewrite (initial_weights_wf slice Hwfs), (initial_bias_wf slice Hwfs).
      cbn [mbind outcome_bind obind].
      rewrite Hsw, Hsc, !wr_lt by (rewrite length_replicate; exact Hk).
      cbn [mbind outcome_bind obind]. rewrite insert_replicate_same. reflexivity.
    + unfold I. cbn. rewrite !length_insert.
      repeat split; try assumption.
      * destruct (decide (i = k)) as [->|Hne].
        -- rewrite list_lookup_insert_eq by lia. now rewrite Hslice.
        -- rewrite list_lookup_insert_ne by congruence. apply Hlt. lia.
      * destruct (decide (i = k)) as [->|Hne].
        -- rewrite list_lookup_insert_eq by lia. now rewrite Hslice.
        -- rewrite list_lookup_insert_ne by congruence. apply Hlt. lia.
      * rewrite list_lookup_insert_ne by lia. apply Hge. lia.
      * rewrite list_lookup_insert_ne by lia. apply Hge. lia.
  - destruct HI as (Hs & Hf & Hsc & Hsw & Hlw & Hlb & Hlt & _).
    rewrite Hrun. cbn [mbind outcome_bind obind].
    destruct (force_exclude_spec st1 0%Q (_slice_weight st1))
      as (sw & Hfe & Hlsw & Hin & Hout & _).
    { rewrite Hs, Hsw, length_replicate. fold n. lia. }
    rewrite Hfe. cbn [mbind outcome_bind obind].
    eexists. split; [reflexivity|]. cbn.
    rewrite Hs in Hin. rewrite Hf in Hin, Hout. fold n in Hin.
    rewrite Hsw, length_replicate in Hlsw.
    split; [exact Hs|]. split; [|split; [|split; [exact Hsc|]]].
    + apply list_eq. intros i. rewrite list_lookup_fmap.
      destruct (decide (i < n)%nat) as [Hi|Hi]; [now apply Hlt|].
      rewrite !lookup_ge_None_2; [reflexivity | fold n; lia | lia].
    + apply list_eq. intros i. rewrite list_lookup_fmap.
      destruct (decide (i < n)%nat) as [Hi|Hi]; [now apply Hlt|].
      rewrite !lookup_ge_None_2; [reflexivity | fold n; lia | lia].
    + apply list_eq. intros i. rewrite list_lookup_fmap.
      destruct (decide (i < n)%nat) as [Hi|Hi].
      * rewrite lookup_seq_lt by exact Hi. cbn.
        unfold force_excluded_positive. case_bool_decide as Hc.
        -- destruct Hc as [Hpos Hmem]. apply Hin; [lia | exact Hmem].
        -- rewrite Hout, Hsw.
           ++ apply lookup_replicate_2. exact Hi.
           ++ intros Hmem. destruct i; [reflexivity|]. exfalso. apply Hc. split; [lia | exact Hmem].
      * rewrite lookup_seq_ge by lia. cbn. apply lookup_ge_None_2. lia.
Qed.

End InitializeEMValuesProperties.

(** ** CropImageIgnoreZ *)

Lemma scan_down_past_spec (count : nat -> outcome nat) (n : nat) (r : Z) :
  scan_down count n = Done r ->
  scan_down_past count n = Done (if (r <? 0)%Z then r else (r + 1)%Z) /\
  (-1 <= r)%Z.
Proof.
  revert r. induction n as [|m IH]; intros r H.
  - cbn in *. inversion H; subst. split; [reflexivity | lia].
  - cbn [scan_down scan_down_past] in *. bind_inv H as s Hs. rewrite Hs.
    cbn [mbind outcome_bind obind]. destruct (0 <? s)%nat.
    + inversion H; subst. destruct (Z.ltb_spec (Z.of_nat m) 0); [lia|].
      split; [reflexivity | lia].
    + now apply IH.
Qed.

Lemma ascending_from_nat (from to : Z) :
  (0 <= from)%Z ->
  ascending_from from to = Z.of_nat <$> seq (Z.to_nat from) (Z.to_nat (to - from)).
Proof.
  intros H. unfold ascending_from.
  rewrite <- (Nat.add_0_r (Z.to_nat from)) at 1.
  rewrite <- (fmap_add_seq (Z.to_nat from) 0), <- list_fmap_compose.
  apply list_fmap_ext. intros _ d _. cbn. lia.
Qed.

Lemma plane_positions_nat (ys xs : list nat) (ks : list nat) :
  (k ← Z.of_nat <$> ks; j ← ys; i ← xs; [(i, j, k)])
  = (fun '(i, j, k) => (i, j, Z.of_nat k)) <$> (k ← ks; j ← ys; i ← xs; [(i, j, k)]).
Proof.
  induction ks as [|k ks IH]; [reflexivity|].
  cbn [fmap list_fmap mbind list_bind]. rewrite fmap_app. f_equal; [|exact IH].
  clear IH. induction ys as [|j ys IH]; [reflexivity|].
  cbn [mbind list_bind]. rewrite fmap_app. f_equal; [|exact IH].
  clear IH. induction xs as [|i xs IH]; [reflexivity|].
  cbn [mbind list_bind app fmap list_fmap]. f_equal. exact IH.
Qed.

(** The fill loop from a plane that is not negative, over positions in
    natural numbers. *)
Lemma fill_planes_nat (image : RealImage) (from to : Z) :
  (0 <= from)%Z ->
  fill_planes image from to
  = foldM (fun img '(x, y, z) => v ← Done 0%Q; Put img x y z v)
      (k ← seq (Z.to_nat from) (Z.to_nat (to - from)); j ← seq 0 (GetY image);
       i ← seq 0 (GetX image); [(i, j, k)])
      image.
Proof.
  intros H. unfold fill_planes.
  rewrite (ascending_from_nat from to H), plane_positions_nat, foldM_fmap.
  apply foldM_ext. intros img [[i j] k] _. unfold PutZ.
  rewrite decide_True by lia. now rewrite Nat2Z.id.
Qed.

Lemma elem_of_planes (image : RealImage) (a n i j k : nat) :
  (i, j, k) ∈ (k ← seq a n; j ← seq 0 (GetY image); i ← seq 0 (GetX image); [(i, j, k)])
  <-> (i < GetX image /\ j < GetY image /\ a <= k < a + n)%nat.
Proof.
  rewrite list_elem_of_bind. split.
  - intros (k' & H & Hk). apply list_elem_of_bind in H as (j' & H & Hj).
    apply list_elem_of_bind in H as (i' & H & Hi).
    apply list_elem_of_singleton in H. inversion H; subst.
    apply elem_of_seq in Hi, Hj, Hk. lia.
  - intros (Hi & Hj & Hk). exists k. split; [|apply elem_of_seq; lia].
    apply list_elem_of_bind. exists j. split; [|apply elem_of_seq; lia].
    apply list_elem_of_bind. exists i. split; [|apply elem_of_seq; lia].
    now apply list_elem_of_singleton.
Qed.

(** The fill loop within the image returns; it sets the planes
    [from .. to - 1] to 0 and keeps the others. *)
Lemma fill_planes_spec (image : RealImage) (from to : Z) :
  wf_image image -> (0 <= from)%Z -> (to <= Z.of_nat (GetZ image))%Z ->
  exists image',
    fill_planes image from to = Done image' /\
    wf_image image' /\ Attributes image' = Attributes image /\
    forall i j k, in_image image i j k ->
      Get image' i j k
      = if decide (from <= Z.of_nat k < to)%Z then Done 0%Q else Get image i j k.
Proof.
  intros Hwf Hfrom Hto. rewrite (fill_planes_nat image from to Hfrom).
  set (ps := k ← seq (Z.to_nat from) (Z.to_nat (to - from)); j ← seq 0 (GetY image);
             i ← seq 0 (GetX image); [(i, j, k)]).
  assert (Hps : forall i j k, (i, j, k) ∈ ps <->
            (i < GetX image /\ j < GetY image)%nat /\ (from <= Z.of_nat k < to)%Z).
  { intros i j k. unfold ps. rewrite elem_of_planes. lia. }
  destruct (foldM_put_total (fun _ _ _ => Done 0%Q) ps image Hwf)
    as (image' & Hrun & Hwf' & Hattr).
  { intros x y z Hin. apply Hps in Hin. split; [unfold in_image; lia | eauto]. }
  exists image'. split; [exact Hrun|]. split; [exact Hwf'|]. split; [exact Hattr|].
  destruct (foldM_put_positions _ _ _ _ Hrun) as (_ & Hin & Hout).
  intros i j k (Hi & Hj & Hk). case_decide as Hc.
  - destruct (Hin i j k) as (v & Hv & Hg); [apply Hps; lia|].
    inversion Hv; subst. exact Hg.
  - apply Hout. rewrite Hps. lia.
Qed.

Lemma fill_planes_none (image : RealImage) (from to : Z) :
  (to <= from)%Z -> fill_planes image from to = Done image.
Proof.
  intros H. unfold fill_planes, ascending_from.
  replace (Z.to_nat (to - from)) with 0%nat by lia. reflexivity.
Qed.

(** The counts of the planes of the mask return under [mask_over]. *)
Lemma count_z_spec (image mask : RealImage) (k : nat) :
  mask_over image mask -> (k < GetZ image)%nat ->
  exists s, count_positive mask (positions_z image k) = Done s /\
            ((0 < s)%nat <-> exists i j, in_mask image mask i j k).
Proof.
  intros [Hwf Hover] Hk.
  destruct (count_positive_spec mask (positions_z image k) Hwf) as (s & Hs & Hiff).
  { intros i j k' H. apply elem_of_positions_z in H as [[Hi Hj] ->].
    apply Hover. unfold in_image. lia. }
  exists s. split; [exact Hs|]. rewrite Hiff. unfold in_mask. split.
  - intros (i & j & k' & v & H & Hv & Hv0).
    apply elem_of_positions_z in H as [[Hi Hj] ->]. exists i, j.
    split; [unfold in_image; lia | eauto].
  - intros (i & j & (Hi & Hj & _) & v & Hv & Hv0). exists i, j, k, v.
    split; [apply elem_of_positions_z; lia | tauto].
Qed.

Lemma positions_same_dims (a b : RealImage) :
  Attributes a = Attributes b ->
  positions_y a = positions_y b /\ positions_x a = positions_x b /\
  GetX a = GetX b /\ GetY a = GetY b /\ GetZ a = GetZ b.
Proof.
  intros H. injection H as Hx Hy Hz _.
  unfold positions_y, positions_x. rewrite Hx, Hy, Hz. auto.
Qed.

Section CroppingIgnoreZProperties.

Variable GetRegion : RealImage -> Z -> Z -> Z -> Z -> Z -> Z -> outcome RealImage.

(** X22. With a mask that has no voxel above 0, the upper boundary stays at
    -1 and the loop "Filling upper part" of [CropImageIgnoreZ] starts at
    plane -1: the first [Put] lies outside the image. *)
Theorem CropImageIgnoreZ_empty_mask (image mask : RealImage) :
  mask_over image mask ->
  (0 < GetX image)%nat -> (0 < GetY image)%nat ->
  (forall i j k, ~ in_mask image mask i j k) ->
  CropImageIgnoreZ GetRegion image mask = Undefined.
Proof.
  intros Hover Hx Hy Hnone.
  set (count_z := fun k => count_positive mask (positions_z image k)).
  set (Pz := fun k => exists i j, in_mask image mask i j k).
  assert (Hcz : forall k, (k < GetZ image)%nat ->
            exists s, count_z k = Done s /\ ((0 < s)%nat <-> Pz k))
    by (intros k Hk; now apply count_z_spec).
  destruct (scan_down_spec count_z Pz (GetZ image) Hcz) as (r & Hr & Hb & _ & Hat).
  assert (Hr1 : r = (-1)%Z).
  { destruct (Z_lt_le_dec r 0) as [H|H]; [lia|].
    destruct (Hat H) as (i & j & Hm). now apply Hnone in Hm. }
  subst r. destruct (scan_down_past_spec count_z (GetZ image) _ Hr) as [Hz2 _].
  destruct (scan_up_spec count_z Pz (GetZ image) 0) as (z1 & Hz1 & _);
    [intros; apply Hcz; lia|].
  unfold CropImageIgnoreZ. fold count_z. cbv zeta. rewrite Hz2, Hz1.
  cbn [mbind outcome_bind obind Z.ltb Z.compare].
  assert (Hfill : fill_planes image (-1) (Z.of_nat (GetZ image)) = Undefined).
  { unfold fill_planes, ascending_from.
    replace (Z.to_nat (Z.of_nat (GetZ image) - -1)) with (S (GetZ image)) by lia.
    destruct (GetY image) as [|ny]; [lia|]. destruct (GetX image) as [|nx]; [lia|].
    reflexivity. }
  now rewrite Hfill.
Qed.

(** X23. An image of a single plane, under a mask with a voxel above 0, fails
    the test of [CropImageIgnoreZ], whose [z1] and [z2] are both 0: whatever
    the mask, the image is cropped to the region from [(0, 0, 0)] to
    [(1, 1, 1)], its first voxel. *)
Theorem CropImageIgnoreZ_single_plane (image mask : RealImage) :
  wf_image image -> mask_over image mask -> GetZ image = 1%nat ->
  (exists i j k, in_mask image mask i j k) ->
  CropImageIgnoreZ GetRegion image mask = GetRegion image 0 0 0 1 1 1.
Proof.
  intros Hwf Hover Hz (i0 & j0 & k0 & Hm).
  assert (Hk0 : k0 = 0%nat) by (destruct Hm as [(_ & _ & Hk) _]; lia). subst k0.
  destruct (mask_bounds_spec image mask Hover)
    as (x1 & y1 & z1 & x2 & y2 & z2 & Hb & Hr & Hin & _).
  destruct (Hin _ _ _ Hm) as (_ & _ & Hzr). rewrite Hz in Hr.
  assert (z1 = 0%Z) by lia. assert (z2 = 0%Z) by lia. subst z1 z2.
  unfold mask_bounds in Hb. cbv zeta in Hb.
  bind_inv Hb as z2 Hz2. bind_inv Hb as z1 Hz1. bind_inv Hb as y2' Hy2.
  bind_inv Hb as y1' Hy1. bind_inv Hb as x2' Hx2. bind_inv Hb as x1' Hx1.
  inversion Hb; subst; clear Hb.
  destruct (scan_down_past_spec _ _ _ Hz2) as [Hpast _].
  unfold CropImageIgnoreZ. cbv zeta. rewrite Hpast, Hz1.
  cbn [mbind outcome_bind obind Z.ltb Z.compare Z.add Pos.add].
  rewrite Hz. rewrite fill_planes_none by (cbn; lia).
  cbn beta iota delta [mbind outcome_bind obind].
  rewrite fill_planes_none by (cbn; lia).
  cbn beta iota delta [mbind outcome_bind obind]. rewrite Hy2, Hy1, Hx2, Hx1.
  cbn [mbind outcome_bind obind]. rewrite Hz. unfold crop_box.
  change (Z.of_nat 1 - 1 <=? 0)%Z with true. rewrite !orb_true_r. reflexivity.
Qed.

(** X24. On an image of two planes or more, with the boundaries
    [x1 < x2], [y1 < y2] of a mask that has a voxel above 0 in the planes
    [z1 .. z2], [CropImageIgnoreZ] cuts the region of the columns
    [x1 .. x2] and rows [y1 .. y2] over all planes, out of the image with
    the planes below [z1] and above [z2] set to 0. *)
Theorem CropImageIgnoreZ_keeps_planes (image mask : RealImage)
    (x1 y1 z1 x2 y2 z2 : Z) :
  wf_image image -> mask_over image mask -> (2 <= GetZ image)%nat ->
  mask_bounds image mask = Done (x1, y1, z1, x2, y2, z2) ->
  (x1 < x2)%Z -> (y1 < y2)%Z ->
  exists filled,
    CropImageIgnoreZ GetRegion image mask
    = GetRegion filled x1 y1 0 (x2 + 1) (y2 + 1) (Z.of_nat (GetZ image)) /\
    Attributes filled = Attributes image /\
    forall i j k, in_image image i j k ->
      Get filled i j k = Done (within_planes z1 z2 image i j k).
Proof.
  intros Hwf Hover Hz Hb Hx Hy.
  destruct (mask_bounds_spec image mask Hover)
    as (x1' & y1' & z1' & x2' & y2' & z2' & Hb' & Hr & _ & _ & Ax2 & _).
  rewrite Hb in Hb'. inversion Hb'; subst x1' y1' z1' x2' y2' z2'; clear Hb'.
  assert (Hz2 : (0 <= z2)%Z).
  { destruct (Ax2 ltac:(lia)) as (j & k & Hm).
    destruct (mask_bounds_spec image mask Hover)
      as (? & ? & ? & ? & ? & ? & Hb' & _ & Hin & _).
    rewrite Hb in Hb'. inversion Hb'; subst. destruct (Hin _ _ _ Hm). lia. }
  unfold mask_bounds in Hb. cbv zeta in Hb.
  bind_inv Hb as z2' Hz2'. bind_inv Hb as z1' Hz1'. bind_inv Hb as y2' Hy2.
  bind_inv Hb as y1' Hy1. bind_inv Hb as x2' Hx2. bind_inv Hb as x1' Hx1.
  inversion Hb; subst; clear Hb.
  destruct (scan_down_past_spec _ _ _ Hz2') as [Hpast _].
  destruct (Z.ltb_spec z2 0) as [?|_]; [lia|].
  destruct (fill_planes_spec image (z2 + 1) (Z.of_nat (GetZ image)) Hwf)
    as (upper & Hup & Hwfu & Hau & Hgu); [lia | lia |].
  destruct (positions_same_dims upper image Hau) as (_ & _ & Hux & Huy & Huz).
  destruct (fill_planes_spec upper 0 z1 Hwfu) as (filled & Hlo & Hwff & Haf & Hgf);
    [lia | lia |].
  assert (Hattr : Attributes filled = Attributes image) by congruence.
  destruct (positions_same_dims filled image Hattr) as (Hpy & Hpx & Hfx & Hfy & Hfz).
  exists filled. split; [|split; [exact Hattr|]].
  - unfold CropImageIgnoreZ. cbv zeta. rewrite Hpast, Hz1'.
    cbn [mbind outcome_bind obind]. rewrite Hup. cbn [mbind outcome_bind obind].
    rewrite Hlo. cbn beta iota delta [mbind outcome_bind obind].
    rewrite Hpy, Hpx, Hfx, Hfy, Hfz, Hy2, Hy1, Hx2, Hx1.
    cbn [mbind outcome_bind obind]. unfold crop_box.
    destruct (Z.leb_spec x2 x1); [lia|]. destruct (Z.leb_spec y2 y1); [lia|].
    destruct (Z.leb_spec (Z.of_nat (GetZ image) - 1) 0); [lia|].
    cbn [orb]. f_equal. lia.
  - intros i j k Hin.
    assert (Hinu : in_image upper i j k) by (unfold in_image in *; lia).
    rewrite (Hgf i j k Hinu), (Hgu i j k Hin). unfold within_planes.
    destruct Hin as (_ & _ & Hk).
    repeat case_decide; try reflexivity; try lia.
    apply Get_voxel; [exact Hwf | unfold in_image in *; lia].
Qed.

End CroppingIgnoreZProperties.

(** ** Superresolution: the bounds after the whole step *)








Section RegularisationProperties.

Variable exp : Q -> Q.

(** On arguments that are not positive, [exp] lies in [0, 1]. *)
Hypothesis exp_nonpos : forall x, (x <= 0)%Q -> (0 <= exp x <= 1)%Q.





End RegularisationProperties.


Section SuperresolutionSteps.

Variables exp log : Q -> Q.
Variable ParallelSuperresolution : Reconstruction -> RealImage * RealImage.
Variable GaussianBlurring : Q -> RealImage -> RealImage.

Hypothesis exp_nonpos : forall x, (x <= 0)%Q -> (0 <= exp x <= 1)%Q.



End SuperresolutionSteps.

Import Examples Cases.

(** ** The further properties on example objects *)

Lemma wf_small_stack : wf_image small_stack.
Proof. reflexivity. Qed.

Lemma two_stacks_wf : Forall wf_image [small_stack; pixel_slice 2].
Proof. repeat constructor. Qed.

Lemma two_stacks_positive : Forall has_positive_voxel [small_stack; pixel_slice 2].
Proof.
  repeat constructor.
  - exists 1%nat, 0%nat, 0%nat, 1%Q. split; reflexivity.
  - exists 0%nat, 0%nat, 0%nat, 2%Q. split; reflexivity.
Qed.

Lemma dark_stack_no_positive (i j k : nat) (v : Q) :
  Get dark_stack i j k = Done v -> (v <= 0)%Q.
Proof.
  unfold Get. case_decide as Hin; [|discriminate].
  destruct Hin as (Hi & Hj & Hk). cbn in Hi, Hj, Hk.
  assert (i = 0%nat) by lia. assert (j = 0%nat) by lia. assert (k = 0%nat) by lia.
  subst. cbn. intros H. inversion H. apply Qle_refl.
Qed.

Lemma mask_over_same_grid (image mask : RealImage) :
  wf_image mask -> GetX image = GetX mask -> GetY image = GetY mask ->
  GetZ image = GetZ mask -> mask_over image mask.
Proof.
  intros Hwf Hx Hy Hz. split; [exact Hwf|].
  unfold in_image. intros i j k. rewrite Hx, Hy, Hz. tauto.
Qed.

Lemma column_mask_thin (i j k : nat) :
  in_mask small_stack column_mask i j k -> i = 1%nat.
Proof.
  intros [(Hi & Hj & Hk) (v & Hv & Hp)]. cbn in Hi, Hj, Hk.
  destruct i as [|[|i]]; [|reflexivity|lia]. exfalso.
  destruct j as [|j]; [|lia].
  destruct k as [|[|k]]; [| |lia]; vm_compute in Hv; inversion Hv; subst v;
    vm_compute in Hp; discriminate.
Qed.

Lemma no_mask_none (i j k : nat) : ~ in_mask small_stack no_mask i j k.
Proof.
  intros [(Hi & Hj & Hk) (v & Hv & Hp)]. cbn in Hi, Hj, Hk.
  destruct j as [|j]; [|lia].
  destruct i as [|[|i]]; [| |lia]; (destruct k as [|[|k]]; [| |lia]);
    vm_compute in Hv; inversion Hv; subst v; vm_compute in Hp; discriminate.
Qed.

Lemma bell_nonneg (x s : Q) : (0 <= bell x s)%Q.
Proof.
  unfold bell. pose proof (square_nonneg x) as Hx.
  apply Qle_shift_div_l; lra.
Qed.

Lemma unit_weights_two_slices (i : nat) (w : Q) :
  _slice_weight two_slices !! i = Some w -> (0 <= w <= 1)%Q.
Proof.
  destruct i as [|[|i]]; cbn; intros H; inversion H; subst; lra.
Qed.

Lemma sqrt_floor_square (x : Q) : (0 <= x)%Q -> (sqrt_floor (x * x) == x)%Q.
Proof.
  destruct x as [a b]. intros Hx.
  assert (Ha : (0 <= a)%Z) by (unfold Qle in Hx; cbn in Hx; lia).
  unfold sqrt_floor. cbn [Qmult Qnum Qden].
  replace (a * a * Z.pos (b * b))%Z with ((a * Z.pos b) * (a * Z.pos b))%Z
    by (rewrite Pos2Z.inj_mul; ring).
  rewrite Z.sqrt_square by lia.
  rewrite Pos2Z.inj_mul, !inject_Z_mult.
  rewrite (Qmake_Qdiv a b). field.
  intros H. apply (Qeq_eq_bool) in H. discriminate.
Qed.

Lemma all_excluded_every (inputIndex : nat) :
  (inputIndex < length (_slices all_excluded))%nat ->
  excluded all_excluded inputIndex = true.
Proof. destruct inputIndex as [|[|i]]; cbn; [reflexivity | reflexivity | lia]. Qed.

Lemma matched_by_2 (inputIndex : nat) (original : RealImage) :
  originals !! inputIndex = Some original ->
  exists (stack : Z) (factor : Q),
    [0; 0]%Z !! inputIndex = Some stack /\ (0 <= stack)%Z /\
    [2%Q] !! Z.to_nat stack = Some factor /\ (0 < factor)%Q /\
    _slices matched !! inputIndex
    = Some (with_Data original (map (rescaled factor) (Data original))).
Proof.
  destruct inputIndex as [|[|i]]; cbn; intros H; inversion H; subst;
    exists 0%Z, 2%Q; repeat split; reflexivity || lia.
Qed.

(** X1 on an example. [small_stack]: the voxels 1 and 4 are kept. *)
Lemma CreateMask_binary_witness :
  wf_image small_stack /\
  exists mask,
    CreateMask small_stack = Done mask /\
    Data mask = [0; 1; 0; 1]%Q /\ CreateMask mask = Done mask.
Proof.
  split; [exact wf_small_stack|].
  destruct (CreateMask_binary small_stack wf_small_stack)
    as (mask & Hrun & _ & _ & _ & Hagain).
  exists mask. split; [exact Hrun|]. split; [|exact Hagain].
  vm_compute in Hrun. inversion Hrun. reflexivity.
Defined.

(** X2 on an example. The mask of [small_stack] at the threshold 1/2 has the voxel of the
    maximum 4. *)
Lemma ThresholdNormalisedMask_keeps_maximum_witness :
  wf_image small_stack /\ (0 <= 0.5 < 1)%Q /\ (0 < image_max small_stack)%Q /\
  exists mask,
    ThresholdNormalisedMask small_stack 0.5 = Done mask /\
    exists i, Data mask !! i = Some 1%Q.
Proof.
  assert (H1 : (0 <= 0.5 < 1)%Q) by (split; [discriminate | reflexivity]).
  assert (H2 : (0 < image_max small_stack)%Q) by reflexivity.
  split; [exact wf_small_stack|]. split; [exact H1|]. split; [exact H2|].
  destruct (ThresholdNormalisedMask_keeps_maximum small_stack 0.5 wf_small_stack H1 H2)
    as (mask & Hrun & _ & _ & _ & Hone).
  exists mask. split; [exact Hrun | exact Hone].
Defined.

(** X3 on an example. [small_stack] rescaled to the maximum 100. *)
Lemma Rescale_maximum_witness :
  wf_image small_stack /\ (0 < image_max small_stack)%Q /\ (0 <= 100)%Q /\
  exists img',
    Rescale small_stack 100 = Done img' /\
    (forall i v, Data img' !! i = Some v -> (v <= 100)%Q) /\
    exists i v, Data img' !! i = Some v /\ (v == 100)%Q.
Proof.
  assert (H1 : (0 < image_max small_stack)%Q) by reflexivity.
  assert (H2 : (0 <= 100)%Q) by discriminate.
  split; [exact wf_small_stack|]. split; [exact H1|]. split; [exact H2|].
  destruct (Rescale_maximum small_stack 100 wf_small_stack H1 H2)
    as (img' & Hrun & _ & Hle & Hmax & _).
  exists img'. split; [exact Hrun|]. split; [exact Hle | exact Hmax].
Defined.

(** X4 on an example. [MaskVolume] on the volume of one voxel inside the mask. *)
Lemma MaskVolume_pads_witness :
  wf_image (_reconstructed two_slices) /\
  exists st', MaskVolume two_slices = Done st' /\ MaskVolume st' = Done st'.
Proof.
  assert (H1 : wf_image (_reconstructed two_slices)) by reflexivity.
  split; [exact H1|].
  destruct (MaskVolume_pads two_slices H1) as [_ Hdone].
  destruct Hdone as (st' & Hrun & _ & _ & _ & Hagain); [cbn; lia|].
  exists st'. split; [exact Hrun | exact Hagain].
Defined.

(** X5 on an example. [MaskImage] ends the run for a stack of four voxels under the mask of
    one voxel. *)
Lemma MaskImage_checks_size_witness :
  wf_image small_stack /\ wf_image (_mask two_slices) /\
  MaskImage two_slices small_stack 0 = Exited 1.
Proof.
  assert (H1 : wf_image (_mask two_slices)) by reflexivity.
  split; [exact wf_small_stack|]. split; [exact H1|].
  destruct (MaskImage_checks_size two_slices small_stack 0 wf_small_stack H1)
    as [Hexit _].
  apply Hexit. cbn. lia.
Defined.

(** X6 on an example. The second of two stacks has no positive voxel. *)
Lemma MatchStackIntensities_no_overlap_witness :
  MatchStackIntensities unit [small_stack; dark_stack] [tt; tt] 700 false = Exited 1.
Proof.
  apply (MatchStackIntensities_no_overlap [small_stack; dark_stack] [tt; tt] 700 false
           1 dark_stack).
  - repeat constructor.
  - cbn. lia.
  - reflexivity.
  - exact dark_stack_no_positive.
Defined.

(** X7 on an example. Two stacks matched separately to the average 700. *)
Lemma MatchStackIntensities_separately_witness :
  exists r,
    MatchStackIntensities unit [small_stack; pixel_slice 2] [tt; tt] 700 false = Done r /\
    _average_value r = 700%Q /\
    length (_stack_factor r) = 2%nat.
Proof.
  destruct (MatchStackIntensities_separately [small_stack; pixel_slice 2] [tt; tt] 700)
    as (r & Hrun & Hav & _ & Hlen & _).
  - exact two_stacks_wf.
  - cbn. lia.
  - exact two_stacks_positive.
  - reflexivity.
  - exists r. split; [exact Hrun|]. split; [exact Hav | exact Hlen].
Defined.

(** X8 on an example. Two stacks matched together to the average 700. *)
Lemma MatchStackIntensities_together_witness :
  exists r factor,
    MatchStackIntensities unit [small_stack; pixel_slice 2] [tt; tt] 700 true = Done r /\
    (0 < factor)%Q /\ _stack_factor r = [factor; factor].
Proof.
  destruct (MatchStackIntensities_together [small_stack; pixel_slice 2] [tt; tt] 700)
    as (r & factor & Hrun & Hpos & Hfac & _).
  - exact two_stacks_wf.
  - cbn. lia.
  - exact two_stacks_positive.
  - discriminate.
  - reflexivity.
  - exists r, factor. split; [exact Hrun|]. split; [exact Hpos | exact Hfac].
Defined.

(** X9 on an example. The slices matched with the factor 2 are restored. *)
Lemma RestoreSliceIntensities_restores_witness :
  exists st',
    RestoreSliceIntensities [2%Q] [0; 0]%Z matched = Done st' /\
    length (_slices st') = 2%nat.
Proof.
  destruct (RestoreSliceIntensities_restores [2%Q] [0; 0]%Z matched originals)
    as (st' & Hrun & _ & Hlen & _).
  - repeat constructor.
  - reflexivity.
  - exact matched_by_2.
  - exists st'. split; [exact Hrun | exact Hlen].
Defined.

(** X10 on an example. [small_stack] split into its two planes. *)
Lemma SplitImage_partition_witness :
  exists stacks,
    SplitImage small_stack 2 = Done stacks /\ length stacks = 2%nat.
Proof.
  destruct (SplitImage_partition small_stack 2 wf_small_stack)
    as (stacks & Hrun & Hlen & _).
  - cbn. lia.
  - exists stacks. split; [exact Hrun | exact Hlen].
Defined.

(** X11 on an example. [small_stack] split into the even and the odd plane. *)
Lemma SplitImageEvenOdd_packages_witness :
  exists stacks split,
    SplitImageEvenOdd small_stack 1 = Done stacks /\
    SplitImage small_stack 2 = Done split /\
    length stacks = 2%nat.
Proof.
  destruct (SplitImageEvenOdd_packages small_stack 1 wf_small_stack)
    as (stacks & split & Hrun & Hsplit & Hlen & _).
  - lia.
  - cbn. lia.
  - exists stacks, split. split; [exact Hrun|]. split; [exact Hsplit | exact Hlen].
Defined.

(** X12 on an example. A stack of 12 slices in 4 packages, default interleaved, and a stack of
    4 slices in 2 packages, ascending. *)
Lemma GetSliceAcquisitionOrder_permutations_witness :
  SliceOrder.GetSliceAcquisitionOrder fresh
    [image 1 1 12 []; image 1 1 4 []] [4; 2]%Z [3; 1]%Z 2 1 = Done after_ordering /\
  exists orders : list (list Z * list Z),
    _z_slice_order after_ordering = _z_slice_order fresh ++ concat (fst <$> orders) /\
    Forall2 (fun stack o => slice_order (GetZ stack) (fst o) (snd o))
      [image 1 1 12 []; image 1 1 4 []] orders.
Proof.
  assert (H1 : SliceOrder.GetSliceAcquisitionOrder fresh
                 [image 1 1 12 []; image 1 1 4 []] [4; 2]%Z [3; 1]%Z 2 1
               = Done after_ordering) by (vm_compute; reflexivity).
  split; [exact H1|].
  destruct (GetSliceAcquisitionOrder_permutations fresh after_ordering
              [image 1 1 12 []; image 1 1 4 []] [4; 2]%Z [3; 1]%Z 2 1 H1)
    as (orders & Hz & _ & Hall & _).
  exists orders. split; [exact Hz | exact Hall].
Defined.

(** X13 on an example. The mask with two opposite corners of the cube keeps the whole cube. *)
Lemma CropImage_bounding_box_witness :
  mask_over cube diagonal_mask /\
  CropImage region cube diagonal_mask = region cube 0 0 0 2 2 2.
Proof.
  assert (H1 : mask_over cube diagonal_mask)
    by (apply mask_over_same_grid; reflexivity).
  split; [exact H1|].
  destruct (CropImage_bounding_box region cube diagonal_mask H1)
    as (x1 & y1 & z1 & x2 & y2 & z2 & Hb & Hbox).
  vm_compute in Hb. inversion Hb; subst.
  destruct Hbox as [Hcrop _]; [lia | lia | lia |]. exact Hcrop.
Defined.

(** X14 on an example. A mask within column 1 leaves one voxel. *)
Lemma CropImage_thin_mask_witness :
  mask_over small_stack column_mask /\
  CropImage region small_stack column_mask = region small_stack 0 0 0 1 1 1.
Proof.
  assert (H1 : mask_over small_stack column_mask)
    by (apply mask_over_same_grid; reflexivity).
  split; [exact H1|].
  apply (CropImage_thin_mask region small_stack column_mask 1 H1).
  left. exact column_mask_thin.
Defined.

(** X17 on an example. [EStep] on the two slices with the potential 1/2. *)
Lemma EStep_unit_interval_witness :
  exists st',
    EStep bell potential_half two_slices = Done st' /\
    (0 <= _mix_s st' <= 1)%Q.
Proof.
  destruct (EStep_unit_interval bell potential_half bell_nonneg two_slices)
    as (st' & Hrun & _ & Hmix).
  - exact em_arrays_ok_two_slices.
  - split; [discriminate | discriminate].
  - exact unit_weights_two_slices.
  - exists st'. split; [exact Hrun | exact Hmix].
Defined.

(** X18 on an example. With both slices force-excluded [voxel_num] is empty. *)
Lemma GaussianReconstruction_no_slice_witness :
  GaussianReconstruction exp_poly quotient all_excluded = Undefined.
Proof.
  apply (GaussianReconstruction_no_slice exp_poly quotient all_excluded
           (image 1 1 1 [0 / 1]%Q)).
  - exact all_excluded_every.
  - reflexivity.
Defined.

(** X19 on an example. The data of the excluded slice 1 do not enter the reconstruction. *)
Lemma GaussianReconstruction_ignores_excluded_witness :
  GaussianReconstruction exp_poly quotient
    (with_slice 1 small_stack small_stack 7 [] excluding_1)
  = st' ← GaussianReconstruction exp_poly quotient excluding_1;
    Done (with_slice 1 small_stack small_stack 7 [] st').
Proof.
  apply (GaussianReconstruction_ignores_excluded exp_poly quotient excluding_1 1
           small_stack small_stack 7 []).
  reflexivity.
Defined.

(** X20 on an example. The reconstruction from the two slices. *)
Lemma GaussianReconstruction_small_slices_witness :
  GaussianReconstruction exp_poly quotient with_coefficients = Done after_gaussian /\
  exists voxel_num median,
    length voxel_num = 2%nat /\ median_of voxel_num = Done median /\
    median ∈ voxel_num.
Proof.
  assert (H1 : GaussianReconstruction exp_poly quotient with_coefficients
               = Done after_gaussian) by (vm_compute; reflexivity).
  split; [exact H1|].
  destruct (GaussianReconstruction_small_slices exp_poly quotient with_coefficients
              after_gaussian H1)
    as (reconstructed & voxel_num & median & _ & Hlen & Hmed & Hin & _).
  exists voxel_num, median. split; [exact Hlen|]. split; [exact Hmed | exact Hin].
Defined.

(** X21 on an example. The correlation of the ramp 1..5 with itself. *)
Lemma ComputeNCC_self_witness :
  wf_image ramp /\
  exists r, ComputeNCC sqrt_floor ramp ramp 0 = Done r /\ (r == 1)%Q.
Proof.
  assert (H1 : wf_image ramp) by reflexivity.
  split; [exact H1|].
  destruct (ComputeNCC_self sqrt_floor sqrt_floor_square ramp 0 H1)
    as (r & Hrun & _ & Hge).
  exists r. split; [exact Hrun|].
  assert (Hvals : above 0 ramp = [1; 2; 3; 4; 5]%Q) by reflexivity.
  apply Hge; rewrite Hvals; [cbn; lia|].
  exists 1%Q, 2%Q. split; [|split; [|discriminate]].
  - repeat constructor.
  - repeat constructor.
Defined.

(** X16 on an example. The EM arrays of the two slices, slice 1 force-excluded. *)
Lemma InitializeEMValues_after_InitializeEM_witness :
  exists st',
    InitializeEMValues (InitializeEM (- DBL_MAX) DBL_MAX excluding_1) = Done st' /\
    _slice_weight st' = [1; 0]%Q.
Proof.
  destruct (InitializeEMValues_after_InitializeEM (- DBL_MAX) DBL_MAX excluding_1)
    as (st' & Hrun & _ & _ & _ & _ & Hsw).
  - repeat constructor.
  - exists st'. split; [exact Hrun | exact Hsw].
Defined.

(** X22 on an example. [small_stack] under a mask of zeros. *)
Lemma CropImageIgnoreZ_empty_mask_witness :
  mask_over small_stack no_mask /\
  CropImageIgnoreZ region small_stack no_mask = Undefined.
Proof.
  assert (H1 : mask_over small_stack no_mask)
    by (apply mask_over_same_grid; reflexivity).
  split; [exact H1|].
  apply (CropImageIgnoreZ_empty_mask region small_stack no_mask H1).
  - cbn. lia.
  - cbn. lia.
  - exact no_mask_none.
Defined.

(** X23 on an example. An image of one plane with a mask at two corners. *)
Lemma CropImageIgnoreZ_single_plane_witness :
  wf_image plane /\ mask_over plane plane_mask /\
  CropImageIgnoreZ region plane plane_mask = region plane 0 0 0 1 1 1.
Proof.
  assert (H1 : wf_image plane) by reflexivity.
  assert (H2 : mask_over plane plane_mask)
    by (apply mask_over_same_grid; reflexivity).
  split; [exact H1|]. split; [exact H2|].
  apply (CropImageIgnoreZ_single_plane region plane plane_mask H1 H2 eq_refl).
  exists 0%nat, 0%nat, 0%nat. split; [unfold in_image, plane, image; cbn; lia|].
  exists 1%Q. split; reflexivity.
Defined.

(** X24 on an example. The cube under the mask with two opposite corners. *)
Lemma CropImageIgnoreZ_keeps_planes_witness :
  mask_bounds cube diagonal_mask = Done (0, 0, 0, 1, 1, 1)%Z /\
  exists filled,
    CropImageIgnoreZ region cube diagonal_mask = region filled 0 0 0 2 2 2 /\
    Attributes filled = Attributes cube.
Proof.
  assert (H1 : wf_image cube) by reflexivity.
  assert (H2 : mask_over cube diagonal_mask)
    by (apply mask_over_same_grid; reflexivity).
  assert (H3 : mask_bounds cube diagonal_mask = Done (0, 0, 0, 1, 1, 1)%Z)
    by (vm_compute; reflexivity).
  split; [exact H3|].
  destruct (CropImageIgnoreZ_keeps_planes region cube diagonal_mask 0 0 0 1 1 1 H1 H2)
    as (filled & Hrun & Hattr & _).
  - cbn. lia.
  - exact H3.
  - lia.
  - lia.
  - exists filled. split; [exact Hrun | exact Hattr].
Defined.

Import Examples Cases.

(** ** Superresolution and StructuralExclusion on example objects *)





(** C5 on the slice 1, 2, 3, 4, 5 over the volume 3, 5, 1, 2, 4 of the same
    grid: the NCC of the slice and the resampled volume is -1/10, below the
    threshold 0.65, and the slice gets +1. *)
Lemma StructuralExclusion_blank_operand_witness :
  (exists target resampled ncc,
     resampled_operands transform_identity blur_padding_id reordered 0
       = Done (target, resampled) /\
     ComputeNCC sqrt_floor target resampled 0 = Done ncc /\
     (ncc == - (1 # 10))%Q /\ (ncc < _global_NCC_threshold reordered)%Q) /\
  exists st',
    StructuralExclusion sqrt_floor transform_identity blur_padding_id reordered
      = Done st' /\
    _reg_slice_weight st' !! 0%nat = Some 1%Z.
Proof.
  split.
  - eexists _, _, _. split; [vm_compute; reflexivity|].
    split; [vm_compute; reflexivity|]. split; reflexivity.
  - destruct (StructuralExclusion sqrt_floor transform_identity blur_padding_id
                reordered) as [st'| |] eqn:Hrun; [|vm_compute in Hrun; discriminate..].
    exists st'. split; [reflexivity|].
    destruct (StructuralExclusion_blank_operand sqrt_floor transform_identity
                blur_padding_id reordered st' 0 Hrun) as (_ & Hkeep & _);
      [cbn; lia|].
    apply Hkeep. reflexivity.
Defined.
